(** * KineticModelBuilder: the numerical core of StimulusClampProtocol.cpp

    A shallow embedding of the stimulus-clamp simulator's core routines and
    the properties its specification states about them.

    Conventions of the embedding.
    - A C++ [double] is an exact rational ([Q]); comparisons of doubles are
      the boolean comparisons on [Q] and equality of doubles is [Qeq].
      Where the IEEE-754 result of a division by zero is the behaviour under
      study (summary normalisation), the special values are added explicitly
      ([xdouble]).
    - A C++ [int] index or count is a [Z]; container sizes and [size_t]
      indices are [nat].  Every [int] computed here is an index into, or a
      difference of indices into, a container that exists, so its 32-bit
      arithmetic does not wrap and the wrap-around is not written out.
    - An [Eigen::VectorXd] is a [list Q]; an [Eigen::MatrixXd] is the list of
      its rows; a [std::map<QString, T>] is the list of its (key, value)
      pairs in key order.
    - A pointer to a unique epoch is its position in the shared pool
      ([std::vector<Epoch*> uniqueEpochs]), which only ever grows.
    - [exp] and the values drawn from the pseudo-random generator are
      parameters of the routines that use them.
    - A read or write out of the bounds of a container is undefined in the
      source; the embedding reads a zero and drops the write, and the
      theorems that depend on it assume the indices in range. *)

From Stdlib Require Import ZArith QArith Qabs Qround List String Bool Lia Lqa.
From Stdlib Require Import Permutation.
From mathcomp Require ssreflect ssrfun ssrbool eqtype ssrnat seq fintype bigop.
From mathcomp Require ssralg matrix mxalgebra rat.
Import ListNotations.

Local Open Scope Q_scope.

(** ** Numbers, vectors and small helpers *)

Definition Qlt_bool (x y : Q) : bool := negb (Qle_bool y x).

Definition sumQ (l : list Q) : Q := fold_right Qplus 0 l.

Definition sumZ (l : list Z) : Z := fold_right Z.add 0%Z l.

(** [v[i]] for an [int] index; reading out of range is undefined in the
    source and yields [0] here. *)
Definition zth (l : list Q) (i : Z) : Q :=
  if (i <? 0)%Z then 0 else nth (Z.to_nat i) l 0.

(** [std::numeric_limits<double>::epsilon()], 2^-52. *)
Definition machineEpsilon : Q := 1 # (2 ^ 52).

(** The [if(epsilon == 0) epsilon = 5 * machine epsilon] prologue. *)
Definition defaultEpsilon (epsilon : Q) : Q :=
  if Qeq_bool epsilon 0 then machineEpsilon * 5 else epsilon.

(** ** Data model *)

(** [std::map<QString, double>]: stimulus name to scalar. *)
Definition StimulusMap := list (string * Q).

(** [std::map<QString, Eigen::VectorXd>]: stimulus name to waveform. *)
Definition StimulusWaveforms := list (string * list Q).

Definition Matrix := list (list Q).

(** [operator==] of [std::map<QString, double>]: same size, and pairwise the
    same key and the same value. *)
Fixpoint stimuliEq (a b : StimulusMap) : bool :=
  match a, b with
  | [], [] => true
  | (ka, va) :: a', (kb, vb) :: b' =>
      String.eqb ka kb && Qeq_bool va vb && stimuliEq a' b'
  | _, _ => false
  end.

(** The per-simulation epoch.  [e_uniqueEpoch] is the pointer to the interned
    epoch: [None] until [StimulusClampProtocol::init] sets it. *)
Record Epoch := mkEpoch {
  e_start : Q;
  e_duration : Q;
  e_firstPt : Z;
  e_numPts : Z;
  e_stimuli : StimulusMap;
  e_uniqueEpoch : option nat
}.

(** The interned epoch: the fields of [Epoch] the simulator fills in once per
    distinct stimulus tuple. *)
Record UniqueEpoch := mkUniqueEpoch {
  u_stimuli : StimulusMap;
  u_transitionRates : Matrix;
  u_spectralEigenValues : list Q;
  u_spectralMatrices : list Matrix
}.

Record MonteCarloEvent := mkEvent {
  ev_state : Z;
  ev_duration : Q
}.

Definition MonteCarloEventChain := list MonteCarloEvent.

(** [Simulation::RefData] (and [SimulationsSummary::RefData]): a reference
    curve aligned to the sample grid. *)
Record RefData := mkRefData {
  r_waveform : list Q;
  r_firstPt : Z;
  r_numPts : Z;
  r_weight : Q
}.

Record Simulation := mkSimulation {
  s_time : list Q;
  s_endTime : Q;
  s_weight : list Q;
  s_stimuli : StimulusWaveforms;
  s_epochs : list Epoch;
  s_probability : list Matrix;
  s_waveforms : list (list (string * list Q));
  s_events : list (list MonteCarloEventChain);
  s_referenceData : list (list (string * RefData))
}.

(** A [double] together with the IEEE-754 results a division can produce
    from finite operands. *)
Inductive xdouble :=
| Finite (q : Q)
| PosInf
| NegInf
| NaN.

(** [SimulationsSummary::Normalization]. *)
Inductive Normalization :=
| NoNormalization
| PerRow
| AllRows.

(** A [SimulationsSummary] child: [dataY] and [referenceData] are indexed by
    variable set; [referenceData[v]] holds one aligned curve per row. *)
Record SimulationsSummary := mkSummary {
  sm_isActive : bool;
  sm_normalization : Normalization;
  sm_dataY : list Matrix;
  sm_referenceData : list (list RefData)
}.

(** The [StimulusClampProtocol] object: the state names it was initialised
    with, its grid of simulations and its summaries. *)
Record Protocol := mkProtocol {
  p_stateNames : list string;
  p_simulations : list (list Simulation);
  p_summaries : list SimulationsSummary
}.

Definition set_epochs (sim : Simulation) (es : list Epoch) : Simulation :=
  mkSimulation (s_time sim) (s_endTime sim) (s_weight sim) (s_stimuli sim) es
    (s_probability sim) (s_waveforms sim) (s_events sim) (s_referenceData sim).

Definition set_probability (sim : Simulation) (p : list Matrix) : Simulation :=
  mkSimulation (s_time sim) (s_endTime sim) (s_weight sim) (s_stimuli sim)
    (s_epochs sim) p (s_waveforms sim) (s_events sim) (s_referenceData sim).

Definition set_events (sim : Simulation)
    (ev : list (list MonteCarloEventChain)) : Simulation :=
  mkSimulation (s_time sim) (s_endTime sim) (s_weight sim) (s_stimuli sim)
    (s_epochs sim) (s_probability sim) (s_waveforms sim) ev
    (s_referenceData sim).

(** ** Simulation::findEpochsDiscretizedToSamplePoints *)

(** [for(auto &kv : stimuli) epoch.stimuli[kv.first] = kv.second[i]]. *)
Definition stimuliAt (stimuli : StimulusWaveforms) (i : nat) : StimulusMap :=
  map (fun kv => (fst kv, nth i (snd kv) 0)) stimuli.

(** Some channel has [kv.second[i] != kv.second[i - 1]]. *)
Definition stimuliChangeAt (stimuli : StimulusWaveforms) (i : nat) : bool :=
  existsb (fun kv => negb (Qeq_bool (nth i (snd kv) 0) (nth (i - 1) (snd kv) 0)))
          stimuli.

(** The local [Epoch epoch] as it is pushed: [duration] and [numPts] are
    written only later, through [epochs.back()]. *)
Definition openEpoch (time : list Q) (stimuli : StimulusWaveforms) (i : nat)
  : Epoch :=
  mkEpoch (nth i time 0) 0 (Z.of_nat i) 0%Z (stimuliAt stimuli i) None.

Definition closeEpoch (stop : Q) (endPt : Z) (e : Epoch) : Epoch :=
  mkEpoch (e_start e) (stop - e_start e) (e_firstPt e) (endPt - e_firstPt e)
          (e_stimuli e) (e_uniqueEpoch e).

(** An update through [epochs.back()]. *)
Fixpoint updateBack (f : Epoch -> Epoch) (l : list Epoch) : list Epoch :=
  match l with
  | [] => []
  | [e] => [f e]
  | e :: r => e :: updateBack f r
  end.

(** One iteration of the [for(int i = 1; i < numPts; ++i)] loop. *)
Definition epochStep (time : list Q) (stimuli : StimulusWaveforms)
    (epochs : list Epoch) (i : nat) : list Epoch :=
  if stimuliChangeAt stimuli i then
    updateBack (closeEpoch (nth i time 0) (Z.of_nat i)) epochs
      ++ [openEpoch time stimuli i]
  else epochs.

Definition findEpochs (time : list Q) (endTime : Q)
    (stimuli : StimulusWaveforms) : list Epoch :=
  let numPts := List.length time in
  let epochs := fold_left (epochStep time stimuli) (seq 1 (numPts - 1))
                          [openEpoch time stimuli 0] in
  updateBack (closeEpoch endTime (Z.of_nat numPts)) epochs.

Definition findEpochsDiscretizedToSamplePoints (sim : Simulation)
  : Simulation :=
  set_epochs sim (findEpochs (s_time sim) (s_endTime sim) (s_stimuli sim)).

(** ** StimulusClampProtocol::init: interning of epochs *)

(** A loop that threads a state through a container and rewrites each
    element in place ([for(Epoch &epoch : sim.epochs)], the loops over rows
    and columns, the loop over protocols). *)
Fixpoint mapAccum {S A B : Type} (f : S -> A -> S * B) (s : S) (l : list A)
  : S * list B :=
  match l with
  | [] => (s, [])
  | a :: r =>
      let (s1, b) := f s a in
      let (s2, bs) := mapAccum f s1 r in
      (s2, b :: bs)
  end.

(** [epoch.uniqueEpoch = new Epoch; epoch.uniqueEpoch->stimuli = epoch.stimuli]. *)
Definition newUniqueEpoch (st : StimulusMap) : UniqueEpoch :=
  mkUniqueEpoch st [] [] [].

Definition set_uniqueEpoch (e : Epoch) (p : nat) : Epoch :=
  mkEpoch (e_start e) (e_duration e) (e_firstPt e) (e_numPts e) (e_stimuli e)
          (Some p).

(** [for(Epoch *uniqueEpoch : uniqueEpochs) if(uniqueEpoch->stimuli ==
    epoch.stimuli) ...  break]: the position of the first match, counted from
    [p]. *)
Fixpoint findUnique (pool : list UniqueEpoch) (st : StimulusMap) (p : nat)
  : option nat :=
  match pool with
  | [] => None
  | u :: r =>
      if stimuliEq (u_stimuli u) st then Some p else findUnique r st (S p)
  end.

Definition internEpoch (uniqueEpochs : list UniqueEpoch) (epoch : Epoch)
  : list UniqueEpoch * Epoch :=
  match findUnique uniqueEpochs (e_stimuli epoch) 0 with
  | Some p => (uniqueEpochs, set_uniqueEpoch epoch p)
  | None =>
      (uniqueEpochs ++ [newUniqueEpoch (e_stimuli epoch)],
       set_uniqueEpoch epoch (List.length uniqueEpochs))
  end.

(** The epoch part of the body of [init]'s loop over conditions: find the
    simulation's epochs, then intern each of them. *)
Definition initEpochs (uniqueEpochs : list UniqueEpoch) (sim : Simulation)
  : list UniqueEpoch * Simulation :=
  let sim1 := findEpochsDiscretizedToSamplePoints sim in
  let (pool, es) := mapAccum internEpoch uniqueEpochs (s_epochs sim1) in
  (pool, set_epochs sim1 es).

(** [StimulusClampProtocol::init], restricted to the epochs of the
    simulations (their time grids and stimuli taken as built): rows, then
    columns. *)
Definition init (uniqueEpochs : list UniqueEpoch) (stateNames : list string)
    (protocol : Protocol) : list UniqueEpoch * Protocol :=
  let (pool, simulations) :=
    mapAccum (mapAccum initEpochs) uniqueEpochs (p_simulations protocol) in
  (pool, mkProtocol stateNames simulations (p_summaries protocol)).

(** [foreach(StimulusClampProtocol *protocol, protocols)
    protocol->init(uniqueEpochs, stateNames)]: one pool shared by all the
    protocols. *)
Definition initProtocols (uniqueEpochs : list UniqueEpoch)
    (stateNames : list string) (protocols : list Protocol)
  : list UniqueEpoch * list Protocol :=
  mapAccum (fun uniqueEpochs protocol => init uniqueEpochs stateNames protocol)
           uniqueEpochs protocols.

(** [StimulusClampProtocolSimulator::initSimulation]: the pool is emptied,
    then every protocol of the session is initialised against it. *)
Definition initSimulation (stateNames : list string)
    (protocols : list Protocol) : list UniqueEpoch * list Protocol :=
  initProtocols [] stateNames protocols.

Definition protocolEpochs (protocol : Protocol) : list Epoch :=
  flat_map (flat_map s_epochs) (p_simulations protocol).

(** ** findIndexesInRange *)

(** The visitor behind Eigen's [minCoeff(&index)]: it walks the coefficients
    in order and moves only on a strictly smaller value, so the index is the
    first one at which the minimum is reached. *)
Fixpoint minCoeffFrom (l : list Q) (i : Z) (best : Q) (bestIndex : Z) : Z :=
  match l with
  | [] => bestIndex
  | v :: r =>
      if Qlt_bool v best then minCoeffFrom r (i + 1) v i
      else minCoeffFrom r (i + 1) best bestIndex
  end.

Definition minCoeffIndex (l : list Q) : Z :=
  match l with
  | [] => 0%Z
  | v :: r => minCoeffFrom r 1 v 0
  end.

(** [(time.array() - target).abs().minCoeff(&closestIndex)]. *)
Definition closestIndex (time : list Q) (target : Q) : Z :=
  minCoeffIndex (map (fun t => Qabs (t - target)) time).

(** The index-selection rule: the closest sample, advanced by one when it
    lies below [target - epsilon]. *)
Definition indexAtOrAfter (time : list Q) (target epsilon : Q) : Z :=
  let pt := closestIndex time target in
  if Qlt_bool (zth time pt) (target - epsilon) then (pt + 1)%Z else pt.

(** Returns [(firstPt, numPts)]. *)
Definition findIndexesInRange (time : list Q) (start stop epsilon : Q)
  : Z * Z :=
  let epsilon := defaultEpsilon epsilon in
  let firstPt := indexAtOrAfter time start epsilon in
  if (firstPt <? Z.of_nat (List.length time))%Z then
    let endPt := indexAtOrAfter time stop epsilon in
    (firstPt, (endPt - firstPt)%Z)
  else (firstPt, 0%Z).

(** ** sampleArray *)

Fixpoint replaceNth {A : Type} (n : nat) (v : A) (l : list A) : list A :=
  match l, n with
  | [], _ => []
  | _ :: r, O => v :: r
  | a :: r, S n' => a :: replaceNth n' v r
  end.

(** [y[i] = v]; a write out of range is undefined in the source and is
    dropped here. *)
Definition setAt (l : list Q) (i : Z) (v : Q) : list Q :=
  if (i <? 0)%Z then l else replaceNth (Z.to_nat i) v l.

Definition inRange (i n : Z) : bool := ((0 <=? i) && (i <? n))%Z.

(** The variables the loop of [sampleArray] changes: the two cursors, the
    output array and [*firstPt]. *)
Record SampleState := mkSampleState {
  sa_i : Z;
  sa_iref : Z;
  sa_y : list Q;
  sa_firstPt : Z
}.

Definition markFirst (firstPt i : Z) : Z :=
  if (firstPt =? -1)%Z then i else firstPt.

Section SampleArray.
Variables (xref yref : list Q) (nref : Z) (x : list Q) (n : Z).
Variables (x0 epsilon : Q) (di diref : Z).

Definition sampleCond (st : SampleState) : bool :=
  inRange (sa_i st) n && inRange (sa_iref st) nref.

(** The body of the [while] loop. *)
Definition sampleStep (st : SampleState) : SampleState :=
  let i := sa_i st in
  let iref := sa_iref st in
  if Qlt_bool (zth x i) (zth xref iref - x0 - epsilon) then
    mkSampleState (i + di) iref (sa_y st) (sa_firstPt st)
  else if Qlt_bool (Qabs (zth x i - (zth xref iref - x0))) epsilon then
    mkSampleState (i + di) (iref + diref)
      (setAt (sa_y st) i (zth yref iref)) (markFirst (sa_firstPt st) i)
  else
    let jref := (iref + diref)%Z in
    if inRange jref nref && Qlt_bool (zth x i) (zth xref jref - x0) then
      let dx := zth xref jref - zth xref iref in
      let dy := zth yref jref - zth yref iref in
      mkSampleState (i + di) jref
        (setAt (sa_y st) i
           (zth yref iref + (dy / dx) * (zth x i - (zth xref iref - x0))))
        (markFirst (sa_firstPt st) i)
    else
      mkSampleState i jref (sa_y st) (sa_firstPt st).

(** The [while] loop, run for at most [fuel] iterations. *)
Fixpoint sampleLoop (fuel : nat) (st : SampleState) : SampleState :=
  match fuel with
  | O => st
  | S fuel' =>
      if sampleCond st then sampleLoop fuel' (sampleStep st) else st
  end.
End SampleArray.

(** Returns [(y, firstPt, numPts)].  Every iteration moves one of the two
    cursors by one step in its direction, so [n + nref] iterations exhaust
    the loop (lemma [sampleLoop_exits]). *)
Definition sampleArray (xref yref : list Q) (nref : Z) (x y : list Q) (n : Z)
    (x0 epsilon : Q) : list Q * Z * Z :=
  let epsilon := defaultEpsilon epsilon in
  let isIncreasing := negb ((2 <=? n)%Z && Qlt_bool (zth x 1 - zth x 0) 0) in
  let isRefIncreasing :=
    negb ((2 <=? nref)%Z && Qlt_bool (zth xref 1 - zth xref 0) 0) in
  let i := if isIncreasing then 0%Z else (n - 1)%Z in
  let iref := if isRefIncreasing then 0%Z else (nref - 1)%Z in
  let di := if isIncreasing then 1%Z else (-1)%Z in
  let diref := if isRefIncreasing then 1%Z else (-1)%Z in
  let st := sampleLoop xref yref nref x n x0 epsilon di diref
              (Z.to_nat n + Z.to_nat nref)
              (mkSampleState i iref y (-1)) in
  if (sa_firstPt st =? -1)%Z then (sa_y st, (-1)%Z, 0%Z)
  else if isIncreasing then
    (sa_y st, sa_firstPt st, (sa_i st - sa_firstPt st)%Z)
  else
    (sa_y st, (sa_i st + 1)%Z, (sa_firstPt st - sa_i st)%Z).

(** ** Summary normalisation (StimulusClampProtocolSimulator::runSimulation) *)

(** Eigen's [maxCoeff()]: the running maximum, started at the first
    coefficient. *)
Fixpoint maxCoeffFrom (l : list Q) (best : Q) : Q :=
  match l with
  | [] => best
  | v :: r => maxCoeffFrom r (if Qlt_bool best v then v else best)
  end.

Definition maxCoeff (l : list Q) : Q :=
  match l with
  | [] => 0
  | v :: r => maxCoeffFrom r v
  end.

(** [m.array().abs().maxCoeff()]. *)
Definition absMaxCoeff (l : list Q) : Q := maxCoeff (map Qabs l).

(** The quotient [x / d] of two finite doubles, [d] not negative zero: a
    number when [d] is not zero, otherwise NaN for [0 / 0] and an infinity of
    the sign of [x]. *)
Definition xdiv (x d : Q) : xdouble :=
  if Qeq_bool d 0 then
    if Qeq_bool x 0 then NaN
    else if Qlt_bool 0 x then PosInf else NegInf
  else Finite (x / d).

(** The "Summary normalization" block, on a summary matrix [dataY] of finite
    values:
      PerRow:   [dataY.row(row) /= dataY.row(row).array().abs().maxCoeff()]
      AllRows:  [dataY /= dataY.array().abs().maxCoeff()]. *)
Definition normalizeSummary (normalization : Normalization) (dataY : Matrix)
  : list (list xdouble) :=
  match normalization with
  | PerRow =>
      map (fun row => map (fun v => xdiv v (absMaxCoeff row)) row) dataY
  | AllRows =>
      map (map (fun v => xdiv v (absMaxCoeff (List.concat dataY)))) dataY
  | NoNormalization => map (map Finite) dataY
  end.

(** ** StimulusClampProtocol::cost *)

(** [m.col(j)]. *)
Definition column (m : Matrix) (j : nat) : list Q :=
  map (fun row => nth j row 0) m.

(** [QStringList::indexOf]: the first position of [name], counted from [i]. *)
Fixpoint indexOf (names : list string) (name : string) (i : nat) : option nat :=
  match names with
  | [] => None
  | s :: r => if String.eqb s name then Some i else indexOf r name (S i)
  end.

(** [std::map::find]. *)
Fixpoint lookup {A : Type} (m : list (string * A)) (name : string) : option A :=
  match m with
  | [] => None
  | (k, v) :: r => if String.eqb k name then Some v else lookup r name
  end.

(** A container's elements with their positions, as an index loop visits
    them. *)
Definition indexed {A : Type} (l : list A) : list (nat * A) :=
  combine (seq 0 (List.length l)) l.

(** [getSimulationWaveform]: the simulated buffer [y] of that name and its
    length [n]: a state's probability column, else a stimulus, else a derived
    waveform; [None] where the source leaves [*y] null. *)
Definition getSimulationWaveform (stateNames : list string) (name : string)
    (sim : Simulation) (variableSetIndex : nat) : option (list Q * Z) :=
  let n := Z.of_nat (List.length (s_time sim)) in
  match indexOf stateNames name 0 with
  | Some stateIndex =>
      if (variableSetIndex <? List.length (s_probability sim))%nat then
        Some (column (nth variableSetIndex (s_probability sim) []) stateIndex, n)
      else None
  | None =>
      match lookup (s_stimuli sim) name with
      | Some w => Some (w, n)
      | None =>
          if (variableSetIndex <? List.length (s_waveforms sim))%nat then
            match lookup (nth variableSetIndex (s_waveforms sim) []) name with
            | Some w => Some (w, n)
            | None => None
            end
          else None
      end
  end.

(** [((data - refData.waveform).array().pow(2) * weight.array()).sum()] with
    [data] and [weight] the windows of [y] and of [sim.weight] that start at
    [refData.firstPt] and hold [refData.numPts] samples. *)
Definition weightedSquares (y simWeight : list Q) (refData : RefData) : Q :=
  sumQ (map (fun k =>
               let d := zth y (r_firstPt refData + Z.of_nat k)
                        - nth k (r_waveform refData) 0 in
               d * d * zth simWeight (r_firstPt refData + Z.of_nat k))
            (seq 0 (Z.to_nat (r_numPts refData)))).

(** What one reference curve of a simulation adds to the cost. *)
Definition referenceCost (stateNames : list string) (sim : Simulation)
    (variableSetIndex : nat) (kv : string * RefData) : Q :=
  let refData := snd kv in
  if (0 <? r_numPts refData)%Z then
    match getSimulationWaveform stateNames (fst kv) sim variableSetIndex with
    | Some (y, n) =>
        if (0 <? n)%Z
        then weightedSquares y (s_weight sim) refData * r_weight refData
        else 0
    | None => 0
    end
  else 0.

(** The loops over [variableSetIndex] and over the reference curves of one
    simulation, adding to the running [cost]. *)
Definition simulationCost (stateNames : list string) (cost : Q)
    (sim : Simulation) : Q :=
  fold_left
    (fun c (vr : nat * list (string * RefData)) =>
       fold_left (fun c kv => c + referenceCost stateNames sim (fst vr) kv)
                 (snd vr) c)
    (indexed (s_referenceData sim)) cost.

(** [((data - refData.waveform).array().pow(2)).sum()] with [data] the window
    of row [row] of [dataY]. *)
Definition squares (dataRow : list Q) (refData : RefData) : Q :=
  sumQ (map (fun k =>
               let d := zth dataRow (r_firstPt refData + Z.of_nat k)
                        - nth k (r_waveform refData) 0 in
               d * d)
            (seq 0 (Z.to_nat (r_numPts refData)))).

(** What the reference curve of one row of a summary adds to the cost. *)
Definition summaryReferenceCost (summary : SimulationsSummary)
    (variableSetIndex row : nat) (refData : RefData) : Q :=
  if (0 <? r_numPts refData)%Z then
    let dataY := nth variableSetIndex (sm_dataY summary) [] in
    squares (nth row dataY []) refData * r_weight refData
  else 0.

Definition summaryCost (cost : Q) (summary : SimulationsSummary) : Q :=
  if sm_isActive summary then
    fold_left
      (fun c (vr : nat * list RefData) =>
         fold_left
           (fun c (rr : nat * RefData) =>
              c + summaryReferenceCost summary (fst vr) (fst rr) (snd rr))
           (indexed (snd vr)) c)
      (indexed (sm_referenceData summary)) cost
  else cost.

Definition cost (protocol : Protocol) : Q :=
  let c :=
    fold_left
      (fun c row => fold_left (simulationCost (p_stateNames protocol)) row c)
      (p_simulations protocol) 0 in
  fold_left summaryCost (p_summaries protocol) c.


(** *** Changing the weight of one reference curve *)

Fixpoint updateAt {A : Type} (i : nat) (f : A -> A) (l : list A) : list A :=
  match l, i with
  | [], _ => []
  | a :: r, O => f a :: r
  | a :: r, S i' => a :: updateAt i' f r
  end.

(** The same aligned curve with its [weight] multiplied by [k]. *)
Definition scaleRefWeight (k : Q) (refData : RefData) : RefData :=
  mkRefData (r_waveform refData) (r_firstPt refData) (r_numPts refData)
            (k * r_weight refData).

Definition set_referenceData (sim : Simulation)
    (refs : list (list (string * RefData))) : Simulation :=
  mkSimulation (s_time sim) (s_endTime sim) (s_weight sim) (s_stimuli sim)
    (s_epochs sim) (s_probability sim) (s_waveforms sim) (s_events sim) refs.

(** The protocol in which the [j]-th reference curve of variable set
    [variableSetIndex] of simulation [(row, col)] has its weight multiplied
    by [k], everything else as it was. *)
Definition scaleReferenceWeight (protocol : Protocol)
    (row col variableSetIndex j : nat) (k : Q) : Protocol :=
  mkProtocol (p_stateNames protocol)
    (updateAt row
       (updateAt col
          (fun sim =>
             set_referenceData sim
               (updateAt variableSetIndex
                  (updateAt j (fun kv => (fst kv, scaleRefWeight k (snd kv))))
                  (s_referenceData sim))))
       (p_simulations protocol))
    (p_summaries protocol).

Definition nullEpoch : Epoch := mkEpoch 0 0 0%Z 0%Z [] None.

(** ** Simulation::spectralSimulation *)

(** [Eigen::MatrixXd::Zero(rows, cols)]. *)
Definition zeroMatrix (rows cols : nat) : Matrix := repeat (repeat 0 cols) rows.

Definition nullUniqueEpoch : UniqueEpoch := mkUniqueEpoch [] [] [] [].

(** [epoch.uniqueEpoch->...]: the pool entry the pointer designates.  A
    pointer that was never set is outside the model and reads an empty
    entry. *)
Definition uniqueOf (pool : list UniqueEpoch) (epoch : Epoch) : UniqueEpoch :=
  match e_uniqueEpoch epoch with
  | Some p => nth p pool nullUniqueEpoch
  | None => nullUniqueEpoch
  end.

(** [m(i, j)]. *)
Definition coeff (m : Matrix) (i j : nat) : Q := nth j (nth i m []) 0.

(** [p * A] for a row vector [p] and a [numStates x numStates] matrix [A]. *)
Definition rowTimes (numStates : nat) (p : list Q) (A : Matrix) : list Q :=
  map (fun j => sumQ (map (fun i => nth i p 0 * coeff A i j) (seq 0 numStates)))
      (seq 0 numStates).

(** [row += c * v], coefficient by coefficient over the length of [row]. *)
Definition addScaled (row : list Q) (c : Q) (v : list Q) : list Q :=
  map (fun jr : nat * Q => snd jr + c * nth (fst jr) v 0) (indexed row).

(** An update of the rows of the block [P.block(firstPt, 0, numPts, _)]:
    row [firstPt + k] becomes [f k row]; the other rows stay. *)
Definition updateBlock (firstPt numPts : nat) (f : nat -> list Q -> list Q)
    (P : Matrix) : Matrix :=
  map (fun ir : nat * list Q =>
         if ((firstPt <=? fst ir) && (fst ir <? firstPt + numPts))%nat
         then f (fst ir - firstPt)%nat (snd ir) else snd ir)
      (indexed P).

(** [while(probability.size() <= variableSetIndex) probability.push_back(z)]. *)
Definition padTo (probability : list Matrix) (variableSetIndex : nat)
    (z : Matrix) : list Matrix :=
  probability ++ repeat z (variableSetIndex + 1 - List.length probability).

Section Spectral.
Variable exp : Q -> Q.
Variable pool : list UniqueEpoch.
Variable time : list Q.
Variable numStates : nat.
Variable numEpochs : nat.
Variable startEquilibrated : bool.

(** [P.block(...) += (epochTime.array() * lambda).exp().matrix() *
    (startingProbability * A)], for the [i]-th spectral component. *)
Definition addSpectralComponent (epoch : Epoch) (p : list Q) (P : Matrix)
    (i : nat) : Matrix :=
  let u := uniqueOf pool epoch in
  let lambda := nth i (u_spectralEigenValues u) 0 in
  let A := nth i (u_spectralMatrices u) [] in
  let pA := rowTimes numStates p A in
  let firstPt := Z.to_nat (e_firstPt epoch) in
  updateBlock firstPt (Z.to_nat (e_numPts epoch))
    (fun k row =>
       addScaled row (exp ((nth (firstPt + k) time 0 - e_start epoch) * lambda))
                 pA)
    P.

(** [temp += ((startingProbability * A).array() * exp(lambda *
    epoch.duration)).matrix()]. *)
Definition addPropagated (epoch : Epoch) (p : list Q) (temp : list Q)
    (i : nat) : list Q :=
  let u := uniqueOf pool epoch in
  let lambda := nth i (u_spectralEigenValues u) 0 in
  let A := nth i (u_spectralMatrices u) [] in
  addScaled temp (exp (lambda * e_duration epoch)) (rowTimes numStates p A).

(** The body of [for(const Epoch &epoch : epochs)], on the triple
    ([P], [startingProbability], [epochCounter]). *)
Definition spectralEpoch (st : Matrix * list Q * nat) (epoch : Epoch)
  : Matrix * list Q * nat :=
  let '(P, p, epochCounter) := st in
  if (epochCounter =? 0)%nat && startEquilibrated then
    let p :=
      rowTimes numStates p (nth 0 (u_spectralMatrices (uniqueOf pool epoch)) []) in
    let P :=
      if (0 <? e_numPts epoch)%Z
      then updateBlock (Z.to_nat (e_firstPt epoch)) (Z.to_nat (e_numPts epoch))
                       (fun _ _ => p) P
      else P in
    (P, p, S epochCounter)
  else
    let P :=
      if (0 <? e_numPts epoch)%Z
      then fold_left (addSpectralComponent epoch p) (seq 0 numStates) P
      else P in
    let p :=
      if (epochCounter + 1 <? numEpochs)%nat
      then fold_left (addPropagated epoch p) (seq 0 numStates)
                     (repeat 0 numStates)
      else p in
    (P, p, S epochCounter).
End Spectral.

(** [spectralSimulation], with [abort] the value of the abort flag, taken to
    be constant during the call: an abort returns right after [P] has been
    zeroed. *)
Definition spectralSimulation (exp : Q -> Q) (pool : list UniqueEpoch)
    (sim : Simulation) (startingProbability : list Q)
    (startEquilibrated : bool) (variableSetIndex : nat) (abort : bool)
  : Simulation :=
  let numPts := List.length (s_time sim) in
  let numStates := List.length startingProbability in
  let probability :=
    padTo (s_probability sim) variableSetIndex (zeroMatrix numPts numStates) in
  let P := zeroMatrix numPts numStates in
  let P :=
    if abort then P
    else
      fst (fst (fold_left
                  (spectralEpoch exp pool (s_time sim) numStates
                     (List.length (s_epochs sim)) startEquilibrated)
                  (s_epochs sim) (P, startingProbability, 0%nat))) in
  set_probability sim (replaceNth variableSetIndex P probability).

(** ** equilibriumProbability *)

(** The stationary distribution as the source computes it, over an arbitrary
    field [F] standing for exact arithmetic: [S] is [Q] with one more column
    of ones, [u] a row of ones, and the result is [u * (S * S^T)^-1]. *)
Module Equilibrium.
Import ssreflect ssrfun ssrbool eqtype ssrnat seq fintype bigop.
Import ssralg matrix mxalgebra rat.
Import GRing.Theory.
Local Open Scope ring_scope.

Section Definitions.
Variable F : fieldType.
Variable N : nat.

(** [Eigen::MatrixXd::Ones(m, n)]. *)
Definition ones (m n : nat) : 'M[F]_(m, n) := const_mx 1.

(** [S = Ones(N, N + 1); S.block(0, 0, N, N) = Q]. *)
Definition augmented (Q : 'M[F]_N) : 'M[F]_(N, N + 1) := row_mx Q (ones N 1).

Definition equilibriumProbability (Q : 'M[F]_N) : 'rV[F]_N :=
  let S := augmented Q in
  let u := ones 1 N in
  let St := S^T in
  u *m invmx (S *m St).

End Definitions.

(** The two-state rate matrix [[-1, 1], [2, -2]] over the rationals. *)
Definition Q2 : 'M[rat]_2 :=
  \matrix_(i < 2, j < 2) (if i == 0 then (if j == 0 then -1 else 1)
                          else (if j == 0 then 2%:R else - 2%:R)).

(** The inverse of [S * S^T] for [Q2], [[1/2, 1/6], [1/6, 1/6]]. *)
Definition gramInverse2 : 'M[rat]_2 :=
  \matrix_(i < 2, j < 2)
     (if (i == 0) && (j == 0) then 2%:R^-1 else 6%:R^-1).

End Equilibrium.

(** ** Simulation::monteCarloSimulation *)

(** The pseudo-random generator seen through the distributions that draw
    from it: the values the successive draws return ([randomUniform] and the
    exponential [randomStateLifetimes] alike), and how many were drawn. *)
Record Generator := mkGenerator {
  g_draws : nat -> Q;
  g_drawn : nat
}.

(** [distribution(randomNumberGenerator)]. *)
Definition draw (g : Generator) : Q * Generator :=
  (g_draws g (g_drawn g), mkGenerator (g_draws g) (S (g_drawn g))).

(** [m.coeff(i, j)] for [int] indices. *)
Definition zcoeff (m : Matrix) (i j : Z) : Q :=
  if ((i <? 0) || (j <? 0))%Z then 0 else coeff m (Z.to_nat i) (Z.to_nat j).

(** [m.transpose()]. *)
Definition transpose (m : Matrix) : Matrix :=
  map (column m) (seq 0 (List.length (hd [] m))).

(** The entries an [InnerIterator] over column [j] of a sparse matrix
    visits: the non-zero coefficients, by increasing row. *)
Definition sparseColumn (m : Matrix) (j : Z) : list (Z * Q) :=
  filter (fun rv : Z * Q => negb (Qeq_bool (snd rv) 0))
         (map (fun ir : nat * list Q =>
                 (Z.of_nat (fst ir), zth (snd ir) j))
              (indexed m)).

(** The choice of the starting state: the first index at which the running
    sum of the starting probabilities exceeds [prnd], [-1] if there is
    none. *)
Fixpoint pickStart (p : list Q) (i : Z) (prnd ptot : Q) : Z :=
  match p with
  | [] => (-1)%Z
  | pi :: r =>
      let ptot := ptot + pi in
      if Qlt_bool prnd ptot then i else pickStart r (i + 1) prnd ptot
  end.

(** The choice of the next state among the entries of column [state] of
    [QT]. *)
Fixpoint pickNext (entries : list (Z * Q)) (state : Z) (kout prnd ptot : Q)
  : Z :=
  match entries with
  | [] => state
  | (row, value) :: r =>
      if (row =? state)%Z then pickNext r state kout prnd ptot
      else
        let ptot := ptot + value / kout in
        if Qle_bool prnd ptot then row else pickNext r state kout prnd ptot
  end.

(** What the inner [while] loop leaves behind: the lifetime, the epoch
    iterator ([None] for [epochs.end()], else the current epoch and the
    epochs after it), [kout], [epochChanged] and the generator. *)
Record Crossing := mkCrossing {
  x_lifetime : Q;
  x_epochIter : option (Epoch * list Epoch);
  x_kout : Q;
  x_epochChanged : bool;
  x_generator : Generator
}.

Section MonteCarlo.
Variable pool : list UniqueEpoch.
Variable endTime : Q.

Definition mcEpsilon : Q := machineEpsilon * 5.

(** [-epochIter->uniqueEpoch->transitionRates.coeff(state, state)]. *)
Definition rateOut (epoch : Epoch) (state : Z) : Q :=
  - zcoeff (u_transitionRates (uniqueOf pool epoch)) state state.

(** [kout < epsilon ? endTime : randomStateLifetimes[state](generator)]. *)
Definition drawLifetime (kout : Q) (g : Generator) : Q * Generator :=
  if Qlt_bool kout mcEpsilon then (endTime, g) else draw g.

(** The inner [while] loop: while the event runs past the end of the current
    epoch, cut the lifetime at that end, move to the next epoch and let the
    lifetime go on there. *)
Fixpoint crossEpochs (eventChainDuration : Q) (state : Z) (epoch : Epoch)
    (rest : list Epoch) (lifetime kout : Q) (epochChanged : bool)
    (g : Generator) : Crossing :=
  if Qlt_bool (e_start epoch + e_duration epoch) (eventChainDuration + lifetime)
  then
    let lifetime := e_start epoch + e_duration epoch - eventChainDuration in
    match rest with
    | [] => mkCrossing lifetime None kout epochChanged g
    | next :: rest' =>
        let kout := rateOut next state in
        let (more, g) := drawLifetime kout g in
        crossEpochs eventChainDuration state next rest' (lifetime + more) kout
                    true g
    end
  else mkCrossing lifetime (Some (epoch, rest)) kout epochChanged g.

(** The loop [while(eventChainDuration < endTime)] of one run, for at most
    [fuel] events; [None] when the fuel runs out first. *)
Fixpoint chainLoop (fuel : nat) (state : Z) (eventChainDuration : Q)
    (epoch : Epoch) (rest : list Epoch) (QT : Matrix)
    (eventChain : MonteCarloEventChain) (g : Generator)
  : option (MonteCarloEventChain * Generator) :=
  if Qlt_bool eventChainDuration endTime then
    match fuel with
    | O => None
    | S fuel' =>
        let kout := rateOut epoch state in
        let (lifetime, g) := drawLifetime kout g in
        let x := crossEpochs eventChainDuration state epoch rest lifetime kout
                             false g in
        match x_epochIter x with
        | None =>
            Some (eventChain ++ [mkEvent state (endTime - eventChainDuration)],
                  x_generator x)
        | Some (epoch, rest) =>
            let QT :=
              if x_epochChanged x
              then transpose (u_transitionRates (uniqueOf pool epoch))
              else QT in
            let eventChain := eventChain ++ [mkEvent state (x_lifetime x)] in
            let eventChainDuration := eventChainDuration + x_lifetime x in
            if Qlt_bool eventChainDuration endTime then
              let (prnd, g) := draw (x_generator x) in
              let state :=
                pickNext (sparseColumn QT state) state (x_kout x) prnd 0 in
              chainLoop fuel' state eventChainDuration epoch rest QT
                        eventChain g
            else
              chainLoop fuel' state eventChainDuration epoch rest QT
                        eventChain (x_generator x)
        end
    end
  else Some (eventChain, g).

(** The body of [for(size_t run = ...)]: one event chain.  [epochs.begin()]
    of an empty epoch list is outside the model. *)
Definition monteCarloRun (fuel : nat) (epochs : list Epoch)
    (startingProbability : list Q) (g : Generator)
  : option (MonteCarloEventChain * Generator) :=
  let numStates := Z.of_nat (List.length startingProbability) in
  let (prnd, g) := draw g in
  let state := pickStart startingProbability 0 prnd 0 in
  let state := if (state =? -1)%Z then (numStates - 1)%Z else state in
  match epochs with
  | [] => None
  | epoch :: rest =>
      chainLoop fuel state 0 epoch rest
        (transpose (u_transitionRates (uniqueOf pool epoch))) [] g
  end.

Fixpoint monteCarloRuns (fuel : nat) (epochs : list Epoch)
    (startingProbability : list Q) (numRuns : nat) (g : Generator)
  : option (list MonteCarloEventChain * Generator) :=
  match numRuns with
  | O => Some ([], g)
  | S numRuns' =>
      match monteCarloRun fuel epochs startingProbability g with
      | None => None
      | Some (eventChain, g) =>
          match monteCarloRuns fuel epochs startingProbability numRuns' g with
          | None => None
          | Some (eventChains, g) => Some (eventChain :: eventChains, g)
          end
      end
  end.
End MonteCarlo.

(** ** Simulation::getProbabilityFromEventChains *)

(** [P(t, state) += v]; an index out of range is undefined in the source and
    leaves [P] as it is here. *)
Definition addAt (P : Matrix) (t : nat) (state : Z) (v : Q) : Matrix :=
  if (state <? 0)%Z then P
  else updateAt t (updateAt (Z.to_nat state) (fun c => c + v)) P.

Section Sampling.
Variable time : list Q.
Variable endTime : Q.

(** [t + 1 < numPts ? time[t + 1] : endTime]. *)
Definition intervalEnd (t : nat) : Q :=
  if (t + 1 <? List.length time)%nat then nth (t + 1) time 0 else endTime.

(** The [while(t < numPts && eventIter != eventChain.end())] loop over one
    chain.  [event] is [*eventIter] and [rest] the events after it;
    [sampleInterval] is [sampleIntervalEnd - sampleIntervalStart] throughout.
    Each iteration advances [t] or [eventIter], so [numPts] plus the length
    of the chain iterations exhaust the loop. *)
Fixpoint chainSamplingLoop (fuel : nat) (P : Matrix) (t : nat)
    (event : MonteCarloEvent) (rest : list MonteCarloEvent)
    (sampleIntervalStart sampleIntervalEnd eventStart eventEnd : Q) : Matrix :=
  match fuel with
  | O => P
  | S fuel' =>
      if (t <? List.length time)%nat then
        let sampleInterval := sampleIntervalEnd - sampleIntervalStart in
        if Qle_bool eventStart sampleIntervalStart
           && Qle_bool sampleIntervalEnd eventEnd then
          let P := addAt P t (ev_state event) 1 in
          chainSamplingLoop fuel' P (S t) event rest
            sampleIntervalEnd (intervalEnd (S t)) eventStart eventEnd
        else if Qle_bool eventStart sampleIntervalStart then
          let P := addAt P t (ev_state event)
                     ((eventEnd - sampleIntervalStart) / sampleInterval) in
          match rest with
          | [] => P
          | next :: rest' =>
              chainSamplingLoop fuel' P t next rest'
                sampleIntervalStart sampleIntervalEnd
                eventEnd (eventEnd + ev_duration next)
          end
        else if Qle_bool sampleIntervalEnd eventEnd then
          let P := addAt P t (ev_state event)
                     ((sampleIntervalEnd - eventStart) / sampleInterval) in
          chainSamplingLoop fuel' P (S t) event rest
            sampleIntervalEnd (intervalEnd (S t)) eventStart eventEnd
        else
          let P := addAt P t (ev_state event)
                     (ev_duration event / sampleInterval) in
          match rest with
          | [] => P
          | next :: rest' =>
              chainSamplingLoop fuel' P t next rest'
                sampleIntervalStart sampleIntervalEnd
                eventEnd (eventEnd + ev_duration next)
          end
      else P
  end.

(** The body of [for(const MonteCarloEventChain &eventChain : eventChains)].
    For an empty chain the source reads [eventChain.begin()->duration] and
    then does not enter the loop: the chain adds nothing. *)
Definition sampleChain (P : Matrix) (eventChain : MonteCarloEventChain)
  : Matrix :=
  match eventChain with
  | [] => P
  | event :: rest =>
      chainSamplingLoop (List.length time + List.length eventChain) P 0
        event rest (nth 0 time 0) (intervalEnd 0) 0 (0 + ev_duration event)
  end.

(** [P.setZero(numPts, numStates)], the loop over the chains, and
    [P /= eventChains.size()]. *)
Definition getProbabilityFromEventChains (numStates : nat)
    (eventChains : list MonteCarloEventChain) : Matrix :=
  let P := fold_left sampleChain eventChains
                     (zeroMatrix (List.length time) numStates) in
  map (map (fun v => v / inject_Z (Z.of_nat (List.length eventChains)))) P.
End Sampling.

(** [monteCarloSimulation] with the abort flag clear.  [equilibrium] stands
    for [equilibriumProbability] on lists (module [Equilibrium] has it on
    matrices); [fuel] bounds the number of events of a chain. *)
Definition monteCarloSimulation (equilibrium : Matrix -> list Q)
    (pool : list UniqueEpoch) (fuel : nat) (sim : Simulation)
    (startingProbability : list Q) (g : Generator) (numRuns : nat)
    (accumulateRuns sampleRuns startEquilibrated : bool)
    (variableSetIndex : nat) : option (Simulation * Generator) :=
  let numStates := List.length startingProbability in
  let events :=
    s_events sim
      ++ repeat [] (variableSetIndex + 1 - List.length (s_events sim)) in
  let previous := if accumulateRuns then nth variableSetIndex events [] else [] in
  let startingProbability :=
    if startEquilibrated
    then equilibrium
           (u_transitionRates (uniqueOf pool (hd nullEpoch (s_epochs sim))))
    else startingProbability in
  match monteCarloRuns pool (s_endTime sim) fuel (s_epochs sim)
                       startingProbability numRuns g with
  | None => None
  | Some (eventChains, g) =>
      let eventChains := previous ++ eventChains in
      let sim := set_events sim (replaceNth variableSetIndex eventChains events) in
      if sampleRuns then
        let probability :=
          padTo (s_probability sim) variableSetIndex
                (zeroMatrix (List.length (s_time sim)) numStates) in
        let P := getProbabilityFromEventChains (s_time sim) (s_endTime sim)
                   numStates eventChains in
        Some (set_probability sim (replaceNth variableSetIndex P probability), g)
      else Some (sim, g)
  end.

(** ** Vocabulary of the properties, and the data of their examples *)

(** [chained p t es p' t']: the epochs [es] tile the samples from index [p] to
    index [p'] and the time from [t] to [t'], each starting where the previous
    one stops. *)
Fixpoint chained (p : Z) (t : Q) (es : list Epoch) (p' : Z) (t' : Q) : Prop :=
  match es with
  | [] => p = p' /\ t == t'
  | e :: r =>
      e_firstPt e = p /\ e_start e == t /\
      chained (p + e_numPts e) (t + e_duration e) r p' t'
  end.

Definition sim_two_epochs : Simulation :=
  mkSimulation [0; 1; 2; 3] 4 [1; 1; 1; 1]
    [("V"%string, [0; 0; 5; 5])] [] [] [] [] [].

(** [interned pool e]: the epoch's pointer is the first entry of the pool whose
    stimuli equal the epoch's. *)
Definition interned (pool : list UniqueEpoch) (e : Epoch) : Prop :=
  exists p, e_uniqueEpoch e = Some p /\ findUnique pool (e_stimuli e) 0 = Some p.

Definition extends (pool pool' : list UniqueEpoch) : Prop :=
  exists ext, pool' = pool ++ ext.

Definition sim_constant : Simulation :=
  mkSimulation [0; 1; 2] 3 [1; 1; 1] [("V"%string, [0; 0; 0])] [] [] [] [] [].

Definition session_two_sims : list Protocol :=
  [mkProtocol [] [[sim_two_epochs; sim_constant]] []].

Definition session_epochs : list Epoch :=
  flat_map protocolEpochs
    (snd (initSimulation ["C"%string; "O"%string] session_two_sims)).

(** Strictly increasing sample times. *)
Definition increasing (l : list Q) : Prop :=
  forall i j, (i < j)%nat -> (j < List.length l)%nat -> nth i l 0 < nth j l 0.

(** [firstMin l c]: [c] is the first position at which [l] is minimal. *)
Definition firstMin (l : list Q) (c : nat) : Prop :=
  (c < List.length l)%nat /\
  (forall k, (k < List.length l)%nat -> nth c l 0 <= nth k l 0) /\
  (forall k, (k < c)%nat -> nth c l 0 < nth k l 0).

(** [closest time a c]: sample [c] is the first one at minimal distance from
    [a]. *)
Definition closest (time : list Q) (a : Q) (c : nat) : Prop :=
  (c < List.length time)%nat /\
  (forall k, (k < List.length time)%nat ->
             Qabs (nth c time 0 - a) <= Qabs (nth k time 0 - a)) /\
  (forall k, (k < c)%nat -> Qabs (nth c time 0 - a) < Qabs (nth k time 0 - a)).

(** How many more steps a cursor can take before it leaves [[0, n)]. *)
Definition stepsLeft (i d n : Z) : Z :=
  if inRange i n then (if (d =? 1)%Z then n - i else i + 1)%Z else 0%Z.

(** The number of iterations the loop of [sampleArray] can still make. *)
Definition sampleMeasure (nref n di diref : Z) (st : SampleState) : Z :=
  (stepsLeft (sa_i st) di n + stepsLeft (sa_iref st) diref nref)%Z.

(** The closed forms of the nested loops of [cost]. *)
Definition variableSetSum (stateNames : list string) (sim : Simulation)
    (vr : nat * list (string * RefData)) : Q :=
  sumQ (map (referenceCost stateNames sim (fst vr)) (snd vr)).

Definition simulationSum (stateNames : list string) (sim : Simulation) : Q :=
  sumQ (map (variableSetSum stateNames sim) (indexed (s_referenceData sim))).

Definition rowSum (stateNames : list string) (row : list Simulation) : Q :=
  sumQ (map (simulationSum stateNames) row).

Definition summarySum (summary : SimulationsSummary) : Q :=
  if sm_isActive summary then
    sumQ (map (fun vr : nat * list RefData =>
                 sumQ (map (fun rr : nat * RefData =>
                              summaryReferenceCost summary (fst vr) (fst rr)
                                                   (snd rr))
                           (indexed (snd vr))))
              (indexed (sm_referenceData summary)))
  else 0.

Definition ref_on_V : RefData := mkRefData [4; 6] 1 2 3.

Definition sim_with_reference : Simulation :=
  mkSimulation [0; 1; 2] 3 [1; 1; 2] [("V"%string, [0; 5; 5])] [] [] [] []
    [[("V"%string, ref_on_V)]].

Definition protocol_with_reference : Protocol :=
  mkProtocol ["C"%string; "O"%string] [[sim_with_reference]] [].

(** *** Changing the weight of the reference curve of a summary *)

Definition set_summaryReferenceData (summary : SimulationsSummary)
    (refs : list (list RefData)) : SimulationsSummary :=
  mkSummary (sm_isActive summary) (sm_normalization summary)
            (sm_dataY summary) refs.

(** The protocol in which the reference curve of row [row] of variable set
    [variableSetIndex] of the [s]-th summary has its weight multiplied by
    [k], everything else as it was. *)
Definition scaleSummaryReferenceWeight (protocol : Protocol)
    (s variableSetIndex row : nat) (k : Q) : Protocol :=
  mkProtocol (p_stateNames protocol) (p_simulations protocol)
    (updateAt s
       (fun summary =>
          set_summaryReferenceData summary
            (updateAt variableSetIndex (updateAt row (scaleRefWeight k))
                      (sm_referenceData summary)))
       (p_summaries protocol)).

(** A summary of one row over three conditions, with a reference curve on
    its last two values. *)
Definition summary_with_reference : SimulationsSummary :=
  mkSummary true NoNormalization [[[1; 2; 4]]] [[mkRefData [1; 3] 1 2 5]].

Definition protocol_with_summary : Protocol :=
  mkProtocol ["C"%string; "O"%string] [[sim_with_reference]]
             [summary_with_reference].

(** A simulation that has not been run: no probability matrix is stored
    yet.  Its reference curve is named after the state [O], and a stimulus
    bears that name too. *)
Definition sim_not_run : Simulation :=
  mkSimulation [0; 1; 2] 3 [1; 1; 2] [("O"%string, [0; 5; 5])] [] [] [] []
    [[("O"%string, ref_on_V)]].

Definition protocol_not_run : Protocol :=
  mkProtocol ["C"%string; "O"%string] [[sim_not_run]] [].

(** A matrix of [rows] rows of [cols] coefficients each. *)
Definition hasShape (rows cols : nat) (m : Matrix) : Prop :=
  List.length m = rows /\ Forall (fun row => List.length row = cols) m.

(** The sum of row [r] of a matrix. *)
Definition rowTotal (P : Matrix) (r : nat) : Q := sumQ (nth r P []).

Definition nonnegative (P : Matrix) : Prop :=
  Forall (Forall (fun v => 0 <= v)) P.

(** The events of a chain are well formed for [S] states: durations are not
    negative and states are in [[0, S)]. *)
Definition eventsOK (S : nat) (chain : MonteCarloEventChain) : Prop :=
  Forall (fun ev => 0 <= ev_duration ev /\
                    (0 <= ev_state ev < Z.of_nat S)%Z) chain.

(** The boundaries of the sample intervals: [time[i]], and [endTime] past the
    last sample. *)
Definition gridPoint (time : list Q) (endTime : Q) (i : nat) : Q :=
  if (i <? List.length time)%nat then nth i time 0 else endTime.

(** A chain that [getProbabilityFromEventChains] can sample: it has an
    event, its events are well formed, and their durations add up to
    [endTime]. *)
Definition chainOK (endTime : Q) (S : nat) (chain : MonteCarloEventChain)
  : Prop :=
  chain <> [] /\ eventsOK S chain /\ sumQ (map ev_duration chain) == endTime.

Definition two_state_chains : list MonteCarloEventChain :=
  [[mkEvent 0 (1 # 2); mkEvent 1 (5 # 2)];
   [mkEvent 1 (3 # 2); mkEvent 0 (3 # 2)]].

(** The time at which an epoch stops. *)
Definition epochEnd (e : Epoch) : Q := e_start e + e_duration e.

(** [endsBetween lo epochs hi]: the times at which the epochs stop do not
    decrease along the list and lie between [lo] and [hi]. *)
Fixpoint endsBetween (lo : Q) (epochs : list Epoch) (hi : Q) : Prop :=
  match epochs with
  | [] => lo <= hi
  | e :: r => lo <= epochEnd e /\ endsBetween (epochEnd e) r hi
  end.

(** Every value the distributions return is non-negative (uniform draws lie
    in [[0, 1)], exponential lifetimes in [[0, oo)]). *)
Definition drawsNonnegative (g : Generator) : Prop :=
  forall n, 0 <= g_draws g n.

Definition durationsNonnegative (chain : MonteCarloEventChain) : Prop :=
  Forall (fun ev => 0 <= ev_duration ev) chain.

(** A protocol that starts at time [-2]: one stimulus that steps at the
    second sample, hence two epochs, the first one stopping at time [-1]. *)
Definition sim_negative_start : Simulation :=
  snd (initEpochs []
         (mkSimulation [-2; -1; 0] 1 [1; 1; 1] [("V"%string, [0; 5; 5])]
                       [] [] [] [] [])).

Definition two_state_rates : Matrix := [[-1; 1]; [2; -2]].

Definition two_state_pool : list UniqueEpoch :=
  [mkUniqueEpoch [("V"%string, 0)] two_state_rates [] [];
   mkUniqueEpoch [("V"%string, 5)] two_state_rates [] []].

(** Every draw returns one half. *)
Definition constantGenerator : Generator := mkGenerator (fun _ => 1 # 2) 0.

(** The same protocol started at time [0]. *)
Definition sim_from_zero : Simulation :=
  snd (initEpochs []
         (mkSimulation [0; 1; 2] 3 [1; 1; 1] [("V"%string, [0; 5; 5])]
                       [] [] [] [] [])).

(** Every drawn value is at least [mu]. *)
Definition drawsAtLeast (mu : Q) (g : Generator) : Prop :=
  forall n, mu <= g_draws g n.

(** [constantOn stimuli e]: at every sample of the epoch, the stimulus
    channels have the values the epoch records. *)
Definition constantOn (stimuli : StimulusWaveforms) (e : Epoch) : Prop :=
  forall i,
    (e_firstPt e <= Z.of_nat i < e_firstPt e + e_numPts e)%Z ->
    stimuliEq (stimuliAt stimuli i) (e_stimuli e) = true.

(** No two neighbours of the list are equal as stimulus maps. *)
Fixpoint adjacentDiffer (l : list StimulusMap) : Prop :=
  match l with
  | a :: (b :: _) as r => stimuliEq a b = false /\ adjacentDiffer r
  | _ => True
  end.

(** [selfFirst pool]: every entry of the pool is the first one with its
    stimuli, which is what the search of [init] returns for it. *)
Definition selfFirst (pool : list UniqueEpoch) : Prop :=
  forall j u, nth_error pool j = Some u ->
              findUnique pool (u_stimuli u) 0 = Some j.

(** The pool entry [u] holds the stimuli of the epoch [e]. *)
Definition holds (u : UniqueEpoch) (e : Epoch) : Prop :=
  stimuliEq (u_stimuli u) (e_stimuli e) = true.

(** Consecutive samples are at least [d] apart. *)
Definition spacedBy (d : Q) (l : list Q) : Prop :=
  forall i, (S i < List.length l)%nat -> d <= nth (S i) l 0 - nth i l 0.

(** ** Stimulus::waveform *)

(** [m[row][col]] on a [std::vector<std::vector<T>>]; reading out of range is
    undefined in the source and yields [d] here. *)
Definition cell {A : Type} (d : A) (m : list (list A)) (row col : nat) : A :=
  nth col (nth row m []) d.

(** A [Stimulus] child of a protocol with its condition matrices as [init]
    has parsed and padded them: one pulse train per condition
    [(row, col)]. *)
Record Stimulus := mkStimulus {
  st_name : string;
  st_isActive : bool;
  st_starts : list (list Q);
  st_durations : list (list Q);
  st_amplitudes : list (list Q);
  st_onsetExprs : list (list string);
  st_offsetExprs : list (list string);
  st_repeats : list (list Z);
  st_periods : list (list Q)
}.

(** [std::string::size()] is not zero. *)
Definition hasText (s : string) : bool :=
  match s with
  | EmptyString => false
  | String _ _ => true
  end.

(** [v.segment(firstPt, numPts)]. *)
Definition segment (v : list Q) (firstPt numPts : Z) : list Q :=
  firstn (Z.to_nat numPts) (skipn (Z.to_nat firstPt) v).

(** [w.segment(firstPt, numPts) += v]. *)
Definition addToSegment (w : list Q) (firstPt numPts : Z) (v : list Q)
  : list Q :=
  map (fun iw : nat * Q =>
         let k := (Z.of_nat (fst iw) - firstPt)%Z in
         if ((0 <=? k) && (k <? numPts))%Z then snd iw + zth v k else snd iw)
      (indexed w).

Section StimulusWaveform.
(** [EigenLab::ParserXd::eval] of an expression in which [t] is bound to the
    given vector; [None] when the parser throws (the source catches and
    ignores the exception).  A result of another length than [t] is outside
    the model. *)
Variable parserEval : string -> list Q -> option (list Q).
Variable time : list Q.
Variables (start duration amplitude period : Q).
Variables (onsetExpr offsetExpr : string).

(** An expression-shaped part of a pulse: [expr] evaluated on the pulse time
    of the segment and scaled by the amplitude is added to the segment. *)
Definition addExpr (expr : string) (origin : Q) (firstPt numPts : Z)
    (stimulusWaveform : list Q) : list Q :=
  if (0 <? numPts)%Z && hasText expr then
    let pulseTime := map (fun t => t - origin) (segment time firstPt numPts) in
    match parserEval expr pulseTime with
    | Some result =>
        addToSegment stimulusWaveform firstPt numPts
                     (map (fun v => v * amplitude) result)
    | None => stimulusWaveform
    end
  else stimulusWaveform.

(** The body of [for(int rep = 0; rep < repeats[row][col]; ++rep)]. *)
Definition addPulse (stimulusWaveform : list Q) (rep : nat) : list Q :=
  let epsilon := machineEpsilon * 5 in
  let onsetTime := start + inject_Z (Z.of_nat rep) * period in
  let offsetTime := onsetTime + duration in
  let firstOnsetPt := indexAtOrAfter time onsetTime epsilon in
  if (firstOnsetPt <? Z.of_nat (List.length time))%Z then
    let firstOffsetPt := indexAtOrAfter time offsetTime epsilon in
    let numOnsetPts := (firstOffsetPt - firstOnsetPt)%Z in
    let numOffsetPts := (Z.of_nat (List.length time) - firstOffsetPt)%Z in
    if hasText onsetExpr || hasText offsetExpr then
      let stimulusWaveform :=
        addExpr onsetExpr onsetTime firstOnsetPt numOnsetPts stimulusWaveform in
      addExpr offsetExpr offsetTime firstOffsetPt numOffsetPts stimulusWaveform
    else if (0 <? numOnsetPts)%Z then
      addToSegment stimulusWaveform firstOnsetPt numOnsetPts
                   (repeat amplitude (Z.to_nat numOnsetPts))
    else stimulusWaveform
  else stimulusWaveform.
End StimulusWaveform.

Definition waveform (parserEval : string -> list Q -> option (list Q))
    (stimulus : Stimulus) (time : list Q) (row col : nat) : list Q :=
  let numPts := List.length time in
  let stimulusWaveform := repeat 0 numPts in
  let epsilon := machineEpsilon * 5 in
  let duration := cell 0 (st_durations stimulus) row col in
  let amplitude := cell 0 (st_amplitudes stimulus) row col in
  if Qlt_bool epsilon duration && Qlt_bool epsilon (Qabs amplitude) then
    fold_left
      (addPulse parserEval time (cell 0 (st_starts stimulus) row col) duration
                amplitude (cell 0 (st_periods stimulus) row col)
                (cell EmptyString (st_onsetExprs stimulus) row col)
                (cell EmptyString (st_offsetExprs stimulus) row col))
      (seq 0 (Z.to_nat (cell 0%Z (st_repeats stimulus) row col)))
      stimulusWaveform
  else stimulusWaveform.

(** The train of square pulses as a function of time: each repetition
    [rep] contributes the amplitude from [onset - epsilon] up to, not
    including, [onset + duration - epsilon], with
    [onset = start + rep * period]. *)
Definition squarePulseTrain (start duration amplitude period : Q)
    (repeats : Z) (t : Q) : Q :=
  let epsilon := machineEpsilon * 5 in
  if Qlt_bool epsilon duration && Qlt_bool epsilon (Qabs amplitude) then
    sumQ (map (fun rep : nat =>
                 let onset := start + inject_Z (Z.of_nat rep) * period in
                 if Qle_bool (onset - epsilon) t
                    && Qlt_bool t (onset + duration - epsilon)
                 then amplitude else 0)
              (seq 0 (Z.to_nat repeats)))
  else 0.

Definition square_stimulus : Stimulus :=
  mkStimulus "V" true [[1]] [[2]] [[5]] [[EmptyString]] [[EmptyString]]
             [[1%Z]] [[0]].

(** ** ReferenceData::updateColumnPairsXY *)

(** [ReferenceData::Normalization]. *)
Inductive RefNormalization :=
| RefNoNormalization
| ToMax
| ToMin
| ToAbsMinMax.

(** A [ReferenceData] child of a protocol: the table read from its file
    ([columnTitles], [columnData], one vector per column), the [(x, y)]
    column pairs found in it, and where and how the curves apply. *)
Record ReferenceData := mkReferenceData {
  rd_name : string;
  rd_variableSetIndex : nat;
  rd_rowIndex : nat;
  rd_columnIndex : nat;
  rd_x0 : Q;
  rd_normalization : RefNormalization;
  rd_scale : Q;
  rd_weight : Q;
  rd_columnTitles : list string;
  rd_columnData : list (list Q);
  rd_columnPairsXY : list (Z * Z)
}.

Definition set_columnPairsXY (r : ReferenceData) (pairs : list (Z * Z))
  : ReferenceData :=
  mkReferenceData (rd_name r) (rd_variableSetIndex r) (rd_rowIndex r)
    (rd_columnIndex r) (rd_x0 r) (rd_normalization r) (rd_scale r)
    (rd_weight r) (rd_columnTitles r) (rd_columnData r) pairs.

(** [for(int i = ...; i + 1 < size; i += 2) push_back((i, i + 1))], for at
    most [fuel] iterations; [size] iterations are more than the loop makes. *)
Fixpoint pairsXYXY (fuel : nat) (i size : Z) : list (Z * Z) :=
  match fuel with
  | O => []
  | S fuel' =>
      if (i + 1 <? size)%Z then (i, (i + 1)%Z) :: pairsXYXY fuel' (i + 2) size
      else []
  end.

(** [for(int i = 1; i < size; ++i) push_back((0, i))]. *)
Definition pairsXYY (size : nat) : list (Z * Z) :=
  map (fun i => (0%Z, Z.of_nat i)) (seq 1 (size - 1)).

(** The test for the XYXY... layout: an even number of columns and more than
    two titles, the first and the third of them equal. *)
Definition isXYXY (columnTitles : list string) (size : nat) : bool :=
  (size mod 2 =? 0)%nat && (2 <? List.length columnTitles)%nat
  && String.eqb (nth 0 columnTitles EmptyString) (nth 2 columnTitles EmptyString).

Definition updateColumnPairsXY (r : ReferenceData) : ReferenceData :=
  let size := List.length (rd_columnData r) in
  if (size =? 0)%nat then set_columnPairsXY r []
  else if isXYXY (rd_columnTitles r) size then
    set_columnPairsXY r (pairsXYXY size 0 (Z.of_nat size))
  else set_columnPairsXY r (pairsXYY size).

(** ** Simulation::maxProbabilityError *)

(** [P.rowwise().sum()]. *)
Definition rowwiseSum (P : Matrix) : list Q := map sumQ P.

(** The loop over the variable sets: [perr] is
    [(P.rowwise().sum().array() - 1).abs().maxCoeff()]. *)
Definition maxProbabilityError (sim : Simulation) : Q :=
  fold_left
    (fun maxError P =>
       let perr := maxCoeff (map (fun s => Qabs (s - 1)) (rowwiseSum P)) in
       if Qlt_bool maxError perr then perr else maxError)
    (s_probability sim) 0.

(** The invariant of the loop of [sampleArray] for the part of the output it
    has written, [y0] being the output buffer at entry: nothing is written
    before the first hit, and after it only samples between the first hit
    and the sample cursor have been written. *)
Definition windowInv (y0 : list Q) (n di : Z) (st : SampleState) : Prop :=
  List.length (sa_y st) = List.length y0 /\
  ((sa_firstPt st = (-1)%Z /\ sa_y st = y0) \/
   (if (di =? 1)%Z
    then (0 <= sa_firstPt st < sa_i st)%Z /\ (sa_i st <= n)%Z /\
         forall j : nat,
           (Z.of_nat j < sa_firstPt st \/ sa_i st <= Z.of_nat j)%Z ->
           nth j (sa_y st) 0 = nth j y0 0
    else (sa_i st < sa_firstPt st < n)%Z /\ (-1 <= sa_i st)%Z /\
         forall j : nat,
           (Z.of_nat j <= sa_i st \/ sa_firstPt st < Z.of_nat j)%Z ->
           nth j (sa_y st) 0 = nth j y0 0)).

(** ** StimulusClampProtocol::init: the sample times of a condition *)

(** [Eigen::VectorXd::LinSpaced(size, low, high)]: [size] values from [low]
    on, in steps of [(high - low) / (size - 1)] (a single value is [low],
    which is also [high] wherever [init] asks for one). *)
Definition linSpaced (size : Z) (low high : Q) : list Q :=
  let step :=
    if (size =? 1)%Z then 0 else (high - low) / inject_Z (size - 1) in
  map (fun i => low + inject_Z (Z.of_nat i) * step) (seq 0 (Z.to_nat size)).

(** [int numSteps = floor(durations[row][col] / sampleIntervals[row][col]);
    sim.time = LinSpaced(1 + numSteps, start, start + numSteps * interval)].
    A sample interval of zero is outside the model. *)
Definition sampleTimes (start duration sampleInterval : Q) : list Q :=
  let numSteps := Qfloor (duration / sampleInterval) in
  linSpaced (1 + numSteps) start (start + inject_Z numSteps * sampleInterval).

(** ** StimulusClampProtocolSimulator::cost *)

(** [for(StimulusClampProtocol *protocol : protocols) cost += protocol->cost()]. *)
Definition simulatorCost (protocols : list Protocol) : Q :=
  fold_left (fun c protocol => c + cost protocol) protocols 0.

(** No sample weight and no weight of a reference curve is negative. *)
Definition weightsNonnegative (protocol : Protocol) : Prop :=
  (forall row sim, In row (p_simulations protocol) -> In sim row ->
     Forall (fun w => 0 <= w) (s_weight sim) /\
     forall refs kv, In refs (s_referenceData sim) -> In kv refs ->
                     0 <= r_weight (snd kv)) /\
  (forall summary refs refData,
     In summary (p_summaries protocol) ->
     In refs (sm_referenceData summary) -> In refData refs ->
     0 <= r_weight refData).

(** The simulated buffer agrees with the reference curve [kv] of variable
    set [v] on every sample of the curve's window. *)
Definition referenceFits (stateNames : list string) (sim : Simulation)
    (v : nat) (kv : string * RefData) : Prop :=
  (0 < r_numPts (snd kv))%Z ->
  forall y n,
    getSimulationWaveform stateNames (fst kv) sim v = Some (y, n) ->
    (0 < n)%Z ->
    forall k : nat,
      (Z.of_nat k < r_numPts (snd kv))%Z ->
      zth y (r_firstPt (snd kv) + Z.of_nat k) == nth k (r_waveform (snd kv)) 0.

(** Row [row] of the summary agrees with its reference curve on every sample
    of the curve's window. *)
Definition summaryReferenceFits (summary : SimulationsSummary)
    (v row : nat) (refData : RefData) : Prop :=
  (0 < r_numPts refData)%Z ->
  forall k : nat,
    (Z.of_nat k < r_numPts refData)%Z ->
    zth (nth row (nth v (sm_dataY summary) []) [])
        (r_firstPt refData + Z.of_nat k)
    == nth k (r_waveform refData) 0.

(** Every reference curve of the protocol is met exactly. *)
Definition fits (protocol : Protocol) : Prop :=
  (forall row sim v refs kv,
     In row (p_simulations protocol) -> In sim row ->
     nth_error (s_referenceData sim) v = Some refs -> In kv refs ->
     referenceFits (p_stateNames protocol) sim v kv) /\
  (forall summary v refs row refData,
     In summary (p_summaries protocol) -> sm_isActive summary = true ->
     nth_error (sm_referenceData summary) v = Some refs ->
     nth_error refs row = Some refData ->
     summaryReferenceFits summary v row refData).

(** Every weight is positive and every window of a reference curve of a
    simulation lies inside the simulation's samples. *)
Definition weightsPositive (protocol : Protocol) : Prop :=
  (forall row sim, In row (p_simulations protocol) -> In sim row ->
     Forall (fun w => 0 < w) (s_weight sim) /\
     forall refs kv, In refs (s_referenceData sim) -> In kv refs ->
       0 < r_weight (snd kv) /\
       (0 <= r_firstPt (snd kv))%Z /\
       (r_firstPt (snd kv) + r_numPts (snd kv)
        <= Z.of_nat (List.length (s_weight sim)))%Z) /\
  (forall summary refs refData,
     In summary (p_summaries protocol) ->
     In refs (sm_referenceData summary) -> In refData refs ->
     0 < r_weight refData).

Definition sim_fitting : Simulation :=
  mkSimulation [0; 1; 2] 3 [1; 1; 2] [("V"%string, [0; 5; 5])] [] [] [] []
    [[("V"%string, mkRefData [5; 5] 1 2 3)]].

Definition protocol_fitting : Protocol :=
  mkProtocol ["C"%string; "O"%string] [[sim_fitting]] [].

(** ** StimulusClampProtocol::init: aligning a reference curve *)

(** Eigen's [minCoeff()]: the running minimum, started at the first
    coefficient. *)
Fixpoint minCoeffValueFrom (l : list Q) (best : Q) : Q :=
  match l with
  | [] => best
  | v :: r => minCoeffValueFrom r (if Qlt_bool v best then v else best)
  end.

Definition minCoeff (l : list Q) : Q :=
  match l with
  | [] => 0
  | v :: r => minCoeffValueFrom r v
  end.

(** [v.segment(1, n - 1) - v.segment(0, n - 1)]. *)
Definition adjacentDifferences (v : list Q) (n : Z) : list Q :=
  map (fun i => nth (S i) v 0 - nth i v 0) (seq 0 (Z.to_nat (n - 1))).

(** The tolerance [init] hands to [sampleArray]: [1e-5] times the smallest
    step of the sample times or of the reference abscissa, whichever is
    smaller.  Fewer than two samples leave the minimum undefined in the
    source. *)
Definition referenceTolerance (time refX : list Q) (n nref : Z) : Q :=
  let epsilon := minCoeff (adjacentDifferences time n) * (1 # 100000) in
  let epsilonRef := minCoeff (adjacentDifferences refX nref) * (1 # 100000) in
  if Qlt_bool epsilonRef epsilon then epsilonRef else epsilon.

(** [double peak = (fabs(max) >= fabs(min) ? max : min)]. *)
Definition refPeak (waveform : list Q) : Q :=
  let min := minCoeff waveform in
  let max := maxCoeff waveform in
  if Qle_bool (Qabs min) (Qabs max) then max else min.

(** The normalisation of an aligned reference curve.  A division by zero
    gives values that are not finite in the source and is outside the
    model. *)
Definition normalizeReference (normalization : RefNormalization)
    (waveform : list Q) : list Q :=
  match normalization with
  | ToMax => map (fun v => v / maxCoeff waveform) waveform
  | ToMin => map (fun v => v / minCoeff waveform) waveform
  | ToAbsMinMax => map (fun v => v / refPeak waveform) waveform
  | RefNoNormalization => waveform
  end.

(** [if(referenceData->scale() != 1) refData.waveform *= scale]. *)
Definition scaleReference (scale : Q) (waveform : list Q) : list Q :=
  if Qeq_bool scale 1 then waveform else map (fun v => v * scale) waveform.

(** [columnData[column]] for an [int] column. *)
Definition columnOf (columnData : list (list Q)) (column : Z) : list Q :=
  if (column <? 0)%Z then [] else nth (Z.to_nat column) columnData [].

(** The body of [init]'s loop over the column pairs of a reference table,
    for the [i]-th pair and a simulation with sample times [time]: the curve
    is resampled at the sample times, cut to the window [sampleArray]
    reports, normalised and scaled.  [None] when the window is empty and
    nothing is stored in [sim.referenceData]. *)
Definition alignReference (time : list Q) (referenceData : ReferenceData)
    (i : nat) : option RefData :=
  let waveform := repeat 0 (List.length time) in
  let columnX := fst (nth i (rd_columnPairsXY referenceData) (0%Z, 0%Z)) in
  let columnY := snd (nth i (rd_columnPairsXY referenceData) (0%Z, 0%Z)) in
  let refX := columnOf (rd_columnData referenceData) columnX in
  let refY := columnOf (rd_columnData referenceData) columnY in
  let nref := Z.of_nat (List.length refY) in
  let n := Z.of_nat (List.length time) in
  let epsilon := referenceTolerance time refX n nref in
  let r := sampleArray refX refY nref time waveform n (rd_x0 referenceData)
                       epsilon in
  let firstPt := snd (fst r) in
  let numPts := snd r in
  if (0 <? numPts)%Z then
    let waveform := segment (fst (fst r)) firstPt numPts in
    let waveform :=
      normalizeReference (rd_normalization referenceData) waveform in
    let waveform := scaleReference (rd_scale referenceData) waveform in
    Some (mkRefData waveform firstPt numPts (rd_weight referenceData))
  else None.

(** A reference table on the grid [0, 1, 2, 3]: its abscissa and one
    curve. *)
Definition reference_table : ReferenceData :=
  mkReferenceData "V" 0 0 0 0 RefNoNormalization 1 3
    ["t"%string; "V"%string] [[0; 1; 2; 3]; [7; 8; 9; 10]] [(0%Z, 1%Z)].

(** A state index of a model with [S] states. *)
Definition stateOK (S : nat) (state : Z) : Prop :=
  (0 <= state < Z.of_nat S)%Z.

(** The rate matrix of the epoch has at most [S] columns. *)
Definition ratesFit (pool : list UniqueEpoch) (S : nat) (e : Epoch) : Prop :=
  (List.length (hd [] (u_transitionRates (uniqueOf pool e))) <= S)%nat.

Definition statesOK (S : nat) (chain : MonteCarloEventChain) : Prop :=
  Forall (fun ev => stateOK S (ev_state ev)) chain.

(** Every row of [A], over its first [S] columns, sums to [v]. *)
Definition rowsSumTo (S : nat) (A : Matrix) (v : Q) : Prop :=
  forall i, (i < S)%nat -> sumQ (map (fun j => coeff A i j) (seq 0 S)) == v.

(** The spectral expansion of the rate matrix of a model that conserves
    probability (every row of the rate matrix sums to zero), its eigenvalues
    in the order [spectralExpansion] leaves them: the first eigenvalue is
    zero and the rows of its spectral matrix sum to one; the rows of the
    other spectral matrices sum to zero. *)
Definition conservative (S : nat) (u : UniqueEpoch) : Prop :=
  nth 0 (u_spectralEigenValues u) 0 == 0 /\
  rowsSumTo S (nth 0 (u_spectralMatrices u) []) 1 /\
  forall k, (1 <= k < S)%nat -> rowsSumTo S (nth k (u_spectralMatrices u) []) 0.

(** The invariant of the loop of [spectralSimulation] over the epochs, for a
    grid [time] and [S] states: [P] has its shape, the starting probability
    has [S] entries of total [c], the rows before the boundary [b] have total
    [c] and the rows from [b] on still have total zero. *)
Definition conserved (time : list Q) (S : nat) (c : Q) (b : nat)
    (st : Matrix * list Q * nat) : Prop :=
  hasShape (List.length time) S (fst (fst st)) /\
  List.length (snd (fst st)) = S /\
  sumQ (snd (fst st)) == c /\
  (forall r, (r < b)%nat -> (r < List.length time)%nat ->
             rowTotal (fst (fst st)) r == c) /\
  (forall r, (b <= r)%nat -> (r < List.length time)%nat ->
             rowTotal (fst (fst st)) r == 0).

(** The spectral expansion of the two-state rate matrix
    [[-1, 1], [2, -2]]: eigenvalues [0] and [-3]. *)
Definition two_state_spectral : UniqueEpoch :=
  mkUniqueEpoch [] two_state_rates [0; -3]
    [[[2 # 3; 1 # 3]; [2 # 3; 1 # 3]];
     [[1 # 3; -1 # 3]; [-2 # 3; 2 # 3]]].

Definition sim_one_epoch : Simulation :=
  mkSimulation [0; 1; 2] 3 [1; 1; 1] []
    [mkEpoch 0 3 0 3 [] (Some 0%nat)] [] [] [] [].

(** The spectral matrices of [u] add up to the identity, over [S] states. *)
Definition resolvesIdentity (S : nat) (u : UniqueEpoch) : Prop :=
  forall m j, (m < S)%nat -> (j < S)%nat ->
    sumQ (map (fun i => coeff (nth i (u_spectralMatrices u) []) m j) (seq 0 S))
    == if (m =? j)%nat then 1 else 0.

(** [v] is the value of a reference point that lies within [eps] of the
    sample [xj] (the reference abscissa shifted by [x0]). *)
Definition exactAt (xref yref : list Q) (nref : Z) (x0 eps xj v : Q) : Prop :=
  exists k,
    (0 <= k < nref)%Z /\
    Qabs (xj - (zth xref k - x0)) < eps /\
    v = zth yref k.

(** [v] is the linear interpolation at the sample [xj] between two
    neighbouring reference points, the first of them not more than [eps]
    after [xj] and the second one after [xj]. *)
Definition interpolatedAt (xref yref : list Q) (nref : Z) (x0 eps xj v : Q)
  : Prop :=
  exists k k',
    (0 <= k < nref)%Z /\ (0 <= k' < nref)%Z /\
    (k' = k + 1 \/ k' = k - 1)%Z /\
    zth xref k - x0 - eps <= xj /\ xj < zth xref k' - x0 /\
    v = zth yref k
        + ((zth yref k' - zth yref k) / (zth xref k' - zth xref k))
          * (xj - (zth xref k - x0)).

(** The invariant of the loop of [sampleArray] for the values of the
    output: each is the value at entry, or an exact or interpolated
    reference value for its sample. *)
Definition valuesInv (xref yref : list Q) (nref : Z) (x : list Q)
    (x0 eps : Q) (y0 : list Q) (st : SampleState) : Prop :=
  forall j : nat,
    nth j (sa_y st) 0 = nth j y0 0 \/
    exactAt xref yref nref x0 eps (nth j x 0) (nth j (sa_y st) 0) \/
    interpolatedAt xref yref nref x0 eps (nth j x 0) (nth j (sa_y st) 0).

(** No step of the reference abscissa is longer than a step of the
    samples: the reference curve is sampled at least as finely as the
    simulation. *)
Definition refinedBy (xref x : list Q) : Prop :=
  forall k i,
    (S k < List.length xref)%nat -> (S i < List.length x)%nat ->
    nth (S k) xref 0 - nth k xref 0 <= nth (S i) x 0 - nth i x 0.

(** The invariant of the loop of [sampleArray], both arrays increasing, for
    a reference curve at least as fine as the samples: from the first hit
    on, every sample passed has been given an exact or an interpolated
    value, and the reference cursor is not more than [eps] ahead of the
    sample cursor. *)
Definition completeInv (xref yref : list Q) (nref : Z) (x : list Q) (n : Z)
    (x0 eps : Q) (st : SampleState) : Prop :=
  List.length (sa_y st) = List.length x /\
  (0 <= sa_i st)%Z /\ (0 <= sa_iref st)%Z /\
  (sa_firstPt st = (-1)%Z \/
   ((0 <= sa_firstPt st < sa_i st)%Z /\
    (forall j : nat,
       (sa_firstPt st <= Z.of_nat j < sa_i st)%Z ->
       exactAt xref yref nref x0 eps (nth j x 0) (nth j (sa_y st) 0) \/
       interpolatedAt xref yref nref x0 eps (nth j x 0) (nth j (sa_y st) 0)) /\
    ((sa_i st < n)%Z -> (sa_iref st < nref)%Z ->
     zth xref (sa_iref st) - x0 - eps <= zth x (sa_i st)))).

(** ** runSimulation: the waveform of a state group *)

(** [waveform += probability->col(stateIndex)].  Eigen adds vectors of one
    size only; the waveform and the columns of the probability matrix both
    have [numPts] entries. *)
Definition addVectors (a b : list Q) : list Q :=
  map (fun ab : Q * Q => fst ab + snd ab) (combine a b).

(** [probability->col(j)] for an [int] index.  Eigen reads columns
    [0 .. cols-1] only; outside them the model reads zeros, as it does for
    every read out of range. *)
Definition zcolumn (m : Matrix) (j : Z) : list Q :=
  if (j <? 0)%Z then repeat 0 (List.length m) else column m (Z.to_nat j).

(** The body run for an active state group: the waveform starts at
    [VectorXd::Zero(numPts)] and adds the probability column of every state
    index of the group, in the order the group lists them. *)
Definition stateGroupWaveform (probability : Matrix) (numPts : nat)
    (stateIndexes : list Z) : list Q :=
  fold_left (fun waveform stateIndex =>
               addVectors waveform (zcolumn probability stateIndex))
            stateIndexes (repeat 0 numPts).

(** Every row of [P] is a probability distribution over [S] states. *)
Definition stochastic (rows S : nat) (P : Matrix) : Prop :=
  hasShape rows S P /\
  forall t, (t < rows)%nat ->
    sumQ (nth t P []) == 1 /\ forall s, (s < S)%nat -> 0 <= coeff P t s.

Definition two_state_probability : Matrix :=
  [[1; 0]; [1 # 2; 1 # 2]; [1 # 3; 2 # 3]].

(** ** spectralExpansion *)

(** [v * w] for a column vector [v] and a row vector [w]: the matrix of the
    products of their entries. *)
Definition outer (v w : list Q) : Matrix :=
  map (fun a => map (fun b => a * b) w) v.

Section SpectralExpansion.
(** The routines of Eigen and of the standard library the expansion calls:
    [eigenSolver rates] is the pair of the diagonal of
    [pseudoEigenvalueMatrix()] and of [pseudoEigenvectors()] of the solver
    built on the dense rate matrix, [inverse] is [MatrixXd::inverse()], and
    [sortedIndexes eigVals] is the vector [0, 1, 2, ...] after [std::sort]
    has ordered it by the absolute value of the eigenvalue it indexes. *)
Variable eigenSolver : Matrix -> list Q * Matrix.
Variable inverse : Matrix -> Matrix.
Variable sortedIndexes : list Q -> list nat.

(** [spectralExpansion]; the rate matrix, [Q] in the source, is [rates]
    here.  [eigenValues] and [spectralMatrices] are the two output
    arguments, and [abort] is the value of the abort flag, taken to be
    constant during the call: an abort returns before the outputs are
    written.  [None] is the [std::runtime_error] for fewer than two
    states. *)
Definition spectralExpansion (rates : Matrix) (eigenValues : list Q)
    (spectralMatrices : list Matrix) (abort : bool)
  : option (list Q * list Matrix) :=
  let N := List.length (hd [] rates) in
  if (N <? 2)%nat then None
  else
    let eigVals := fst (eigenSolver rates) in
    let eigVecs := snd (eigenSolver rates) in
    if abort then Some (eigenValues, spectralMatrices)
    else
      let indexes := sortedIndexes eigVals in
      let invEigVecs := inverse eigVecs in
      Some (map (fun i => nth (nth i indexes 0%nat) eigVals 0) (seq 0 N),
            map (fun i => let j := nth i indexes 0%nat in
                          outer (column eigVecs j) (nth j invEigVecs []))
                (seq 0 N)).
End SpectralExpansion.

(** [A * B == C] on the first [N] rows and columns, [C] given by its
    entries. *)
Definition productIs (N : nat) (A B : Matrix) (C : nat -> nat -> Q) : Prop :=
  forall i j, (i < N)%nat -> (j < N)%nat ->
    sumQ (map (fun k => coeff A i k * coeff B k j) (seq 0 N)) == C i j.

Definition identity (i j : nat) : Q := if (i =? j)%nat then 1 else 0.

(** [eigVecs] and [eigVals] are an eigen-decomposition of [rates] with real
    eigenvalues: [rates * eigVecs == eigVecs * diag eigVals]. *)
Definition decomposes (N : nat) (rates : Matrix) (eigVals : list Q)
    (eigVecs : Matrix) : Prop :=
  productIs N rates eigVecs (fun i j => coeff eigVecs i j * nth j eigVals 0).

(** What [std::sort] leaves in [indexes]: the numbers [0 .. N-1] in some
    order in which the absolute value of the eigenvalue does not decrease.
    The order of eigenvalues of one absolute value is not fixed. *)
Definition sortedByAbs (N : nat) (eigVals : list Q) (indexes : list nat)
  : Prop :=
  Permutation indexes (seq 0 N) /\
  forall a b, (a <= b)%nat -> (b < N)%nat ->
    Qabs (nth (nth a indexes 0%nat) eigVals 0)
    <= Qabs (nth (nth b indexes 0%nat) eigVals 0).

(** At most one of the [N] eigenvalues is zero. *)
Definition simpleZero (N : nat) (eigVals : list Q) : Prop :=
  forall j j', (j < N)%nat -> (j' < N)%nat ->
    nth j eigVals 0 == 0 -> nth j' eigVals 0 == 0 -> j = j'.

(** The sum of row [j] of the inverse of the matrix of eigenvectors: the
    coordinate of the vector of ones along eigenvector [j]. *)
Definition onesCoordinate (N : nat) (invEigVecs : Matrix) (j : nat) : Q :=
  sumQ (map (fun k => coeff invEigVecs j k) (seq 0 N)).

(** The eigen-decomposition of [two_state_rates]: eigenvalues [-3] and [0]
    with eigenvectors [(1, -2)] and [(1, 1)], and the inverse of the matrix of
    the eigenvectors. *)
Definition two_state_eigenSolver (rates : Matrix) : list Q * Matrix :=
  ([-3; 0], [[1; 1]; [-2; 1]]).

Definition two_state_inverse (eigVecs : Matrix) : Matrix :=
  [[1 # 3; -1 # 3]; [2 # 3; 1 # 3]].

Definition two_state_sortedIndexes (eigVals : list Q) : list nat :=
  [1%nat; 0%nat].

(** ** StimulusClampProtocol::init: the stimuli of a condition *)

(** [stimuli[name] = v] on a [std::map<QString, Eigen::VectorXd>]: the entry
    of [name] is replaced, or inserted at its place in the order of the
    keys.  [QString] orders names by their code units; on the byte strings
    of the embedding that is [String.ltb]. *)
Fixpoint assign (stimuli : StimulusWaveforms) (name : string) (v : list Q)
  : StimulusWaveforms :=
  match stimuli with
  | [] => [(name, v)]
  | (k, w) :: r =>
      if String.eqb k name then (k, v) :: r
      else if String.ltb name k then (name, v) :: (k, w) :: r
      else (k, w) :: assign r name v
  end.

Section InitStimuli.
(** [QString::toLower]. *)
Variable toLower : string -> string.
Variable parserEval : string -> list Q -> option (list Q).
Variable time : list Q.
Variables (row col : nat).

(** The body of [foreach(Stimulus *stimulus, stimuli)] on the sample
    weights, the mask accumulator and the map of the stimuli. *)
Definition addStimulus (acc : list Q * list Q * StimulusWaveforms)
    (stimulus : Stimulus) : list Q * list Q * StimulusWaveforms :=
  let '(weight, mask, stimuli) := acc in
  if st_isActive stimulus then
    if String.eqb (toLower (st_name stimulus)) "weight" then
      (addVectors weight (waveform parserEval stimulus time row col),
       mask, stimuli)
    else if String.eqb (toLower (st_name stimulus)) "mask" then
      (weight,
       addVectors mask (waveform parserEval stimulus time row col), stimuli)
    else
      match lookup stimuli (st_name stimulus) with
      | Some v =>
          (weight, mask,
           assign stimuli (st_name stimulus)
                  (addVectors v (waveform parserEval stimulus time row col)))
      | None =>
          (weight, mask,
           assign stimuli (st_name stimulus)
                  (waveform parserEval stimulus time row col))
      end
  else acc.

(** The sample weights, the mask ([true] = unmasked) and the stimuli [init]
    stores for a condition whose weight is [weight]. *)
Definition initStimuli (weight : Q) (stimuli : list Stimulus)
  : list Q * list bool * StimulusWaveforms :=
  let numPts := List.length time in
  let '(simWeight, mask, simStimuli) :=
    fold_left addStimulus stimuli
              (repeat weight numPts, repeat 0 numPts, []) in
  (simWeight, map (fun m => Qeq_bool m 0) mask, simStimuli).

(** The active stimuli that act on the sample weights, on the mask, and on
    the channel [name]. *)
Definition onWeight (stimulus : Stimulus) : bool :=
  st_isActive stimulus && String.eqb (toLower (st_name stimulus)) "weight".

Definition onMask (stimulus : Stimulus) : bool :=
  st_isActive stimulus
  && negb (String.eqb (toLower (st_name stimulus)) "weight")
  && String.eqb (toLower (st_name stimulus)) "mask".

Definition onChannel (name : string) (stimulus : Stimulus) : bool :=
  st_isActive stimulus
  && negb (String.eqb (toLower (st_name stimulus)) "weight")
  && negb (String.eqb (toLower (st_name stimulus)) "mask")
  && String.eqb (st_name stimulus) name.

(** The sum at sample [i] of the waveforms of the stimuli [l]. *)
Definition superposition (l : list Stimulus) (i : nat) : Q :=
  sumQ (map (fun stimulus =>
               nth i (waveform parserEval stimulus time row col) 0) l).
End InitStimuli.

(** The invariant of the loop of [init] over the stimuli: what the sample
    weights, the mask accumulator and the map hold after the stimuli
    [seen]. *)
Definition assembled (toLower : string -> string)
    (parserEval : string -> list Q -> option (list Q)) (time : list Q)
    (row col : nat) (weight : Q) (seen : list Stimulus)
    (acc : list Q * list Q * StimulusWaveforms) : Prop :=
  List.length (fst (fst acc)) = List.length time /\
  List.length (snd (fst acc)) = List.length time /\
  (forall i, (i < List.length time)%nat ->
     nth i (fst (fst acc)) 0
     == weight
        + superposition parserEval time row col
            (filter (onWeight toLower) seen) i) /\
  (forall i, nth i (snd (fst acc)) 0
             == superposition parserEval time row col
                  (filter (onMask toLower) seen) i) /\
  forall name,
    match lookup (snd acc) name with
    | Some v =>
        filter (onChannel toLower name) seen <> [] /\
        List.length v = List.length time /\
        forall i, nth i v 0
                  == superposition parserEval time row col
                       (filter (onChannel toLower name) seen) i
    | None => filter (onChannel toLower name) seen = []
    end.

(** ASCII lower case of the two names the examples use. *)
Definition lowerOfExamples (s : string) : string :=
  if String.eqb s "Weight" then "weight" else s.

Definition weight_stimulus : Stimulus :=
  mkStimulus "Weight" true [[1]] [[2]] [[3]] [[EmptyString]] [[EmptyString]]
             [[1%Z]] [[0]].

Definition inactive_stimulus : Stimulus :=
  mkStimulus "V" false [[0]] [[4]] [[7]] [[EmptyString]] [[EmptyString]]
             [[1%Z]] [[0]].

(** * Properties *)

(** ** Helper facts on rationals and lists *)

Lemma Qlt_bool_iff (x y : Q) : Qlt_bool x y = true <-> x < y.
Proof.
  unfold Qlt_bool. rewrite negb_true_iff. split; intros H.
  - apply Qnot_le_lt. intros Hle. apply Qle_bool_iff in Hle. congruence.
  - destruct (Qle_bool y x) eqn:E; [|reflexivity].
    apply Qle_bool_iff in E. exfalso. apply (Qlt_not_le _ _ H E).
Qed.

Lemma Qlt_bool_false (x y : Q) : Qlt_bool x y = false <-> y <= x.
Proof.
  unfold Qlt_bool. rewrite negb_false_iff. apply Qle_bool_iff.
Qed.

Lemma updateBack_app (f : Epoch -> Epoch) (l : list Epoch) (e : Epoch) :
  updateBack f (l ++ [e]) = l ++ [f e].
Proof.
  induction l as [|a l IH]; simpl; [reflexivity|].
  rewrite IH. destruct (l ++ [e]) eqn:E; [|reflexivity].
  destruct l; discriminate.
Qed.

(** ** Epochs partition the sample grid (C1) *)

Lemma chained_Qeq (es : list Epoch) :
  forall p t1 t2 p' t1' t2',
    t1 == t2 -> t1' == t2' ->
    chained p t1 es p' t1' -> chained p t2 es p' t2'.
Proof.
  induction es as [|e r IH]; simpl; intros p t1 t2 p' t1' t2' E E' H.
  - destruct H as [Hp Ht]. split; [exact Hp|]. rewrite <- E, <- E'. exact Ht.
  - destruct H as (Hp & Hs & Hr). split; [exact Hp|]. split.
    + rewrite Hs. exact E.
    + apply (IH _ (t1 + e_duration e) _ _ t1'); [|exact E'|exact Hr].
      rewrite E. reflexivity.
Qed.

Lemma chained_app (a b : list Epoch) :
  forall p t pm tm p' t',
    chained p t a pm tm -> chained pm tm b p' t' ->
    chained p t (a ++ b) p' t'.
Proof.
  induction a as [|e r IH]; simpl; intros p t pm tm p' t' Ha Hb.
  - destruct Ha as [-> Ht].
    apply (chained_Qeq b pm tm t p' t' t'); [symmetry; exact Ht|reflexivity|exact Hb].
  - destruct Ha as (Hp & Hs & Hr). split; [exact Hp|]. split; [exact Hs|].
    eapply IH; eassumption.
Qed.

Lemma chained_sums (es : list Epoch) :
  forall p t p' t',
    chained p t es p' t' ->
    sumZ (map e_numPts es) = (p' - p)%Z /\
    sumQ (map e_duration es) == t' - t.
Proof.
  induction es as [|e r IH]; simpl; intros p t p' t' H.
  - destruct H as [-> Ht]. split; [lia|]. rewrite Ht. ring.
  - destruct H as (Hp & Hs & Hr). destruct (IH _ _ _ _ Hr) as [HZ HQ].
    split; [lia|]. rewrite HQ. ring.
Qed.

Lemma chained_consecutive (es : list Epoch) :
  forall p t p' t' i e1 e2,
    chained p t es p' t' ->
    nth_error es i = Some e1 -> nth_error es (S i) = Some e2 ->
    e_firstPt e2 = (e_firstPt e1 + e_numPts e1)%Z /\
    e_start e2 == e_start e1 + e_duration e1.
Proof.
  induction es as [|e r IH]; intros p t p' t' i e1 e2 H H1 H2.
  - destruct i; discriminate.
  - destruct H as (Hp & Hs & Hr). destruct i as [|i].
    + simpl in H1. injection H1 as <-. destruct r as [|e' r']; [discriminate|].
      simpl in H2. injection H2 as <-. destruct Hr as (Hp' & Hs' & _).
      split; [lia|]. rewrite Hs', Hs. reflexivity.
    + simpl in H1. eapply IH; eassumption.
Qed.

(** The loop invariant of [findEpochsDiscretizedToSamplePoints]: after the
    iterations [1..n] the list is a tiling by closed epochs followed by the
    epoch still open, which was opened at some sample [k <= n]. *)
Lemma findEpochs_loop_invariant (time : list Q) (stimuli : StimulusWaveforms) :
  forall n,
    exists closed k,
      fold_left (epochStep time stimuli) (seq 1 n) [openEpoch time stimuli 0]
        = closed ++ [openEpoch time stimuli k] /\
      (k <= n)%nat /\
      chained 0%Z (nth 0 time 0) closed (Z.of_nat k) (nth k time 0).
Proof.
  induction n as [|n IH].
  - exists [], 0%nat. simpl. split; [reflexivity|]. split; [lia|].
    split; reflexivity.
  - destruct IH as (closed & k & Heq & Hk & Hch).
    rewrite seq_S, fold_left_app, Heq. simpl. unfold epochStep at 1.
    destruct (stimuliChangeAt stimuli (S n)).
    + rewrite updateBack_app.
      exists (closed ++ [closeEpoch (nth (S n) time 0) (Z.of_nat (S n))
                           (openEpoch time stimuli k)]), (S n).
      split; [reflexivity|]. split; [lia|].
      eapply chained_app; [exact Hch|].
      cbn [chained closeEpoch openEpoch e_firstPt e_start e_numPts e_duration].
      split; [reflexivity|]. split; [reflexivity|]. split; [lia|ring].
    + exists closed, k. split; [reflexivity|]. split; [lia|exact Hch].
Qed.

Lemma findEpochs_chained (time : list Q) (endTime : Q)
    (stimuli : StimulusWaveforms) :
  chained 0%Z (nth 0 time 0) (findEpochs time endTime stimuli)
          (Z.of_nat (List.length time)) endTime.
Proof.
  unfold findEpochs.
  destruct (findEpochs_loop_invariant time stimuli (List.length time - 1))
    as (closed & k & Heq & Hk & Hch).
  rewrite Heq, updateBack_app.
  eapply chained_app; [exact Hch|].
  cbn [chained closeEpoch openEpoch e_firstPt e_start e_numPts e_duration].
  split; [reflexivity|]. split; [reflexivity|]. split; [lia|ring].
Qed.

(** C1.  For a simulation with [N >= 1] samples, the epochs computed by
    [findEpochsDiscretizedToSamplePoints] partition the sample grid: their
    [numPts] add up to [N], their durations add up to [endTime - time[0]],
    the first epoch has [firstPt = 0], and every later epoch starts at the
    previous epoch's [firstPt + numPts]. *)
Theorem findEpochs_partition (sim : Simulation) :
  (1 <= List.length (s_time sim))%nat ->
  let es := s_epochs (findEpochsDiscretizedToSamplePoints sim) in
  sumZ (map e_numPts es) = Z.of_nat (List.length (s_time sim)) /\
  sumQ (map e_duration es) == s_endTime sim - nth 0 (s_time sim) 0 /\
  (exists e0 rest, es = e0 :: rest /\ e_firstPt e0 = 0%Z) /\
  (forall i e1 e2,
      nth_error es i = Some e1 -> nth_error es (S i) = Some e2 ->
      e_firstPt e2 = (e_firstPt e1 + e_numPts e1)%Z).
Proof.
  intros HN es.
  pose proof (findEpochs_chained (s_time sim) (s_endTime sim) (s_stimuli sim))
    as Hch.
  change (findEpochs (s_time sim) (s_endTime sim) (s_stimuli sim)) with es in Hch.
  destruct (chained_sums _ _ _ _ _ Hch) as [HZ HQ].
  split; [lia|]. split; [exact HQ|]. split.
  - destruct es as [|e0 rest] eqn:E.
    + simpl in Hch. destruct Hch as [Hp _]. lia.
    + exists e0, rest. split; [reflexivity|]. simpl in Hch. tauto.
  - intros i e1 e2 H1 H2.
    apply (chained_consecutive _ _ _ _ _ _ _ _ Hch H1 H2).
Qed.

Lemma findEpochs_partition_witness :
  let es := s_epochs (findEpochsDiscretizedToSamplePoints sim_two_epochs) in
  sumZ (map e_numPts es) = 4%Z /\
  sumQ (map e_duration es) == 4 - 0 /\
  (exists e0 rest, es = e0 :: rest /\ e_firstPt e0 = 0%Z) /\
  (forall i e1 e2,
      nth_error es i = Some e1 -> nth_error es (S i) = Some e2 ->
      e_firstPt e2 = (e_firstPt e1 + e_numPts e1)%Z).
Proof.
  apply (findEpochs_partition sim_two_epochs). simpl. lia.
Defined.

(** ** Interning of epochs (C2) *)

Lemma stimuliEq_refl (a : StimulusMap) : stimuliEq a a = true.
Proof.
  induction a as [|[k v] a IH]; simpl; [reflexivity|].
  rewrite String.eqb_refl, IH.
  assert (Qeq_bool v v = true) as -> by (apply Qeq_bool_iff; reflexivity).
  reflexivity.
Qed.

Lemma stimuliEq_sym (a : StimulusMap) :
  forall b, stimuliEq a b = true -> stimuliEq b a = true.
Proof.
  induction a as [|[ka va] a IH]; intros [|[kb vb] b]; simpl; try congruence.
  intros H. apply andb_prop in H. destruct H as [H Hr].
  apply andb_prop in H. destruct H as [Hk Hv].
  rewrite String.eqb_sym, Hk, (IH _ Hr).
  apply Qeq_bool_iff in Hv. symmetry in Hv. apply Qeq_bool_iff in Hv.
  rewrite Hv. reflexivity.
Qed.

Lemma stimuliEq_trans (a : StimulusMap) :
  forall b c,
    stimuliEq a b = true -> stimuliEq b c = true -> stimuliEq a c = true.
Proof.
  induction a as [|[ka va] a IH]; intros [|[kb vb] b] [|[kc vc] c]; simpl;
    try congruence.
  intros H1 H2.
  apply andb_prop in H1. destruct H1 as [H1 Hr1].
  apply andb_prop in H1. destruct H1 as [Hk1 Hv1].
  apply andb_prop in H2. destruct H2 as [H2 Hr2].
  apply andb_prop in H2. destruct H2 as [Hk2 Hv2].
  apply String.eqb_eq in Hk1. apply String.eqb_eq in Hk2. subst kb kc.
  rewrite String.eqb_refl, (IH _ _ Hr1 Hr2).
  apply Qeq_bool_iff in Hv1. apply Qeq_bool_iff in Hv2.
  assert (Qeq_bool va vc = true) as ->
    by (apply Qeq_bool_iff; rewrite Hv1; exact Hv2).
  reflexivity.
Qed.

(** The search only depends on the stimuli up to [stimuliEq]. *)
Lemma findUnique_ext (pool : list UniqueEpoch) :
  forall a b p, stimuliEq a b = true -> findUnique pool a p = findUnique pool b p.
Proof.
  induction pool as [|u r IH]; intros a b p E; simpl; [reflexivity|].
  destruct (stimuliEq (u_stimuli u) a) eqn:Ea.
  - rewrite (stimuliEq_trans _ _ _ Ea E). reflexivity.
  - destruct (stimuliEq (u_stimuli u) b) eqn:Eb.
    + apply stimuliEq_sym in E. rewrite (stimuliEq_trans _ _ _ Eb E) in Ea.
      discriminate.
    + apply IH. exact E.
Qed.

(** A pointer that the search returns points to an equal stimulus map. *)
Lemma findUnique_found (pool : list UniqueEpoch) :
  forall st p q,
    findUnique pool st p = Some q ->
    exists u, nth_error pool (q - p) = Some u /\ (p <= q)%nat /\
              stimuliEq (u_stimuli u) st = true.
Proof.
  induction pool as [|u r IH]; intros st p q H; simpl in H; [discriminate|].
  destruct (stimuliEq (u_stimuli u) st) eqn:E.
  - injection H as <-. exists u. rewrite Nat.sub_diag. auto.
  - destruct (IH _ _ _ H) as (u' & Hn & Hle & Hs). exists u'.
    replace (q - p)%nat with (S (q - S p)) by lia. simpl. auto with arith.
Qed.

(** The pool only grows at its end, so a first match stays the first match. *)
Lemma findUnique_app (pool ext : list UniqueEpoch) :
  forall st p q,
    findUnique pool st p = Some q -> findUnique (pool ++ ext) st p = Some q.
Proof.
  induction pool as [|u r IH]; intros st p q H; simpl in *; [discriminate|].
  destruct (stimuliEq (u_stimuli u) st); [exact H|]. apply IH. exact H.
Qed.

Lemma findUnique_new (pool : list UniqueEpoch) :
  forall st p,
    findUnique pool st p = None ->
    findUnique (pool ++ [newUniqueEpoch st]) st p = Some (p + List.length pool)%nat.
Proof.
  induction pool as [|u r IH]; intros st p H; simpl in *.
  - rewrite stimuliEq_refl. f_equal. lia.
  - destruct (stimuliEq (u_stimuli u) st); [discriminate|].
    rewrite (IH _ _ H). f_equal. lia.
Qed.

Lemma extends_refl (pool : list UniqueEpoch) : extends pool pool.
Proof. exists []. symmetry. apply app_nil_r. Qed.

Lemma extends_trans (a b c : list UniqueEpoch) :
  extends a b -> extends b c -> extends a c.
Proof.
  intros [x ->] [y ->]. exists (x ++ y). symmetry. apply app_assoc.
Qed.

Lemma interned_extends (pool pool' : list UniqueEpoch) (e : Epoch) :
  extends pool pool' -> interned pool e -> interned pool' e.
Proof.
  intros [ext ->] (p & Hp & Hf). exists p. split; [exact Hp|].
  apply findUnique_app. exact Hf.
Qed.

Lemma internEpoch_interned (pool pool' : list UniqueEpoch) (e e' : Epoch) :
  internEpoch pool e = (pool', e') -> extends pool pool' /\ interned pool' e'.
Proof.
  unfold internEpoch. destruct (findUnique pool (e_stimuli e) 0) as [p|] eqn:F;
    intros H; injection H as <- <-.
  - split; [apply extends_refl|]. exists p. split; [reflexivity|exact F].
  - split; [eexists; reflexivity|].
    exists (List.length pool). split; [reflexivity|].
    apply (findUnique_new pool (e_stimuli e) 0 F).
Qed.

(** The invariant of a state-threading loop: what a step establishes about
    its element survives the later steps. *)
Lemma mapAccum_stable {S A B : Type} (f : S -> A -> S * B)
    (R : S -> S -> Prop) (P : S -> B -> Prop) :
  (forall s, R s s) ->
  (forall s1 s2 s3, R s1 s2 -> R s2 s3 -> R s1 s3) ->
  (forall s s' b, R s s' -> P s b -> P s' b) ->
  (forall s a s' b, f s a = (s', b) -> R s s' /\ P s' b) ->
  forall l s s' bs,
    mapAccum f s l = (s', bs) -> R s s' /\ Forall (P s') bs.
Proof.
  intros Rrefl Rtrans Pmono Hstep.
  induction l as [|a r IH]; intros s s' bs H; simpl in H.
  - injection H as <- <-. split; [apply Rrefl|constructor].
  - destruct (f s a) as [s1 b] eqn:Ef.
    destruct (mapAccum f s1 r) as [s2 bs'] eqn:Er.
    injection H as <- <-.
    destruct (Hstep _ _ _ _ Ef) as [R1 P1].
    destruct (IH _ _ _ Er) as [R2 P2].
    split; [eapply Rtrans; eassumption|].
    constructor; [eapply Pmono; eassumption|exact P2].
Qed.

Lemma Forall_extends {B : Type} (P : list UniqueEpoch -> B -> Prop) :
  (forall s s' b, extends s s' -> P s b -> P s' b) ->
  forall s s' (bs : list B),
    extends s s' -> Forall (P s) bs -> Forall (P s') bs.
Proof.
  intros Pmono s s' bs E H. induction H; constructor; eauto.
Qed.

Lemma initEpochs_interned (pool pool' : list UniqueEpoch) (sim sim' : Simulation) :
  initEpochs pool sim = (pool', sim') ->
  extends pool pool' /\ Forall (interned pool') (s_epochs sim').
Proof.
  unfold initEpochs.
  destruct (mapAccum internEpoch pool
              (s_epochs (findEpochsDiscretizedToSamplePoints sim)))
    as [p es] eqn:E.
  intros H. injection H as <- <-. simpl.
  eapply (mapAccum_stable internEpoch extends interned); try eassumption.
  - apply extends_refl.
  - apply extends_trans.
  - apply interned_extends.
  - intros s a s' b Hs. eapply internEpoch_interned. exact Hs.
Qed.

Lemma init_interned (pool pool' : list UniqueEpoch) (names : list string)
    (protocol protocol' : Protocol) :
  init pool names protocol = (pool', protocol') ->
  extends pool pool' /\
  Forall (fun row => Forall (fun sim => Forall (interned pool') (s_epochs sim)) row)
         (p_simulations protocol').
Proof.
  unfold init.
  destruct (mapAccum (mapAccum initEpochs) pool (p_simulations protocol))
    as [pl sims'] eqn:H.
  intros H0. injection H0 as <- <-. cbn [p_simulations].
  eapply (mapAccum_stable (mapAccum initEpochs) extends
            (fun p row => Forall (fun sim => Forall (interned p) (s_epochs sim)) row));
    try eassumption.
  - apply extends_refl.
  - apply extends_trans.
  - intros s s' b.
    apply (Forall_extends (fun p sim => Forall (interned p) (s_epochs sim))).
    intros s1 s2 sim. apply (Forall_extends interned). apply interned_extends.
  - intros s a s' b Hrow.
    eapply (mapAccum_stable initEpochs extends
              (fun p sim => Forall (interned p) (s_epochs sim)));
      try eassumption.
    + apply extends_refl.
    + apply extends_trans.
    + intros s1 s2 sim. apply (Forall_extends interned).
      apply interned_extends.
    + intros s1 a1 s2 b1 Hs. eapply initEpochs_interned. exact Hs.
Qed.

Lemma initProtocols_interned (pool : list UniqueEpoch) (names : list string)
    (protocols protocols' : list Protocol) (pool' : list UniqueEpoch) :
  initProtocols pool names protocols = (pool', protocols') ->
  Forall (interned pool') (flat_map protocolEpochs protocols').
Proof.
  unfold initProtocols. intros H.
  assert (Forall (fun protocol =>
            Forall (fun row =>
              Forall (fun sim => Forall (interned pool') (s_epochs sim)) row)
              (p_simulations protocol)) protocols') as HF.
  { eapply (mapAccum_stable
              (fun uniqueEpochs protocol => init uniqueEpochs names protocol)
              extends
              (fun p protocol =>
                 Forall (fun row =>
                   Forall (fun sim => Forall (interned p) (s_epochs sim)) row)
                   (p_simulations protocol))); try eassumption.
    - apply extends_refl.
    - apply extends_trans.
    - intros s s' b.
      apply (Forall_extends
               (fun p row =>
                  Forall (fun sim => Forall (interned p) (s_epochs sim)) row)).
      intros s1 s2 row.
      apply (Forall_extends (fun p sim => Forall (interned p) (s_epochs sim))).
      intros s3 s4 sim. apply (Forall_extends interned).
      apply interned_extends.
    - intros s a s' b Hs. eapply init_interned. exact Hs. }
  apply Forall_forall. intros e He.
  apply in_flat_map in He. destruct He as (sims & Hs & He).
  unfold protocolEpochs in He.
  apply in_flat_map in He. destruct He as (row & Hr & He).
  apply in_flat_map in He. destruct He as (sim & Hsim & He).
  rewrite Forall_forall in HF. specialize (HF _ Hs).
  rewrite Forall_forall in HF. specialize (HF _ Hr).
  rewrite Forall_forall in HF. specialize (HF _ Hsim).
  rewrite Forall_forall in HF. exact (HF _ He).
Qed.

Lemma interned_pointer_eq (pool : list UniqueEpoch) (e1 e2 : Epoch) :
  interned pool e1 -> interned pool e2 ->
  (e_uniqueEpoch e1 = e_uniqueEpoch e2 <->
   stimuliEq (e_stimuli e1) (e_stimuli e2) = true).
Proof.
  intros (p1 & Hp1 & F1) (p2 & Hp2 & F2). rewrite Hp1, Hp2. split.
  - intros H. injection H as <-.
    destruct (findUnique_found _ _ _ _ F1) as (u1 & N1 & _ & S1).
    destruct (findUnique_found _ _ _ _ F2) as (u2 & N2 & _ & S2).
    rewrite N1 in N2. injection N2 as <-.
    apply stimuliEq_sym in S1. eapply stimuliEq_trans; eassumption.
  - intros H. rewrite (findUnique_ext _ _ _ 0%nat H) in F1. congruence.
Qed.

(** C2.  After [init] has run for the protocols of a session against one
    pool of unique epochs (whatever the pool held before; [initSimulation]
    starts from the empty pool), any two epochs of any simulations have the
    same [uniqueEpoch] pointer if and only if their stimuli maps are equal
    key for key and value for value. *)
Theorem interning_pointer_eq_iff_stimuli_eq (uniqueEpochs : list UniqueEpoch)
    (stateNames : list string) (protocols : list Protocol) :
  forall e1 e2,
    let epochs :=
      flat_map protocolEpochs
        (snd (initProtocols uniqueEpochs stateNames protocols)) in
    In e1 epochs -> In e2 epochs ->
    (e_uniqueEpoch e1 = e_uniqueEpoch e2 <->
     stimuliEq (e_stimuli e1) (e_stimuli e2) = true).
Proof.
  intros e1 e2 epochs H1 H2.
  destruct (initProtocols uniqueEpochs stateNames protocols)
    as [pool' protocols'] eqn:E.
  pose proof (initProtocols_interned _ _ _ _ _ E) as HF.
  rewrite Forall_forall in HF.
  apply (interned_pointer_eq pool'); apply HF; assumption.
Qed.

Lemma interning_pointer_eq_iff_stimuli_eq_witness :
  (In (nth 0 session_epochs nullEpoch) session_epochs /\
   In (nth 2 session_epochs nullEpoch) session_epochs) /\
  (e_uniqueEpoch (nth 0 session_epochs nullEpoch)
   = e_uniqueEpoch (nth 2 session_epochs nullEpoch) <->
   stimuliEq (e_stimuli (nth 0 session_epochs nullEpoch))
             (e_stimuli (nth 2 session_epochs nullEpoch)) = true).
Proof.
  assert (In (nth 0 session_epochs nullEpoch) session_epochs /\
          In (nth 2 session_epochs nullEpoch) session_epochs) as [H0 H2].
  { vm_compute. split; [left; reflexivity|right; right; left; reflexivity]. }
  split; [split; assumption|].
  apply (interning_pointer_eq_iff_stimuli_eq [] ["C"%string; "O"%string]
           session_two_sims); assumption.
Defined.

Example session_epochs_pointers :
  map e_uniqueEpoch session_epochs = [Some 0%nat; Some 1%nat; Some 0%nat].
Proof. vm_compute. reflexivity. Qed.

(** ** findIndexesInRange (C5) *)

Lemma minCoeffFrom_firstMin (l : list Q) :
  forall pre c,
    firstMin pre c ->
    exists r,
      minCoeffFrom l (Z.of_nat (List.length pre)) (nth c pre 0) (Z.of_nat c)
        = Z.of_nat r /\
      firstMin (pre ++ l) r.
Proof.
  induction l as [|v l IH]; intros pre c Hc.
  - exists c. rewrite app_nil_r. split; [reflexivity|exact Hc].
  - destruct Hc as (Hlt & Hmin & Hfirst). simpl.
    replace (Z.of_nat (List.length pre) + 1)%Z
      with (Z.of_nat (List.length (pre ++ [v])))
      by (rewrite length_app; simpl; lia).
    replace (pre ++ v :: l) with ((pre ++ [v]) ++ l)
      by (rewrite <- app_assoc; reflexivity).
    destruct (Qlt_bool v (nth c pre 0)) eqn:E.
    + apply Qlt_bool_iff in E.
      assert (firstMin (pre ++ [v]) (List.length pre)) as HF.
      { unfold firstMin. rewrite length_app, nth_middle. simpl.
        split; [lia|]. split.
        - intros k Hk. destruct (Nat.eq_dec k (List.length pre)) as [->|Hne].
          + rewrite nth_middle. apply Qle_refl.
          + rewrite app_nth1 by lia. specialize (Hmin k ltac:(lia)). lra.
        - intros k Hk. rewrite app_nth1 by lia. specialize (Hmin k Hk). lra. }
      destruct (IH _ _ HF) as (r & Hr & HrF).
      rewrite nth_middle in Hr. exists r. split; assumption.
    + apply Qlt_bool_false in E.
      assert (firstMin (pre ++ [v]) c) as HF.
      { unfold firstMin. rewrite length_app. simpl.
        rewrite (app_nth1 pre [v] 0 Hlt).
        split; [lia|]. split.
        - intros k Hk. destruct (Nat.eq_dec k (List.length pre)) as [->|Hne].
          + rewrite nth_middle. exact E.
          + rewrite app_nth1 by lia. apply Hmin. lia.
        - intros k Hk. rewrite app_nth1 by lia. apply Hfirst. exact Hk. }
      destruct (IH _ _ HF) as (r & Hr & HrF).
      rewrite (app_nth1 pre [v] 0 Hlt) in Hr. exists r. split; assumption.
Qed.

Lemma minCoeffIndex_firstMin (l : list Q) :
  l <> [] -> exists r, minCoeffIndex l = Z.of_nat r /\ firstMin l r.
Proof.
  destruct l as [|v l]; [congruence|]. intros _.
  assert (firstMin [v] 0) as HF.
  { unfold firstMin. simpl. split; [lia|]. split.
    - intros k Hk. replace k with 0%nat by lia. apply Qle_refl.
    - intros k Hk. lia. }
  destruct (minCoeffFrom_firstMin l [v] 0%nat HF) as (r & Hr & HrF).
  exists r. split; assumption.
Qed.

Lemma nth_map_abs (time : list Q) (a : Q) (k : nat) :
  (k < List.length time)%nat ->
  nth k (map (fun t => Qabs (t - a)) time) 0 = Qabs (nth k time 0 - a).
Proof.
  intros Hk.
  rewrite (nth_indep _ 0 ((fun t => Qabs (t - a)) 0))
    by (rewrite length_map; exact Hk).
  exact (map_nth (fun t => Qabs (t - a)) time 0 k).
Qed.

Lemma closestIndex_closest (time : list Q) (a : Q) :
  time <> [] ->
  exists c, closestIndex time a = Z.of_nat c /\ closest time a c.
Proof.
  intros Hne. unfold closestIndex.
  destruct (minCoeffIndex_firstMin (map (fun t => Qabs (t - a)) time))
    as (c & Hc & Hlt & Hmin & Hfirst).
  { destruct time; [congruence|discriminate]. }
  rewrite length_map in Hlt, Hmin.
  exists c. split; [exact Hc|]. split; [exact Hlt|]. split.
  - intros k Hk. specialize (Hmin k Hk).
    rewrite !nth_map_abs in Hmin by assumption. exact Hmin.
  - intros k Hk. specialize (Hfirst k Hk).
    rewrite !nth_map_abs in Hfirst by lia. exact Hfirst.
Qed.

(** A sample strictly closer to [s] than an earlier sample, which in turn is
    at least as close to [e] as the later one, puts [e] strictly below [s]. *)
Lemma closer_order (a b s e : Q) :
  a < b -> Qabs (b - s) < Qabs (a - s) -> Qabs (a - e) <= Qabs (b - e) -> e < s.
Proof.
  intros Hab H1 H2. revert H1 H2.
  apply (Qabs_case (b - s)); apply (Qabs_case (a - s));
    apply (Qabs_case (a - e)); apply (Qabs_case (b - e)); intros; lra.
Qed.

Lemma closest_monotone (time : list Q) (s e : Q) (cs ce : nat) :
  increasing time -> s <= e ->
  closest time s cs -> closest time e ce -> (cs <= ce)%nat.
Proof.
  intros Hinc Hse (Hs1 & Hs2 & Hs3) (He1 & He2 & He3).
  destruct (le_lt_dec cs ce) as [Hle|Hgt]; [exact Hle|exfalso].
  pose proof (Hinc ce cs Hgt Hs1) as Hab.
  pose proof (closer_order _ _ _ _ Hab (Hs3 ce Hgt) (He2 cs Hs1)). lra.
Qed.

Lemma zth_of_nat (l : list Q) (k : nat) : zth l (Z.of_nat k) = nth k l 0.
Proof.
  unfold zth. destruct (Z.ltb_spec (Z.of_nat k) 0); [lia|].
  rewrite Nat2Z.id. reflexivity.
Qed.

Lemma indexAtOrAfter_monotone (time : list Q) (s e eps : Q) :
  time <> [] -> increasing time -> s <= e ->
  (indexAtOrAfter time s eps <= indexAtOrAfter time e eps)%Z.
Proof.
  intros Hne Hinc Hse. unfold indexAtOrAfter.
  destruct (closestIndex_closest time s Hne) as (cs & -> & Hcs).
  destruct (closestIndex_closest time e Hne) as (ce & -> & Hce).
  pose proof (closest_monotone _ _ _ _ _ Hinc Hse Hcs Hce) as Hle.
  rewrite !zth_of_nat.
  destruct (Qlt_bool (nth cs time 0) (s - eps)) eqn:Es;
    destruct (Qlt_bool (nth ce time 0) (e - eps)) eqn:Ee; try lia.
  destruct (Nat.eq_dec cs ce) as [->|Hne']; [|lia].
  apply Qlt_bool_iff in Es. apply Qlt_bool_false in Ee. lra.
Qed.

Lemma increasing_0123 : increasing [0; 1; 2; 3].
Proof.
  intros i j Hij Hj. simpl in Hj.
  destruct j as [|[|[|[|j]]]]; try lia;
    destruct i as [|[|[|i]]]; try lia; simpl; lra.
Qed.

(** As the specification words it, C5 fails: for [stop < start] the
    returned [numPts] is negative, where [max(0, endPt - firstPt)] is [0]. *)
Lemma findIndexesInRange_numPts_negative :
  let time := [0; 1; 2; 3] in
  let firstPt := indexAtOrAfter time 2 (defaultEpsilon 0) in
  let endPt := indexAtOrAfter time 0 (defaultEpsilon 0) in
  increasing time /\
  findIndexesInRange time 2 0 0 = (2%Z, (-2)%Z) /\
  snd (findIndexesInRange time 2 0 0) <> Z.max 0 (endPt - firstPt) /\
  ~ (0 <= snd (findIndexesInRange time 2 0 0))%Z.
Proof.
  split.
  - exact increasing_0123.
  - split; [vm_compute; reflexivity|].
    split; vm_compute; intros H; try discriminate H.
    apply H. reflexivity.
Qed.

(** C5 (as the code has it).  For a non-empty, strictly increasing time
    vector, [findIndexesInRange] returns [firstPt], the index of the sample
    closest to [start] advanced by one when that sample lies below
    [start - epsilon]; [numPts] is [endPt - firstPt] without clamping when
    [firstPt] is a valid index ([endPt] the analogous index for [stop]) and
    [0] otherwise; [numPts] is non-negative whenever [start <= stop]. *)
Theorem findIndexesInRange_spec (time : list Q) (start stop epsilon : Q) :
  time <> [] -> increasing time ->
  let eps := defaultEpsilon epsilon in
  let firstPt := fst (findIndexesInRange time start stop epsilon) in
  let numPts := snd (findIndexesInRange time start stop epsilon) in
  (exists cs ce,
      closest time start cs /\ closest time stop ce /\
      firstPt = (Z.of_nat cs +
                 (if Qlt_bool (nth cs time 0%Q) (start - eps)%Q then 1 else 0))%Z /\
      let endPt := (Z.of_nat ce +
                    (if Qlt_bool (nth ce time 0%Q) (stop - eps)%Q then 1 else 0))%Z in
      numPts = if (firstPt <? Z.of_nat (List.length time))%Z
               then (endPt - firstPt)%Z else 0%Z) /\
  (start <= stop -> (0 <= numPts)%Z).
Proof.
  intros Hne Hinc eps firstPt numPts. split.
  - destruct (closestIndex_closest time start Hne) as (cs & Ecs & Hcs).
    destruct (closestIndex_closest time stop Hne) as (ce & Ece & Hce).
    exists cs, ce. split; [exact Hcs|]. split; [exact Hce|].
    assert (indexAtOrAfter time start eps
            = (Z.of_nat cs +
               (if Qlt_bool (nth cs time 0%Q) (start - eps)%Q then 1 else 0))%Z)
      as Hfirst.
    { unfold indexAtOrAfter. rewrite Ecs, zth_of_nat.
      destruct (Qlt_bool (nth cs time 0) (start - eps)); lia. }
    assert (indexAtOrAfter time stop eps
            = (Z.of_nat ce +
               (if Qlt_bool (nth ce time 0%Q) (stop - eps)%Q then 1 else 0))%Z)
      as Hend.
    { unfold indexAtOrAfter. rewrite Ece, zth_of_nat.
      destruct (Qlt_bool (nth ce time 0) (stop - eps)); lia. }
    subst firstPt numPts. unfold findIndexesInRange. fold eps.
    rewrite <- Hfirst, <- Hend.
    destruct (indexAtOrAfter time start eps <? Z.of_nat (List.length time))%Z
      eqn:E; simpl; rewrite E; split; reflexivity.
  - intros Hse. subst numPts. unfold findIndexesInRange. fold eps.
    pose proof (indexAtOrAfter_monotone time start stop eps Hne Hinc Hse).
    destruct (indexAtOrAfter time start eps <? Z.of_nat (List.length time))%Z;
      simpl; lia.
Qed.

Lemma findIndexesInRange_spec_witness :
  Z.le 0 (snd (findIndexesInRange [0; 1; 2; 3] 1 3 0)).
Proof.
  apply (findIndexesInRange_spec [0; 1; 2; 3] 1 3 0);
    [discriminate|exact increasing_0123|lra].
Defined.

(** ** sampleArray (C8) *)

Lemma stepsLeft_nonneg (i d n : Z) : (0 <= stepsLeft i d n)%Z.
Proof.
  unfold stepsLeft, inRange.
  destruct (Z.leb_spec 0 i); destruct (Z.ltb_spec i n); simpl;
    try lia; destruct (d =? 1)%Z; lia.
Qed.

Lemma stepsLeft_step (i d n : Z) :
  d = 1%Z \/ d = (-1)%Z -> inRange i n = true ->
  (stepsLeft (i + d) d n <= stepsLeft i d n - 1)%Z.
Proof.
  intros Hd Hi. unfold stepsLeft. rewrite Hi. unfold inRange in *.
  apply andb_prop in Hi. destruct Hi as [H0 Hn].
  apply Z.leb_le in H0. apply Z.ltb_lt in Hn.
  destruct Hd as [-> | ->].
  - destruct (Z.leb_spec 0 (i + 1)); destruct (Z.ltb_spec (i + 1) n);
      simpl; lia.
  - destruct (Z.leb_spec 0 (i + -1)); destruct (Z.ltb_spec (i + -1) n);
      simpl; lia.
Qed.

Section SampleArrayFacts.
Variables (xref yref : list Q) (nref : Z) (x : list Q) (n : Z).
Variables (x0 epsilon : Q) (di diref : Z).
Hypothesis Hdi : di = 1%Z \/ di = (-1)%Z.
Hypothesis Hdiref : diref = 1%Z \/ diref = (-1)%Z.

Let cond := sampleCond nref n.
Let step := sampleStep xref yref nref x x0 epsilon di diref.
Let loop := sampleLoop xref yref nref x n x0 epsilon di diref.
Local Notation measure := (sampleMeasure nref n di diref).

Lemma sampleStep_decreases (st : SampleState) :
  cond st = true -> (measure (step st) <= measure st - 1)%Z.
Proof.
  unfold cond, sampleCond. intros H. apply andb_prop in H.
  destruct H as [Hi Hr].
  pose proof (stepsLeft_step _ _ _ Hdi Hi) as Si.
  pose proof (stepsLeft_step _ _ _ Hdiref Hr) as Sr.
  pose proof (stepsLeft_nonneg (sa_i st) di n).
  pose proof (stepsLeft_nonneg (sa_iref st) diref nref).
  unfold sampleMeasure, step, sampleStep.
  destruct (Qlt_bool _ _); [simpl; lia|].
  destruct (Qlt_bool _ _); [simpl; lia|].
  destruct (_ && _); simpl; lia.
Qed.

(** The fuel given to the loop is enough: it stops because its condition
    fails, not because the fuel runs out. *)
Lemma sampleLoop_exits_from (fuel : nat) :
  forall st,
    (measure st <= Z.of_nat fuel)%Z -> cond (loop fuel st) = false.
Proof.
  induction fuel as [|fuel IH]; intros st Hm.
  - simpl. destruct (cond st) eqn:E; [|reflexivity].
    pose proof (sampleStep_decreases st E) as Hd.
    pose proof (stepsLeft_nonneg (sa_i (step st)) di n).
    pose proof (stepsLeft_nonneg (sa_iref (step st)) diref nref).
    unfold sampleMeasure in *. lia.
  - simpl. fold cond. destruct (cond st) eqn:E; [|exact E].
    apply IH. pose proof (sampleStep_decreases st E). fold step. lia.
Qed.
End SampleArrayFacts.

Lemma stepsLeft_bound (i d n : Z) : (stepsLeft i d n <= Z.of_nat (Z.to_nat n))%Z.
Proof.
  unfold stepsLeft, inRange.
  destruct (Z.leb_spec 0 i); destruct (Z.ltb_spec i n); simpl;
    try lia; destruct (d =? 1)%Z; lia.
Qed.

(** [sampleArray]'s loop has run to its end within the [n + nref]
    iterations it is given. *)
Lemma sampleLoop_exits (xref yref : list Q) (nref : Z) (x y : list Q) (n : Z)
    (x0 epsilon : Q) (di diref i iref : Z) :
  di = 1%Z \/ di = (-1)%Z -> diref = 1%Z \/ diref = (-1)%Z ->
  sampleCond nref n
    (sampleLoop xref yref nref x n x0 epsilon di diref
       (Z.to_nat n + Z.to_nat nref) (mkSampleState i iref y (-1))) = false.
Proof.
  intros Hdi Hdiref. apply sampleLoop_exits_from; [assumption|assumption|].
  unfold sampleMeasure. simpl.
  pose proof (stepsLeft_bound i di n). pose proof (stepsLeft_bound iref diref nref).
  lia.
Qed.

Lemma replaceNth_prefix (yref y : list Q) :
  forall k,
    (k < List.length yref)%nat -> List.length y = List.length yref ->
    replaceNth k (nth k yref 0) (firstn k yref ++ skipn k y)
    = firstn (S k) yref ++ skipn (S k) y.
Proof.
  revert y. induction yref as [|a yref IH]; intros y k Hk Hlen.
  - simpl in Hk. lia.
  - destruct y as [|b y]; [discriminate|]. destruct k as [|k].
    + reflexivity.
    + simpl. f_equal. apply IH; simpl in *; lia.
Qed.

(** Along the diagonal: with the reference grid equal to the sample grid and
    no shift, each iteration copies one reference value and moves both
    cursors. *)
Lemma sampleStep_identity (x yref y : list Q) (nref : Z) (eps : Q) (k : nat) :
  0 < eps -> (k < List.length yref)%nat -> List.length y = List.length yref ->
  sampleStep x yref nref x 0 eps 1 1
    (mkSampleState (Z.of_nat k) (Z.of_nat k)
       (firstn k yref ++ skipn k y) (if k then -1 else 0)%Z)
  = mkSampleState (Z.of_nat (S k)) (Z.of_nat (S k))
      (firstn (S k) yref ++ skipn (S k) y) 0.
Proof.
  intros Heps Hk Hy. unfold sampleStep.
  cbn [sa_i sa_iref sa_y sa_firstPt]. rewrite !zth_of_nat.
  assert (Qlt_bool (nth k x 0) (nth k x 0 - 0 - eps) = false) as ->
    by (apply Qlt_bool_false; lra).
  assert (Qlt_bool (Qabs (nth k x 0 - (nth k x 0 - 0))) eps = true) as ->.
  { apply Qlt_bool_iff.
    apply (Qabs_case (nth k x 0 - (nth k x 0 - 0))); intros; lra. }
  unfold setAt. destruct (Z.ltb_spec (Z.of_nat k) 0); [lia|].
  rewrite Nat2Z.id, replaceNth_prefix by lia.
  assert (markFirst (if k then -1 else 0) (Z.of_nat k) = 0%Z) as ->
    by (destruct k; reflexivity).
  replace (Z.of_nat k + 1)%Z with (Z.of_nat (S k)) by lia.
  reflexivity.
Qed.

Lemma sampleLoop_identity (x yref : list Q) (eps : Q) :
  0 < eps -> List.length yref = List.length x ->
  forall m k y fuel,
    (k + m = List.length x)%nat -> (m <= fuel)%nat ->
    List.length y = List.length x -> (0 < m)%nat ->
    sampleLoop x yref (Z.of_nat (List.length x)) x (Z.of_nat (List.length x))
      0 eps 1 1 fuel
      (mkSampleState (Z.of_nat k) (Z.of_nat k)
         (firstn k yref ++ skipn k y) (if k then -1 else 0)%Z)
    = mkSampleState (Z.of_nat (List.length x)) (Z.of_nat (List.length x))
        yref 0.
Proof.
  intros Heps Hlen. induction m as [|m IH]; intros k y fuel Hk Hfuel Hy Hm;
    [lia|].
  destruct fuel as [|fuel]; [lia|]. cbn [sampleLoop].
  unfold sampleCond at 1. cbn [sa_i sa_iref]. unfold inRange.
  destruct (Z.leb_spec 0 (Z.of_nat k)); [|lia].
  destruct (Z.ltb_spec (Z.of_nat k) (Z.of_nat (List.length x))); [|lia].
  cbn [andb]. rewrite sampleStep_identity by (assumption || lia).
  destruct m as [|m].
  - assert (S k = List.length x) as Hend by lia.
    replace (firstn (S k) yref) with yref
      by (symmetry; apply firstn_all2; lia).
    replace (skipn (S k) y) with (@nil Q)
      by (symmetry; apply skipn_all2; lia).
    rewrite app_nil_r, Hend.
    destruct fuel; cbn [sampleLoop]; [reflexivity|].
    unfold sampleCond. cbn [sa_i sa_iref]. unfold inRange.
    destruct (Z.ltb_spec (Z.of_nat (List.length x)) (Z.of_nat (List.length x)));
      [lia|]. rewrite andb_false_r. reflexivity.
  - apply (IH (S k) y fuel); lia.
Qed.

(** C8.  Round trip of the reference resampler: for a non-empty, strictly
    increasing grid [x], if [sampleArray] is called with [xref] identical to
    [x], [yref] (and the output buffer) of the same length, [x0 = 0] and a
    positive [epsilon], it returns [firstPt = 0] and [numPts = N], and the
    output holds [y[i] = yref[i]] for every [i] in [[0, N)]. *)
Theorem sampleArray_roundtrip (x yref y : list Q) (epsilon : Q) :
  x <> [] -> increasing x ->
  List.length yref = List.length x -> List.length y = List.length x ->
  0 < epsilon ->
  let N := Z.of_nat (List.length x) in
  sampleArray x yref N x y N 0 epsilon = (yref, 0%Z, N).
Proof.
  intros Hne Hinc Hlen Hy Heps N. unfold sampleArray.
  assert (defaultEpsilon epsilon = epsilon) as ->.
  { unfold defaultEpsilon. destruct (Qeq_bool epsilon 0) eqn:E; [|reflexivity].
    apply Qeq_bool_iff in E. lra. }
  assert (negb ((2 <=? N)%Z && Qlt_bool (zth x 1 - zth x 0) 0) = true) as ->.
  { apply negb_true_iff. destruct (Z.leb_spec 2 N); [|reflexivity]. simpl.
    apply Qlt_bool_false.
    change (zth x 1) with (zth x (Z.of_nat 1)).
    change (zth x 0) with (zth x (Z.of_nat 0)).
    rewrite !zth_of_nat. pose proof (Hinc 0%nat 1%nat). subst N.
    assert (nth 0 x 0 < nth 1 x 0) by (apply H0; lia). lra. }
  assert (0 < List.length x)%nat as Hpos by (destruct x; [congruence|simpl; lia]).
  pose proof (sampleLoop_identity x yref epsilon Heps Hlen (List.length x) 0%nat y
                (Z.to_nat N + Z.to_nat N)%nat) as HL.
  simpl in HL. subst N. rewrite HL by lia. simpl.
  f_equal. lia.
Qed.

Lemma sampleArray_roundtrip_witness :
  sampleArray [0; 1; 2; 3] [7; 8; 9; 10] 4 [0; 1; 2; 3] [0; 0; 0; 0] 4 0 (1 # 100)
  = ([7; 8; 9; 10], 0%Z, 4%Z).
Proof.
  apply (sampleArray_roundtrip [0; 1; 2; 3] [7; 8; 9; 10] [0; 0; 0; 0] (1 # 100));
    [discriminate|exact increasing_0123|reflexivity|reflexivity|reflexivity].
Defined.

(** ** Summary normalisation (C6) *)

Lemma maxCoeffFrom_ge (l : list Q) :
  forall best,
    best <= maxCoeffFrom l best /\
    (forall v, In v l -> v <= maxCoeffFrom l best).
Proof.
  induction l as [|a l IH]; intros best; simpl.
  - split; [apply Qle_refl|intros v []].
  - destruct (IH (if Qlt_bool best a then a else best)) as [H1 H2].
    destruct (Qlt_bool best a) eqn:E.
    + apply Qlt_bool_iff in E. split; [lra|].
      intros v [<-|Hv]; [exact H1|apply H2; exact Hv].
    + apply Qlt_bool_false in E. split; [exact H1|].
      intros v [<-|Hv]; [lra|apply H2; exact Hv].
Qed.

Lemma maxCoeff_ge (l : list Q) (v : Q) : In v l -> v <= maxCoeff l.
Proof.
  destruct l as [|a l]; intros H; [destruct H|]. simpl.
  destruct (maxCoeffFrom_ge l a) as [H1 H2].
  destruct H as [<-|H]; [exact H1|apply H2; exact H].
Qed.

(** A zero denominator means that every coefficient is zero. *)
Lemma absMaxCoeff_zero (l : list Q) (v : Q) :
  absMaxCoeff l == 0 -> In v l -> v == 0.
Proof.
  intros Hz Hv. unfold absMaxCoeff in Hz.
  assert (Qabs v <= 0) as Hle.
  { rewrite <- Hz. apply maxCoeff_ge. apply in_map. exact Hv. }
  revert Hle. apply (Qabs_case v); intros; lra.
Qed.

Lemma xdiv_zero_denominator (l : list Q) :
  absMaxCoeff l == 0 ->
  forall sub, incl sub l ->
    map (fun v => xdiv v (absMaxCoeff l)) sub = map (fun _ => NaN) sub.
Proof.
  intros Hz sub Hsub. apply map_ext_in. intros v Hv. unfold xdiv.
  apply Qeq_bool_iff in Hz. rewrite Hz.
  assert (Qeq_bool v 0 = true) as ->; [|reflexivity].
  apply Qeq_bool_iff. apply (absMaxCoeff_zero l); [|apply Hsub; exact Hv].
  apply Qeq_bool_iff. exact Hz.
Qed.

Lemma xdiv_nonzero_denominator (d : Q) (sub : list Q) :
  ~ d == 0 ->
  map (fun v => xdiv v d) sub = map (fun v => Finite (v / d)) sub.
Proof.
  intros Hd. apply map_ext. intros v. unfold xdiv.
  destruct (Qeq_bool d 0) eqn:E; [|reflexivity].
  apply Qeq_bool_iff in E. contradiction.
Qed.

(** As the specification words it, C6 fails: a summary row that is all
    zero is not left unchanged, every entry becomes [0 / 0]. *)
Lemma normalizeSummary_zero_row_not_unchanged :
  normalizeSummary PerRow [[0; 0]] = [[NaN; NaN]] /\
  normalizeSummary AllRows [[0; 0]] = [[NaN; NaN]] /\
  normalizeSummary PerRow [[0; 0]] <> map (map Finite) [[0; 0]] /\
  normalizeSummary AllRows [[0; 0]] <> map (map Finite) [[0; 0]].
Proof.
  split; [reflexivity|]. split; [reflexivity|].
  split; intros H; discriminate H.
Qed.

(** C6 (as the code has it).  The summary normalisation has no guard for a
    zero denominator.  With PerRow every row is divided by the maximum
    absolute value of that row, with AllRows the whole matrix by the maximum
    absolute value of the matrix: when the denominator is not zero every
    entry is the exact quotient, and when it is zero every entry of the row
    (of the matrix) becomes [0 / 0], that is NaN. *)
Theorem normalizeSummary_spec (dataY : Matrix) :
  (forall r row,
      nth_error dataY r = Some row ->
      nth_error (normalizeSummary PerRow dataY) r
      = Some (if Qeq_bool (absMaxCoeff row) 0
              then map (fun _ => NaN) row
              else map (fun v => Finite (v / absMaxCoeff row)) row)) /\
  normalizeSummary AllRows dataY
  = (if Qeq_bool (absMaxCoeff (List.concat dataY)) 0
     then map (map (fun _ => NaN)) dataY
     else map (map (fun v => Finite (v / absMaxCoeff (List.concat dataY)))) dataY).
Proof.
  split.
  - intros r row Hr. unfold normalizeSummary.
    rewrite nth_error_map, Hr. simpl. f_equal.
    destruct (Qeq_bool (absMaxCoeff row) 0) eqn:E.
    + apply xdiv_zero_denominator; [apply Qeq_bool_iff; exact E|apply incl_refl].
    + apply xdiv_nonzero_denominator. intros H. apply Qeq_bool_iff in H.
      congruence.
  - unfold normalizeSummary.
    destruct (Qeq_bool (absMaxCoeff (List.concat dataY)) 0) eqn:E.
    + apply map_ext_in. intros row Hrow.
      apply xdiv_zero_denominator; [apply Qeq_bool_iff; exact E|].
      intros v Hv. apply in_concat. exists row. split; assumption.
    + apply map_ext. intros row.
      apply xdiv_nonzero_denominator. intros H. apply Qeq_bool_iff in H.
      congruence.
Qed.

(** ** The cost is linear in each reference weight (C9) *)

(** A loop that adds one term per element to a running total computes the
    total plus the sum of the terms. *)
Lemma fold_left_additive {A : Type} (step : Q -> A -> Q) (g : A -> Q) :
  (forall c a, step c a == c + g a) ->
  forall l c, fold_left step l c == c + sumQ (map g l).
Proof.
  intros Hstep. induction l as [|a l IH]; intros c; simpl.
  - ring.
  - rewrite IH, Hstep. ring.
Qed.

Lemma sumQ_map_ext {A : Type} (f g : A -> Q) (l : list A) :
  (forall a, In a l -> f a == g a) -> sumQ (map f l) == sumQ (map g l).
Proof.
  induction l as [|a l IH]; intros H; simpl; [reflexivity|].
  rewrite (H a (or_introl eq_refl)), IH; [reflexivity|].
  intros b Hb. apply H. right. exact Hb.
Qed.

Lemma sumQ_map_updateAt {A : Type} (g : A -> Q) (f : A -> A) (l : list A) :
  forall i a,
    nth_error l i = Some a ->
    sumQ (map g (updateAt i f l)) == sumQ (map g l) + (g (f a) - g a).
Proof.
  induction l as [|b l IH]; intros i a H.
  - destruct i; discriminate.
  - destruct i as [|i]; simpl in *.
    + injection H as ->. ring.
    + rewrite (IH _ _ H). ring.
Qed.

Lemma combine_seq_updateAt {A : Type} (f : A -> A) (l : list A) :
  forall i s,
    combine (seq s (List.length (updateAt i f l))) (updateAt i f l)
    = updateAt i (fun kx => (fst kx, f (snd kx)))
               (combine (seq s (List.length l)) l).
Proof.
  induction l as [|a l IH]; intros i s; [destruct i; reflexivity|].
  destruct i as [|i]; simpl.
  - reflexivity.
  - rewrite IH. reflexivity.
Qed.

Lemma indexed_updateAt {A : Type} (f : A -> A) (l : list A) (i : nat) :
  indexed (updateAt i f l)
  = updateAt i (fun kx => (fst kx, f (snd kx))) (indexed l).
Proof. apply combine_seq_updateAt. Qed.

Lemma combine_seq_nth_error {A : Type} (l : list A) :
  forall i s a,
    nth_error l i = Some a ->
    nth_error (combine (seq s (List.length l)) l) i = Some ((s + i)%nat, a).
Proof.
  induction l as [|b l IH]; intros i s a H; [destruct i; discriminate|].
  destruct i as [|i]; simpl in *.
  - injection H as ->. rewrite Nat.add_0_r. reflexivity.
  - rewrite (IH _ _ _ H). do 2 f_equal. lia.
Qed.

Lemma indexed_nth_error {A : Type} (l : list A) (i : nat) (a : A) :
  nth_error l i = Some a -> nth_error (indexed l) i = Some (i, a).
Proof. intros H. apply (combine_seq_nth_error l i 0%nat a H). Qed.

Lemma simulationCost_sum (stateNames : list string) (c : Q) (sim : Simulation) :
  simulationCost stateNames c sim == c + simulationSum stateNames sim.
Proof.
  unfold simulationCost, simulationSum.
  apply (fold_left_additive _ (variableSetSum stateNames sim)).
  intros c0 vr. unfold variableSetSum.
  apply (fold_left_additive _ (referenceCost stateNames sim (fst vr))).
  intros c1 kv. reflexivity.
Qed.

Lemma summaryCost_sum (c : Q) (summary : SimulationsSummary) :
  summaryCost c summary == c + summarySum summary.
Proof.
  unfold summaryCost, summarySum.
  destruct (sm_isActive summary); [|ring].
  apply (fold_left_additive _
           (fun vr : nat * list RefData =>
              sumQ (map (fun rr : nat * RefData =>
                           summaryReferenceCost summary (fst vr) (fst rr)
                                                (snd rr))
                        (indexed (snd vr))))).
  intros c0 vr.
  apply (fold_left_additive _
           (fun rr : nat * RefData =>
              summaryReferenceCost summary (fst vr) (fst rr) (snd rr))).
  intros c1 rr. reflexivity.
Qed.

Lemma cost_sum (protocol : Protocol) :
  cost protocol
  == sumQ (map (rowSum (p_stateNames protocol)) (p_simulations protocol))
     + sumQ (map summarySum (p_summaries protocol)).
Proof.
  unfold cost.
  rewrite (fold_left_additive summaryCost summarySum summaryCost_sum).
  rewrite (fold_left_additive _ (rowSum (p_stateNames protocol))).
  - ring.
  - intros c row. unfold rowSum.
    apply (fold_left_additive _ (simulationSum (p_stateNames protocol))).
    intros c0 sim. apply simulationCost_sum.
Qed.

Lemma referenceCost_scale (stateNames : list string) (sim : Simulation)
    (v : nat) (kv : string * RefData) (k : Q) :
  referenceCost stateNames sim v (fst kv, scaleRefWeight k (snd kv))
  == k * referenceCost stateNames sim v kv.
Proof.
  unfold referenceCost, weightedSquares. simpl.
  destruct (0 <? r_numPts (snd kv))%Z; [|ring].
  destruct (getSimulationWaveform stateNames (fst kv) sim v) as [[y n]|]; [|ring].
  destruct (0 <? n)%Z; ring.
Qed.

Lemma simulationSum_scale (stateNames : list string) (sim : Simulation)
    (v j : nat) (k : Q) (refs : list (string * RefData)) (kv : string * RefData) :
  nth_error (s_referenceData sim) v = Some refs ->
  nth_error refs j = Some kv ->
  simulationSum stateNames
    (set_referenceData sim
       (updateAt v (updateAt j (fun kv => (fst kv, scaleRefWeight k (snd kv))))
                 (s_referenceData sim)))
  == simulationSum stateNames sim
     + (k - 1) * referenceCost stateNames sim v kv.
Proof.
  intros Hv Hj. unfold simulationSum. cbn [s_referenceData set_referenceData].
  rewrite indexed_updateAt.
  rewrite (sumQ_map_ext
             (variableSetSum stateNames (set_referenceData sim _))
             (variableSetSum stateNames sim)) by (intros a _; reflexivity).
  rewrite (sumQ_map_updateAt _ _ _ v (v, refs) (indexed_nth_error _ _ _ Hv)).
  unfold variableSetSum at 2 3. cbn [fst snd].
  rewrite (sumQ_map_updateAt _ _ _ j kv Hj).
  rewrite referenceCost_scale. ring.
Qed.

Lemma summaryReferenceCost_scale (summary : SimulationsSummary) (v r : nat)
    (refData : RefData) (k : Q) :
  summaryReferenceCost summary v r (scaleRefWeight k refData)
  == k * summaryReferenceCost summary v r refData.
Proof.
  unfold summaryReferenceCost, squares. simpl.
  destruct (0 <? r_numPts refData)%Z; ring.
Qed.

Lemma summarySum_scale (summary : SimulationsSummary) (v r : nat) (k : Q)
    (refs : list RefData) (refData : RefData) :
  nth_error (sm_referenceData summary) v = Some refs ->
  nth_error refs r = Some refData ->
  summarySum
    (set_summaryReferenceData summary
       (updateAt v (updateAt r (scaleRefWeight k)) (sm_referenceData summary)))
  == summarySum summary
     + (k - 1) * (if sm_isActive summary
                  then summaryReferenceCost summary v r refData else 0).
Proof.
  intros Hv Hr. unfold summarySum.
  cbn [sm_isActive sm_referenceData set_summaryReferenceData].
  destruct (sm_isActive summary); [|ring].
  rewrite indexed_updateAt.
  rewrite (sumQ_map_updateAt _ _ _ v (v, refs) (indexed_nth_error _ _ _ Hv)).
  cbn [fst snd]. rewrite indexed_updateAt.
  rewrite (sumQ_map_updateAt _ _ _ r (r, refData)
             (indexed_nth_error _ _ _ Hr)).
  cbn [fst snd].
  change (summaryReferenceCost
            (set_summaryReferenceData summary
               (updateAt v (updateAt r (scaleRefWeight k))
                         (sm_referenceData summary))))
    with (summaryReferenceCost summary).
  rewrite summaryReferenceCost_scale. ring.
Qed.

(** The original wording does not hold for every reference curve with
    [numPts > 0]: before the simulation has run no probability matrix is
    stored, [getSimulationWaveform] leaves the buffer of a curve named after
    a state null (without looking at the stimulus of that name), and the
    curve adds nothing to the cost, whatever its squares against that
    stimulus are. *)
Lemma cost_reference_without_buffer :
  (0 < r_numPts ref_on_V)%Z /\
  getSimulationWaveform (p_stateNames protocol_not_run) "O" sim_not_run 0
  = None /\
  referenceCost (p_stateNames protocol_not_run) sim_not_run 0
                ("O"%string, ref_on_V) == 0 /\
  cost protocol_not_run == 0 /\
  lookup (s_stimuli sim_not_run) "O" = Some [0; 5; 5] /\
  weightedSquares [0; 5; 5] (s_weight sim_not_run) ref_on_V
  * r_weight ref_on_V == 9 /\
  ~ referenceCost (p_stateNames protocol_not_run) sim_not_run 0
                  ("O"%string, ref_on_V)
    == weightedSquares [0; 5; 5] (s_weight sim_not_run) ref_on_V
       * r_weight ref_on_V.
Proof.
  split; [reflexivity|]. split; [reflexivity|].
  split; [reflexivity|]. split; [reflexivity|].
  split; [reflexivity|]. split; [reflexivity|].
  vm_compute. intros H. discriminate H.
Qed.

(** C9.  The cost is linear in the weight of each reference curve.  A
    reference curve of a simulation with [numPts > 0], on a simulation of
    at least one sample, contributes [(sum over its range of
    (sim_k - ref_k)^2 * simWeight_k) * refWeight], the simulated buffer
    being the probability column of the state of its name once a
    probability matrix is stored for the variable set, else the stimulus of
    its name, else the derived waveform of its name; it contributes nothing
    when [numPts <= 0], when the simulation has no sample or when that
    buffer is missing.  In every case multiplying the weight of the curve
    by [k] multiplies its contribution by [k] and leaves every other
    contribution to [StimulusClampProtocol::cost] as it was.  The reference
    curve of a row of an active summary with [numPts > 0] contributes
    [(sum of (summaryY_k - refY_k)^2) * refWeight], without per-sample
    weights, that of an inactive summary contributes nothing, and the cost
    is linear in its weight in the same way. *)
Theorem cost_linear_in_reference_weight (protocol : Protocol)
    (row col variableSetIndex j : nat) (k : Q)
    (simRow : list Simulation) (sim : Simulation)
    (refs : list (string * RefData)) (kv : string * RefData) :
  nth_error (p_simulations protocol) row = Some simRow ->
  nth_error simRow col = Some sim ->
  nth_error (s_referenceData sim) variableSetIndex = Some refs ->
  nth_error refs j = Some kv ->
  let stateNames := p_stateNames protocol in
  let name := fst kv in
  let refData := snd kv in
  let contribution := referenceCost stateNames sim variableSetIndex kv in
  let against (y : list Q) :=
    sumQ (map (fun i =>
                 let d := zth y (r_firstPt refData + Z.of_nat i)
                          - nth i (r_waveform refData) 0 in
                 d * d * zth (s_weight sim) (r_firstPt refData + Z.of_nat i))
              (seq 0 (Z.to_nat (r_numPts refData))))
    * r_weight refData in
  (forall stateIndex,
      (0 < r_numPts refData)%Z -> s_time sim <> [] ->
      indexOf stateNames name 0 = Some stateIndex ->
      (variableSetIndex < List.length (s_probability sim))%nat ->
      contribution
      == against (column (nth variableSetIndex (s_probability sim) [])
                         stateIndex)) /\
  (forall w,
      (0 < r_numPts refData)%Z -> s_time sim <> [] ->
      indexOf stateNames name 0 = None ->
      lookup (s_stimuli sim) name = Some w ->
      contribution == against w) /\
  (forall w,
      (0 < r_numPts refData)%Z -> s_time sim <> [] ->
      indexOf stateNames name 0 = None ->
      lookup (s_stimuli sim) name = None ->
      (variableSetIndex < List.length (s_waveforms sim))%nat ->
      lookup (nth variableSetIndex (s_waveforms sim) []) name = Some w ->
      contribution == against w) /\
  ((r_numPts refData <= 0)%Z \/ s_time sim = [] \/
   (exists stateIndex,
       indexOf stateNames name 0 = Some stateIndex /\
       (List.length (s_probability sim) <= variableSetIndex)%nat) \/
   (indexOf stateNames name 0 = None /\
    lookup (s_stimuli sim) name = None /\
    ((List.length (s_waveforms sim) <= variableSetIndex)%nat \/
     lookup (nth variableSetIndex (s_waveforms sim) []) name = None)) ->
   contribution == 0) /\
  referenceCost stateNames sim variableSetIndex
    (name, scaleRefWeight k refData) == k * contribution /\
  cost (scaleReferenceWeight protocol row col variableSetIndex j k)
  == cost protocol + (k - 1) * contribution /\
  (forall (s v r : nat) (summary : SimulationsSummary)
          (summaryRefs : list RefData) (summaryRef : RefData),
      nth_error (p_summaries protocol) s = Some summary ->
      nth_error (sm_referenceData summary) v = Some summaryRefs ->
      nth_error summaryRefs r = Some summaryRef ->
      let summaryContribution :=
        if sm_isActive summary
        then summaryReferenceCost summary v r summaryRef else 0 in
      ((0 < r_numPts summaryRef)%Z -> sm_isActive summary = true ->
       summaryContribution
       == sumQ (map (fun i =>
                       let d := zth (nth r (nth v (sm_dataY summary) []) [])
                                    (r_firstPt summaryRef + Z.of_nat i)
                                - nth i (r_waveform summaryRef) 0 in
                       d * d)
                    (seq 0 (Z.to_nat (r_numPts summaryRef))))
          * r_weight summaryRef) /\
      ((r_numPts summaryRef <= 0)%Z -> summaryContribution == 0) /\
      cost (scaleSummaryReferenceWeight protocol s v r k)
      == cost protocol + (k - 1) * summaryContribution).
Proof.
  intros Hrow Hcol Hv Hj stateNames name refData contribution against.
  assert (forall l : list Q, l <> [] -> (0 <? Z.of_nat (List.length l))%Z = true)
    as Hn by (intros [|a l] H; [congruence|reflexivity]).
  split; [|split; [|split; [|split; [|split; [|split]]]]].
  - intros stateIndex Hpos Htime Hidx Hp. subst contribution against.
    unfold referenceCost, getSimulationWaveform. fold name refData.
    apply Z.ltb_lt in Hpos. apply Nat.ltb_lt in Hp.
    rewrite Hpos, Hidx, Hp, (Hn _ Htime). reflexivity.
  - intros w Hpos Htime Hidx Hw. subst contribution against.
    unfold referenceCost, getSimulationWaveform. fold name refData.
    apply Z.ltb_lt in Hpos.
    rewrite Hpos, Hidx, Hw, (Hn _ Htime). reflexivity.
  - intros w Hpos Htime Hidx Hs Hlen Hw. subst contribution against.
    unfold referenceCost, getSimulationWaveform. fold name refData.
    apply Z.ltb_lt in Hpos. apply Nat.ltb_lt in Hlen.
    rewrite Hpos, Hidx, Hs, Hlen, Hw, (Hn _ Htime). reflexivity.
  - intros H. subst contribution.
    unfold referenceCost, getSimulationWaveform. fold name refData.
    destruct (Z.ltb_spec 0 (r_numPts refData)) as [Hpos|_]; [|reflexivity].
    destruct H as [H|[H|[(stateIndex & Hidx & Hp)|(Hidx & Hs & Hw)]]].
    + lia.
    + rewrite H. cbn [List.length Z.of_nat Z.ltb Z.compare].
      destruct (indexOf stateNames name 0);
        [destruct (_ <? _)%nat; reflexivity|].
      destruct (lookup (s_stimuli sim) name); [reflexivity|].
      destruct (_ <? _)%nat; [|reflexivity].
      destruct (lookup _ name); reflexivity.
    + apply Nat.ltb_ge in Hp. rewrite Hidx, Hp. reflexivity.
    + rewrite Hidx, Hs. destruct Hw as [Hw|Hw].
      * apply Nat.ltb_ge in Hw. rewrite Hw. reflexivity.
      * rewrite Hw. destruct (_ <? _)%nat; reflexivity.
  - apply (referenceCost_scale stateNames sim variableSetIndex kv k).
  - rewrite !cost_sum. unfold scaleReferenceWeight.
    cbn [p_stateNames p_simulations p_summaries]. fold stateNames.
    rewrite (sumQ_map_updateAt _ _ _ row simRow Hrow).
    unfold rowSum at 2 3.
    rewrite (sumQ_map_updateAt _ _ _ col sim Hcol).
    rewrite (simulationSum_scale stateNames sim variableSetIndex j k refs kv Hv Hj).
    subst contribution. ring.
  - intros s v r summary summaryRefs summaryRef Hs Hsv Hr summaryContribution.
    split; [|split].
    + intros Hpos Hact. subst summaryContribution. rewrite Hact.
      unfold summaryReferenceCost. apply Z.ltb_lt in Hpos. rewrite Hpos.
      reflexivity.
    + intros Hle. subst summaryContribution. unfold summaryReferenceCost.
      destruct (Z.ltb_spec 0 (r_numPts summaryRef)) as [Hpos|_]; [lia|].
      destruct (sm_isActive summary); reflexivity.
    + rewrite !cost_sum. unfold scaleSummaryReferenceWeight.
      cbn [p_stateNames p_simulations p_summaries].
      rewrite (sumQ_map_updateAt _ _ _ s summary Hs).
      rewrite (summarySum_scale summary v r k summaryRefs summaryRef Hsv Hr).
      subst summaryContribution. ring.
Qed.

Example cost_protocol_with_reference :
  cost protocol_with_reference == 9 /\
  cost (scaleReferenceWeight protocol_with_reference 0 0 0 0 2) == 18.
Proof. split; vm_compute; reflexivity. Qed.

Example cost_protocol_with_summary :
  cost protocol_with_summary == 19 /\
  cost (scaleReferenceWeight protocol_with_summary 0 0 0 0 2) == 28 /\
  cost (scaleSummaryReferenceWeight protocol_with_summary 0 0 0 2) == 29.
Proof. repeat split; vm_compute; reflexivity. Qed.

Lemma cost_linear_in_reference_weight_witness :
  referenceCost (p_stateNames protocol_with_summary) sim_with_reference 0
                ("V"%string, ref_on_V) == 9 /\
  cost (scaleReferenceWeight protocol_with_summary 0 0 0 0 2)
  == cost protocol_with_summary
     + (2 - 1) * referenceCost (p_stateNames protocol_with_summary)
                   sim_with_reference 0 ("V"%string, ref_on_V) /\
  summaryReferenceCost summary_with_reference 0 0 (mkRefData [1; 3] 1 2 5)
  == 10 /\
  cost (scaleSummaryReferenceWeight protocol_with_summary 0 0 0 2)
  == cost protocol_with_summary
     + (2 - 1) * summaryReferenceCost summary_with_reference 0 0
                   (mkRefData [1; 3] 1 2 5).
Proof.
  destruct (cost_linear_in_reference_weight protocol_with_summary 0 0 0 0 2
              [sim_with_reference] sim_with_reference
              [("V"%string, ref_on_V)] ("V"%string, ref_on_V)
              eq_refl eq_refl eq_refl eq_refl)
    as (_ & Hstimulus & _ & _ & _ & Hcost & Hsummary).
  destruct (Hsummary 0%nat 0%nat 0%nat summary_with_reference
              [mkRefData [1; 3] 1 2 5] (mkRefData [1; 3] 1 2 5)
              eq_refl eq_refl eq_refl) as (Hformula & _ & Hscale).
  split; [|split; [exact Hcost|split; [|exact Hscale]]].
  - apply (Hstimulus [0; 5; 5]); [reflexivity|discriminate|reflexivity
                                  |reflexivity].
  - apply Hformula; reflexivity.
Defined.

(** ** spectralSimulation replaces its result (C10) *)

Lemma zeroMatrix_shape (rows cols : nat) : hasShape rows cols (zeroMatrix rows cols).
Proof.
  unfold hasShape, zeroMatrix. split; [apply repeat_length|].
  apply Forall_forall. intros row Hrow. apply repeat_spec in Hrow.
  subst row. apply repeat_length.
Qed.

Lemma indexed_length {A : Type} (l : list A) :
  List.length (indexed l) = List.length l.
Proof.
  unfold indexed. rewrite length_combine, length_seq. apply Nat.min_id.
Qed.

Lemma indexed_in {A : Type} (l : list A) (i : nat) (a : A) :
  In (i, a) (indexed l) -> In a l.
Proof. unfold indexed. apply in_combine_r. Qed.

Lemma addScaled_length (row : list Q) (c : Q) (v : list Q) :
  List.length (addScaled row c v) = List.length row.
Proof. unfold addScaled. rewrite length_map. apply indexed_length. Qed.

Lemma rowTimes_length (numStates : nat) (p : list Q) (A : Matrix) :
  List.length (rowTimes numStates p A) = numStates.
Proof. unfold rowTimes. rewrite length_map. apply length_seq. Qed.

Lemma updateBlock_shape (rows cols firstPt numPts : nat)
    (f : nat -> list Q -> list Q) (P : Matrix) :
  (forall k row, List.length row = cols -> List.length (f k row) = cols) ->
  hasShape rows cols P -> hasShape rows cols (updateBlock firstPt numPts f P).
Proof.
  intros Hf [Hlen Hrows]. unfold hasShape, updateBlock. split.
  - rewrite length_map, indexed_length. exact Hlen.
  - apply Forall_forall. intros row Hrow. apply in_map_iff in Hrow.
    destruct Hrow as ([i r] & <- & Hin). apply indexed_in in Hin.
    rewrite Forall_forall in Hrows. specialize (Hrows r Hin). simpl.
    destruct (_ && _); [apply Hf|]; exact Hrows.
Qed.

Lemma spectralEpoch_shape (exp : Q -> Q) (pool : list UniqueEpoch)
    (time : list Q) (numStates numEpochs : nat) (startEquilibrated : bool)
    (rows : nat) (st : Matrix * list Q * nat) (epoch : Epoch) :
  hasShape rows numStates (fst (fst st)) ->
  hasShape rows numStates
    (fst (fst (spectralEpoch exp pool time numStates numEpochs
                 startEquilibrated st epoch))).
Proof.
  destruct st as [[P p] counter]. cbn [fst]. intros HP. unfold spectralEpoch.
  destruct ((counter =? 0)%nat && startEquilibrated); cbn [fst].
  - destruct (0 <? e_numPts epoch)%Z; [|exact HP].
    apply updateBlock_shape; [|exact HP].
    intros k row _. apply rowTimes_length.
  - destruct (0 <? e_numPts epoch)%Z; [|exact HP].
    generalize (seq 0 numStates). intros l. revert P HP.
    induction l as [|i l IH]; intros P HP; simpl; [exact HP|].
    apply IH. unfold addSpectralComponent.
    apply updateBlock_shape; [|exact HP].
    intros k row Hrow. rewrite addScaled_length. exact Hrow.
Qed.

Lemma spectralLoop_shape (exp : Q -> Q) (pool : list UniqueEpoch)
    (time : list Q) (numStates numEpochs : nat) (startEquilibrated : bool)
    (rows : nat) (epochs : list Epoch) :
  forall st,
    hasShape rows numStates (fst (fst st)) ->
    hasShape rows numStates
      (fst (fst (fold_left
                   (spectralEpoch exp pool time numStates numEpochs
                      startEquilibrated) epochs st))).
Proof.
  induction epochs as [|e epochs IH]; intros st H; simpl; [exact H|].
  apply IH. apply spectralEpoch_shape. exact H.
Qed.

Lemma padTo_length (probability : list Matrix) (v : nat) (z : Matrix) :
  (v < List.length (padTo probability v z))%nat.
Proof. unfold padTo. rewrite length_app, repeat_length. lia. Qed.

Lemma padTo_long (probability : list Matrix) (v : nat) (z : Matrix) :
  (v < List.length probability)%nat -> padTo probability v z = probability.
Proof.
  intros H. unfold padTo.
  replace (v + 1 - List.length probability)%nat with 0%nat by lia.
  apply app_nil_r.
Qed.

Lemma replaceNth_length {A : Type} (l : list A) :
  forall n v, List.length (replaceNth n v l) = List.length l.
Proof.
  induction l as [|a l IH]; intros [|n] v; simpl; try reflexivity.
  rewrite IH. reflexivity.
Qed.

Lemma replaceNth_twice {A : Type} (l : list A) :
  forall n v, replaceNth n v (replaceNth n v l) = replaceNth n v l.
Proof.
  induction l as [|a l IH]; intros [|n] v; simpl; try reflexivity.
  rewrite IH. reflexivity.
Qed.

Lemma replaceNth_nth {A : Type} (l : list A) :
  forall n v d, (n < List.length l)%nat -> nth n (replaceNth n v l) d = v.
Proof.
  induction l as [|a l IH]; intros [|n] v d H; simpl in *; try lia.
  - reflexivity.
  - apply IH. lia.
Qed.

Lemma replaceNth_other {A : Type} (l : list A) :
  forall n m v d, n <> m -> nth m (replaceNth n v l) d = nth m l d.
Proof.
  induction l as [|a l IH]; intros [|n] [|m] v d H; simpl; try reflexivity.
  - congruence.
  - apply IH. congruence.
Qed.

Lemma replaceNth_Forall {A : Type} (P : A -> Prop) (l : list A) :
  forall n v, P v -> Forall P l -> Forall P (replaceNth n v l).
Proof.
  induction l as [|a l IH]; intros [|n] v Hv Hl; simpl; try exact Hl;
    inversion Hl; subst; constructor; auto.
Qed.

(** The probability vector after a call, spelled out. *)
Lemma spectralSimulation_probability (exp : Q -> Q) (pool : list UniqueEpoch)
    (sim : Simulation) (p0 : list Q) (startEq : bool) (v : nat) (abort : bool) :
  exists P,
    hasShape (List.length (s_time sim)) (List.length p0) P /\
    (forall sim',
        s_time sim' = s_time sim -> s_epochs sim' = s_epochs sim ->
        s_probability (spectralSimulation exp pool sim' p0 startEq v abort)
        = replaceNth v P
            (padTo (s_probability sim') v
               (zeroMatrix (List.length (s_time sim)) (List.length p0)))).
Proof.
  eexists. split.
  2: { intros sim' Ht He. unfold spectralSimulation.
       cbn [s_probability set_probability]. rewrite Ht, He. reflexivity. }
  destruct abort; [apply zeroMatrix_shape|].
  apply spectralLoop_shape. apply zeroMatrix_shape.
Qed.

Lemma spectralSimulation_eta (exp : Q -> Q) (pool : list UniqueEpoch)
    (sim : Simulation) (p0 : list Q) (startEq : bool) (v : nat) (abort : bool) :
  spectralSimulation exp pool sim p0 startEq v abort
  = set_probability sim
      (s_probability (spectralSimulation exp pool sim p0 startEq v abort)).
Proof. reflexivity. Qed.

Lemma set_probability_self (sim : Simulation) :
  set_probability sim (s_probability sim) = sim.
Proof. destruct sim. reflexivity. Qed.

(** As the specification words it, C10 fails on its last clause: an entry that was in the
    probability vector before the call, at another index, keeps its shape. *)
Lemma spectralSimulation_keeps_other_entries :
  let sim := mkSimulation [0; 1] 2 [1; 1] [] [] [[[1; 2; 3]]] [] [] [] in
  let sim' := spectralSimulation (fun _ => 1) [] sim [1; 0] false 1 false in
  s_probability sim' = [[[1; 2; 3]]; [[0; 0]; [0; 0]]] /\
  ~ Forall (hasShape 2 2) (s_probability sim').
Proof.
  split; [reflexivity|]. intros H. simpl in H.
  inversion H as [|m l [Hlen _] _]. discriminate Hlen.
Qed.

(** C10 (as the code has it).  [spectralSimulation] replaces its result: with
    the same arguments, a second call in succession leaves the simulation,
    and in particular [probability[variableSetIndex]], as the first call left
    it.  Afterwards the probability vector has at least
    [variableSetIndex + 1] entries; the entry at [variableSetIndex] and every
    entry the call appended have shape [N x S]; an entry that was there
    before, at another index, is left as it was, so all entries have shape
    [N x S] when the earlier ones had. *)
Theorem spectralSimulation_idempotent (exp : Q -> Q) (pool : list UniqueEpoch)
    (sim : Simulation) (startingProbability : list Q)
    (startEquilibrated : bool) (variableSetIndex : nat) (abort : bool) :
  let run := fun s =>
    spectralSimulation exp pool s startingProbability startEquilibrated
                       variableSetIndex abort in
  let N := List.length (s_time sim) in
  let S := List.length startingProbability in
  run (run sim) = run sim /\
  (variableSetIndex < List.length (s_probability (run sim)))%nat /\
  hasShape N S (nth variableSetIndex (s_probability (run sim)) []) /\
  (forall i, (List.length (s_probability sim) <= i)%nat ->
             (i < List.length (s_probability (run sim)))%nat ->
             hasShape N S (nth i (s_probability (run sim)) [])) /\
  (forall i, (i < List.length (s_probability sim))%nat ->
             i <> variableSetIndex ->
             nth i (s_probability (run sim)) [] = nth i (s_probability sim) []) /\
  (Forall (hasShape N S) (s_probability sim) ->
   Forall (hasShape N S) (s_probability (run sim))).
Proof.
  intros run N S.
  destruct (spectralSimulation_probability exp pool sim startingProbability
              startEquilibrated variableSetIndex abort) as (P & HP & Hrun).
  pose proof (Hrun sim eq_refl eq_refl) as H1.
  change (spectralSimulation exp pool sim startingProbability
            startEquilibrated variableSetIndex abort) with (run sim) in H1.
  fold N S in HP, Hrun, H1.
  set (L := padTo (s_probability sim) variableSetIndex (zeroMatrix N S)) in *.
  assert (variableSetIndex < List.length L)%nat as HL by apply padTo_length.
  split; [|split; [|split; [|split; [|split]]]].
  - assert (s_probability (run (run sim)) = s_probability (run sim)) as H2.
    { unfold run at 1. rewrite (Hrun (run sim)) by reflexivity.
      rewrite H1, padTo_long by (rewrite replaceNth_length; exact HL).
      apply replaceNth_twice. }
    unfold run at 1. rewrite spectralSimulation_eta.
    change (spectralSimulation exp pool (run sim) startingProbability
              startEquilibrated variableSetIndex abort) with (run (run sim)).
    rewrite H2. apply set_probability_self.
  - rewrite H1, replaceNth_length. exact HL.
  - rewrite H1, replaceNth_nth by exact HL. exact HP.
  - intros i Hi Hlt. rewrite H1 in *. rewrite replaceNth_length in Hlt.
    destruct (Nat.eq_dec variableSetIndex i) as [<-|Hne].
    + rewrite replaceNth_nth by exact HL. exact HP.
    + rewrite replaceNth_other by exact Hne. unfold L, padTo.
      rewrite app_nth2 by lia.
      rewrite nth_indep with (d' := zeroMatrix N S)
        by (unfold L, padTo in Hlt; rewrite length_app in Hlt; lia).
      rewrite nth_repeat. apply zeroMatrix_shape.
  - intros i Hi Hne. rewrite H1, replaceNth_other by congruence.
    unfold L, padTo. apply app_nth1. exact Hi.
  - intros Hall. rewrite H1. apply replaceNth_Forall; [exact HP|].
    unfold L, padTo. apply Forall_app. split; [exact Hall|].
    apply Forall_forall. intros m Hm. apply repeat_spec in Hm. subst m.
    apply zeroMatrix_shape.
Qed.

(** ** The equilibrium formula gives the stationary distribution (C7) *)

Module EquilibriumTheory.
Import ssreflect ssrfun ssrbool eqtype ssrnat seq fintype bigop.
Import ssralg matrix mxalgebra rat.
Import GRing.Theory.
Import Equilibrium.
Local Open Scope ring_scope.

Section Stationary.
Variable F : fieldType.
Variable N : nat.

Local Notation ones := (ones F).
Local Notation augmented := (augmented F N).
Local Notation equilibriumProbability := (equilibriumProbability F N).

(** [S * S^T = Q * Q^T + 1 * 1^T]. *)
Lemma augmented_gram (Q : 'M[F]_N) :
  augmented Q *m (augmented Q)^T = Q *m Q^T + ones N 1 *m ones 1 N.
Proof.
rewrite /augmented /Equilibrium.augmented tr_row_mx mul_row_col.
congr (_ + (_ *m _)).
by apply/matrixP=> i j; rewrite !mxE.
Qed.

Lemma ones_neq0 : (0 < N)%N -> ones N 1 != 0.
Proof.
case: N => // n _; apply/eqP=> /matrixP/(_ ord0 ord0).
by rewrite !mxE => /eqP; rewrite oner_eq0.
Qed.

(** A matrix whose rows sum to zero is singular. *)
Lemma generator_singular (Q : 'M[F]_N) :
  (0 < N)%N -> Q *m ones N 1 = 0 -> Q \notin unitmx.
Proof.
move=> Npos Q1; apply/negP=> Qu.
have := mulKmx Qu (ones N 1); rewrite Q1 mulmx0 => /esym/eqP.
by apply/negP; exact: ones_neq0.
Qed.

(** A singular matrix has a non-zero left null vector. *)
Lemma left_null_vector (Q : 'M[F]_N) :
  Q \notin unitmx -> exists2 v : 'rV[F]_N, v *m Q = 0 & v != 0.
Proof.
rewrite -row_free_unit -kermx_eq0 => /rowV0Pn[v /sub_kermxP vQ vn0].
by exists v.
Qed.

(** C7.  For every rate matrix [Q] of [N >= 1] states (its rows sum to zero)
    such that [S * S^T], with [S = [Q | 1]], is invertible,
    [equilibriumProbability Q] is the row vector [pi = 1 * (S * S^T)^-1],
    and this [pi] satisfies [pi * Q = 0] and its entries sum to [1]. *)
Theorem equilibriumProbability_stationary (Q : 'M[F]_N) :
  (0 < N)%N ->
  Q *m ones N 1 = 0 ->
  augmented Q *m (augmented Q)^T \in unitmx ->
  equilibriumProbability Q
    = ones 1 N *m invmx (augmented Q *m (augmented Q)^T) /\
  equilibriumProbability Q *m Q = 0 /\
  \sum_j equilibriumProbability Q ord0 j = 1.
Proof.
move=> Npos Q1 Mu; split=> //.
have [v vQ vn0] := left_null_vector Q (generator_singular Q Npos Q1).
set M := augmented Q *m _ in Mu *.
pose c := (v *m ones N 1) ord0 ord0.
have vM : v *m M = c *: ones 1 N.
  rewrite /M augmented_gram mulmxDr !mulmxA vQ mul0mx add0r.
  by rewrite [v *m _]mx11_scalar mul_scalar_mx.
have cn0 : c != 0.
  apply: contra_neq vn0 => c0.
  by rewrite -(mulmxK Mu v) vM c0 scale0r mul0mx.
have piE : equilibriumProbability Q = c^-1 *: v.
  rewrite /equilibriumProbability /Equilibrium.equilibriumProbability /= -/M.
  by rewrite -[v](mulmxK Mu) vM -scalemxAl scalerA mulVf // scale1r.
split; first by rewrite piE -scalemxAl vQ scaler0.
have -> : \sum_j equilibriumProbability Q ord0 j
          = (equilibriumProbability Q *m ones N 1) ord0 ord0.
  by rewrite mxE; apply: eq_bigr => j _; rewrite !mxE mulr1.
by rewrite piE -scalemxAl mxE -/c mulVf.
Qed.

End Stationary.

Lemma Q2_rows_sum_to_zero : Q2 *m ones rat 2 1 = 0.
Proof.
apply/matrixP=> i j; rewrite !mxE !big_ord_recl big_ord0 !mxE /= !mulr1 addr0.
by case: i => [[|[|i]] Hi] //=; rewrite ?addNr ?subrr.
Qed.

Lemma Q2_gram_unit : augmented rat 2 Q2 *m (augmented rat 2 Q2)^T \in unitmx.
Proof.
suff /mulmx1_unit[] :
  augmented rat 2 Q2 *m (augmented rat 2 Q2)^T *m gramInverse2 = 1%:M by [].
rewrite augmented_gram.
apply/matrixP=> i j; rewrite !mxE !big_ord_recl big_ord0 !mxE /=.
rewrite !big_ord_recl !big_ord0 !mxE /=.
by case: i => [[|[|i]] Hi] //=; case: j => [[|[|j]] Hj] //=;
   apply/eqP; vm_compute.
Qed.

Lemma equilibriumProbability_stationary_witness :
  equilibriumProbability rat 2 Q2 *m Q2 = 0 /\
  \sum_j equilibriumProbability rat 2 Q2 ord0 j = 1.
Proof.
exact: (proj2 (equilibriumProbability_stationary rat 2 Q2 isT
                 Q2_rows_sum_to_zero Q2_gram_unit)).
Defined.

(** Without the rows summing to zero the formula does not give a left null
    vector: for the 1 x 1 matrix [[1]] it returns [1/2]. *)
Remark equilibriumProbability_identity :
  (1%:M : 'M[rat]_1) *m ones rat 1 1 != 0 /\
  equilibriumProbability rat 1 1%:M = (2%:R^-1)%:M /\
  equilibriumProbability rat 1 1%:M *m 1%:M != 0.
Proof.
have gram : augmented rat 1 1%:M *m (augmented rat 1 1%:M)^T = (2%:R)%:M.
  rewrite augmented_gram trmx1 mulmx1.
  apply/matrixP=> i j; rewrite !mxE big_ord_recl big_ord0 !mxE !ord1 /=.
  by apply/eqP; vm_compute.
have eqE : equilibriumProbability rat 1 1%:M = (2%:R^-1)%:M.
  rewrite /equilibriumProbability gram.
  rewrite invmx_scalar mul_mx_scalar; apply/matrixP=> i j; rewrite !mxE !ord1 /= mulr1.
  by rewrite mulr1n.
split.
  rewrite mul1mx; apply/eqP=> /matrixP/(_ ord0 ord0).
  by rewrite !mxE => /eqP; rewrite oner_eq0.
split=> //.
rewrite mulmx1 eqE; apply/eqP=> /matrixP/(_ ord0 ord0).
by rewrite !mxE /= mulr1n => /eqP; vm_compute.
Qed.

End EquilibriumTheory.

(** ** Probability sampled from event chains (C4) *)

Lemma updateAt_length {A : Type} (f : A -> A) (l : list A) :
  forall i, List.length (updateAt i f l) = List.length l.
Proof.
  induction l as [|a l IH]; intros [|i]; simpl; try reflexivity.
  rewrite IH. reflexivity.
Qed.

Lemma updateAt_nth_same {A : Type} (f : A -> A) (l : list A) (d : A) :
  forall i, (i < List.length l)%nat -> nth i (updateAt i f l) d = f (nth i l d).
Proof.
  induction l as [|a l IH]; intros [|i] H; simpl in *; try lia.
  - reflexivity.
  - apply IH. lia.
Qed.

Lemma updateAt_nth_other {A : Type} (f : A -> A) (l : list A) (d : A) :
  forall i r, i <> r -> nth r (updateAt i f l) d = nth r l d.
Proof.
  induction l as [|a l IH]; intros [|i] [|r] H; simpl; try reflexivity.
  - congruence.
  - apply IH. congruence.
Qed.

Lemma updateAt_Forall {A : Type} (P : A -> Prop) (f : A -> A) (l : list A) :
  (forall a, P a -> P (f a)) ->
  forall i, Forall P l -> Forall P (updateAt i f l).
Proof.
  intros Hf. induction l as [|a l IH]; intros [|i] H; simpl; try exact H;
    inversion H; subst; constructor; auto.
Qed.

Lemma sumQ_updateAt_add (row : list Q) (v : Q) :
  forall j, (j < List.length row)%nat ->
            sumQ (updateAt j (fun c => c + v) row) == sumQ row + v.
Proof.
  induction row as [|a row IH]; intros [|j] H; simpl in *; try lia.
  - ring.
  - rewrite IH by lia. ring.
Qed.

Section AddAt.
Variables (N S : nat) (P : Matrix) (t : nat) (state : Z) (v : Q).
Hypothesis Hshape : hasShape N S P.
Hypothesis Ht : (t < N)%nat.
Hypothesis Hstate : (0 <= state < Z.of_nat S)%Z.

Lemma addAt_shape : hasShape N S (addAt P t state v).
Proof.
  destruct Hshape as [Hlen Hrows]. unfold addAt.
  destruct (Z.ltb_spec state 0); [lia|]. split.
  - rewrite updateAt_length. exact Hlen.
  - apply updateAt_Forall; [|exact Hrows].
    intros row Hrow. rewrite updateAt_length. exact Hrow.
Qed.

Lemma addAt_nonnegative : 0 <= v -> nonnegative P -> nonnegative (addAt P t state v).
Proof.
  intros Hv Hnn. unfold addAt. destruct (Z.ltb_spec state 0); [lia|].
  apply updateAt_Forall; [|exact Hnn].
  intros row Hrow. apply updateAt_Forall; [|exact Hrow].
  intros c Hc. lra.
Qed.

Lemma addAt_rowTotal_same :
  rowTotal (addAt P t state v) t == rowTotal P t + v.
Proof.
  destruct Hshape as [Hlen Hrows]. unfold addAt, rowTotal.
  destruct (Z.ltb_spec state 0); [lia|].
  rewrite updateAt_nth_same by lia.
  apply sumQ_updateAt_add.
  rewrite Forall_forall in Hrows.
  rewrite (Hrows (nth t P [])) by (apply nth_In; lia). lia.
Qed.

Lemma addAt_rowTotal_other (r : nat) :
  r <> t -> rowTotal (addAt P t state v) r = rowTotal P r.
Proof.
  intros Hr. unfold addAt, rowTotal.
  destruct (Z.ltb_spec state 0); [reflexivity|].
  rewrite updateAt_nth_other by congruence. reflexivity.
Qed.
End AddAt.

Section SamplingFacts.
Variables (time : list Q) (endTime : Q) (S : nat).
Let N := List.length time.

Hypothesis time_nondecreasing :
  forall i j, (i <= j)%nat -> (j < N)%nat -> nth i time 0 <= nth j time 0.
Hypothesis time_before_end :
  forall i, (i < N)%nat -> nth i time 0 <= endTime.

Local Notation boundary := (gridPoint time endTime).

Lemma intervalEnd_gridPoint (t : nat) :
  intervalEnd time endTime t = boundary (Datatypes.S t).
Proof.
  unfold intervalEnd, gridPoint. rewrite Nat.add_1_r. reflexivity.
Qed.

Lemma gridPoint_step (i : nat) : boundary i <= boundary (Datatypes.S i).
Proof.
  unfold gridPoint. fold N.
  destruct (Nat.ltb_spec i N); destruct (Nat.ltb_spec (Datatypes.S i) N);
    try lia.
  - apply time_nondecreasing; lia.
  - apply time_before_end. lia.
  - apply Qle_refl.
Qed.

Lemma gridPoint_before_end (i : nat) : boundary i <= endTime.
Proof.
  unfold gridPoint. fold N. destruct (Nat.ltb_spec i N).
  - apply time_before_end. lia.
  - apply Qle_refl.
Qed.

(** The invariant of the loop over one chain, relative to the row totals
    [base] before the chain: the rows before [t] have received a total of
    [1], the rows after [t] nothing, and row [t] the part of its interval
    that lies before the start of the current event. *)
Lemma chainSamplingLoop_rows (base : nat -> Q) :
  forall fuel P t event rest sis sie es ee,
    (N - t + List.length rest + 1 <= fuel)%nat ->
    (t <= N)%nat ->
    hasShape N S P -> nonnegative P ->
    eventsOK S (event :: rest) ->
    ee == es + ev_duration event ->
    ee + sumQ (map ev_duration rest) == endTime ->
    (forall r, (r < t)%nat -> rowTotal P r == base r + 1) ->
    (forall r, (t < r)%nat -> (r < N)%nat -> rowTotal P r == base r) ->
    ((t < N)%nat ->
     sis == boundary t /\ sie == boundary (Datatypes.S t) /\
     es <= sie /\ sis <= ee /\
     (es <= sis -> rowTotal P t == base t) /\
     (sis < es -> rowTotal P t == base t + (es - sis) / (sie - sis))) ->
    let P' := chainSamplingLoop time endTime fuel P t event rest sis sie es ee in
    hasShape N S P' /\ nonnegative P' /\
    (forall r, (r < N)%nat -> rowTotal P' r == base r + 1).
Proof.
  induction fuel as [|fuel IH];
    intros P t event rest sis sie es ee Hfuel HtN Hshape Hnn Hev Hee Hsum
           Hbefore Hafter Hcur; [lia|].
  cbn [chainSamplingLoop]. fold N.
  destruct (Nat.ltb_spec t N) as [Ht|Ht].
  2: { split; [exact Hshape|]. split; [exact Hnn|].
       intros r Hr. apply Hbefore. lia. }
  destruct (Hcur Ht) as (Hsis & Hsie & H1 & H2 & Hacc0 & Hacc1).
  pose proof (gridPoint_step t) as Hstep.
  pose proof (gridPoint_step (Datatypes.S t)) as Hstep'.
  pose proof (gridPoint_before_end (Datatypes.S t)) as Hend.
  inversion Hev as [|ev0 rest0 [Hd Hst] Hrest]; subst ev0 rest0.
  (* What advancing [t] needs, once row [t] has its full share. *)
  assert (forall P1,
             hasShape N S P1 -> nonnegative P1 ->
             rowTotal P1 t == base t + 1 ->
             (forall r, r <> t -> rowTotal P1 r = rowTotal P r) ->
             sie <= ee ->
             let P' := chainSamplingLoop time endTime fuel P1 (Datatypes.S t)
                         event rest sie (intervalEnd time endTime (Datatypes.S t))
                         es ee in
             hasShape N S P' /\ nonnegative P' /\
             (forall r, (r < N)%nat -> rowTotal P' r == base r + 1))
    as Hadvance.
  { intros P1 Hs1 Hn1 Hrow Hother Hle.
    apply IH; try assumption; try lia.
    - intros r Hr. destruct (Nat.eq_dec r t) as [->|Hne]; [exact Hrow|].
      rewrite Hother by exact Hne. apply Hbefore. lia.
    - intros r Hr HrN. rewrite Hother by lia. apply Hafter; lia.
    - intros Ht'. rewrite intervalEnd_gridPoint.
      split; [exact Hsie|]. split; [reflexivity|].
      split; [lra|]. split; [exact Hle|]. split.
      + intros _. rewrite Hother by lia. apply Hafter; lia.
      + intros Hlt. lra. }
  (* What advancing the event needs. *)
  assert (forall P1 v,
             hasShape N S P1 -> nonnegative P1 ->
             rowTotal P1 t == rowTotal P t + v ->
             (forall r, r <> t -> rowTotal P1 r = rowTotal P r) ->
             ee < sie ->
             (ee <= sis -> rowTotal P t + v == base t) ->
             (sis < ee -> rowTotal P t + v == base t + (ee - sis) / (sie - sis)) ->
             let P' := match rest with
                       | [] => P1
                       | next :: rest' =>
                           chainSamplingLoop time endTime fuel P1 t next rest'
                             sis sie ee (ee + ev_duration next)
                       end in
             hasShape N S P' /\ nonnegative P' /\
             (forall r, (r < N)%nat -> rowTotal P' r == base r + 1))
    as Hnext.
  { intros P1 v Hs1 Hn1 Hrow Hother Hlt Hv0 Hv1.
    destruct rest as [|next rest'].
    - simpl in Hsum. exfalso. lra.
    - inversion Hrest as [|ev1 rest1 [Hd' Hst'] Hrest']; subst ev1 rest1.
      apply IH; try assumption; try (simpl in *; lia).
      + reflexivity.
      + simpl in Hsum. rewrite <- Hsum. ring.
      + intros r Hr. rewrite Hother by lia. apply Hbefore. exact Hr.
      + intros r Hr HrN. rewrite Hother by lia. apply Hafter; assumption.
      + intros _. split; [exact Hsis|]. split; [exact Hsie|].
        split; [lra|]. split; [lra|]. split.
        * intros Hle. rewrite Hrow. apply Hv0. exact Hle.
        * intros Hlt'. rewrite Hrow. apply Hv1. exact Hlt'. }
  destruct (Qle_bool es sis) eqn:E1; [apply Qle_bool_iff in E1|];
    destruct (Qle_bool sie ee) eqn:E2;
    try (apply Qle_bool_iff in E2); cbn [andb].
  - (* the event covers the whole sample interval *)
    apply Hadvance.
    + apply (addAt_shape N S); assumption.
    + apply (addAt_nonnegative N S); try assumption. lra.
    + rewrite (addAt_rowTotal_same N S) by assumption.
      rewrite (Hacc0 E1). reflexivity.
    + intros r Hr. apply addAt_rowTotal_other. exact Hr.
    + exact E2.
  - (* the event stops inside the sample interval *)
    assert (ee < sie) as Hlt.
    { apply Qnot_le_lt. intros H. apply Qle_bool_iff in H. congruence. }
    apply (Hnext _ ((ee - sis) / (sie - sis))).
    + apply (addAt_shape N S); assumption.
    + apply (addAt_nonnegative N S); try assumption.
      apply Qle_shift_div_l; lra.
    + apply (addAt_rowTotal_same N S); assumption.
    + intros r Hr. apply addAt_rowTotal_other. exact Hr.
    + exact Hlt.
    + intros Hle. rewrite (Hacc0 E1).
      assert (ee - sis == 0) as -> by lra.
      unfold Qdiv. ring.
    + intros _. rewrite (Hacc0 E1). reflexivity.
  - (* the event starts inside the sample interval and covers its end *)
    assert (sis < es) as Hlt.
    { apply Qnot_le_lt. intros H. apply Qle_bool_iff in H. congruence. }
    apply Hadvance.
    + apply (addAt_shape N S); assumption.
    + apply (addAt_nonnegative N S); try assumption.
      apply Qle_shift_div_l; lra.
    + rewrite (addAt_rowTotal_same N S) by assumption.
      rewrite (Hacc1 Hlt). field. lra.
    + intros r Hr. apply addAt_rowTotal_other. exact Hr.
    + exact E2.
  - (* the event starts and stops inside the sample interval *)
    assert (sis < es) as Hlt.
    { apply Qnot_le_lt. intros H. apply Qle_bool_iff in H. congruence. }
    assert (ee < sie) as Hlt'.
    { apply Qnot_le_lt. intros H. apply Qle_bool_iff in H. congruence. }
    apply (Hnext _ (ev_duration event / (sie - sis))).
    + apply (addAt_shape N S); assumption.
    + apply (addAt_nonnegative N S); try assumption.
      apply Qle_shift_div_l; lra.
    + apply (addAt_rowTotal_same N S); assumption.
    + intros r Hr. apply addAt_rowTotal_other. exact Hr.
    + exact Hlt'.
    + intros Hle. exfalso. lra.
    + intros _. rewrite (Hacc1 Hlt).
      assert (ee - sis == es - sis + ev_duration event) as -> by lra.
      field. lra.
Qed.
End SamplingFacts.

Lemma sampleChain_rows (time : list Q) (endTime : Q) (S : nat)
    (P : Matrix) (chain : MonteCarloEventChain) :
  (forall i j, (i <= j)%nat -> (j < List.length time)%nat ->
               nth i time 0 <= nth j time 0) ->
  (forall i, (i < List.length time)%nat -> nth i time 0 <= endTime) ->
  time <> [] -> nth 0 time 0 == 0 ->
  hasShape (List.length time) S P -> nonnegative P ->
  chainOK endTime S chain ->
  let P' := sampleChain time endTime P chain in
  hasShape (List.length time) S P' /\ nonnegative P' /\
  (forall r, (r < List.length time)%nat -> rowTotal P' r == rowTotal P r + 1).
Proof.
  intros Hmono Hend Hne H0 Hshape Hnn (Hc & Hev & Hsum).
  destruct chain as [|event rest]; [congruence|]. clear Hc.
  assert (0 < List.length time)%nat as HN
    by (destruct time; [congruence|simpl; lia]).
  unfold sampleChain.
  apply (chainSamplingLoop_rows time endTime S Hmono Hend (rowTotal P));
    try assumption.
  - simpl. lia.
  - lia.
  - reflexivity.
  - simpl in Hsum. rewrite <- Hsum. ring.
  - intros r Hr. lia.
  - intros r _ _. reflexivity.
  - intros _. rewrite intervalEnd_gridPoint.
    pose proof (gridPoint_step time endTime Hmono Hend 0) as Hstep.
    assert (gridPoint time endTime 0 = nth 0 time 0) as Hg.
    { unfold gridPoint. destruct (Nat.ltb_spec 0 (List.length time)); [reflexivity|lia]. }
    inversion Hev as [|ev0 rest0 [Hd _] _]; subst ev0 rest0.
    rewrite Hg in *.
    split; [reflexivity|]. split; [reflexivity|].
    split; [lra|]. split; [lra|]. split.
    + intros _. reflexivity.
    + intros Hlt. exfalso. lra.
Qed.

Lemma sampleChains_rows (time : list Q) (endTime : Q) (S : nat) :
  (forall i j, (i <= j)%nat -> (j < List.length time)%nat ->
               nth i time 0 <= nth j time 0) ->
  (forall i, (i < List.length time)%nat -> nth i time 0 <= endTime) ->
  time <> [] -> nth 0 time 0 == 0 ->
  forall chains P,
    hasShape (List.length time) S P -> nonnegative P ->
    Forall (chainOK endTime S) chains ->
    let P' := fold_left (sampleChain time endTime) chains P in
    hasShape (List.length time) S P' /\ nonnegative P' /\
    (forall r, (r < List.length time)%nat ->
               rowTotal P' r
               == rowTotal P r + inject_Z (Z.of_nat (List.length chains))).
Proof.
  intros Hmono Hend Hne H0.
  induction chains as [|chain chains IH]; intros P Hshape Hnn Hall.
  - simpl. split; [exact Hshape|]. split; [exact Hnn|].
    intros r _. unfold inject_Z. simpl. ring.
  - inversion Hall as [|c cs Hc Hcs]; subst c cs.
    destruct (sampleChain_rows time endTime S P chain Hmono Hend Hne H0
                Hshape Hnn Hc) as (Hs1 & Hn1 & Hr1).
    destruct (IH _ Hs1 Hn1 Hcs) as (Hs2 & Hn2 & Hr2).
    cbn [fold_left]. split; [exact Hs2|]. split; [exact Hn2|].
    intros r Hr. rewrite (Hr2 r Hr), (Hr1 r Hr).
    replace (Z.of_nat (List.length (chain :: chains)))
      with (Z.of_nat (List.length chains) + 1)%Z by (simpl List.length; lia).
    rewrite inject_Z_plus. unfold inject_Z at 3. ring.
Qed.

Lemma sumQ_repeat_zero (n : nat) : sumQ (repeat 0 n) == 0.
Proof. induction n as [|n IH]; simpl; [reflexivity|]. rewrite IH. ring. Qed.

Lemma zeroMatrix_rowTotal (rows cols r : nat) :
  rowTotal (zeroMatrix rows cols) r == 0.
Proof.
  unfold rowTotal, zeroMatrix.
  destruct (Nat.ltb_spec r rows) as [H|H].
  - rewrite nth_indep with (d' := repeat 0 cols) by (rewrite repeat_length; exact H).
    rewrite nth_repeat. apply sumQ_repeat_zero.
  - rewrite nth_overflow by (rewrite repeat_length; exact H). reflexivity.
Qed.

Lemma zeroMatrix_nonnegative (rows cols : nat) :
  nonnegative (zeroMatrix rows cols).
Proof.
  apply Forall_forall. intros row Hrow. apply repeat_spec in Hrow. subst row.
  apply Forall_forall. intros v Hv. apply repeat_spec in Hv. subst v.
  apply Qle_refl.
Qed.

Lemma sumQ_map_div (row : list Q) (m : Q) :
  sumQ (map (fun v => v / m) row) == sumQ row / m.
Proof.
  induction row as [|a row IH]; simpl.
  - unfold Qdiv. ring.
  - rewrite IH. unfold Qdiv. ring.
Qed.

Lemma nonnegative_sum (row : list Q) :
  Forall (fun v => 0 <= v) row -> 0 <= sumQ row.
Proof.
  induction 1 as [|a row Ha Hrow IH]; simpl; [apply Qle_refl|lra].
Qed.

Lemma entry_le_sum (row : list Q) :
  Forall (fun v => 0 <= v) row ->
  forall j, 0 <= nth j row 0 /\ nth j row 0 <= sumQ row.
Proof.
  induction 1 as [|a row Ha Hrow IH]; intros j.
  - destruct j; simpl; split; apply Qle_refl.
  - pose proof (nonnegative_sum row Hrow). destruct j as [|j]; simpl.
    + split; lra.
    + destruct (IH j). split; lra.
Qed.

(** As the specification words it, C4 fails when the sample grid does not start at time
    zero: the chain's clock starts at [0], the first sample interval at
    [time[0]].  Here the first event ends before [time[0] = 1]: the entry is
    negative and the row does not sum to [1]. *)
Lemma getProbabilityFromEventChains_offset_grid :
  let chain := [mkEvent 0 (1 # 2); mkEvent 1 (5 # 2)] in
  let P := getProbabilityFromEventChains [1; 2] 3 2 [chain] in
  chainOK 3 2 chain /\
  P = [[-1 # 2; 1]; [0; 1]] /\
  ~ sumQ (nth 0 P []) == 1 /\
  ~ 0 <= coeff P 0 0.
Proof.
  split.
  - split; [discriminate|]. split; [|reflexivity].
    repeat constructor; simpl; try lia; intros H; discriminate H.
  - split; [reflexivity|]. split; intros H.
    + apply Qeq_bool_iff in H. vm_compute in H. discriminate H.
    + apply Qle_bool_iff in H. vm_compute in H. discriminate H.
Qed.

(** Likewise a chain without events, which [monteCarloSimulation] produces
    for [endTime = 0], adds nothing to any row. *)
Lemma getProbabilityFromEventChains_empty_chain :
  let P := getProbabilityFromEventChains [0] 0 2 [[]] in
  sumQ (map ev_duration []) == 0 /\ P = [[0; 0]] /\ ~ sumQ (nth 0 P []) == 1.
Proof.
  split; [reflexivity|]. split; [reflexivity|].
  intros H. apply Qeq_bool_iff in H. vm_compute in H. discriminate H.
Qed.

(** C4 (as the code has it).  Let the sample grid be non-empty,
    non-decreasing, start at time [0] and not pass [endTime].  For every
    non-empty list of non-empty event chains whose events have non-negative
    durations adding up to [endTime] and states in [[0, S)],
    [getProbabilityFromEventChains] produces a matrix [P] of [N] rows and [S]
    columns in which every row sums to exactly [1] and every entry lies in
    [[0, 1]]. *)
Theorem getProbabilityFromEventChains_rows (time : list Q) (endTime : Q)
    (numStates : nat) (eventChains : list MonteCarloEventChain) :
  time <> [] ->
  nth 0 time 0 == 0 ->
  (forall i j, (i <= j)%nat -> (j < List.length time)%nat ->
               nth i time 0 <= nth j time 0) ->
  (forall i, (i < List.length time)%nat -> nth i time 0 <= endTime) ->
  eventChains <> [] ->
  (forall chain, In chain eventChains ->
     chain <> [] /\
     (forall ev, In ev chain ->
        0 <= ev_duration ev /\ (0 <= ev_state ev < Z.of_nat numStates)%Z) /\
     sumQ (map ev_duration chain) == endTime) ->
  let P := getProbabilityFromEventChains time endTime numStates eventChains in
  hasShape (List.length time) numStates P /\
  (forall t, (t < List.length time)%nat ->
     sumQ (nth t P []) == 1 /\
     (forall s, (s < numStates)%nat -> 0 <= coeff P t s /\ coeff P t s <= 1)).
Proof.
  intros Hne H0 Hmono Hend Hchains Hall P.
  assert (Forall (chainOK endTime numStates) eventChains) as HF.
  { apply Forall_forall. intros chain Hin.
    destruct (Hall chain Hin) as (Hc & Hev & Hsum).
    split; [exact Hc|]. split; [|exact Hsum].
    apply Forall_forall. exact Hev. }
  destruct (sampleChains_rows time endTime numStates Hmono Hend Hne H0
              eventChains (zeroMatrix (List.length time) numStates)
              (zeroMatrix_shape _ _) (zeroMatrix_nonnegative _ _) HF)
    as ([Hlen Hrows] & Hnn & Htot).
  set (M := inject_Z (Z.of_nat (List.length eventChains))) in *.
  assert (0 < M) as HM.
  { unfold M. replace 0 with (inject_Z 0) by reflexivity.
    rewrite <- Zlt_Qlt. destruct eventChains; [congruence|simpl; lia]. }
  set (P0 := fold_left (sampleChain time endTime) eventChains
               (zeroMatrix (List.length time) numStates)) in *.
  assert (forall t, nth t P [] = map (fun v => v / M) (nth t P0 [])) as Hrow.
  { intros t. unfold P, getProbabilityFromEventChains. fold P0. fold M.
    change (@nil Q) with (map (fun v => v / M) []) at 1. apply map_nth. }
  split.
  - split.
    + unfold P, getProbabilityFromEventChains. rewrite length_map. exact Hlen.
    + unfold P, getProbabilityFromEventChains. fold P0.
      apply Forall_forall. intros row Hrow'. apply in_map_iff in Hrow'.
      destruct Hrow' as (row0 & <- & Hin). rewrite length_map.
      rewrite Forall_forall in Hrows. apply Hrows. exact Hin.
  - intros t Ht.
    assert (sumQ (nth t P0 []) == M) as Hsum.
    { pose proof (Htot t Ht) as H.
      pose proof (zeroMatrix_rowTotal (List.length time) numStates t) as Hz.
      unfold rowTotal in H, Hz. rewrite H, Hz. ring. }
    assert (Forall (fun v => 0 <= v) (nth t P0 [])) as Hpos.
    { unfold nonnegative in Hnn. rewrite Forall_forall in Hnn.
      apply Hnn. apply nth_In. lia. }
    split.
    + rewrite Hrow, sumQ_map_div, Hsum. field. lra.
    + intros s Hs. unfold coeff. rewrite Hrow.
      assert (List.length (nth t P0 []) = numStates) as Hcols.
      { rewrite Forall_forall in Hrows. apply Hrows. apply nth_In. lia. }
      rewrite nth_indep with (d' := (fun v => v / M) 0)
        by (rewrite length_map; lia).
      rewrite (map_nth (fun v => v / M)).
      destruct (entry_le_sum _ Hpos s) as [Hlo Hhi].
      split.
      * apply Qle_shift_div_l; lra.
      * apply Qle_shift_div_r; lra.
Qed.

Lemma getProbabilityFromEventChains_rows_witness :
  let P := getProbabilityFromEventChains [0; 1; 2] 3 2 two_state_chains in
  hasShape 3 2 P /\
  (forall t, (t < 3)%nat ->
     sumQ (nth t P []) == 1 /\
     (forall s, (s < 2)%nat -> 0 <= coeff P t s /\ coeff P t s <= 1)).
Proof.
  apply (getProbabilityFromEventChains_rows [0; 1; 2] 3 2 two_state_chains).
  - discriminate.
  - reflexivity.
  - intros i j Hij Hj. simpl in Hj.
    destruct j as [|[|[|j]]]; try lia;
      destruct i as [|[|[|i]]]; try lia; simpl; lra.
  - intros i Hi. simpl in Hi.
    destruct i as [|[|[|i]]]; try lia; simpl; lra.
  - discriminate.
  - intros chain [<-|[<-|[]]].
    + split; [discriminate|]. split; [|reflexivity].
      intros ev [<-|[<-|[]]]; simpl; split; try lia; lra.
    + split; [discriminate|]. split; [|reflexivity].
      intros ev [<-|[<-|[]]]; simpl; split; try lia; lra.
Defined.

Example two_state_chains_probability :
  getProbabilityFromEventChains [0; 1; 2] 3 2 two_state_chains
  = [[1 # 4; 3 # 4]; [1 # 4; 3 # 4]; [1 # 2; 1 # 2]].
Proof. reflexivity. Qed.

(** ** Event chains of the Monte-Carlo simulation (C3) *)

Lemma endsBetween_bounds (epochs : list Epoch) :
  forall lo hi, endsBetween lo epochs hi -> lo <= hi.
Proof.
  induction epochs as [|e r IH]; intros lo hi H; simpl in H; [exact H|].
  destruct H as [H1 H2]. specialize (IH _ _ H2). lra.
Qed.

Lemma endsBetween_weaken (epochs : list Epoch) (lo lo' hi : Q) :
  lo' <= lo -> endsBetween lo epochs hi -> endsBetween lo' epochs hi.
Proof.
  destruct epochs as [|e r]; simpl; intros Hle H; [lra|].
  destruct H as [H1 H2]. split; [lra|exact H2].
Qed.

Lemma endsBetween_app (a b : list Epoch) :
  forall lo mid hi,
    endsBetween lo a mid -> endsBetween mid b hi -> endsBetween lo (a ++ b) hi.
Proof.
  induction a as [|e a IH]; intros lo mid hi Ha Hb; simpl in *.
  - apply (endsBetween_weaken b mid lo hi Ha Hb).
  - destruct Ha as [H1 H2]. split; [exact H1|]. eapply IH; eassumption.
Qed.

Lemma sumQ_app (a b : list Q) : sumQ (a ++ b) == sumQ a + sumQ b.
Proof.
  induction a as [|x a IH]; simpl; [ring|]. rewrite IH. ring.
Qed.

Section MonteCarloFacts.
Variables (pool : list UniqueEpoch) (endTime : Q).
Hypothesis endTime_nonneg : 0 <= endTime.

Lemma drawLifetime_nonneg (kout : Q) (g : Generator) :
  drawsNonnegative g ->
  0 <= fst (drawLifetime endTime kout g) /\
  g_draws (snd (drawLifetime endTime kout g)) = g_draws g.
Proof.
  intros Hg. unfold drawLifetime.
  destruct (Qlt_bool kout mcEpsilon); simpl; split; auto.
Qed.

(** The inner loop leaves a non-negative lifetime that ends within the epoch
    it stops in. *)
Lemma crossEpochs_spec (rest : list Epoch) :
  forall epoch ecd state lifetime kout changed g,
    drawsNonnegative g -> 0 <= lifetime ->
    endsBetween ecd (epoch :: rest) endTime ->
    let x := crossEpochs pool endTime ecd state epoch rest lifetime kout
                         changed g in
    0 <= x_lifetime x /\
    g_draws (x_generator x) = g_draws g /\
    match x_epochIter x with
    | Some (epoch', rest') =>
        endsBetween (ecd + x_lifetime x) (epoch' :: rest') endTime
    | None => True
    end.
Proof.
  induction rest as [|next rest IH];
    intros epoch ecd state lifetime kout changed g Hg Hl Hends;
    cbn [crossEpochs]; fold (epochEnd epoch);
    destruct Hends as [Hlo Hrest];
    destruct (Qlt_bool (epochEnd epoch) (ecd + lifetime)) eqn:E.
  - cbn. split; [lra|]. split; [reflexivity|exact I].
  - apply Qlt_bool_false in E. cbn. split; [exact Hl|].
    split; [reflexivity|]. split; [exact E|exact Hrest].
  - destruct (drawLifetime endTime (rateOut pool next state) g)
      as [more g'] eqn:Ed.
    pose proof (drawLifetime_nonneg (rateOut pool next state) g Hg) as [Hm Hg'].
    rewrite Ed in Hm, Hg'. simpl in Hm, Hg'.
    destruct (IH next ecd state (epochEnd epoch - ecd + more)
                (rateOut pool next state) true g') as (H1 & H2 & H3).
    + intros n. rewrite Hg'. apply Hg.
    + lra.
    + apply (endsBetween_weaken _ (epochEnd epoch)); [exact Hlo|exact Hrest].
    + split; [exact H1|]. split; [congruence|exact H3].
  - apply Qlt_bool_false in E. cbn. split; [exact Hl|].
    split; [reflexivity|]. split; [exact E|exact Hrest].
Qed.

Lemma chainLoop_unfold (fuel : nat) (state : Z) (ecd : Q) (epoch : Epoch)
    (rest : list Epoch) (QT : Matrix) (chain : MonteCarloEventChain)
    (g : Generator) :
  chainLoop pool endTime fuel state ecd epoch rest QT chain g
  = if Qlt_bool ecd endTime then
      match fuel with
      | O => None
      | S fuel' =>
          let kout := rateOut pool epoch state in
          let (lifetime, g) := drawLifetime endTime kout g in
          let x := crossEpochs pool endTime ecd state epoch rest lifetime kout
                               false g in
          match x_epochIter x with
          | None =>
              Some (chain ++ [mkEvent state (endTime - ecd)], x_generator x)
          | Some (epoch, rest) =>
              let QT :=
                if x_epochChanged x
                then transpose (u_transitionRates (uniqueOf pool epoch))
                else QT in
              let chain := chain ++ [mkEvent state (x_lifetime x)] in
              let ecd := ecd + x_lifetime x in
              if Qlt_bool ecd endTime then
                let (prnd, g) := draw (x_generator x) in
                let state :=
                  pickNext (sparseColumn QT state) state (x_kout x) prnd 0 in
                chainLoop pool endTime fuel' state ecd epoch rest QT chain g
              else
                chainLoop pool endTime fuel' state ecd epoch rest QT chain
                          (x_generator x)
          end
      end
    else Some (chain, g).
Proof. destruct fuel; reflexivity. Qed.

(** The invariant of the loop of one run: the durations pushed so far add up
    to [eventChainDuration], which has not passed the end of the current
    epoch. *)
Lemma chainLoop_spec (fuel : nat) :
  forall state ecd epoch rest QT chain g chain' g',
    drawsNonnegative g ->
    endsBetween ecd (epoch :: rest) endTime ->
    sumQ (map ev_duration chain) == ecd ->
    durationsNonnegative chain ->
    chainLoop pool endTime fuel state ecd epoch rest QT chain g
      = Some (chain', g') ->
    sumQ (map ev_duration chain') == endTime /\
    durationsNonnegative chain' /\
    g_draws g' = g_draws g.
Proof.
  induction fuel as [|fuel IH];
    intros state ecd epoch rest QT chain g chain' g' Hg Hends Hsum Hnn Hrun;
    rewrite chainLoop_unfold in Hrun;
    pose proof (endsBetween_bounds _ _ _ Hends) as Hb;
    destruct (Qlt_bool ecd endTime) eqn:E;
    try discriminate Hrun;
    try (apply Qlt_bool_false in E; injection Hrun as <- <-;
         split; [rewrite Hsum; lra|]; split; [exact Hnn|reflexivity]).
  apply Qlt_bool_iff in E. cbv zeta in Hrun.
  destruct (drawLifetime endTime (rateOut pool epoch state) g)
    as [lifetime g1] eqn:Ed.
  pose proof (drawLifetime_nonneg (rateOut pool epoch state) g Hg) as [Hl Hg1].
  rewrite Ed in Hl, Hg1. simpl in Hl, Hg1.
  assert (drawsNonnegative g1) as Hg1' by (intros n; rewrite Hg1; apply Hg).
  pose proof (crossEpochs_spec rest epoch ecd state lifetime
                (rateOut pool epoch state) false g1 Hg1' Hl Hends)
    as (Hx1 & Hx2 & Hx3).
  destruct (x_epochIter
              (crossEpochs pool endTime ecd state epoch rest lifetime
                 (rateOut pool epoch state) false g1))
    as [[epoch' rest']|] eqn:Ex.
  - set (x := crossEpochs pool endTime ecd state epoch rest lifetime
                (rateOut pool epoch state) false g1) in *.
    assert (sumQ (map ev_duration (chain ++ [mkEvent state (x_lifetime x)]))
            == ecd + x_lifetime x) as Hsum'.
    { rewrite map_app, sumQ_app, Hsum. simpl. ring. }
    assert (durationsNonnegative (chain ++ [mkEvent state (x_lifetime x)]))
      as Hnn'.
    { apply Forall_app. split; [exact Hnn|]. constructor; [exact Hx1|constructor]. }
    assert (drawsNonnegative (x_generator x)) as Hgx
      by (intros n; rewrite Hx2; apply Hg1').
    destruct (Qlt_bool (ecd + x_lifetime x) endTime).
    + destruct (draw (x_generator x)) as [prnd g2] eqn:Edraw.
      assert (g_draws g2 = g_draws (x_generator x)) as Hg2
        by (unfold draw in Edraw; injection Edraw as _ <-; reflexivity).
      destruct (IH _ _ _ _ _ _ _ _ _
                  ltac:(intros n; rewrite Hg2; apply Hgx) Hx3 Hsum' Hnn' Hrun)
        as (R1 & R2 & R3).
      split; [exact R1|]. split; [exact R2|]. congruence.
    + destruct (IH _ _ _ _ _ _ _ _ _ Hgx Hx3 Hsum' Hnn' Hrun)
        as (R1 & R2 & R3).
      split; [exact R1|]. split; [exact R2|]. congruence.
  - injection Hrun as <- <-.
    split; [rewrite map_app, sumQ_app, Hsum; simpl; ring|].
    split; [|congruence].
    apply Forall_app. split; [exact Hnn|].
    constructor; [simpl; lra|constructor].
Qed.
End MonteCarloFacts.

Lemma monteCarloRun_spec (pool : list UniqueEpoch) (endTime : Q) (fuel : nat)
    (epochs : list Epoch) (p0 : list Q) (g g' : Generator)
    (chain : MonteCarloEventChain) :
  drawsNonnegative g ->
  endsBetween 0 epochs endTime ->
  monteCarloRun pool endTime fuel epochs p0 g = Some (chain, g') ->
  sumQ (map ev_duration chain) == endTime /\
  durationsNonnegative chain /\
  g_draws g' = g_draws g.
Proof.
  intros Hg Hends Hrun. unfold monteCarloRun in Hrun.
  destruct (draw g) as [prnd g1] eqn:Ed.
  assert (g_draws g1 = g_draws g) as Hg1
    by (unfold draw in Ed; injection Ed as _ <-; reflexivity).
  destruct epochs as [|epoch rest]; [discriminate|].
  pose proof (endsBetween_bounds _ _ _ Hends) as Hb.
  assert (drawsNonnegative g1) as Hg1'
    by (intros n; rewrite Hg1; apply Hg).
  destruct (chainLoop_spec pool endTime Hb fuel _ 0 epoch rest _ [] g1 chain g'
              Hg1' Hends (Qeq_refl 0) (Forall_nil _) Hrun)
    as (R1 & R2 & R3).
  split; [exact R1|]. split; [exact R2|]. congruence.
Qed.

Lemma monteCarloRuns_spec (pool : list UniqueEpoch) (endTime : Q) (fuel : nat)
    (epochs : list Epoch) (p0 : list Q) (numRuns : nat) :
  forall g g' chains,
    drawsNonnegative g ->
    endsBetween 0 epochs endTime ->
    monteCarloRuns pool endTime fuel epochs p0 numRuns g = Some (chains, g') ->
    List.length chains = numRuns /\
    Forall (fun chain => sumQ (map ev_duration chain) == endTime /\
                         durationsNonnegative chain) chains.
Proof.
  induction numRuns as [|numRuns IH]; intros g g' chains Hg Hends Hrun;
    simpl in Hrun.
  - injection Hrun as <- <-. split; [reflexivity|constructor].
  - destruct (monteCarloRun pool endTime fuel epochs p0 g)
      as [[chain g1]|] eqn:E1; [|discriminate].
    destruct (monteCarloRuns pool endTime fuel epochs p0 numRuns g1)
      as [[chains1 g2]|] eqn:E2; [|discriminate].
    injection Hrun as <- <-.
    destruct (monteCarloRun_spec _ _ _ _ _ _ _ _ Hg Hends E1) as (R1 & R2 & R3).
    destruct (IH g1 g2 chains1 ltac:(intros n; rewrite R3; apply Hg) Hends E2)
      as [L1 L2].
    split; [simpl; lia|]. constructor; [split; assumption|exact L2].
Qed.

Lemma nth_padded {A : Type} (l : list A) (d : A) (k i : nat) :
  nth i (l ++ repeat d k) d = nth i l d.
Proof.
  destruct (Nat.ltb_spec i (List.length l)) as [H|H].
  - apply app_nth1. exact H.
  - rewrite app_nth2 by exact H. rewrite nth_repeat.
    symmetry. apply nth_overflow. exact H.
Qed.

(** The epochs of a non-decreasing sample grid that starts at a non-negative
    time and does not pass [endTime] stop at non-decreasing times between [0]
    and [endTime]. *)
Lemma findEpochs_loop_ends (time : list Q) (stimuli : StimulusWaveforms) :
  (forall i j, (i <= j)%nat -> (j < List.length time)%nat ->
               nth i time 0 <= nth j time 0) ->
  0 <= nth 0 time 0 ->
  forall n,
    (n < List.length time)%nat ->
    exists closed k,
      fold_left (epochStep time stimuli) (seq 1 n) [openEpoch time stimuli 0]
        = closed ++ [openEpoch time stimuli k] /\
      (k <= n)%nat /\
      endsBetween 0 closed (nth k time 0).
Proof.
  intros Hmono H0. induction n as [|n IH]; intros Hn.
  - exists [], 0%nat. simpl. split; [reflexivity|]. split; [lia|exact H0].
  - destruct (IH ltac:(lia)) as (closed & k & Heq & Hk & Hends).
    rewrite seq_S, fold_left_app, Heq. simpl. unfold epochStep at 1.
    destruct (stimuliChangeAt stimuli (S n)).
    + rewrite updateBack_app.
      exists (closed ++ [closeEpoch (nth (S n) time 0) (Z.of_nat (S n))
                           (openEpoch time stimuli k)]), (S n).
      split; [reflexivity|]. split; [lia|].
      eapply endsBetween_app; [exact Hends|].
      pose proof (Hmono k (S n) ltac:(lia) Hn).
      unfold endsBetween, epochEnd.
      cbn [closeEpoch openEpoch e_start e_duration]. split; lra.
    + exists closed, k. split; [reflexivity|]. split; [lia|exact Hends].
Qed.

Lemma findEpochs_ends (time : list Q) (endTime : Q)
    (stimuli : StimulusWaveforms) :
  time <> [] ->
  (forall i j, (i <= j)%nat -> (j < List.length time)%nat ->
               nth i time 0 <= nth j time 0) ->
  (forall i, (i < List.length time)%nat -> nth i time 0 <= endTime) ->
  0 <= nth 0 time 0 ->
  endsBetween 0 (findEpochs time endTime stimuli) endTime.
Proof.
  intros Hne Hmono Hend H0. unfold findEpochs.
  assert (0 < List.length time)%nat as HN
    by (destruct time; [congruence|simpl; lia]).
  destruct (findEpochs_loop_ends time stimuli Hmono H0 (List.length time - 1))
    as (closed & k & Heq & Hk & Hends); [lia|].
  rewrite Heq, updateBack_app.
  eapply endsBetween_app; [exact Hends|].
  pose proof (Hend k ltac:(lia)).
  unfold endsBetween, epochEnd.
  cbn [closeEpoch openEpoch e_start e_duration]. split; lra.
Qed.

(** As the specification words it, C3 fails when the first epoch stops before time zero,
    as it does for a protocol that starts early enough at a negative time:
    the chain's clock starts at [0], past that epoch's end, and the first
    lifetime is cut to a negative duration. *)
Lemma monteCarloSimulation_negative_duration :
  0 < s_endTime sim_negative_start /\
  s_epochs sim_negative_start <> [] /\
  drawsNonnegative constantGenerator /\
  option_map (fun r => s_events (fst r))
    (monteCarloSimulation (fun _ => []) two_state_pool 10 sim_negative_start
       [1; 0] constantGenerator 1 false false false 0)
  = Some [[[mkEvent 0 (-1 # 2); mkEvent 1 (1 # 2); mkEvent 0 (1 # 2);
            mkEvent 1 (1 # 2)]]] /\
  ~ 0 <= ev_duration (mkEvent 0 (-1 # 2)).
Proof.
  split; [reflexivity|]. split; [discriminate|].
  split; [intros n; simpl; lra|].
  split; [vm_compute; reflexivity|].
  simpl. lra.
Qed.

(** C3 (as the code has it).  Let the epoch list be non-empty, with epochs
    that stop at non-decreasing times between [0] and [endTime] (the epochs
    of a non-decreasing sample grid that starts at a non-negative time and
    does not pass [endTime] do), and let every drawn lifetime be
    non-negative.  Then for every event chain that
    [monteCarloSimulation] produces, the durations of the chain's events add
    up to [endTime] and every event duration is non-negative. *)
Theorem monteCarloSimulation_chains (equilibrium : Matrix -> list Q)
    (pool : list UniqueEpoch) (fuel : nat) (sim sim' : Simulation)
    (startingProbability : list Q) (g g' : Generator) (numRuns : nat)
    (accumulateRuns sampleRuns startEquilibrated : bool)
    (variableSetIndex : nat) :
  s_epochs sim <> [] ->
  endsBetween 0 (s_epochs sim) (s_endTime sim) ->
  drawsNonnegative g ->
  monteCarloSimulation equilibrium pool fuel sim startingProbability g numRuns
    accumulateRuns sampleRuns startEquilibrated variableSetIndex
  = Some (sim', g') ->
  exists eventChains,
    nth variableSetIndex (s_events sim') []
    = (if accumulateRuns then nth variableSetIndex (s_events sim) [] else [])
      ++ eventChains /\
    List.length eventChains = numRuns /\
    (forall chain, In chain eventChains ->
       sumQ (map ev_duration chain) == s_endTime sim /\
       (forall ev, In ev chain -> 0 <= ev_duration ev)).
Proof.
  intros Hne Hends Hg Hrun. unfold monteCarloSimulation in Hrun.
  destruct (monteCarloRuns pool (s_endTime sim) fuel (s_epochs sim)
              (if startEquilibrated
               then equilibrium
                      (u_transitionRates
                         (uniqueOf pool (hd nullEpoch (s_epochs sim))))
               else startingProbability) numRuns g)
    as [[chains g1]|] eqn:E; [|discriminate].
  destruct (monteCarloRuns_spec _ _ _ _ _ _ _ _ _ Hg Hends E) as [Hlen Hall].
  exists chains.
  assert (nth variableSetIndex (s_events sim') []
          = (if accumulateRuns
             then nth variableSetIndex
                    (s_events sim
                     ++ repeat [] (variableSetIndex + 1
                                   - List.length (s_events sim))) []
             else []) ++ chains) as Hev.
  { assert (variableSetIndex
            < List.length (s_events sim
                           ++ repeat [] (variableSetIndex + 1
                                         - List.length (s_events sim))))%nat
      as Hlt by (rewrite length_app, repeat_length; lia).
    destruct sampleRuns; injection Hrun as <- <-;
      cbn [s_events set_events set_probability];
      apply replaceNth_nth; exact Hlt. }
  rewrite nth_padded in Hev.
  split; [exact Hev|]. split; [exact Hlen|].
  intros chain Hin. rewrite Forall_forall in Hall.
  destruct (Hall chain Hin) as [Hsum Hnn].
  split; [exact Hsum|]. intros ev Hev'.
  unfold durationsNonnegative in Hnn. rewrite Forall_forall in Hnn.
  apply Hnn. exact Hev'.
Qed.

Lemma monteCarloSimulation_chains_witness :
  match monteCarloSimulation (fun _ => []) two_state_pool 20 sim_from_zero
          [1; 0] constantGenerator 2 false true false 0 with
  | Some (sim', _) =>
      exists eventChains,
        nth 0 (s_events sim') [] = [] ++ eventChains /\
        List.length eventChains = 2%nat /\
        (forall chain, In chain eventChains ->
           sumQ (map ev_duration chain) == s_endTime sim_from_zero /\
           (forall ev, In ev chain -> 0 <= ev_duration ev))
  | None => False
  end.
Proof.
  destruct (monteCarloSimulation (fun _ => []) two_state_pool 20 sim_from_zero
              [1; 0] constantGenerator 2 false true false 0)
    as [[sim' g']|] eqn:E.
  - apply (monteCarloSimulation_chains (fun _ => []) two_state_pool 20
             sim_from_zero sim' [1; 0] constantGenerator g' 2 false true false 0).
    + discriminate.
    + vm_compute. repeat split; discriminate.
    + intros n. simpl. lra.
    + exact E.
  - vm_compute in E. discriminate E.
Defined.

(** *** The loop of a run ends *)

Section MonteCarloTermination.
Variables (pool : list UniqueEpoch) (endTime : Q).
Variable mu : Q.
Hypothesis mu_pos : 0 < mu.
Hypothesis mu_le_endTime : mu <= endTime.

Local Notation atLeast := (drawsAtLeast mu).

Lemma drawLifetime_at_least (kout : Q) (g : Generator) :
  atLeast g ->
  mu <= fst (drawLifetime endTime kout g) /\
  g_draws (snd (drawLifetime endTime kout g)) = g_draws g.
Proof.
  intros Hg. unfold drawLifetime.
  destruct (Qlt_bool kout mcEpsilon); simpl; split; auto.
Qed.

Lemma crossEpochs_at_least (rest : list Epoch) :
  forall epoch ecd state lifetime kout changed g,
    atLeast g -> mu <= lifetime -> ecd <= epochEnd epoch ->
    endsBetween ecd (epoch :: rest) endTime ->
    let x := crossEpochs pool endTime ecd state epoch rest lifetime kout
                         changed g in
    g_draws (x_generator x) = g_draws g /\
    (x_epochIter x <> None -> mu <= x_lifetime x).
Proof.
  induction rest as [|next rest IH];
    intros epoch ecd state lifetime kout changed g Hg Hl Hecd Hends;
    cbn [crossEpochs]; fold (epochEnd epoch);
    destruct Hends as [Hlo Hrest];
    destruct (Qlt_bool (epochEnd epoch) (ecd + lifetime)) eqn:E.
  - cbn. split; [reflexivity|]. intros H. congruence.
  - cbn. split; [reflexivity|]. intros _. exact Hl.
  - destruct (drawLifetime endTime (rateOut pool next state) g)
      as [more g1] eqn:Ed.
    pose proof (drawLifetime_at_least (rateOut pool next state) g Hg)
      as [Hm Hg1].
    rewrite Ed in Hm, Hg1. simpl in Hm, Hg1.
    destruct Hrest as [Hn Hrest'].
    destruct (IH next ecd state (epochEnd epoch - ecd + more)
                (rateOut pool next state) true g1) as [H1 H2].
    + intros n. rewrite Hg1. apply Hg.
    + lra.
    + lra.
    + split; [lra|exact Hrest'].
    + split; [congruence|exact H2].
  - cbn. split; [reflexivity|]. intros _. exact Hl.
Qed.

(** With lifetimes bounded below by [mu > 0], every event but the last
    advances the chain's clock by at least [mu], so a chain has at most
    [endTime / mu] events before its last one. *)
Lemma chainLoop_returns (fuel : nat) :
  forall state ecd epoch rest QT chain g,
    atLeast g ->
    endsBetween ecd (epoch :: rest) endTime ->
    endTime - ecd <= inject_Z (Z.of_nat fuel) * mu ->
    exists result,
      chainLoop pool endTime fuel state ecd epoch rest QT chain g = Some result.
Proof.
  induction fuel as [|fuel IH];
    intros state ecd epoch rest QT chain g Hg Hends Hfuel;
    rewrite chainLoop_unfold;
    destruct (Qlt_bool ecd endTime) eqn:E;
    try (eexists; reflexivity).
  - apply Qlt_bool_iff in E. exfalso.
    change (inject_Z (Z.of_nat 0)) with 0 in Hfuel. lra.
  - apply Qlt_bool_iff in E. cbv zeta.
    destruct (drawLifetime endTime (rateOut pool epoch state) g)
      as [lifetime g1] eqn:Ed.
    pose proof (drawLifetime_at_least (rateOut pool epoch state) g Hg)
      as [Hl Hg1].
    rewrite Ed in Hl, Hg1. simpl in Hl, Hg1.
    assert (atLeast g1) as Hg1' by (intros n; rewrite Hg1; apply Hg).
    assert (drawsNonnegative g1) as Hg1'' by (intros n; specialize (Hg1' n); lra).
    pose proof (crossEpochs_at_least rest epoch ecd state lifetime
                  (rateOut pool epoch state) false g1 Hg1' Hl
                  (proj1 Hends) Hends) as [Hx1 Hx2].
    assert (0 <= endTime) as Hnn by lra.
    assert (0 <= lifetime) as Hl0 by lra.
    pose proof (crossEpochs_spec pool endTime Hnn rest epoch ecd state lifetime
                  (rateOut pool epoch state) false g1 Hg1'' Hl0 Hends)
      as (_ & _ & Hx3).
    destruct (x_epochIter
                (crossEpochs pool endTime ecd state epoch rest lifetime
                   (rateOut pool epoch state) false g1))
      as [[epoch' rest']|] eqn:Ex; [|eexists; reflexivity].
    set (x := crossEpochs pool endTime ecd state epoch rest lifetime
                (rateOut pool epoch state) false g1) in *.
    assert (mu <= x_lifetime x) as Hmu by (apply Hx2; discriminate).
    assert (endTime - (ecd + x_lifetime x) <= inject_Z (Z.of_nat fuel) * mu)
      as Hfuel'.
    { replace (Z.of_nat (S fuel)) with (Z.of_nat fuel + 1)%Z in Hfuel by lia.
      rewrite inject_Z_plus in Hfuel.
      change (inject_Z 1) with 1 in Hfuel. lra. }
    assert (atLeast (x_generator x)) as Hgx
      by (intros n; rewrite Hx1; apply Hg1').
    destruct (Qlt_bool (ecd + x_lifetime x) endTime).
    + destruct (draw (x_generator x)) as [prnd g2] eqn:Edraw.
      assert (g_draws g2 = g_draws (x_generator x)) as Hg2
        by (unfold draw in Edraw; injection Edraw as _ <-; reflexivity).
      apply IH; [|exact Hx3|exact Hfuel'].
      intros n. rewrite Hg2. apply Hgx.
    + apply IH; [exact Hgx|exact Hx3|exact Hfuel'].
Qed.
End MonteCarloTermination.

(** A run returns its chain once the fuel admits [endTime / mu] events. *)
Lemma monteCarloRun_returns (pool : list UniqueEpoch) (endTime mu : Q)
    (fuel : nat) (epochs : list Epoch) (p0 : list Q) (g : Generator) :
  0 < mu -> mu <= endTime ->
  drawsAtLeast mu g ->
  epochs <> [] ->
  endsBetween 0 epochs endTime ->
  endTime <= inject_Z (Z.of_nat fuel) * mu ->
  exists result, monteCarloRun pool endTime fuel epochs p0 g = Some result.
Proof.
  intros Hmu Hle Hg Hne Hends Hfuel. unfold monteCarloRun.
  destruct (draw g) as [prnd g1] eqn:Ed.
  assert (g_draws g1 = g_draws g) as Hg1
    by (unfold draw in Ed; injection Ed as _ <-; reflexivity).
  destruct epochs as [|epoch rest]; [congruence|].
  apply (chainLoop_returns pool endTime mu Hmu Hle);
    [intros n; rewrite Hg1; apply Hg|exact Hends|lra].
Qed.

(** Interning changes the pointers of the epochs only, so the epochs of an
    initialised simulation stop where the epochs found on its grid do. *)
Lemma internEpochs_ends (epochs : list Epoch) :
  forall pool lo hi,
    endsBetween lo epochs hi ->
    endsBetween lo (snd (mapAccum internEpoch pool epochs)) hi.
Proof.
  induction epochs as [|e epochs IH]; intros pool lo hi H; [exact H|].
  destruct H as [H1 H2]. cbn [mapAccum].
  destruct (internEpoch pool e) as [pool1 e'] eqn:Ee.
  assert (epochEnd e' = epochEnd e) as He.
  { unfold internEpoch in Ee.
    destruct (findUnique pool (e_stimuli e) 0); injection Ee as _ <-;
      reflexivity. }
  specialize (IH pool1 _ _ H2).
  destruct (mapAccum internEpoch pool1 epochs) as [pool2 epochs'].
  cbn [snd] in *. split; rewrite He; assumption.
Qed.

Lemma initEpochs_ends (pool : list UniqueEpoch) (sim : Simulation) :
  s_time sim <> [] ->
  (forall i j, (i <= j)%nat -> (j < List.length (s_time sim))%nat ->
               nth i (s_time sim) 0 <= nth j (s_time sim) 0) ->
  (forall i, (i < List.length (s_time sim))%nat ->
             nth i (s_time sim) 0 <= s_endTime sim) ->
  0 <= nth 0 (s_time sim) 0 ->
  let sim' := snd (initEpochs pool sim) in
  s_epochs sim' <> [] /\
  endsBetween 0 (s_epochs sim') (s_endTime sim').
Proof.
  intros Hne Hmono Hend H0.
  pose proof (findEpochs_ends (s_time sim) (s_endTime sim) (s_stimuli sim)
                Hne Hmono Hend H0) as Hends.
  pose proof (findEpochs_chained (s_time sim) (s_endTime sim) (s_stimuli sim))
    as Hch.
  unfold initEpochs, findEpochsDiscretizedToSamplePoints.
  cbn [s_epochs set_epochs].
  pose proof (internEpochs_ends _ pool _ _ Hends) as Hi.
  destruct (findEpochs (s_time sim) (s_endTime sim) (s_stimuli sim))
    as [|e es] eqn:Ef.
  - exfalso. simpl in Hch. destruct Hch as [Hp _].
    destruct (s_time sim); [congruence|simpl in Hp; lia].
  - cbn [mapAccum] in *.
    destruct (internEpoch pool e) as [pool1 e'].
    destruct (mapAccum internEpoch pool1 es) as [pool2 es'].
    cbn [snd s_epochs set_epochs s_endTime] in *.
    split; [discriminate|exact Hi].
Qed.

(** ** The scenarios of the specification, evaluated *)

(** Reference resampling: [xref = [0,1,2,3]], [yref = [0,10,20,30]] sampled
    at [x = [0.5, 1.5, 2.5]] gives [[5, 15, 25]], [firstPt = 0],
    [numPts = 3]; with the shift [x0 = 1] the last sample has no bracketing
    reference points and [numPts = 2]. *)
Example sampleArray_interpolates :
  sampleArray [0; 1; 2; 3] [0; 10; 20; 30] 4 [1 # 2; 3 # 2; 5 # 2] [0; 0; 0] 3
              0 (1 # 100000)
  = ([10 # 2; 30 # 2; 50 # 2], 0%Z, 3%Z) /\
  sampleArray [0; 1; 2; 3] [0; 10; 20; 30] 4 [1 # 2; 3 # 2; 5 # 2] [0; 0; 0] 3
              1 (1 # 100000)
  = ([30 # 2; 50 # 2; 0], 0%Z, 2%Z).
Proof. split; vm_compute; reflexivity. Qed.

Example findEpochs_two_epochs :
  map (fun e => (e_start e, e_duration e, e_firstPt e, e_numPts e))
      (s_epochs (findEpochsDiscretizedToSamplePoints sim_two_epochs))
  = [(0, 2 - 0, 0%Z, (2 - 0)%Z); (2, 4 - 2, 2%Z, (4 - 2)%Z)].
Proof. reflexivity. Qed.

Example findIndexesInRange_window :
  findIndexesInRange [0; 1; 2; 3] 1 3 0 = (1%Z, 2%Z) /\
  findIndexesInRange [0; 1; 2; 3] (1 # 2) 5 0 = (1%Z, 3%Z).
Proof. split; vm_compute; reflexivity. Qed.

(** A start-equilibrated two-state model, [Q = [[-1, 1], [2, -2]]], stays at
    its stationary distribution [(2/3, 1/3)]. *)
Example spectralSimulation_equilibrated :
  let u := mkUniqueEpoch [] two_state_rates [0; -3]
             [[[2 # 3; 1 # 3]; [2 # 3; 1 # 3]];
              [[1 # 3; -1 # 3]; [-2 # 3; 2 # 3]]] in
  let sim := mkSimulation [0; 1; 2] 3 [1; 1; 1] []
               [mkEpoch 0 3 0 3 [] (Some 0%nat)] [] [] [] [] in
  forall exp,
    Forall (Forall (fun row => nth 0 row 0 == 2 # 3 /\ nth 1 row 0 == 1 # 3))
           (s_probability (spectralSimulation exp [u] sim [1; 0] true 0 false)).
Proof.
  intros u sim exp. vm_compute.
  repeat constructor; intros H; discriminate H.
Qed.

(** ** Epochs are the maximal runs of constant stimuli *)

Lemma stimuliChangeAt_spec (stimuli : StimulusWaveforms) (i : nat) :
  stimuliChangeAt stimuli i
  = negb (stimuliEq (stimuliAt stimuli i) (stimuliAt stimuli (i - 1))).
Proof.
  unfold stimuliChangeAt, stimuliAt.
  induction stimuli as [|[k w] r IH]; simpl; [reflexivity|].
  rewrite IH, String.eqb_refl. simpl.
  destruct (Qeq_bool (nth i w 0) (nth (i - 1) w 0)); reflexivity.
Qed.

Lemma stimuliEq_false_trans (a b c : StimulusMap) :
  stimuliEq a b = true -> stimuliEq c b = false -> stimuliEq a c = false.
Proof.
  intros Hab Hcb. destruct (stimuliEq a c) eqn:E; [|reflexivity].
  apply stimuliEq_sym in E.
  rewrite (stimuliEq_trans _ _ _ E Hab) in Hcb. discriminate.
Qed.

Lemma updateBack_stimuli (f : Epoch -> Epoch) (l : list Epoch) :
  (forall e, e_stimuli (f e) = e_stimuli e) ->
  map e_stimuli (updateBack f l) = map e_stimuli l.
Proof.
  intros Hf. induction l as [|e r IH]; [reflexivity|].
  destruct r as [|e' r']; [simpl; rewrite Hf; reflexivity|].
  change (updateBack f (e :: e' :: r')) with (e :: updateBack f (e' :: r')).
  cbn [map]. cbn [map] in IH. rewrite IH. reflexivity.
Qed.

Lemma adjacentDiffer_snoc (l : list StimulusMap) (a b : StimulusMap) :
  adjacentDiffer (l ++ [a]) -> stimuliEq a b = false ->
  adjacentDiffer ((l ++ [a]) ++ [b]).
Proof.
  induction l as [|x r IH]; intros H Hab.
  - simpl. auto.
  - destruct r as [|y r'].
    + simpl in *. destruct H as [Hxa _]. auto.
    + change (adjacentDiffer (x :: y :: (r' ++ [a]) ++ [b])).
      change (adjacentDiffer (x :: y :: r' ++ [a])) in H.
      destruct H as [Hxy Hr]. split; [exact Hxy|]. apply IH; assumption.
Qed.

Lemma adjacentDiffer_nth (l : list StimulusMap) :
  adjacentDiffer l ->
  forall i a b,
    nth_error l i = Some a -> nth_error l (S i) = Some b ->
    stimuliEq a b = false.
Proof.
  induction l as [|x r IH]; intros H i a b Ha Hb; [destruct i; discriminate|].
  destruct r as [|y r']; [destruct i as [|[|i]]; discriminate|].
  destruct H as [Hxy Hr]. destruct i as [|i].
  - simpl in Ha, Hb. injection Ha as <-. injection Hb as <-. exact Hxy.
  - simpl in Ha. apply (IH Hr i a b Ha Hb).
Qed.

(** The loop invariant of [findEpochsDiscretizedToSamplePoints], for the
    stimuli: the closed epochs are constant on their samples, the open one
    (opened at sample [k]) is constant so far, and neighbours differ. *)
Lemma findEpochs_loop_runs (time : list Q) (stimuli : StimulusWaveforms) :
  forall n,
    exists closed k,
      fold_left (epochStep time stimuli) (seq 1 n) [openEpoch time stimuli 0]
        = closed ++ [openEpoch time stimuli k] /\
      (k <= n)%nat /\
      Forall (constantOn stimuli) closed /\
      Forall (fun e => e_start e = nth (Z.to_nat (e_firstPt e)) time 0) closed /\
      (forall i, (k <= i <= n)%nat ->
                 stimuliEq (stimuliAt stimuli i) (stimuliAt stimuli k) = true) /\
      adjacentDiffer (map e_stimuli closed ++ [stimuliAt stimuli k]).
Proof.
  induction n as [|n IH].
  - exists [], 0%nat. simpl. split; [reflexivity|]. split; [lia|].
    split; [constructor|]. split; [constructor|]. split; [|exact I].
    intros i Hi. replace i with 0%nat by lia. apply stimuliEq_refl.
  - destruct IH as (closed & k & Heq & Hk & Hconst & Hstart & Hopen & Hadj).
    rewrite seq_S, fold_left_app, Heq. simpl. unfold epochStep at 1.
    pose proof (stimuliChangeAt_spec stimuli (S n)) as Hspec.
    replace (S n - 1)%nat with n in Hspec by lia.
    destruct (stimuliChangeAt stimuli (S n)) eqn:Hchange.
    + rewrite updateBack_app.
      exists (closed ++ [closeEpoch (nth (S n) time 0) (Z.of_nat (S n))
                           (openEpoch time stimuli k)]), (S n).
      split; [reflexivity|]. split; [lia|].
      split; [|split; [|split]].
      * apply Forall_app. split; [exact Hconst|]. constructor; [|constructor].
        intros i Hi.
        cbn [closeEpoch openEpoch e_firstPt e_numPts e_stimuli] in *.
        apply Hopen. lia.
      * apply Forall_app. split; [exact Hstart|]. constructor; [|constructor].
        cbn [closeEpoch openEpoch e_firstPt e_start].
        rewrite Nat2Z.id. reflexivity.
      * intros i Hi. replace i with (S n) by lia. apply stimuliEq_refl.
      * rewrite map_app. cbn [map closeEpoch openEpoch e_stimuli].
        apply adjacentDiffer_snoc; [exact Hadj|].
        symmetry in Hspec. apply negb_true_iff in Hspec.
        apply stimuliEq_false_trans with (b := stimuliAt stimuli n).
        -- apply stimuliEq_sym. apply Hopen. lia.
        -- exact Hspec.
    + exists closed, k. split; [reflexivity|]. split; [lia|].
      split; [exact Hconst|]. split; [exact Hstart|]. split; [|exact Hadj].
      intros i Hi. destruct (Nat.eq_dec i (S n)) as [->|Hne].
      * symmetry in Hspec. apply negb_false_iff in Hspec.
        eapply stimuliEq_trans; [exact Hspec|]. apply Hopen. lia.
      * apply Hopen. lia.
Qed.

Lemma findEpochs_runs (time : list Q) (endTime : Q)
    (stimuli : StimulusWaveforms) :
  let es := findEpochs time endTime stimuli in
  Forall (constantOn stimuli) es /\
  Forall (fun e => e_start e = nth (Z.to_nat (e_firstPt e)) time 0) es /\
  adjacentDiffer (map e_stimuli es).
Proof.
  unfold findEpochs.
  destruct (findEpochs_loop_runs time stimuli (List.length time - 1))
    as (closed & k & Heq & Hk & Hconst & Hstart & Hopen & Hadj).
  rewrite Heq, updateBack_app. split; [|split].
  - apply Forall_app. split; [exact Hconst|]. constructor; [|constructor].
    intros i Hi. cbn [closeEpoch openEpoch e_firstPt e_numPts e_stimuli] in *.
    apply Hopen. lia.
  - apply Forall_app. split; [exact Hstart|]. constructor; [|constructor].
    cbn [closeEpoch openEpoch e_firstPt e_start]. rewrite Nat2Z.id. reflexivity.
  - rewrite map_app. exact Hadj.
Qed.

(** X1.  Within an epoch found by [findEpochsDiscretizedToSamplePoints] the
    stimuli do not change: at every sample [i] of the epoch, each channel
    has the value the epoch records, and the epoch starts at the time of its
    first sample. *)
Theorem findEpochs_stimuli_constant (sim : Simulation) (e : Epoch) (i : nat) :
  In e (s_epochs (findEpochsDiscretizedToSamplePoints sim)) ->
  (e_firstPt e <= Z.of_nat i < e_firstPt e + e_numPts e)%Z ->
  stimuliEq (stimuliAt (s_stimuli sim) i) (e_stimuli e) = true /\
  e_start e = nth (Z.to_nat (e_firstPt e)) (s_time sim) 0.
Proof.
  intros He Hi.
  destruct (findEpochs_runs (s_time sim) (s_endTime sim) (s_stimuli sim))
    as (Hconst & Hstart & _).
  rewrite Forall_forall in Hconst, Hstart. split.
  - apply (Hconst e He i Hi).
  - apply (Hstart e He).
Qed.

Lemma findEpochs_stimuli_constant_witness :
  stimuliEq (stimuliAt (s_stimuli sim_two_epochs) 3)
            [("V"%string, 5)] = true /\
  2 = nth (Z.to_nat 2) (s_time sim_two_epochs) 0.
Proof.
  apply (findEpochs_stimuli_constant sim_two_epochs
           (mkEpoch 2 (4 - 2) 2 (4 - 2) [("V"%string, 5)] None) 3).
  - right. left. reflexivity.
  - simpl. lia.
Defined.

(** X2.  An epoch ends only where a stimulus changes: two consecutive
    epochs found by [findEpochsDiscretizedToSamplePoints] never record equal
    stimuli. *)
Theorem findEpochs_adjacent_differ (sim : Simulation) (i : nat)
    (e1 e2 : Epoch) :
  let es := s_epochs (findEpochsDiscretizedToSamplePoints sim) in
  nth_error es i = Some e1 -> nth_error es (S i) = Some e2 ->
  stimuliEq (e_stimuli e1) (e_stimuli e2) = false.
Proof.
  intros es H1 H2.
  destruct (findEpochs_runs (s_time sim) (s_endTime sim) (s_stimuli sim))
    as (_ & _ & Hadj).
  apply (adjacentDiffer_nth _ Hadj i).
  - rewrite nth_error_map. unfold es in H1. cbn [s_epochs findEpochsDiscretizedToSamplePoints set_epochs] in H1.
    rewrite H1. reflexivity.
  - rewrite nth_error_map. unfold es in H2. cbn [s_epochs findEpochsDiscretizedToSamplePoints set_epochs] in H2.
    rewrite H2. reflexivity.
Qed.

Lemma findEpochs_adjacent_differ_witness :
  stimuliEq [("V"%string, 0)] [("V"%string, 5)] = false.
Proof.
  apply (findEpochs_adjacent_differ sim_two_epochs 0
           (mkEpoch 0 (2 - 0) 0 (2 - 0) [("V"%string, 0)] None)
           (mkEpoch 2 (4 - 2) 2 (4 - 2) [("V"%string, 5)] None));
    reflexivity.
Defined.

(** ** The pool of unique epochs after initSimulation *)

Lemma mapAccum_invariant {S A B : Type} (f : S -> A -> S * B) (I : S -> Prop) :
  (forall s a s' b, f s a = (s', b) -> I s -> I s') ->
  forall l s s' bs, mapAccum f s l = (s', bs) -> I s -> I s'.
Proof.
  intros Hstep. induction l as [|a r IH]; intros s s' bs H Hs; simpl in H.
  - injection H as <- <-. exact Hs.
  - destruct (f s a) as [s1 b] eqn:Ef.
    destruct (mapAccum f s1 r) as [s2 bs'] eqn:Er.
    injection H as <- <-. eapply IH; [exact Er|]. eapply Hstep; eassumption.
Qed.

(** What a state-threading loop appends to a list-valued state is accounted
    for by its outputs, if each step's addition is accounted for by that
    step's output. *)
Lemma mapAccum_covered {U A B : Type} (f : list U -> A -> list U * B)
    (C : U -> B -> Prop) :
  (forall s a s' b, f s a = (s', b) ->
     exists ext, s' = s ++ ext /\ forall u, In u ext -> C u b) ->
  forall l s s' bs,
    mapAccum f s l = (s', bs) ->
    exists ext, s' = s ++ ext /\
                forall u, In u ext -> exists b, In b bs /\ C u b.
Proof.
  intros Hstep. induction l as [|a r IH]; intros s s' bs H; simpl in H.
  - injection H as <- <-. exists []. split; [symmetry; apply app_nil_r|].
    intros u [].
  - destruct (f s a) as [s1 b] eqn:Ef.
    destruct (mapAccum f s1 r) as [s2 bs'] eqn:Er.
    injection H as <- <-.
    destruct (Hstep _ _ _ _ Ef) as (e1 & -> & H1).
    destruct (IH _ _ _ Er) as (e2 & -> & H2).
    exists (e1 ++ e2). split; [symmetry; apply app_assoc|].
    intros u Hu. apply in_app_or in Hu. destruct Hu as [Hu|Hu].
    + exists b. split; [left; reflexivity|apply H1; exact Hu].
    + destruct (H2 u Hu) as (b' & Hb' & Hc). exists b'.
      split; [right; exact Hb'|exact Hc].
Qed.

Lemma internEpoch_selfFirst (pool pool' : list UniqueEpoch) (e e' : Epoch) :
  internEpoch pool e = (pool', e') -> selfFirst pool -> selfFirst pool'.
Proof.
  unfold internEpoch.
  destruct (findUnique pool (e_stimuli e) 0) as [p|] eqn:F;
    intros H; injection H as <- <-; intros Hs; [exact Hs|].
  intros j u Hj.
  destruct (Nat.lt_ge_cases j (List.length pool)) as [Hlt|Hge].
  - rewrite nth_error_app1 in Hj by exact Hlt.
    apply findUnique_app. apply Hs. exact Hj.
  - rewrite nth_error_app2 in Hj by exact Hge.
    destruct (j - List.length pool)%nat as [|k] eqn:Ek;
      [|destruct k; discriminate].
    simpl in Hj. injection Hj as <-. cbn [newUniqueEpoch u_stimuli].
    rewrite (findUnique_new pool (e_stimuli e) 0 F). f_equal. lia.
Qed.

Lemma internEpoch_covered (pool pool' : list UniqueEpoch) (e e' : Epoch) :
  internEpoch pool e = (pool', e') ->
  exists ext, pool' = pool ++ ext /\ forall u, In u ext -> holds u e'.
Proof.
  unfold internEpoch.
  destruct (findUnique pool (e_stimuli e) 0) as [p|] eqn:F;
    intros H; injection H as <- <-.
  - exists []. split; [symmetry; apply app_nil_r|]. intros u [].
  - exists [newUniqueEpoch (e_stimuli e)]. split; [reflexivity|].
    intros u [<-|[]]. apply stimuliEq_refl.
Qed.

Lemma initEpochs_selfFirst (pool pool' : list UniqueEpoch)
    (sim sim' : Simulation) :
  initEpochs pool sim = (pool', sim') -> selfFirst pool -> selfFirst pool'.
Proof.
  unfold initEpochs.
  destruct (mapAccum internEpoch pool
              (s_epochs (findEpochsDiscretizedToSamplePoints sim)))
    as [p es] eqn:E.
  intros H. injection H as <- <-.
  eapply (mapAccum_invariant internEpoch selfFirst); [|exact E].
  intros s a s' b Hs. eapply internEpoch_selfFirst. exact Hs.
Qed.

Lemma initEpochs_covered (pool pool' : list UniqueEpoch)
    (sim sim' : Simulation) :
  initEpochs pool sim = (pool', sim') ->
  exists ext, pool' = pool ++ ext /\
              forall u, In u ext -> exists e, In e (s_epochs sim') /\ holds u e.
Proof.
  unfold initEpochs.
  destruct (mapAccum internEpoch pool
              (s_epochs (findEpochsDiscretizedToSamplePoints sim)))
    as [p es] eqn:E.
  intros H. injection H as <- <-. cbn [s_epochs set_epochs].
  eapply (mapAccum_covered internEpoch holds); [|exact E].
  intros s a s' b Hs. eapply internEpoch_covered. exact Hs.
Qed.

Lemma init_selfFirst (pool pool' : list UniqueEpoch) (names : list string)
    (protocol protocol' : Protocol) :
  init pool names protocol = (pool', protocol') ->
  selfFirst pool -> selfFirst pool'.
Proof.
  unfold init.
  destruct (mapAccum (mapAccum initEpochs) pool (p_simulations protocol))
    as [pl sims'] eqn:H.
  intros H0. injection H0 as <- <-.
  eapply (mapAccum_invariant (mapAccum initEpochs) selfFirst); [|exact H].
  intros s row s' row' Hrow.
  eapply (mapAccum_invariant initEpochs selfFirst); [|exact Hrow].
  intros s1 a s2 b Hs. eapply initEpochs_selfFirst. exact Hs.
Qed.

Lemma init_covered (pool pool' : list UniqueEpoch) (names : list string)
    (protocol protocol' : Protocol) :
  init pool names protocol = (pool', protocol') ->
  exists ext, pool' = pool ++ ext /\
              forall u, In u ext ->
                        exists e, In e (protocolEpochs protocol') /\ holds u e.
Proof.
  unfold init.
  destruct (mapAccum (mapAccum initEpochs) pool (p_simulations protocol))
    as [pl sims'] eqn:H.
  intros H0. injection H0 as <- <-.
  destruct (mapAccum_covered (mapAccum initEpochs)
              (fun u row => exists e, In e (flat_map s_epochs row) /\ holds u e))
    with (2 := H) as (ext & -> & Hext).
  { intros s row s' row' Hrow.
    destruct (mapAccum_covered initEpochs
                (fun u sim => exists e, In e (s_epochs sim) /\ holds u e))
      with (2 := Hrow) as (ext & -> & Hext).
    { intros s1 a s2 b Hs. eapply initEpochs_covered. exact Hs. }
    exists ext. split; [reflexivity|]. intros u Hu.
    destruct (Hext u Hu) as (sim & Hsim & e & He & Hh).
    exists e. split; [|exact Hh]. apply in_flat_map. exists sim. auto. }
  exists ext. split; [reflexivity|]. intros u Hu.
  destruct (Hext u Hu) as (row & Hrow & e & He & Hh).
  exists e. split; [|exact Hh]. unfold protocolEpochs. cbn [p_simulations].
  apply in_flat_map. exists row. auto.
Qed.

Lemma initProtocols_selfFirst (pool pool' : list UniqueEpoch)
    (names : list string) (protocols protocols' : list Protocol) :
  initProtocols pool names protocols = (pool', protocols') ->
  selfFirst pool -> selfFirst pool'.
Proof.
  unfold initProtocols. intros H.
  eapply (mapAccum_invariant
            (fun uniqueEpochs protocol => init uniqueEpochs names protocol)
            selfFirst); [|exact H].
  intros s a s' b Hs. eapply init_selfFirst. exact Hs.
Qed.

Lemma initProtocols_covered (pool pool' : list UniqueEpoch)
    (names : list string) (protocols protocols' : list Protocol) :
  initProtocols pool names protocols = (pool', protocols') ->
  exists ext, pool' = pool ++ ext /\
              forall u, In u ext ->
                exists e, In e (flat_map protocolEpochs protocols') /\ holds u e.
Proof.
  unfold initProtocols. intros H.
  destruct (mapAccum_covered
              (fun uniqueEpochs protocol => init uniqueEpochs names protocol)
              (fun u protocol => exists e, In e (protocolEpochs protocol) /\ holds u e))
    with (2 := H) as (ext & -> & Hext).
  { intros s a s' b Hs. eapply init_covered. exact Hs. }
  exists ext. split; [reflexivity|]. intros u Hu.
  destruct (Hext u Hu) as (protocol & Hp & e & He & Hh).
  exists e. split; [|exact Hh]. apply in_flat_map. exists protocol. auto.
Qed.

Lemma selfFirst_distinct (pool : list UniqueEpoch) :
  selfFirst pool ->
  forall i j ui uj,
    (i < j)%nat -> nth_error pool i = Some ui -> nth_error pool j = Some uj ->
    stimuliEq (u_stimuli ui) (u_stimuli uj) = false.
Proof.
  intros Hs i j ui uj Hij Hi Hj.
  destruct (stimuliEq (u_stimuli ui) (u_stimuli uj)) eqn:E; [|reflexivity].
  pose proof (Hs _ _ Hi) as Fi. pose proof (Hs _ _ Hj) as Fj.
  rewrite (findUnique_ext pool _ _ 0%nat E) in Fi.
  rewrite Fi in Fj. injection Fj as Fj. lia.
Qed.

(** X3.  After [initSimulation], every epoch of every simulation points to
    an entry of the pool that holds the epoch's stimuli; no two entries of
    the pool hold equal stimuli; and every entry of the pool holds the
    stimuli of some epoch. *)
Theorem initSimulation_pool (stateNames : list string)
    (protocols : list Protocol) :
  let pool := fst (initSimulation stateNames protocols) in
  let epochs :=
    flat_map protocolEpochs (snd (initSimulation stateNames protocols)) in
  (forall e, In e epochs ->
     exists p u, e_uniqueEpoch e = Some p /\ nth_error pool p = Some u /\
                 uniqueOf pool e = u /\
                 stimuliEq (u_stimuli u) (e_stimuli e) = true) /\
  (forall i j ui uj,
     (i < j)%nat -> nth_error pool i = Some ui -> nth_error pool j = Some uj ->
     stimuliEq (u_stimuli ui) (u_stimuli uj) = false) /\
  (forall u, In u pool ->
     exists e, In e epochs /\ stimuliEq (u_stimuli u) (e_stimuli e) = true).
Proof.
  unfold initSimulation.
  destruct (initProtocols [] stateNames protocols) as [pool protocols'] eqn:E.
  cbn [fst snd]. split; [|split].
  - intros e He.
    pose proof (initProtocols_interned _ _ _ _ _ E) as HF.
    rewrite Forall_forall in HF. destruct (HF e He) as (p & Hp & Hf).
    destruct (findUnique_found _ _ _ _ Hf) as (u & Hn & _ & Hs).
    rewrite Nat.sub_0_r in Hn. exists p, u.
    split; [exact Hp|]. split; [exact Hn|]. split; [|exact Hs].
    unfold uniqueOf. rewrite Hp. apply nth_error_nth. exact Hn.
  - apply selfFirst_distinct.
    eapply initProtocols_selfFirst; [exact E|].
    intros j u Hj. destruct j; discriminate.
  - intros u Hu.
    destruct (initProtocols_covered _ _ _ _ _ E) as (ext & Hext & Hc).
    simpl in Hext. subst ext. apply (Hc u Hu).
Qed.

(** ** The samples findIndexesInRange selects *)

(** On an increasing grid whose step is at least [2 * eps], the index rule
    returns the number of samples that lie below [a - eps]. *)
Lemma indexAtOrAfter_spec (time : list Q) (a eps : Q) :
  time <> [] -> increasing time -> 0 <= eps -> spacedBy (2 * eps) time ->
  forall i, (i < List.length time)%nat ->
    ((Z.of_nat i < indexAtOrAfter time a eps)%Z <-> nth i time 0 < a - eps).
Proof.
  intros Hne Hinc Heps Hsp i Hi. unfold indexAtOrAfter.
  destruct (closestIndex_closest time a Hne) as (c & -> & Hc & Hmin & Hfirst).
  rewrite zth_of_nat.
  destruct (Qlt_bool (nth c time 0) (a - eps)) eqn:E.
  - apply Qlt_bool_iff in E. split.
    + intros Hlt. destruct (Nat.eq_dec i c) as [->|Hic]; [exact E|].
      pose proof (Hinc i c ltac:(lia) Hc). lra.
    + intros Hlt. destruct (le_lt_dec i c) as [Hle|Hgt]; [lia|exfalso].
      pose proof (Hinc c i Hgt Hi) as Hci.
      specialize (Hmin i Hi). revert Hmin.
      apply (Qabs_case (nth c time 0 - a)); apply (Qabs_case (nth i time 0 - a));
        intros; lra.
  - apply Qlt_bool_false in E. split.
    + intros Hlt. assert (i < c)%nat as Hic by lia.
      apply Qnot_le_lt. intros Hge.
      pose proof (Hinc i (S i) ltac:(lia) ltac:(lia)) as H1.
      pose proof (Hsp i ltac:(lia)) as H2.
      assert (nth (S i) time 0 <= nth c time 0) as H3.
      { destruct (Nat.eq_dec (S i) c) as [->|Hne']; [apply Qle_refl|].
        apply Qlt_le_weak. apply Hinc; lia. }
      specialize (Hfirst i Hic). revert Hfirst.
      apply (Qabs_case (nth c time 0 - a)); apply (Qabs_case (nth i time 0 - a));
        intros; lra.
    + intros Hlt. destruct (le_lt_dec c i) as [Hle|Hgt]; [exfalso|lia].
      destruct (Nat.eq_dec i c) as [->|Hic]; [lra|].
      pose proof (Hinc c i ltac:(lia) Hi). lra.
Qed.

Lemma defaultEpsilon_nonneg (epsilon : Q) :
  0 <= epsilon -> 0 <= defaultEpsilon epsilon.
Proof.
  intros H. unfold defaultEpsilon.
  destruct (Qeq_bool epsilon 0); [|exact H].
  apply Qle_bool_iff. vm_compute. reflexivity.
Qed.

Lemma spacedBy_0123 : spacedBy (2 * defaultEpsilon 0) [0; 1; 2; 3].
Proof.
  intros i Hi. simpl in Hi.
  destruct i as [|[|[|i]]]; [| | |lia];
    apply Qle_bool_iff; vm_compute; reflexivity.
Qed.

(** X4.  On a non-empty, strictly increasing time vector whose step is at
    least twice the (non-negative) tolerance, the window [firstPt, firstPt + numPts) that
    [findIndexesInRange] returns holds exactly the samples [i] with
    [start - epsilon <= time[i] < stop - epsilon]. *)
Theorem findIndexesInRange_selects (time : list Q) (start stop epsilon : Q)
    (i : nat) :
  time <> [] -> increasing time -> 0 <= epsilon ->
  spacedBy (2 * defaultEpsilon epsilon) time ->
  (i < List.length time)%nat ->
  let eps := defaultEpsilon epsilon in
  let firstPt := fst (findIndexesInRange time start stop epsilon) in
  let numPts := snd (findIndexesInRange time start stop epsilon) in
  (firstPt <= Z.of_nat i < firstPt + numPts)%Z <->
  start - eps <= nth i time 0 /\ nth i time 0 < stop - eps.
Proof.
  intros Hne Hinc Hnn Hsp Hi eps firstPt numPts.
  pose proof (defaultEpsilon_nonneg epsilon Hnn) as Heps. fold eps in Heps.
  pose proof (indexAtOrAfter_spec time start eps Hne Hinc Heps Hsp i Hi) as Hs.
  pose proof (indexAtOrAfter_spec time stop eps Hne Hinc Heps Hsp i Hi) as He.
  subst firstPt numPts. unfold findIndexesInRange. fold eps.
  destruct (indexAtOrAfter time start eps <? Z.of_nat (List.length time))%Z
    eqn:E; cbn [fst snd].
  - split.
    + intros [H1 H2]. split.
      * apply Qnot_lt_le. intros Hlt. apply Hs in Hlt. lia.
      * apply He. lia.
    + intros [H1 H2]. apply He in H2. split; [|lia].
      destruct (Z_lt_le_dec (Z.of_nat i) (indexAtOrAfter time start eps))
        as [Hlt|Hge]; [|exact Hge].
      apply Hs in Hlt. lra.
  - apply Z.ltb_ge in E. split.
    + intros [H1 H2]. lia.
    + intros [H1 H2]. exfalso.
      assert (Z.of_nat i < indexAtOrAfter time start eps)%Z as Hlt by lia.
      apply Hs in Hlt. lra.
Qed.

Lemma findIndexesInRange_selects_witness :
  (1 <= Z.of_nat 2 < 1 + 2)%Z <->
  1 - defaultEpsilon 0 <= 2 /\ 2 < 3 - defaultEpsilon 0.
Proof.
  apply (findIndexesInRange_selects [0; 1; 2; 3] 1 3 0 2);
    [discriminate|exact increasing_0123|lra|exact spacedBy_0123|simpl; lia].
Defined.

(** ** Stimulus::waveform: square pulses *)

Lemma nth_map_indexed (f : nat * Q -> Q) (w : list Q) (i : nat) :
  (i < List.length w)%nat -> nth i (map f (indexed w)) 0 = f (i, nth i w 0).
Proof.
  intros Hi.
  destruct (nth_error w i) as [a|] eqn:E;
    [|apply nth_error_None in E; lia].
  pose proof (indexed_nth_error w i a E) as Hx.
  rewrite (nth_error_nth _ _ 0 E).
  apply nth_error_nth. rewrite nth_error_map, Hx. reflexivity.
Qed.

Lemma addToSegment_length (w : list Q) (firstPt numPts : Z) (v : list Q) :
  List.length (addToSegment w firstPt numPts v) = List.length w.
Proof. unfold addToSegment. rewrite length_map. apply indexed_length. Qed.

Lemma zth_repeat (a : Q) (n : nat) (k : Z) :
  (0 <= k < Z.of_nat n)%Z -> zth (repeat a n) k = a.
Proof.
  intros Hk. unfold zth. destruct (Z.ltb_spec k 0); [lia|].
  apply nth_repeat_lt. lia.
Qed.

Section SquarePulse.
Variable parserEval : string -> list Q -> option (list Q).
Variable time : list Q.
Variables (start duration amplitude period : Q).
Hypothesis time_nonempty : time <> [].
Hypothesis time_increasing : increasing time.
Hypothesis time_spaced : spacedBy (2 * (machineEpsilon * 5)) time.

Local Notation addSquare :=
  (addPulse parserEval time start duration amplitude period
            EmptyString EmptyString).

Lemma addPulse_length (w : list Q) (rep : nat) :
  List.length (addSquare w rep) = List.length w.
Proof.
  unfold addPulse. cbn [hasText orb].
  repeat match goal with
         | |- context [if ?c then _ else _] => destruct c
         end; try reflexivity; apply addToSegment_length.
Qed.

Lemma mcEpsilon_nonneg : 0 <= machineEpsilon * 5.
Proof. apply Qle_bool_iff. vm_compute. reflexivity. Qed.

(** One repetition adds the amplitude to the samples of its window and
    nothing elsewhere. *)
Lemma addPulse_square (w : list Q) (rep i : nat) :
  List.length w = List.length time -> (i < List.length time)%nat ->
  let epsilon := machineEpsilon * 5 in
  let onset := start + inject_Z (Z.of_nat rep) * period in
  nth i (addSquare w rep) 0
  == nth i w 0
     + (if Qle_bool (onset - epsilon) (nth i time 0)
           && Qlt_bool (nth i time 0) (onset + duration - epsilon)
        then amplitude else 0).
Proof.
  intros Hlen Hi epsilon onset.
  pose proof (indexAtOrAfter_spec time onset epsilon time_nonempty
                time_increasing mcEpsilon_nonneg time_spaced i Hi) as Hon.
  pose proof (indexAtOrAfter_spec time (onset + duration) epsilon time_nonempty
                time_increasing mcEpsilon_nonneg time_spaced i Hi) as Hoff.
  unfold addPulse. cbn [hasText orb]. fold epsilon. fold onset.
  set (firstOnsetPt := indexAtOrAfter time onset epsilon) in *.
  set (firstOffsetPt := indexAtOrAfter time (onset + duration) epsilon) in *.
  assert (Qle_bool (onset - epsilon) (nth i time 0) = true
          <-> (firstOnsetPt <= Z.of_nat i)%Z) as Hle.
  { rewrite Qle_bool_iff. split.
    - intros H. destruct (Z_lt_le_dec (Z.of_nat i) firstOnsetPt) as [Hlt|Hge];
        [|exact Hge]. apply Hon in Hlt. lra.
    - intros H. apply Qnot_lt_le. intros Hlt. apply Hon in Hlt. lia. }
  assert (Qlt_bool (nth i time 0) (onset + duration - epsilon) = true
          <-> (Z.of_nat i < firstOffsetPt)%Z) as Hlt.
  { rewrite Qlt_bool_iff. symmetry. exact Hoff. }
  destruct (firstOnsetPt <? Z.of_nat (List.length time))%Z eqn:E1.
  - destruct (0 <? firstOffsetPt - firstOnsetPt)%Z eqn:E2.
    + unfold addToSegment. rewrite nth_map_indexed by lia. cbn [fst snd].
      destruct ((0 <=? Z.of_nat i - firstOnsetPt)%Z
                && (Z.of_nat i - firstOnsetPt <? firstOffsetPt - firstOnsetPt)%Z)
        eqn:E3.
      * apply andb_prop in E3. destruct E3 as [Ea Eb].
        apply Z.leb_le in Ea. apply Z.ltb_lt in Eb.
        rewrite zth_repeat by lia.
        assert (Qle_bool (onset - epsilon) (nth i time 0) = true) as ->
          by (apply Hle; lia).
        assert (Qlt_bool (nth i time 0) (onset + duration - epsilon) = true)
          as -> by (apply Hlt; lia).
        reflexivity.
      * destruct (Qle_bool (onset - epsilon) (nth i time 0)) eqn:Ea;
          [|simpl; ring].
        destruct (Qlt_bool (nth i time 0) (onset + duration - epsilon)) eqn:Eb;
          [|simpl; ring].
        exfalso. apply andb_false_iff in E3.
        assert (firstOnsetPt <= Z.of_nat i)%Z by (apply Hle; reflexivity).
        assert (Z.of_nat i < firstOffsetPt)%Z by (apply Hlt; reflexivity).
        destruct E3 as [E3|E3]; [apply Z.leb_gt in E3|apply Z.ltb_ge in E3]; lia.
    + apply Z.ltb_ge in E2.
      destruct (Qle_bool (onset - epsilon) (nth i time 0)) eqn:Ea;
        [|simpl; ring].
      destruct (Qlt_bool (nth i time 0) (onset + duration - epsilon)) eqn:Eb;
        [|simpl; ring].
      exfalso.
      assert (firstOnsetPt <= Z.of_nat i)%Z by (apply Hle; reflexivity).
      assert (Z.of_nat i < firstOffsetPt)%Z by (apply Hlt; reflexivity).
      lia.
  - apply Z.ltb_ge in E1.
    destruct (Qle_bool (onset - epsilon) (nth i time 0)) eqn:Ea;
      [|simpl; ring].
    exfalso.
    assert (firstOnsetPt <= Z.of_nat i)%Z by (apply Hle; reflexivity). lia.
Qed.

Lemma addPulses_square (reps : list nat) (i : nat) :
  (i < List.length time)%nat ->
  forall w,
    List.length w = List.length time ->
    let epsilon := machineEpsilon * 5 in
    nth i (fold_left addSquare reps w) 0
    == nth i w 0
       + sumQ (map (fun rep : nat =>
                      let onset := start + inject_Z (Z.of_nat rep) * period in
                      if Qle_bool (onset - epsilon) (nth i time 0)
                         && Qlt_bool (nth i time 0) (onset + duration - epsilon)
                      then amplitude else 0)
                   reps).
Proof.
  intros Hi. induction reps as [|rep reps IH]; intros w Hlen epsilon.
  - simpl. ring.
  - cbn [fold_left map sumQ fold_right].
    rewrite IH by (rewrite addPulse_length; exact Hlen).
    rewrite (addPulse_square w rep i Hlen Hi). fold epsilon.
    cbv zeta. unfold sumQ. ring.
Qed.
End SquarePulse.

Lemma nth_repeat_zero (n i : nat) : nth i (repeat 0 n) 0 = 0.
Proof.
  destruct (Nat.lt_ge_cases i n) as [H|H].
  - apply nth_repeat_lt. exact H.
  - apply nth_overflow. rewrite repeat_length. exact H.
Qed.

Lemma fold_addPulse_length (parserEval : string -> list Q -> option (list Q))
    (time : list Q) (start duration amplitude period : Q) (reps : list nat) :
  forall w,
    List.length
      (fold_left (addPulse parserEval time start duration amplitude period
                           EmptyString EmptyString) reps w)
    = List.length w.
Proof.
  induction reps as [|rep reps IH]; intros w; simpl; [reflexivity|].
  rewrite IH. apply addPulse_length.
Qed.

(** X5.  A stimulus without onset or offset expression is a train of square
    pulses: on a non-empty, strictly increasing time vector whose step is at
    least twice the tolerance [5 * machine epsilon], [Stimulus::waveform]
    has one value per sample, and its value at sample [i] is the amplitude
    times the number of repetitions whose window
    [[onset - epsilon, onset + duration - epsilon)] holds [time[i]]; it is
    zero throughout when the duration or the size of the amplitude does not
    exceed the tolerance. *)
Theorem waveform_square_pulses
    (parserEval : string -> list Q -> option (list Q)) (stimulus : Stimulus)
    (time : list Q) (row col i : nat) :
  time <> [] -> increasing time ->
  spacedBy (2 * (machineEpsilon * 5)) time ->
  cell EmptyString (st_onsetExprs stimulus) row col = EmptyString ->
  cell EmptyString (st_offsetExprs stimulus) row col = EmptyString ->
  (i < List.length time)%nat ->
  List.length (waveform parserEval stimulus time row col) = List.length time /\
  nth i (waveform parserEval stimulus time row col) 0
  == squarePulseTrain (cell 0 (st_starts stimulus) row col)
                      (cell 0 (st_durations stimulus) row col)
                      (cell 0 (st_amplitudes stimulus) row col)
                      (cell 0 (st_periods stimulus) row col)
                      (cell 0%Z (st_repeats stimulus) row col)
                      (nth i time 0).
Proof.
  intros Hne Hinc Hsp Hon Hoff Hi. unfold waveform, squarePulseTrain.
  rewrite Hon, Hoff.
  destruct (Qlt_bool (machineEpsilon * 5) (cell 0 (st_durations stimulus) row col)
            && Qlt_bool (machineEpsilon * 5)
                        (Qabs (cell 0 (st_amplitudes stimulus) row col))).
  - split.
    + rewrite fold_addPulse_length. apply repeat_length.
    + rewrite (addPulses_square parserEval time _ _ _ _ Hne Hinc Hsp _ i Hi)
        by apply repeat_length.
      rewrite nth_repeat_zero. cbv zeta. ring.
  - split; [apply repeat_length|]. rewrite nth_repeat_zero. reflexivity.
Qed.

Lemma waveform_square_pulses_witness :
  List.length (waveform (fun _ _ => None) square_stimulus [0; 1; 2; 3] 0 0)
  = 4%nat /\
  nth 2 (waveform (fun _ _ => None) square_stimulus [0; 1; 2; 3] 0 0) 0
  == squarePulseTrain 1 2 5 0 1 2.
Proof.
  apply (waveform_square_pulses (fun _ _ => None) square_stimulus
           [0; 1; 2; 3] 0 0 2);
    [discriminate|exact increasing_0123|exact spacedBy_0123
    |reflexivity|reflexivity|simpl; lia].
Defined.

Example waveform_square_stimulus :
  waveform (fun _ _ => None) square_stimulus [0; 1; 2; 3] 0 0
  = [0; 0 + 5; 0 + 5; 0].
Proof. vm_compute. reflexivity. Qed.

(** ** The column pairs of a reference table *)

(** With [size] iterations allowed, the loop started at column [2 * k0]
    stores the pairs [(2k, 2k + 1)] for [k = k0, k0 + 1, ...] below
    [size / 2], in that order. *)
Lemma pairsXYXY_closed (fuel : nat) :
  forall k0 size : nat,
    (size - 2 * k0 <= 2 * fuel)%nat ->
    pairsXYXY fuel (Z.of_nat (2 * k0)) (Z.of_nat size)
    = map (fun k => (Z.of_nat (2 * k), Z.of_nat (2 * k + 1)))
          (seq k0 (size / 2 - k0)).
Proof.
  induction fuel as [|fuel IH]; intros k0 size Hfuel.
  - replace (size / 2 - k0)%nat with 0%nat
      by (pose proof (Nat.div_mod_eq size 2); lia).
    reflexivity.
  - cbn [pairsXYXY].
    destruct (Z.ltb_spec (Z.of_nat (2 * k0) + 1) (Z.of_nat size)) as [Hlt|Hge].
    + assert (size / 2 - k0 = S (size / 2 - S k0))%nat as ->.
      { pose proof (Nat.div_mod_eq size 2).
        pose proof (Nat.mod_upper_bound size 2 ltac:(lia)). lia. }
      cbn [seq map]. f_equal.
      * f_equal. lia.
      * replace (Z.of_nat (2 * k0) + 2)%Z with (Z.of_nat (2 * S k0)) by lia.
        apply IH. lia.
    + replace (size / 2 - k0)%nat with 0%nat; [reflexivity|].
      pose proof (Nat.div_mod_eq size 2).
      pose proof (Nat.mod_upper_bound size 2 ltac:(lia)). lia.
Qed.

(** X6.  The column pairs [updateColumnPairsXY] finds.  In the XYXY layout
    (an even number of columns, more than two titles, the first equal to
    the third) they are exactly the pairs [(2k, 2k + 1)] for
    [k < size / 2], in increasing order, and nothing else; in every other
    layout they are exactly the pairs [(0, c)] for [1 <= c < size], in
    increasing order, and nothing else.  So every pair names two columns of
    the table, the x column before the y column; no column is the y column
    of two pairs; and an empty table has no pairs. *)
Theorem updateColumnPairsXY_pairs (r : ReferenceData) :
  let size := List.length (rd_columnData r) in
  let pairs := rd_columnPairsXY (updateColumnPairsXY r) in
  (isXYXY (rd_columnTitles r) size = true ->
   pairs = map (fun k => (Z.of_nat (2 * k), Z.of_nat (2 * k + 1)))
               (seq 0 (size / 2))) /\
  (isXYXY (rd_columnTitles r) size = false ->
   pairs = map (fun c => (0%Z, Z.of_nat c)) (seq 1 (size - 1))) /\
  (forall cx cy,
      In (cx, cy) pairs <->
      if isXYXY (rd_columnTitles r) size
      then exists k : nat,
             cx = Z.of_nat (2 * k) /\ cy = Z.of_nat (2 * k + 1) /\
             (2 * k + 1 < size)%nat
      else cx = 0%Z /\ (1 <= cy < Z.of_nat size)%Z) /\
  (forall cx cy, In (cx, cy) pairs ->
                 (0 <= cx < cy)%Z /\ (cy < Z.of_nat size)%Z) /\
  NoDup (map snd pairs) /\
  (size = 0%nat -> pairs = []).
Proof.
  intros size pairs.
  assert (isXYXY (rd_columnTitles r) size = true ->
          pairs = map (fun k => (Z.of_nat (2 * k), Z.of_nat (2 * k + 1)))
                      (seq 0 (size / 2))) as Hxyxy.
  { intros E. subst pairs. unfold updateColumnPairsXY. fold size.
    destruct (Nat.eqb_spec size 0) as [H0|H0];
      cbn [rd_columnPairsXY set_columnPairsXY].
    - rewrite H0. reflexivity.
    - rewrite E. cbn [rd_columnPairsXY set_columnPairsXY].
      change 0%Z with (Z.of_nat (2 * 0)).
      rewrite (pairsXYXY_closed size 0 size) by lia.
      rewrite Nat.sub_0_r. reflexivity. }
  assert (isXYXY (rd_columnTitles r) size = false ->
          pairs = map (fun c => (0%Z, Z.of_nat c)) (seq 1 (size - 1))) as Hxyy.
  { intros E. subst pairs. unfold updateColumnPairsXY. fold size.
    destruct (Nat.eqb_spec size 0) as [H0|H0];
      cbn [rd_columnPairsXY set_columnPairsXY].
    - rewrite H0. reflexivity.
    - rewrite E. reflexivity. }
  assert (forall cx cy,
             In (cx, cy) pairs <->
             if isXYXY (rd_columnTitles r) size
             then exists k : nat,
                    cx = Z.of_nat (2 * k) /\ cy = Z.of_nat (2 * k + 1) /\
                    (2 * k + 1 < size)%nat
             else cx = 0%Z /\ (1 <= cy < Z.of_nat size)%Z) as Hin.
  { intros cx cy. destruct (isXYXY (rd_columnTitles r) size) eqn:E.
    - rewrite (Hxyxy eq_refl). rewrite in_map_iff. split.
      + intros (k & Hk & Hseq). injection Hk as <- <-. exists k.
        apply in_seq in Hseq. split; [reflexivity|]. split; [reflexivity|].
        pose proof (Nat.div_mod_eq size 2). lia.
      + intros (k & -> & -> & Hk). exists k. split; [reflexivity|].
        apply in_seq. pose proof (Nat.div_mod_eq size 2).
        pose proof (Nat.mod_upper_bound size 2 ltac:(lia)). lia.
    - rewrite (Hxyy eq_refl). rewrite in_map_iff. split.
      + intros (c & Hc & Hseq). injection Hc as <- <-.
        apply in_seq in Hseq. lia.
      + intros (-> & Hc). exists (Z.to_nat cy). split; [f_equal; lia|].
        apply in_seq. lia. }
  split; [exact Hxyxy|]. split; [exact Hxyy|]. split; [exact Hin|].
  split; [|split].
  - intros cx cy H. apply Hin in H.
    destruct (isXYXY (rd_columnTitles r) size).
    + destruct H as (k & -> & -> & Hk). lia.
    + lia.
  - destruct (isXYXY (rd_columnTitles r) size) eqn:E.
    + rewrite (Hxyxy eq_refl), map_map. cbn [snd].
      apply NoDup_map_NoDup_ForallPairs; [|apply seq_NoDup].
      intros a b _ _ H. lia.
    + rewrite (Hxyy eq_refl), map_map. cbn [snd].
      apply NoDup_map_NoDup_ForallPairs; [|apply seq_NoDup].
      intros a b _ _ H. lia.
  - intros H0. subst pairs. unfold updateColumnPairsXY. fold size.
    rewrite H0. reflexivity.
Qed.

Example updateColumnPairsXY_layouts :
  let table titles :=
    mkReferenceData "ref" 0 0 0 0 RefNoNormalization 1 1 titles
      (map (fun _ => [0; 1]) titles) [] in
  rd_columnPairsXY
    (updateColumnPairsXY (table ["t"; "a"; "t"; "b"]%string))
  = [(0, 0 + 1); (0 + 2, 0 + 2 + 1)]%Z /\
  rd_columnPairsXY
    (updateColumnPairsXY (table ["t"; "a"; "b"; "c"]%string))
  = [(0, 1); (0, 2); (0, 3)]%Z.
Proof. split; reflexivity. Qed.

(** ** The largest deviation of a row sum from one *)

Lemma maxCoeffFrom_in (l : list Q) :
  forall best, maxCoeffFrom l best = best \/ In (maxCoeffFrom l best) l.
Proof.
  induction l as [|v l IH]; intros best; simpl; [left; reflexivity|].
  destruct (IH (if Qlt_bool best v then v else best)) as [H|H].
  - rewrite H. destruct (Qlt_bool best v); [right; left|left]; reflexivity.
  - right. right. exact H.
Qed.

Lemma maxCoeff_in (l : list Q) : l <> [] -> In (maxCoeff l) l.
Proof.
  destruct l as [|v l]; [congruence|]. intros _. simpl.
  destruct (maxCoeffFrom_in l v) as [H|H]; [left; symmetry; exact H|right; exact H].
Qed.

(** The running maximum of the loop: it bounds the deviation of every row
    seen, and it is the starting value or the deviation of a row seen. *)
Lemma maxProbabilityError_loop (Ps : list Matrix) :
  forall m0 : Q,
    0 <= m0 ->
    let m := fold_left
               (fun maxError P =>
                  let perr :=
                    maxCoeff (map (fun s => Qabs (s - 1)) (rowwiseSum P)) in
                  if Qlt_bool maxError perr then perr else maxError) Ps m0 in
    m0 <= m /\
    (forall P r, In P Ps -> (r < List.length P)%nat ->
                 Qabs (rowTotal P r - 1) <= m) /\
    (m = m0 \/
     exists P r, In P Ps /\ (r < List.length P)%nat /\
                 m = Qabs (rowTotal P r - 1)).
Proof.
  induction Ps as [|P Ps IH]; intros m0 Hm0; cbn [fold_left].
  - split; [apply Qle_refl|]. split; [intros P r []|left; reflexivity].
  - set (perr := maxCoeff (map (fun s => Qabs (s - 1)) (rowwiseSum P))).
    set (m1 := if Qlt_bool m0 perr then perr else m0).
    assert (m0 <= m1 /\ perr <= m1) as [H01 Hp1].
    { subst m1. destruct (Qlt_bool m0 perr) eqn:E.
      - apply Qlt_bool_iff in E. split; lra.
      - apply Qlt_bool_false in E. split; lra. }
    destruct (IH m1 ltac:(lra)) as (Hle & Hbound & Hatt).
    cbv zeta in Hle, Hbound, Hatt.
    split; [lra|]. split.
    + intros P' r [<-|HP] Hr; [|apply Hbound; assumption].
      assert (Qabs (rowTotal P r - 1) <= perr) as Hin.
      { apply maxCoeff_ge. unfold rowwiseSum, rowTotal. rewrite map_map.
        apply in_map_iff. exists (nth r P []). split; [reflexivity|].
        apply nth_In. exact Hr. }
      lra.
    + destruct Hatt as [Hatt|(P' & r & HP & Hr & Hatt)].
      * rewrite Hatt. subst m1. destruct (Qlt_bool m0 perr) eqn:E;
          [|left; reflexivity].
        right. apply Qlt_bool_iff in E.
        assert (map (fun s => Qabs (s - 1)) (rowwiseSum P) <> []) as Hne.
        { intros H0. subst perr. rewrite H0 in E. simpl in E. lra. }
        pose proof (maxCoeff_in _ Hne) as Hin. fold perr in Hin.
        unfold rowwiseSum in Hin. rewrite map_map in Hin.
        apply in_map_iff in Hin. destruct Hin as (row & Hrow & Hin).
        apply In_nth with (d := []) in Hin. destruct Hin as (r & Hr & Hnth).
        exists P, r. split; [left; reflexivity|]. split; [exact Hr|].
        unfold rowTotal. rewrite Hnth. symmetry. exact Hrow.
      * right. exists P', r. split; [right; exact HP|]. auto.
Qed.

(** X7.  [maxProbabilityError] is the largest distance from one of a row
    sum of the probability matrices: it is not negative, no row of any
    variable set deviates by more, and it is zero or the deviation of one
    of the rows. *)
Theorem maxProbabilityError_spec (sim : Simulation) :
  0 <= maxProbabilityError sim /\
  (forall P r, In P (s_probability sim) -> (r < List.length P)%nat ->
               Qabs (rowTotal P r - 1) <= maxProbabilityError sim) /\
  (maxProbabilityError sim = 0 \/
   exists P r, In P (s_probability sim) /\ (r < List.length P)%nat /\
               maxProbabilityError sim = Qabs (rowTotal P r - 1)).
Proof.
  unfold maxProbabilityError.
  destruct (maxProbabilityError_loop (s_probability sim) 0 (Qle_refl 0))
    as (Hnn & Hbound & Hatt).
  split; [exact Hnn|]. split; [exact Hbound|exact Hatt].
Qed.

(** ** The window of samples sampleArray writes *)

Lemma setAt_length (l : list Q) (i : Z) (v : Q) :
  List.length (setAt l i v) = List.length l.
Proof.
  unfold setAt. destruct (i <? 0)%Z; [reflexivity|apply replaceNth_length].
Qed.

Lemma setAt_other (l : list Q) (i : Z) (v : Q) (j : nat) :
  Z.of_nat j <> i -> nth j (setAt l i v) 0 = nth j l 0.
Proof.
  intros H. unfold setAt. destruct (Z.ltb_spec i 0); [reflexivity|].
  apply replaceNth_other. lia.
Qed.

Section SampleArrayWindow.
Variables (xref yref : list Q) (nref : Z) (x : list Q) (n : Z).
Variables (x0 epsilon : Q) (di diref : Z).
Variable y0 : list Q.
Hypothesis Hdi : di = 1%Z \/ di = (-1)%Z.

(** A write at the sample cursor, followed by a step of the cursor, keeps
    the invariant. *)
Lemma windowInv_write (st : SampleState) (iref : Z) (v : Q) :
  inRange (sa_i st) n = true -> windowInv y0 n di st ->
  windowInv y0 n di
    (mkSampleState (sa_i st + di) iref (setAt (sa_y st) (sa_i st) v)
                   (markFirst (sa_firstPt st) (sa_i st))).
Proof.
  intros Hin [Hlen Hw]. unfold inRange in Hin. apply andb_prop in Hin.
  destruct Hin as [H0 Hn]. apply Z.leb_le in H0. apply Z.ltb_lt in Hn.
  unfold windowInv. cbn [sa_i sa_y sa_firstPt].
  split; [rewrite setAt_length; exact Hlen|]. right.
  unfold markFirst. destruct Hw as [[Hf Hy]|Hw].
  - rewrite Hf. cbn [Z.eqb Pos.eqb]. rewrite Hy.
    destruct Hdi as [-> | ->]; cbn [Z.eqb Pos.eqb].
    + split; [lia|]. split; [lia|]. intros j Hj. apply setAt_other. lia.
    + split; [lia|]. split; [lia|]. intros j Hj. apply setAt_other. lia.
  - destruct Hdi as [-> | ->]; cbn [Z.eqb Pos.eqb] in *.
    + destruct Hw as (Hf & Hi & Hout).
      destruct (Z.eqb_spec (sa_firstPt st) (-1)); [lia|].
      split; [lia|]. split; [lia|]. intros j Hj.
      rewrite setAt_other by lia. apply Hout. lia.
    + destruct Hw as (Hf & Hi & Hout).
      destruct (Z.eqb_spec (sa_firstPt st) (-1)); [lia|].
      split; [lia|]. split; [lia|]. intros j Hj.
      rewrite setAt_other by lia. apply Hout. lia.
Qed.

(** A step of the sample cursor without a write keeps the invariant. *)
Lemma windowInv_skip (st : SampleState) (iref : Z) :
  inRange (sa_i st) n = true -> windowInv y0 n di st ->
  windowInv y0 n di
    (mkSampleState (sa_i st + di) iref (sa_y st) (sa_firstPt st)).
Proof.
  intros Hin [Hlen Hw]. unfold inRange in Hin. apply andb_prop in Hin.
  destruct Hin as [H0 Hn]. apply Z.leb_le in H0. apply Z.ltb_lt in Hn.
  unfold windowInv. cbn [sa_i sa_y sa_firstPt].
  split; [exact Hlen|]. destruct Hw as [Hw|Hw]; [left; exact Hw|right].
  destruct Hdi as [-> | ->]; cbn [Z.eqb Pos.eqb] in *;
    destruct Hw as (Hf & Hi & Hout); (split; [lia|]); (split; [lia|]);
    intros j Hj; apply Hout; lia.
Qed.

Lemma windowInv_step (st : SampleState) :
  sampleCond nref n st = true -> windowInv y0 n di st ->
  windowInv y0 n di (sampleStep xref yref nref x x0 epsilon di diref st).
Proof.
  unfold sampleCond. intros Hc Hinv. apply andb_prop in Hc.
  destruct Hc as [Hi _]. unfold sampleStep.
  destruct (Qlt_bool _ _); [apply windowInv_skip; assumption|].
  destruct (Qlt_bool _ _); [apply windowInv_write; assumption|].
  destruct (_ && _); [apply windowInv_write; assumption|].
  destruct Hinv as [Hlen Hw]. split; [exact Hlen|exact Hw].
Qed.

Lemma windowInv_loop (fuel : nat) :
  forall st,
    windowInv y0 n di st ->
    windowInv y0 n di
      (sampleLoop xref yref nref x n x0 epsilon di diref fuel st).
Proof.
  induction fuel as [|fuel IH]; intros st Hinv; cbn [sampleLoop]; [exact Hinv|].
  destruct (sampleCond nref n st) eqn:E; [|exact Hinv].
  apply IH. apply windowInv_step; assumption.
Qed.
End SampleArrayWindow.

(** The window [sampleArray] reports lies inside the sample grid, and
    the output is changed nowhere else. *)
Lemma sampleArray_bounds (xref yref : list Q) (nref : Z) (x y : list Q)
    (n : Z) (x0 epsilon : Q) :
  let r := sampleArray xref yref nref x y n x0 epsilon in
  let y' := fst (fst r) in
  let firstPt := snd (fst r) in
  let numPts := snd r in
  List.length y' = List.length y /\
  ((firstPt = (-1)%Z /\ numPts = 0%Z /\ y' = y) \/
   ((0 <= firstPt)%Z /\ (0 < numPts)%Z /\ (firstPt + numPts <= n)%Z /\
    forall j : nat,
      (Z.of_nat j < firstPt \/ firstPt + numPts <= Z.of_nat j)%Z ->
      nth j y' 0 = nth j y 0)).
Proof.
  unfold sampleArray.
  set (isIncreasing := negb ((2 <=? n)%Z && Qlt_bool (zth x 1 - zth x 0) 0)).
  set (isRefIncreasing :=
         negb ((2 <=? nref)%Z && Qlt_bool (zth xref 1 - zth xref 0) 0)).
  set (di := if isIncreasing then 1%Z else (-1)%Z).
  set (diref := if isRefIncreasing then 1%Z else (-1)%Z).
  set (st0 := mkSampleState (if isIncreasing then 0%Z else (n - 1)%Z)
                (if isRefIncreasing then 0%Z else (nref - 1)%Z) y (-1)).
  assert (di = 1%Z \/ di = (-1)%Z) as Hdi
    by (subst di; destruct isIncreasing; auto).
  assert (windowInv y n di st0) as H0.
  { split; [reflexivity|]. left. split; reflexivity. }
  pose proof (windowInv_loop xref yref nref x n x0 (defaultEpsilon epsilon)
                di diref y Hdi (Z.to_nat n + Z.to_nat nref) st0 H0)
    as [Hlen Hw].
  set (st := sampleLoop xref yref nref x n x0 (defaultEpsilon epsilon) di diref
               (Z.to_nat n + Z.to_nat nref) st0) in *.
  destruct (Z.eqb_spec (sa_firstPt st) (-1)) as [Hf|Hf].
  - cbn [fst snd]. split; [exact Hlen|]. left.
    destruct Hw as [[_ Hy]|Hw]; [auto|].
    exfalso. subst di. destruct isIncreasing; cbn [Z.eqb Pos.eqb] in Hw; lia.
  - destruct Hw as [[Hf' _]|Hw]; [contradiction|].
    subst di. destruct isIncreasing; cbn [Z.eqb Pos.eqb] in Hw; cbn [fst snd];
      destruct Hw as (H1 & H2 & Hout); (split; [exact Hlen|]); right.
    + split; [lia|]. split; [lia|]. split; [lia|].
      intros j Hj. apply Hout. lia.
    + split; [lia|]. split; [lia|]. split; [lia|].
      intros j Hj. apply Hout. lia.
Qed.

(** X8.  The window of [sampleArray]: the output has the length of the
    buffer it was given; either no sample was matched, and then
    [firstPt = -1], [numPts = 0] and the buffer is unchanged, or the
    reported window is not empty and lies inside the [n] samples,
    [0 <= firstPt] and [firstPt + numPts <= n], and no value outside it was
    written. *)
Theorem sampleArray_window (xref yref : list Q) (nref : Z) (x y : list Q)
    (n : Z) (x0 epsilon : Q) :
  let r := sampleArray xref yref nref x y n x0 epsilon in
  let y' := fst (fst r) in
  let firstPt := snd (fst r) in
  let numPts := snd r in
  List.length y' = List.length y /\
  ((firstPt = (-1)%Z /\ numPts = 0%Z /\ y' = y) \/
   ((0 <= firstPt)%Z /\ (0 < numPts)%Z /\ (firstPt + numPts <= n)%Z /\
    forall j : nat,
      (Z.of_nat j < firstPt \/ firstPt + numPts <= Z.of_nat j)%Z ->
      nth j y' 0 = nth j y 0)).
Proof.
  intros r y' firstPt numPts.
  destruct (sampleArray_bounds xref yref nref x y n x0 epsilon)
    as [Hlen Hw].
  split; [exact Hlen|].
  destruct Hw as [(Hf & Hn & Hy)|(Hf & Hn & Hle & Hout)].
  - left. split; [exact Hf|]. split; [exact Hn|exact Hy].
  - right. split; [exact Hf|]. split; [exact Hn|]. split; [exact Hle|exact Hout].
Qed.

(** ** The sample times init builds *)

Lemma nth_map_seq (f : nat -> Q) (n i : nat) :
  (i < n)%nat -> nth i (map f (seq 0 n)) 0 = f i.
Proof.
  intros Hi. rewrite (nth_indep _ 0 (f 0%nat)) by (rewrite length_map, length_seq; exact Hi).
  rewrite map_nth, seq_nth by exact Hi. reflexivity.
Qed.

Lemma numSteps_bounds (duration sampleInterval : Q) :
  0 < sampleInterval -> 0 <= duration ->
  let numSteps := Qfloor (duration / sampleInterval) in
  (0 <= numSteps)%Z /\
  inject_Z numSteps * sampleInterval <= duration /\
  duration < (inject_Z numSteps + 1) * sampleInterval.
Proof.
  intros Hdt Hd numSteps.
  pose proof (Qfloor_le (duration / sampleInterval)) as Hlo.
  pose proof (Qlt_floor (duration / sampleInterval)) as Hhi.
  fold numSteps in Hlo, Hhi.
  rewrite inject_Z_plus in Hhi. change (inject_Z 1) with 1 in Hhi.
  assert (0 <= duration / sampleInterval) as Hq
    by (apply Qle_shift_div_l; lra).
  assert (duration / sampleInterval * sampleInterval == duration) as E
    by (field; lra).
  split; [|split].
  - change 0%Z with (Qfloor 0). apply Qfloor_resp_le. exact Hq.
  - rewrite <- E. apply Qmult_le_compat_r; [exact Hlo|lra].
  - rewrite <- E at 1. apply Qmult_lt_compat_r; [exact Hdt|exact Hhi].
Qed.

Lemma linSpaced_nth (size : Z) (low step : Q) (i : nat) :
  (1 <= size)%Z -> (Z.of_nat i < size)%Z ->
  nth i (linSpaced size low (low + inject_Z (size - 1) * step)) 0
  == low + inject_Z (Z.of_nat i) * step.
Proof.
  intros Hsize Hi. unfold linSpaced. rewrite nth_map_seq by lia.
  destruct (Z.eqb_spec size 1) as [->|Hne].
  - replace i with 0%nat by lia. change (inject_Z (Z.of_nat 0)) with 0. ring.
  - assert (0 < inject_Z (size - 1)) as Hpos.
    { change 0 with (inject_Z 0). rewrite <- Zlt_Qlt. lia. }
    field. lra.
Qed.

(** X9.  The sample times [init] builds for a condition with a positive
    sample interval and a non-negative duration: there are
    [1 + floor(duration / interval)] of them, at least one; sample [i] is
    at [start + i * interval], so the times increase strictly, in steps of
    the sample interval, from [start]; and the last one is at most
    [endTime = start + duration], less than one interval before it. *)
Theorem sampleTimes_grid (start duration sampleInterval : Q) :
  0 < sampleInterval -> 0 <= duration ->
  let time := sampleTimes start duration sampleInterval in
  let numSteps := Qfloor (duration / sampleInterval) in
  List.length time = S (Z.to_nat numSteps) /\
  (forall i, (i < List.length time)%nat ->
             nth i time 0 == start + inject_Z (Z.of_nat i) * sampleInterval) /\
  increasing time /\
  spacedBy sampleInterval time /\
  nth (Z.to_nat numSteps) time 0 <= start + duration /\
  start + duration < nth (Z.to_nat numSteps) time 0 + sampleInterval.
Proof.
  intros Hdt Hd time numSteps.
  destruct (numSteps_bounds duration sampleInterval Hdt Hd)
    as (Hn & Hlo & Hhi). fold numSteps in Hn, Hlo, Hhi.
  assert (List.length time = S (Z.to_nat numSteps)) as Hlen.
  { unfold time, sampleTimes, linSpaced. fold numSteps.
    rewrite length_map, length_seq. lia. }
  assert (forall i, (i < List.length time)%nat ->
            nth i time 0 == start + inject_Z (Z.of_nat i) * sampleInterval)
    as Hnth.
  { intros i Hi. unfold time, sampleTimes. fold numSteps.
    replace numSteps with (1 + numSteps - 1)%Z at 2 by lia.
    apply linSpaced_nth; lia. }
  assert (nth (Z.to_nat numSteps) time 0
          == start + inject_Z numSteps * sampleInterval) as Hlast.
  { rewrite Hnth by lia. rewrite Z2Nat.id by exact Hn. reflexivity. }
  split; [exact Hlen|]. split; [exact Hnth|]. split; [|split; [|split]].
  - intros i j Hij Hj. rewrite (Hnth i) by lia. rewrite (Hnth j) by lia.
    assert (inject_Z (Z.of_nat i) < inject_Z (Z.of_nat j)) as Hlt
      by (rewrite <- Zlt_Qlt; lia).
    apply Qplus_lt_r. apply Qmult_lt_compat_r; assumption.
  - intros i Hi. rewrite (Hnth i) by lia. rewrite (Hnth (S i)) by lia.
    rewrite Nat2Z.inj_succ. unfold Z.succ. rewrite inject_Z_plus.
    change (inject_Z 1) with 1. ring_simplify. apply Qle_refl.
  - rewrite Hlast. lra.
  - rewrite Hlast. lra.
Qed.

Lemma sampleTimes_grid_witness :
  let time := sampleTimes 0 (7 # 2) 1 in
  List.length time = 4%nat /\
  (forall i, (i < List.length time)%nat ->
             nth i time 0 == 0 + inject_Z (Z.of_nat i) * 1) /\
  increasing time /\
  spacedBy 1 time /\
  nth 3 time 0 <= 0 + (7 # 2) /\
  0 + (7 # 2) < nth 3 time 0 + 1.
Proof.
  apply (sampleTimes_grid 0 (7 # 2) 1); lra.
Defined.

Example sampleTimes_half_steps :
  Forall2 Qeq (sampleTimes 1 2 (1 # 2)) [1; 3 # 2; 2; 5 # 2; 3].
Proof. repeat constructor. Qed.

(** ** The cost is a weighted sum of squares *)

Lemma sumQ_map_nonneg {A : Type} (f : A -> Q) (l : list A) :
  (forall a, In a l -> 0 <= f a) -> 0 <= sumQ (map f l).
Proof.
  intros H. apply nonnegative_sum. apply Forall_forall. intros v Hv.
  apply in_map_iff in Hv. destruct Hv as (a & <- & Ha). apply H. exact Ha.
Qed.

Lemma sumQ_map_member {A : Type} (f : A -> Q) (l : list A) (a : A) :
  (forall b, In b l -> 0 <= f b) -> In a l -> f a <= sumQ (map f l).
Proof.
  intros H Ha. induction l as [|b l IH]; [contradiction|]. simpl.
  assert (0 <= f b) by (apply H; left; reflexivity).
  assert (0 <= sumQ (map f l))
    by (apply sumQ_map_nonneg; intros c Hc; apply H; right; exact Hc).
  destruct Ha as [->|Ha]; [lra|].
  assert (f a <= sumQ (map f l))
    by (apply IH; [intros c Hc; apply H; right; exact Hc|exact Ha]).
  lra.
Qed.

(** A sum of non-negative terms is zero exactly when each term is. *)
Lemma sumQ_map_zero {A : Type} (f : A -> Q) (l : list A) :
  (forall a, In a l -> 0 <= f a) ->
  (sumQ (map f l) == 0 <-> forall a, In a l -> f a == 0).
Proof.
  intros H. split.
  - intros Hz a Ha. pose proof (sumQ_map_member f l a H Ha).
    pose proof (H a Ha). lra.
  - intros Hz. rewrite (sumQ_map_ext f (fun _ => 0)) by exact Hz.
    clear. induction l as [|a l IH]; simpl; [reflexivity|]. rewrite IH. ring.
Qed.

Lemma indexed_in_nth_error {A : Type} (l : list A) (i : nat) (a : A) :
  In (i, a) (indexed l) <-> nth_error l i = Some a.
Proof.
  split.
  - intros H. apply In_nth_error in H. destruct H as (k & Hk).
    destruct (nth_error l k) as [b|] eqn:E.
    + rewrite (indexed_nth_error l k b E) in Hk. injection Hk as <- <-. exact E.
    + apply nth_error_None in E.
      assert (k < List.length (indexed l))%nat as Hlt
        by (apply nth_error_Some; congruence).
      rewrite indexed_length in Hlt. lia.
  - intros H. apply (nth_error_In _ i). apply indexed_nth_error. exact H.
Qed.

Lemma zth_nonneg (l : list Q) (i : Z) :
  Forall (fun w => 0 <= w) l -> 0 <= zth l i.
Proof.
  intros H. unfold zth. destruct (i <? 0)%Z; [apply Qle_refl|].
  destruct (Nat.lt_ge_cases (Z.to_nat i) (List.length l)) as [Hlt|Hge].
  - rewrite Forall_forall in H. apply H. apply nth_In. exact Hlt.
  - rewrite nth_overflow by exact Hge. apply Qle_refl.
Qed.

Lemma square_nonneg (d : Q) : 0 <= d * d.
Proof.
  destruct (Qlt_le_dec d 0) as [H|H].
  - setoid_replace (d * d) with ((- d) * (- d)) by ring.
    apply Qmult_le_0_compat; lra.
  - apply Qmult_le_0_compat; assumption.
Qed.

Lemma weightedSquares_nonneg (y simWeight : list Q) (refData : RefData) :
  Forall (fun w => 0 <= w) simWeight ->
  0 <= weightedSquares y simWeight refData.
Proof.
  intros Hw. unfold weightedSquares. apply sumQ_map_nonneg. intros k _.
  cbv zeta. apply Qmult_le_0_compat; [apply square_nonneg|].
  apply zth_nonneg. exact Hw.
Qed.

Lemma squares_nonneg (dataRow : list Q) (refData : RefData) :
  0 <= squares dataRow refData.
Proof.
  unfold squares. apply sumQ_map_nonneg. intros k _. apply square_nonneg.
Qed.

Lemma referenceCost_nonneg (stateNames : list string) (sim : Simulation)
    (v : nat) (kv : string * RefData) :
  Forall (fun w => 0 <= w) (s_weight sim) -> 0 <= r_weight (snd kv) ->
  0 <= referenceCost stateNames sim v kv.
Proof.
  intros Hw Hr. unfold referenceCost.
  destruct (0 <? r_numPts (snd kv))%Z; [|apply Qle_refl].
  destruct (getSimulationWaveform stateNames (fst kv) sim v) as [[y n]|];
    [|apply Qle_refl].
  destruct (0 <? n)%Z; [|apply Qle_refl].
  apply Qmult_le_0_compat; [apply weightedSquares_nonneg; exact Hw|exact Hr].
Qed.

Lemma summaryReferenceCost_nonneg (summary : SimulationsSummary)
    (v row : nat) (refData : RefData) :
  0 <= r_weight refData -> 0 <= summaryReferenceCost summary v row refData.
Proof.
  intros Hr. unfold summaryReferenceCost.
  destruct (0 <? r_numPts refData)%Z; [|apply Qle_refl].
  apply Qmult_le_0_compat; [apply squares_nonneg|exact Hr].
Qed.

Lemma simulationSum_nonneg (stateNames : list string) (sim : Simulation) :
  Forall (fun w => 0 <= w) (s_weight sim) ->
  (forall refs kv, In refs (s_referenceData sim) -> In kv refs ->
                   0 <= r_weight (snd kv)) ->
  0 <= simulationSum stateNames sim.
Proof.
  intros Hw Hr. unfold simulationSum. apply sumQ_map_nonneg.
  intros [v refs] Hin. unfold variableSetSum. cbn [fst snd].
  apply sumQ_map_nonneg. intros kv Hkv. apply referenceCost_nonneg; [exact Hw|].
  apply (Hr refs kv); [|exact Hkv]. apply (indexed_in _ _ _ Hin).
Qed.

Lemma summarySum_nonneg (summary : SimulationsSummary) :
  (forall refs refData, In refs (sm_referenceData summary) -> In refData refs ->
                        0 <= r_weight refData) ->
  0 <= summarySum summary.
Proof.
  intros Hr. unfold summarySum. destruct (sm_isActive summary); [|apply Qle_refl].
  apply sumQ_map_nonneg. intros [v refs] Hin. cbn [fst snd].
  apply sumQ_map_nonneg. intros [row refData] Hrow. cbn [fst snd].
  apply summaryReferenceCost_nonneg.
  apply (Hr refs refData); [apply (indexed_in _ _ _ Hin)|apply (indexed_in _ _ _ Hrow)].
Qed.

Lemma cost_nonneg (protocol : Protocol) :
  weightsNonnegative protocol -> 0 <= cost protocol.
Proof.
  intros [Hsim Hsum]. rewrite cost_sum.
  assert (0 <= sumQ (map (rowSum (p_stateNames protocol))
                         (p_simulations protocol))) as H1.
  { apply sumQ_map_nonneg. intros row Hrow. unfold rowSum.
    apply sumQ_map_nonneg. intros sim Hin.
    destruct (Hsim row sim Hrow Hin) as [Hw Hr].
    apply simulationSum_nonneg; assumption. }
  assert (0 <= sumQ (map summarySum (p_summaries protocol))) as H2.
  { apply sumQ_map_nonneg. intros summary Hin. apply summarySum_nonneg.
    intros refs refData. apply Hsum. exact Hin. }
  lra.
Qed.

Lemma simulatorCost_sum (protocols : list Protocol) :
  simulatorCost protocols == sumQ (map cost protocols).
Proof.
  unfold simulatorCost. rewrite (fold_left_additive _ cost).
  - ring.
  - intros c protocol. reflexivity.
Qed.

(** X10.  With no negative sample weight and no negative reference weight,
    the cost of every protocol is non-negative, and so is the cost of the
    session ([StimulusClampProtocolSimulator::cost]), which is at least the
    cost of each of its protocols. *)
Theorem simulatorCost_nonnegative (protocols : list Protocol) :
  (forall protocol, In protocol protocols -> weightsNonnegative protocol) ->
  0 <= simulatorCost protocols /\
  forall protocol, In protocol protocols ->
    0 <= cost protocol /\ cost protocol <= simulatorCost protocols.
Proof.
  intros Hw.
  assert (forall protocol, In protocol protocols -> 0 <= cost protocol) as Hc
    by (intros protocol Hin; apply cost_nonneg; apply Hw; exact Hin).
  split.
  - rewrite simulatorCost_sum. apply sumQ_map_nonneg. exact Hc.
  - intros protocol Hin. split; [apply Hc; exact Hin|].
    rewrite simulatorCost_sum. apply sumQ_map_member; assumption.
Qed.

Lemma protocol_with_reference_weights :
  weightsNonnegative protocol_with_reference.
Proof.
  split.
  - intros row sim [<-|[]] [<-|[]]. split.
    + repeat constructor; discriminate.
    + intros refs kv [<-|[]] [<-|[]]. discriminate.
  - intros summary refs refData [].
Qed.

Lemma simulatorCost_nonnegative_witness :
  0 <= simulatorCost [protocol_with_reference] /\
  forall protocol, In protocol [protocol_with_reference] ->
    0 <= cost protocol /\ cost protocol <= simulatorCost [protocol_with_reference].
Proof.
  apply (simulatorCost_nonnegative [protocol_with_reference]).
  intros protocol [<-|[]]. exact protocol_with_reference_weights.
Defined.

(** *** The cost is zero exactly at a perfect fit *)

Lemma zth_pos (l : list Q) (i : Z) :
  Forall (fun w => 0 < w) l -> (0 <= i < Z.of_nat (List.length l))%Z ->
  0 < zth l i.
Proof.
  intros H Hi. unfold zth. destruct (Z.ltb_spec i 0); [lia|].
  rewrite Forall_forall in H. apply H. apply nth_In. lia.
Qed.

Lemma weighted_square_zero (d w : Q) : 0 < w -> (d * d * w == 0 <-> d == 0).
Proof.
  intros Hw. split.
  - intros H. apply Qmult_integral in H. destruct H as [H|H]; [|lra].
    apply Qmult_integral in H. destruct H; assumption.
  - intros ->. ring.
Qed.

Lemma square_zero (d : Q) : d * d == 0 <-> d == 0.
Proof.
  split.
  - intros H. apply Qmult_integral in H. destruct H; assumption.
  - intros ->. ring.
Qed.

Lemma positive_nonnegative (l : list Q) :
  Forall (fun w => 0 < w) l -> Forall (fun w => 0 <= w) l.
Proof. apply Forall_impl. intros a H. lra. Qed.

Lemma weightsPositive_nonnegative (protocol : Protocol) :
  weightsPositive protocol -> weightsNonnegative protocol.
Proof.
  intros [Hsim Hsum]. split.
  - intros row sim Hrow Hin. destruct (Hsim row sim Hrow Hin) as [Hw Hr].
    split; [apply positive_nonnegative; exact Hw|].
    intros refs kv Hrefs Hkv. destruct (Hr refs kv Hrefs Hkv) as [H _]. lra.
  - intros summary refs refData H1 H2 H3.
    pose proof (Hsum summary refs refData H1 H2 H3). lra.
Qed.

Lemma referenceCost_zero (stateNames : list string) (sim : Simulation)
    (v : nat) (kv : string * RefData) :
  Forall (fun w => 0 < w) (s_weight sim) ->
  0 < r_weight (snd kv) ->
  (0 <= r_firstPt (snd kv))%Z ->
  (r_firstPt (snd kv) + r_numPts (snd kv)
   <= Z.of_nat (List.length (s_weight sim)))%Z ->
  (referenceCost stateNames sim v kv == 0 <-> referenceFits stateNames sim v kv).
Proof.
  intros Hw Hr Hf Hwin. unfold referenceCost, referenceFits.
  destruct (Z.ltb_spec 0 (r_numPts (snd kv))) as [Hn|Hn];
    [|split; [intros _ H; lia|reflexivity]].
  destruct (getSimulationWaveform stateNames (fst kv) sim v) as [[y n]|];
    [|split; [intros _ _ y n H; discriminate|reflexivity]].
  destruct (Z.ltb_spec 0 n) as [Hpos|Hpos];
    [|split; [intros _ _ y' n' H; injection H as <- <-; lia|reflexivity]].
  assert (weightedSquares y (s_weight sim) (snd kv) * r_weight (snd kv) == 0
          <-> weightedSquares y (s_weight sim) (snd kv) == 0) as ->.
  { split.
    - intros H. apply Qmult_integral in H. destruct H as [H|H]; [exact H|lra].
    - intros ->. ring. }
  unfold weightedSquares.
  rewrite sumQ_map_zero.
  - split.
    + intros H _ y' n' Hy _ k Hk. injection Hy as <- <-.
      specialize (H k ltac:(apply in_seq; lia)). cbv zeta in H.
      apply weighted_square_zero in H; [lra|].
      apply zth_pos; [exact Hw|lia].
    + intros H k Hk. apply in_seq in Hk. cbv zeta.
      apply weighted_square_zero; [apply zth_pos; [exact Hw|lia]|].
      rewrite (H Hn y n eq_refl Hpos k ltac:(lia)). ring.
  - intros k _. cbv zeta. apply Qmult_le_0_compat; [apply square_nonneg|].
    apply zth_nonneg. apply positive_nonnegative. exact Hw.
Qed.

Lemma summaryReferenceCost_zero (summary : SimulationsSummary)
    (v row : nat) (refData : RefData) :
  0 < r_weight refData ->
  (summaryReferenceCost summary v row refData == 0
   <-> summaryReferenceFits summary v row refData).
Proof.
  intros Hr. unfold summaryReferenceCost, summaryReferenceFits.
  destruct (Z.ltb_spec 0 (r_numPts refData)) as [Hn|Hn];
    [|split; [intros _ H; lia|reflexivity]].
  cbv zeta.
  assert (squares (nth row (nth v (sm_dataY summary) []) []) refData
            * r_weight refData == 0
          <-> squares (nth row (nth v (sm_dataY summary) []) []) refData == 0)
    as ->.
  { split.
    - intros H. apply Qmult_integral in H. destruct H as [H|H]; [exact H|lra].
    - intros ->. ring. }
  unfold squares. rewrite sumQ_map_zero.
  - split.
    + intros H _ k Hk. specialize (H k ltac:(apply in_seq; lia)). cbv zeta in H.
      apply (proj1 (square_zero _)) in H. lra.
    + intros H k Hk. apply in_seq in Hk. cbv zeta. apply square_zero.
      rewrite (H Hn k ltac:(lia)). ring.
  - intros k _. apply square_nonneg.
Qed.

(** X11.  With positive sample weights, positive reference weights and the
    windows of the reference curves inside the samples,
    [StimulusClampProtocol::cost] is zero exactly when every reference
    curve is met: each simulated buffer equals its reference curve on the
    curve's window, and so does each row of an active summary. *)
Theorem cost_zero_iff_fits (protocol : Protocol) :
  weightsPositive protocol -> (cost protocol == 0 <-> fits protocol).
Proof.
  intros Hpos. pose proof (weightsPositive_nonnegative protocol Hpos) as Hnn.
  destruct Hpos as [Psim Psum]. destruct Hnn as [Nsim Nsum].
  rewrite cost_sum.
  set (S1 := sumQ (map (rowSum (p_stateNames protocol)) (p_simulations protocol))).
  set (S2 := sumQ (map summarySum (p_summaries protocol))).
  assert (forall row sim, In row (p_simulations protocol) -> In sim row ->
            0 <= simulationSum (p_stateNames protocol) sim) as Hsim0.
  { intros row sim Hrow Hin. destruct (Nsim row sim Hrow Hin).
    apply simulationSum_nonneg; assumption. }
  assert (forall row, In row (p_simulations protocol) ->
            0 <= rowSum (p_stateNames protocol) row) as Hrow0.
  { intros row Hrow. apply sumQ_map_nonneg. intros sim Hin.
    apply (Hsim0 row sim Hrow Hin). }
  assert (forall summary, In summary (p_summaries protocol) ->
            0 <= summarySum summary) as Hsum0.
  { intros summary Hin. apply summarySum_nonneg. intros refs refData.
    apply Nsum. exact Hin. }
  assert (0 <= S1) as H1 by (apply sumQ_map_nonneg; exact Hrow0).
  assert (0 <= S2) as H2 by (apply sumQ_map_nonneg; exact Hsum0).
  assert (S1 == 0 <->
          forall row sim v refs kv,
            In row (p_simulations protocol) -> In sim row ->
            nth_error (s_referenceData sim) v = Some refs -> In kv refs ->
            referenceFits (p_stateNames protocol) sim v kv) as E1.
  { unfold S1. rewrite (sumQ_map_zero _ _ Hrow0). split.
    - intros H row sim v refs kv Hrow Hin Hv Hkv.
      specialize (H row Hrow). unfold rowSum in H.
      rewrite sumQ_map_zero in H by (intros s Hs; apply (Hsim0 row s Hrow Hs)).
      specialize (H sim Hin). unfold simulationSum in H.
      destruct (Nsim row sim Hrow Hin) as [Nw Nr].
      destruct (Psim row sim Hrow Hin) as [Pw Pr].
      assert (In refs (s_referenceData sim)) as Hrefs
        by (apply (nth_error_In _ v); exact Hv).
      rewrite sumQ_map_zero in H.
      + specialize (H (v, refs) ltac:(apply indexed_in_nth_error; exact Hv)).
        unfold variableSetSum in H. cbn [fst snd] in H.
        rewrite sumQ_map_zero in H.
        * destruct (Pr refs kv Hrefs Hkv) as (Q1 & Q2 & Q3).
          apply (referenceCost_zero _ _ _ _ Pw Q1 Q2 Q3). apply H. exact Hkv.
        * intros kv' Hkv'. apply referenceCost_nonneg; [exact Nw|].
          apply (Nr refs kv' Hrefs Hkv').
      + intros [v' refs'] Hin'. unfold variableSetSum. cbn [fst snd].
        apply sumQ_map_nonneg. intros kv' Hkv'.
        apply referenceCost_nonneg; [exact Nw|].
        apply (Nr refs' kv'); [apply (indexed_in _ _ _ Hin')|exact Hkv'].
    - intros H row Hrow. unfold rowSum.
      rewrite sumQ_map_zero by (intros s Hs; apply (Hsim0 row s Hrow Hs)).
      intros sim Hin. unfold simulationSum.
      destruct (Nsim row sim Hrow Hin) as [Nw Nr].
      destruct (Psim row sim Hrow Hin) as [Pw Pr].
      rewrite sumQ_map_zero.
      + intros [v refs] Hv. unfold variableSetSum. cbn [fst snd].
        assert (In refs (s_referenceData sim)) as Hrefs
          by (apply (indexed_in _ _ _ Hv)).
        rewrite sumQ_map_zero.
        * intros kv Hkv. destruct (Pr refs kv Hrefs Hkv) as (Q1 & Q2 & Q3).
          apply (referenceCost_zero _ _ _ _ Pw Q1 Q2 Q3).
          apply (H row sim v refs kv Hrow Hin); [|exact Hkv].
          apply indexed_in_nth_error. exact Hv.
        * intros kv' Hkv'. apply referenceCost_nonneg; [exact Nw|].
          apply (Nr refs kv' Hrefs Hkv').
      + intros [v' refs'] Hin'. unfold variableSetSum. cbn [fst snd].
        apply sumQ_map_nonneg. intros kv' Hkv'.
        apply referenceCost_nonneg; [exact Nw|].
        apply (Nr refs' kv'); [apply (indexed_in _ _ _ Hin')|exact Hkv']. }
  assert (S2 == 0 <->
          forall summary v refs row refData,
            In summary (p_summaries protocol) -> sm_isActive summary = true ->
            nth_error (sm_referenceData summary) v = Some refs ->
            nth_error refs row = Some refData ->
            summaryReferenceFits summary v row refData) as E2.
  { unfold S2. rewrite (sumQ_map_zero _ _ Hsum0). split.
    - intros H summary v refs row refData Hin Hact Hv Hrow.
      specialize (H summary Hin). unfold summarySum in H. rewrite Hact in H.
      assert (In refs (sm_referenceData summary)) as Hrefs
        by (apply (nth_error_In _ v); exact Hv).
      assert (In refData refs) as Hrd by (apply (nth_error_In _ row); exact Hrow).
      rewrite sumQ_map_zero in H.
      + specialize (H (v, refs) ltac:(apply indexed_in_nth_error; exact Hv)).
        cbn [fst snd] in H. rewrite sumQ_map_zero in H.
        * specialize (H (row, refData)
                        ltac:(apply indexed_in_nth_error; exact Hrow)).
          cbn [fst snd] in H.
          apply summaryReferenceCost_zero; [|exact H].
          apply (Psum summary refs refData Hin Hrefs Hrd).
        * intros [row' rd'] Hin'. cbn [fst snd].
          apply summaryReferenceCost_nonneg.
          apply (Nsum summary refs rd' Hin Hrefs). apply (indexed_in _ _ _ Hin').
      + intros [v' refs'] Hin'. cbn [fst snd]. apply sumQ_map_nonneg.
        intros [row' rd'] Hin''. cbn [fst snd].
        apply summaryReferenceCost_nonneg.
        apply (Nsum summary refs' rd' Hin);
          [apply (indexed_in _ _ _ Hin')|apply (indexed_in _ _ _ Hin'')].
    - intros H summary Hin. unfold summarySum.
      destruct (sm_isActive summary) eqn:Hact; [|reflexivity].
      rewrite sumQ_map_zero.
      + intros [v refs] Hv. cbn [fst snd].
        assert (In refs (sm_referenceData summary)) as Hrefs
          by (apply (indexed_in _ _ _ Hv)).
        rewrite sumQ_map_zero.
        * intros [row refData] Hrow. cbn [fst snd].
          apply summaryReferenceCost_zero.
          -- apply (Psum summary refs refData Hin Hrefs).
             apply (indexed_in _ _ _ Hrow).
          -- apply (H summary v refs row refData Hin Hact);
               apply indexed_in_nth_error; assumption.
        * intros [row' rd'] Hin'. cbn [fst snd].
          apply summaryReferenceCost_nonneg.
          apply (Nsum summary refs rd' Hin Hrefs). apply (indexed_in _ _ _ Hin').
      + intros [v' refs'] Hin'. cbn [fst snd]. apply sumQ_map_nonneg.
        intros [row' rd'] Hin''. cbn [fst snd].
        apply summaryReferenceCost_nonneg.
        apply (Nsum summary refs' rd' Hin);
          [apply (indexed_in _ _ _ Hin')|apply (indexed_in _ _ _ Hin'')]. }
  unfold fits. rewrite <- E1, <- E2. split.
  - intros H. split; lra.
  - intros [-> ->]. reflexivity.
Qed.

Lemma protocol_fitting_weights : weightsPositive protocol_fitting.
Proof.
  split.
  - intros row sim [<-|[]] [<-|[]]. split.
    + repeat constructor.
    + intros refs kv [<-|[]] [<-|[]]. cbn. repeat split; try reflexivity; lia.
  - intros summary refs refData [].
Qed.

Lemma cost_zero_iff_fits_witness :
  cost protocol_fitting == 0 <-> fits protocol_fitting.
Proof.
  apply (cost_zero_iff_fits protocol_fitting). exact protocol_fitting_weights.
Defined.

Example cost_protocol_fitting : cost protocol_fitting == 0.
Proof. vm_compute. reflexivity. Qed.

(** ** Reference curves aligned by init *)

Lemma minCoeffValueFrom_le (l : list Q) :
  forall best,
    minCoeffValueFrom l best <= best /\
    forall v, In v l -> minCoeffValueFrom l best <= v.
Proof.
  induction l as [|a l IH]; intros best; simpl.
  - split; [apply Qle_refl|intros v []].
  - destruct (IH (if Qlt_bool a best then a else best)) as [H1 H2].
    destruct (Qlt_bool a best) eqn:E.
    + apply Qlt_bool_iff in E. split; [lra|].
      intros v [<-|Hv]; [exact H1|apply H2; exact Hv].
    + apply Qlt_bool_false in E. split; [exact H1|].
      intros v [<-|Hv]; [lra|apply H2; exact Hv].
Qed.

Lemma minCoeff_le (l : list Q) (v : Q) : In v l -> minCoeff l <= v.
Proof.
  destruct l as [|a l]; [intros []|]. simpl.
  destruct (minCoeffValueFrom_le l a) as [H1 H2].
  intros [<-|Hv]; [exact H1|apply H2; exact Hv].
Qed.

Lemma minCoeffValueFrom_in (l : list Q) :
  forall best,
    minCoeffValueFrom l best = best \/ In (minCoeffValueFrom l best) l.
Proof.
  induction l as [|v l IH]; intros best; simpl; [left; reflexivity|].
  destruct (IH (if Qlt_bool v best then v else best)) as [H|H].
  - rewrite H. destruct (Qlt_bool v best); [right; left|left]; reflexivity.
  - right. right. exact H.
Qed.

Lemma minCoeff_in (l : list Q) : l <> [] -> In (minCoeff l) l.
Proof.
  destruct l as [|v l]; [congruence|]. intros _. simpl.
  destruct (minCoeffValueFrom_in l v) as [H|H];
    [left; symmetry; exact H|right; exact H].
Qed.

Lemma segment_length (v : list Q) (firstPt numPts : Z) :
  (0 <= firstPt)%Z -> (0 <= numPts)%Z ->
  (firstPt + numPts <= Z.of_nat (List.length v))%Z ->
  List.length (segment v firstPt numPts) = Z.to_nat numPts.
Proof.
  intros H1 H2 H3. unfold segment. rewrite length_firstn, length_skipn. lia.
Qed.

Lemma normalizeReference_length (normalization : RefNormalization)
    (waveform : list Q) :
  List.length (normalizeReference normalization waveform)
  = List.length waveform.
Proof. destruct normalization; simpl; try apply length_map; reflexivity. Qed.

Lemma scaleReference_length (scale : Q) (waveform : list Q) :
  List.length (scaleReference scale waveform) = List.length waveform.
Proof.
  unfold scaleReference. destruct (Qeq_bool scale 1);
    [reflexivity|apply length_map].
Qed.

(** X12.  A reference curve that [init] stores for a simulation has a
    window inside the simulation's samples: [0 <= firstPt], [numPts > 0]
    and [firstPt + numPts] is at most the number of sample times; its
    waveform holds exactly [numPts] values, and its weight is the weight of
    the reference data. *)
Theorem alignReference_window (time : list Q) (referenceData : ReferenceData)
    (i : nat) (refData : RefData) :
  alignReference time referenceData i = Some refData ->
  (0 <= r_firstPt refData)%Z /\ (0 < r_numPts refData)%Z /\
  (r_firstPt refData + r_numPts refData <= Z.of_nat (List.length time))%Z /\
  List.length (r_waveform refData) = Z.to_nat (r_numPts refData) /\
  r_weight refData = rd_weight referenceData.
Proof.
  unfold alignReference.
  set (columnX := fst (nth i (rd_columnPairsXY referenceData) (0%Z, 0%Z))).
  set (columnY := snd (nth i (rd_columnPairsXY referenceData) (0%Z, 0%Z))).
  set (refX := columnOf (rd_columnData referenceData) columnX).
  set (refY := columnOf (rd_columnData referenceData) columnY).
  set (n := Z.of_nat (List.length time)).
  set (nref := Z.of_nat (List.length refY)).
  set (epsilon := referenceTolerance time refX n nref).
  destruct (sampleArray_bounds refX refY nref time
              (repeat 0 (List.length time)) n (rd_x0 referenceData) epsilon)
    as [Hlen Hw].
  set (r := sampleArray refX refY nref time (repeat 0 (List.length time)) n
              (rd_x0 referenceData) epsilon) in *.
  cbv zeta in Hlen, Hw. rewrite repeat_length in Hlen.
  destruct (Z.ltb_spec 0 (snd r)) as [Hpos|Hpos]; [|discriminate].
  intros H. injection H as <-. cbn [r_firstPt r_numPts r_waveform r_weight].
  destruct Hw as [(_ & Hn & _)|(Hf & Hn & Hle & _)]; [lia|].
  split; [exact Hf|]. split; [exact Hn|]. split; [exact Hle|].
  split; [|reflexivity].
  rewrite scaleReference_length, normalizeReference_length.
  apply segment_length; [exact Hf|lia|]. rewrite Hlen. exact Hle.
Qed.

Lemma alignReference_window_witness :
  (0 <= 0)%Z /\ (0 < 4)%Z /\ (0 + 4 <= Z.of_nat 4)%Z /\
  List.length [7; 8; 9; 10] = Z.to_nat 4 /\ 3 = 3.
Proof.
  apply (alignReference_window [0; 1; 2; 3] reference_table 0
           (mkRefData [7; 8; 9; 10] 0 4 3)).
  vm_compute. reflexivity.
Defined.

(** The resampler on its own grid, the fact behind the round trip of a
    reference curve: with the reference abscissa equal to the sample times,
    no shift and a positive tolerance, every reference value is copied. *)
Lemma sampleArray_identity (x yref y : list Q) (epsilon : Q) :
  x <> [] -> increasing x ->
  List.length yref = List.length x -> List.length y = List.length x ->
  0 < epsilon ->
  sampleArray x yref (Z.of_nat (List.length x)) x y (Z.of_nat (List.length x))
              0 epsilon
  = (yref, 0%Z, Z.of_nat (List.length x)).
Proof.
  intros Hne Hinc Hlen Hy Heps. unfold sampleArray.
  assert (defaultEpsilon epsilon = epsilon) as ->.
  { unfold defaultEpsilon. destruct (Qeq_bool epsilon 0) eqn:E; [|reflexivity].
    apply Qeq_bool_iff in E. lra. }
  set (N := Z.of_nat (List.length x)).
  assert (negb ((2 <=? N)%Z && Qlt_bool (zth x 1 - zth x 0) 0) = true) as ->.
  { apply negb_true_iff. destruct (Z.leb_spec 2 N) as [H2|H2]; [|reflexivity].
    cbn [andb]. apply Qlt_bool_false.
    change (zth x 1) with (zth x (Z.of_nat 1)).
    change (zth x 0) with (zth x (Z.of_nat 0)).
    rewrite !zth_of_nat.
    assert (nth 0 x 0 < nth 1 x 0) by (apply Hinc; subst N; lia). lra. }
  assert (0 < List.length x)%nat as Hpos
    by (destruct x; [congruence|simpl; lia]).
  pose proof (sampleLoop_identity x yref epsilon Heps Hlen (List.length x)
                0%nat y (Z.to_nat N + Z.to_nat N)%nat) as HL.
  cbn [firstn skipn app Z.of_nat] in HL. fold N in HL.
  rewrite HL by (subst N; lia). cbn [sa_firstPt sa_y sa_i Z.eqb].
  f_equal. lia.
Qed.

Lemma adjacentDifferences_positive (time : list Q) :
  increasing time -> (2 <= List.length time)%nat ->
  0 < minCoeff (adjacentDifferences time (Z.of_nat (List.length time))).
Proof.
  intros Hinc Hlen.
  set (d := adjacentDifferences time (Z.of_nat (List.length time))).
  assert (d <> []) as Hne.
  { unfold d, adjacentDifferences.
    replace (Z.to_nat (Z.of_nat (List.length time) - 1))
      with (S (List.length time - 2)) by lia.
    discriminate. }
  pose proof (minCoeff_in d Hne) as Hin. unfold d at 2 in Hin.
  unfold adjacentDifferences in Hin. apply in_map_iff in Hin.
  destruct Hin as (i & Hi & Hseq). apply in_seq in Hseq.
  fold d in Hi. rewrite <- Hi.
  assert (nth i time 0 < nth (S i) time 0) by (apply Hinc; lia). lra.
Qed.

(** X13.  Round trip of a reference curve through [init]: a curve whose
    abscissa column is the simulation's own strictly increasing sample
    times (at least two of them), with no shift, no normalisation and a
    scale of one, is stored unchanged, aligned to all the samples:
    [firstPt = 0], [numPts] the number of samples, the waveform the
    curve's ordinates, the weight that of the reference data. *)
Theorem alignReference_own_grid (time : list Q) (referenceData : ReferenceData)
    (i : nat) (columnX columnY : Z) (refY : list Q) :
  increasing time -> (2 <= List.length time)%nat ->
  nth_error (rd_columnPairsXY referenceData) i = Some (columnX, columnY) ->
  columnOf (rd_columnData referenceData) columnX = time ->
  columnOf (rd_columnData referenceData) columnY = refY ->
  List.length refY = List.length time ->
  rd_x0 referenceData = 0 ->
  rd_normalization referenceData = RefNoNormalization ->
  rd_scale referenceData == 1 ->
  alignReference time referenceData i
  = Some (mkRefData refY 0 (Z.of_nat (List.length time))
                    (rd_weight referenceData)).
Proof.
  intros Hinc Hlen Hpair HX HY HlenY Hx0 Hnorm Hscale. unfold alignReference.
  rewrite (nth_error_nth _ _ (0%Z, 0%Z) Hpair). cbn [fst snd].
  rewrite HX, HY, HlenY, Hx0, Hnorm.
  assert (0 < referenceTolerance time time (Z.of_nat (List.length time))
                                 (Z.of_nat (List.length time))) as Heps.
  { unfold referenceTolerance.
    pose proof (adjacentDifferences_positive time Hinc Hlen) as Hm.
    destruct (Qlt_bool _ _); lra. }
  assert (time <> []) as Hne by (destruct time; [simpl in Hlen; lia|discriminate]).
  rewrite (sampleArray_identity time refY (repeat 0 (List.length time)) _
             Hne Hinc HlenY (repeat_length _ _) Heps).
  cbn [fst snd].
  destruct (Z.ltb_spec 0 (Z.of_nat (List.length time))); [|lia].
  cbn [normalizeReference]. unfold scaleReference.
  apply Qeq_bool_iff in Hscale. rewrite Hscale.
  unfold segment. cbn [Z.to_nat skipn]. rewrite Nat2Z.id.
  rewrite firstn_all2 by lia. reflexivity.
Qed.

Lemma alignReference_own_grid_witness :
  alignReference [0; 1; 2; 3] reference_table 0
  = Some (mkRefData [7; 8; 9; 10] 0 (Z.of_nat 4) 3).
Proof.
  apply (alignReference_own_grid [0; 1; 2; 3] reference_table 0 0 1
           [7; 8; 9; 10]);
    [exact increasing_0123|simpl; lia|reflexivity|reflexivity|reflexivity
    |reflexivity|reflexivity|reflexivity|reflexivity].
Defined.

(** *** Normalisation of a reference curve *)

Lemma refPeak_bounds (waveform : list Q) (v : Q) :
  In v waveform -> Qabs v <= Qabs (refPeak waveform).
Proof.
  intros Hv. pose proof (minCoeff_le waveform v Hv) as Hmin.
  pose proof (maxCoeff_ge waveform v Hv) as Hmax. unfold refPeak.
  destruct (Qle_bool (Qabs (minCoeff waveform)) (Qabs (maxCoeff waveform)))
    eqn:E.
  - apply Qle_bool_iff in E. revert E.
    apply (Qabs_case v); apply (Qabs_case (minCoeff waveform));
      apply (Qabs_case (maxCoeff waveform)); intros; lra.
  - assert (Qabs (maxCoeff waveform) < Qabs (minCoeff waveform)) as E'.
    { apply Qnot_le_lt. intros H. apply Qle_bool_iff in H. congruence. }
    revert E'.
    apply (Qabs_case v); apply (Qabs_case (minCoeff waveform));
      apply (Qabs_case (maxCoeff waveform)); intros; lra.
Qed.

Lemma refPeak_in (waveform : list Q) :
  waveform <> [] -> In (refPeak waveform) waveform.
Proof.
  intros Hne. unfold refPeak. destruct (Qle_bool _ _);
    [apply maxCoeff_in|apply minCoeff_in]; exact Hne.
Qed.

Lemma Qabs_div_le_1 (v p : Q) : ~ p == 0 -> Qabs v <= Qabs p -> Qabs (v / p) <= 1.
Proof.
  intros Hp H. unfold Qdiv. rewrite Qabs_Qmult.
  assert (0 < Qabs p) as Hpos.
  { destruct (Qlt_le_dec 0 (Qabs p)) as [Hlt|Hle]; [exact Hlt|exfalso].
    pose proof (Qabs_nonneg p). apply Hp.
    revert Hle. apply (Qabs_case p); intros; lra. }
  rewrite Qabs_Qinv. apply Qle_shift_div_r; [exact Hpos|]. lra.
Qed.

(** X14.  Normalisation of a reference curve, as [init] and
    [runSimulation] do it.  To the peak of largest size ([ToAbsMinMax]),
    when the curve is not zero throughout: every value ends within
    [[-1, 1]] and the peak at [1].  To the maximum ([ToMax]): the maximum
    ends at [1] and, when it is positive, no value above it; when it is
    negative the signs flip and no value ends below [1]. *)
Theorem normalizeReference_peak (waveform : list Q) :
  waveform <> [] ->
  (~ refPeak waveform == 0 ->
   Forall (fun v => Qabs v <= 1) (normalizeReference ToAbsMinMax waveform) /\
   Exists (fun v => v == 1) (normalizeReference ToAbsMinMax waveform)) /\
  (0 < maxCoeff waveform ->
   Forall (fun v => v <= 1) (normalizeReference ToMax waveform) /\
   Exists (fun v => v == 1) (normalizeReference ToMax waveform)) /\
  (maxCoeff waveform < 0 ->
   Forall (fun v => 1 <= v) (normalizeReference ToMax waveform) /\
   Exists (fun v => v == 1) (normalizeReference ToMax waveform)).
Proof.
  intros Hne. split; [|split].
  - intros Hp. cbn [normalizeReference]. split.
    + apply Forall_forall. intros q Hq. apply in_map_iff in Hq.
      destruct Hq as (v & <- & Hv).
      apply Qabs_div_le_1; [exact Hp|apply refPeak_bounds; exact Hv].
    + apply Exists_exists. exists (refPeak waveform / refPeak waveform). split.
      * apply in_map_iff. exists (refPeak waveform).
        split; [reflexivity|apply refPeak_in; exact Hne].
      * field. exact Hp.
  - intros Hpos. cbn [normalizeReference]. split.
    + apply Forall_forall. intros q Hq. apply in_map_iff in Hq.
      destruct Hq as (v & <- & Hv). pose proof (maxCoeff_ge waveform v Hv).
      apply Qle_shift_div_r; [exact Hpos|]. lra.
    + apply Exists_exists. exists (maxCoeff waveform / maxCoeff waveform). split.
      * apply in_map_iff. exists (maxCoeff waveform).
        split; [reflexivity|apply maxCoeff_in; exact Hne].
      * field. lra.
  - intros Hneg. cbn [normalizeReference]. split.
    + apply Forall_forall. intros q Hq. apply in_map_iff in Hq.
      destruct Hq as (v & <- & Hv). pose proof (maxCoeff_ge waveform v Hv).
      setoid_replace (v / maxCoeff waveform)
        with ((- v) / (- maxCoeff waveform)) by (field; lra).
      apply Qle_shift_div_l; lra.
    + apply Exists_exists. exists (maxCoeff waveform / maxCoeff waveform). split.
      * apply in_map_iff. exists (maxCoeff waveform).
        split; [reflexivity|apply maxCoeff_in; exact Hne].
      * field. lra.
Qed.

Lemma normalizeReference_peak_witness :
  (~ refPeak [1; -4; 2] == 0 ->
   Forall (fun v => Qabs v <= 1) (normalizeReference ToAbsMinMax [1; -4; 2]) /\
   Exists (fun v => v == 1) (normalizeReference ToAbsMinMax [1; -4; 2])) /\
  (0 < maxCoeff [1; -4; 2] ->
   Forall (fun v => v <= 1) (normalizeReference ToMax [1; -4; 2]) /\
   Exists (fun v => v == 1) (normalizeReference ToMax [1; -4; 2])) /\
  (maxCoeff [1; -4; 2] < 0 ->
   Forall (fun v => 1 <= v) (normalizeReference ToMax [1; -4; 2]) /\
   Exists (fun v => v == 1) (normalizeReference ToMax [1; -4; 2])).
Proof.
  apply (normalizeReference_peak [1; -4; 2]). discriminate.
Defined.

Example normalizeReference_flips :
  Forall2 Qeq (normalizeReference ToAbsMinMax [1; -4; 2])
              [-1 # 4; 1; -1 # 2] /\
  Forall2 Qeq (normalizeReference ToMax [-4; -2]) [2; 1].
Proof. split; repeat constructor. Qed.

(** ** The probability a Monte-Carlo simulation samples *)

Lemma pickStart_range (p : list Q) :
  forall i prnd ptot,
    pickStart p i prnd ptot = (-1)%Z \/
    (i <= pickStart p i prnd ptot < i + Z.of_nat (List.length p))%Z.
Proof.
  induction p as [|pi r IH]; intros i prnd ptot; cbn [pickStart];
    [left; reflexivity|].
  destruct (Qlt_bool prnd (ptot + pi)).
  - right. cbn [List.length]. lia.
  - destruct (IH (i + 1)%Z prnd (ptot + pi)) as [H|H]; [left; exact H|].
    right. cbn [List.length]. lia.
Qed.

Lemma pickNext_range (entries : list (Z * Q)) (state : Z) (kout prnd : Q) :
  forall ptot,
    pickNext entries state kout prnd ptot = state \/
    In (pickNext entries state kout prnd ptot) (map fst entries).
Proof.
  induction entries as [|[row value] r IH]; intros ptot; cbn [pickNext];
    [left; reflexivity|].
  destruct (row =? state)%Z.
  - destruct (IH ptot) as [H|H]; [left; exact H|right; right; exact H].
  - destruct (Qle_bool prnd (ptot + value / kout)).
    + right. left. reflexivity.
    + destruct (IH (ptot + value / kout)) as [H|H];
        [left; exact H|right; right; exact H].
Qed.

Lemma sparseColumn_rows (m : Matrix) (j row : Z) :
  In row (map fst (sparseColumn m j)) ->
  (0 <= row < Z.of_nat (List.length m))%Z.
Proof.
  intros H. apply in_map_iff in H. destruct H as ([row' v] & Hr & Hin).
  cbn [fst] in Hr. subst row'. unfold sparseColumn in Hin.
  apply filter_In in Hin. destruct Hin as [Hin _].
  apply in_map_iff in Hin. destruct Hin as ([i r] & Heq & Hin).
  injection Heq as <- _. cbn [fst].
  apply In_nth_error in Hin. destruct Hin as (k & Hk).
  assert (k < List.length (indexed m))%nat as Hlt
    by (apply nth_error_Some; congruence).
  rewrite indexed_length in Hlt.
  destruct (nth_error m k) as [b|] eqn:E;
    [|apply nth_error_None in E; lia].
  rewrite (indexed_nth_error m k b E) in Hk. injection Hk as <- _. lia.
Qed.

Lemma transpose_length (m : Matrix) :
  List.length (transpose m) = List.length (hd [] m).
Proof. unfold transpose. rewrite length_map. apply length_seq. Qed.

Section MonteCarloStates.
Variables (pool : list UniqueEpoch) (endTime : Q) (S : nat).

(** The inner loop stops in one of the epochs it was given. *)
Lemma crossEpochs_epochs (P : Epoch -> Prop) (rest : list Epoch) :
  forall epoch ecd state lifetime kout changed g epoch' rest',
    Forall P (epoch :: rest) ->
    x_epochIter (crossEpochs pool endTime ecd state epoch rest lifetime kout
                             changed g) = Some (epoch', rest') ->
    Forall P (epoch' :: rest').
Proof.
  induction rest as [|next rest IH];
    intros epoch ecd state lifetime kout changed g epoch' rest' HP Hx;
    cbn [crossEpochs] in Hx;
    destruct (Qlt_bool (e_start epoch + e_duration epoch) (ecd + lifetime)).
  - discriminate.
  - cbn in Hx. injection Hx as <- <-. exact HP.
  - destruct (drawLifetime endTime (rateOut pool next state) g) as [more g1].
    inversion HP as [|e0 r0 _ Hrest]; subst e0 r0.
    apply (IH _ _ _ _ _ _ _ _ _ Hrest Hx).
  - cbn in Hx. injection Hx as <- <-. exact HP.
Qed.

(** The states of a run stay inside the model, and a run that has time left
    adds an event. *)
Lemma chainLoop_states (fuel : nat) :
  forall state ecd epoch rest QT chain g chain' g',
    stateOK S state ->
    Forall (ratesFit pool S) (epoch :: rest) ->
    (List.length QT <= S)%nat ->
    statesOK S chain ->
    chainLoop pool endTime fuel state ecd epoch rest QT chain g
      = Some (chain', g') ->
    statesOK S chain' /\
    (List.length chain <= List.length chain')%nat /\
    (ecd < endTime -> (List.length chain < List.length chain')%nat).
Proof.
  induction fuel as [|fuel IH];
    intros state ecd epoch rest QT chain g chain' g' Hst Hfit HQT Hch Hrun;
    rewrite chainLoop_unfold in Hrun;
    destruct (Qlt_bool ecd endTime) eqn:E;
    try discriminate Hrun;
    try (apply Qlt_bool_false in E; injection Hrun as <- <-;
         split; [exact Hch|]; split; [lia|intros Hlt; lra]).
  cbv zeta in Hrun.
  destruct (drawLifetime endTime (rateOut pool epoch state) g)
    as [lifetime g1].
  set (x := crossEpochs pool endTime ecd state epoch rest lifetime
              (rateOut pool epoch state) false g1) in *.
  destruct (x_epochIter x) as [[epoch' rest']|] eqn:Ex.
  - pose proof (crossEpochs_epochs (ratesFit pool S) rest _ _ _ _ _ _ _ _ _
                  Hfit Ex) as Hfit'.
    set (QT' := if x_epochChanged x
                then transpose (u_transitionRates (uniqueOf pool epoch'))
                else QT) in *.
    assert (List.length QT' <= S)%nat as HQT'.
    { subst QT'. destruct (x_epochChanged x); [|exact HQT].
      rewrite transpose_length. inversion Hfit'; assumption. }
    assert (statesOK S (chain ++ [mkEvent state (x_lifetime x)])) as Hch'.
    { apply Forall_app. split; [exact Hch|]. constructor; [exact Hst|constructor]. }
    assert (List.length (chain ++ [mkEvent state (x_lifetime x)])
            = Datatypes.S (List.length chain)) as Hlen
      by (rewrite length_app; simpl; lia).
    destruct (Qlt_bool (ecd + x_lifetime x) endTime).
    + destruct (draw (x_generator x)) as [prnd g2].
      set (state' := pickNext (sparseColumn QT' state) state (x_kout x) prnd 0)
        in *.
      assert (stateOK S state') as Hst'.
      { destruct (pickNext_range (sparseColumn QT' state) state (x_kout x)
                    prnd 0) as [H|H]; fold state' in H.
        - rewrite H. exact Hst.
        - apply sparseColumn_rows in H. unfold stateOK. lia. }
      destruct (IH _ _ _ _ _ _ _ _ _ Hst' Hfit' HQT' Hch' Hrun)
        as (R1 & R2 & _).
      split; [exact R1|]. split; [lia|intros _; lia].
    + destruct (IH _ _ _ _ _ _ _ _ _ Hst Hfit' HQT' Hch' Hrun)
        as (R1 & R2 & _).
      split; [exact R1|]. split; [lia|intros _; lia].
  - injection Hrun as <- <-. rewrite length_app. cbn [List.length].
    split; [|split; [lia|intros _; lia]].
    apply Forall_app. split; [exact Hch|]. constructor; [exact Hst|constructor].
Qed.
End MonteCarloStates.

Lemma monteCarloRun_states (pool : list UniqueEpoch) (endTime : Q) (S fuel : nat)
    (epochs : list Epoch) (p0 : list Q) (g g' : Generator)
    (chain : MonteCarloEventChain) :
  0 < endTime -> (0 < List.length p0 <= S)%nat ->
  Forall (ratesFit pool S) epochs ->
  monteCarloRun pool endTime fuel epochs p0 g = Some (chain, g') ->
  statesOK S chain /\ chain <> [].
Proof.
  intros Hend Hp Hfit Hrun. unfold monteCarloRun in Hrun.
  destruct (draw g) as [prnd g1].
  destruct epochs as [|epoch rest]; [discriminate|].
  set (start := pickStart p0 0 prnd 0) in *.
  set (state := if (start =? -1)%Z then (Z.of_nat (List.length p0) - 1)%Z
                else start) in *.
  assert (stateOK S state) as Hst.
  { subst state. unfold stateOK.
    destruct (pickStart_range p0 0 prnd 0) as [H|H]; fold start in H.
    - rewrite H. cbn [Z.eqb Pos.eqb]. lia.
    - destruct (Z.eqb_spec start (-1)); lia. }
  destruct (chainLoop_states pool endTime S fuel state 0 epoch rest
              (transpose (u_transitionRates (uniqueOf pool epoch))) [] g1
              chain g' Hst Hfit) as (R1 & _ & R3).
  - rewrite transpose_length. inversion Hfit; assumption.
  - constructor.
  - exact Hrun.
  - split; [exact R1|]. specialize (R3 Hend). destruct chain; [simpl in R3; lia|discriminate].
Qed.

Lemma monteCarloRuns_chainOK (pool : list UniqueEpoch) (endTime : Q)
    (S fuel : nat) (epochs : list Epoch) (p0 : list Q) (numRuns : nat) :
  0 < endTime -> (0 < List.length p0 <= S)%nat ->
  Forall (ratesFit pool S) epochs ->
  endsBetween 0 epochs endTime ->
  forall g g' chains,
    drawsNonnegative g ->
    monteCarloRuns pool endTime fuel epochs p0 numRuns g = Some (chains, g') ->
    List.length chains = numRuns /\ Forall (chainOK endTime S) chains.
Proof.
  intros Hend Hp Hfit Hends.
  induction numRuns as [|numRuns IH]; intros g g' chains Hg Hrun;
    simpl in Hrun.
  - injection Hrun as <- <-. split; [reflexivity|constructor].
  - destruct (monteCarloRun pool endTime fuel epochs p0 g)
      as [[chain g1]|] eqn:E1; [|discriminate].
    destruct (monteCarloRuns pool endTime fuel epochs p0 numRuns g1)
      as [[chains1 g2]|] eqn:E2; [|discriminate].
    injection Hrun as <- <-.
    destruct (monteCarloRun_spec _ _ _ _ _ _ _ _ Hg Hends E1) as (R1 & R2 & R3).
    destruct (monteCarloRun_states _ _ _ _ _ _ _ _ _ Hend Hp Hfit E1)
      as [T1 T2].
    destruct (IH g1 g2 chains1 ltac:(intros n; rewrite R3; apply Hg) E2)
      as [L1 L2].
    split; [simpl; lia|]. constructor; [|exact L2].
    split; [exact T2|]. split; [|exact R1].
    unfold eventsOK. unfold statesOK, stateOK in T1.
    unfold durationsNonnegative in R2.
    rewrite Forall_forall in *. intros ev Hev. split; [apply R2|apply T1]; exact Hev.
Qed.

(** The sampled probability of well-formed chains is a distribution at each
    sample time. *)
Lemma getProbabilityFromEventChains_stochastic (time : list Q) (endTime : Q)
    (numStates : nat) (eventChains : list MonteCarloEventChain) :
  time <> [] -> nth 0 time 0 == 0 ->
  (forall i j, (i <= j)%nat -> (j < List.length time)%nat ->
               nth i time 0 <= nth j time 0) ->
  (forall i, (i < List.length time)%nat -> nth i time 0 <= endTime) ->
  eventChains <> [] ->
  Forall (chainOK endTime numStates) eventChains ->
  let P := getProbabilityFromEventChains time endTime numStates eventChains in
  hasShape (List.length time) numStates P /\
  (forall t, (t < List.length time)%nat ->
     sumQ (nth t P []) == 1 /\
     (forall s, (s < numStates)%nat -> 0 <= coeff P t s /\ coeff P t s <= 1)).
Proof.
  intros Hne H0 Hmono Hend Hchains HF P.
  destruct (sampleChains_rows time endTime numStates Hmono Hend Hne H0
              eventChains (zeroMatrix (List.length time) numStates)
              (zeroMatrix_shape _ _) (zeroMatrix_nonnegative _ _) HF)
    as ([Hlen Hrows] & Hnn & Htot).
  set (M := inject_Z (Z.of_nat (List.length eventChains))) in *.
  assert (0 < M) as HM.
  { unfold M. replace 0 with (inject_Z 0) by reflexivity.
    rewrite <- Zlt_Qlt. destruct eventChains; [congruence|simpl; lia]. }
  set (P0 := fold_left (sampleChain time endTime) eventChains
               (zeroMatrix (List.length time) numStates)) in *.
  assert (forall t, nth t P [] = map (fun v => v / M) (nth t P0 [])) as Hrow.
  { intros t. unfold P, getProbabilityFromEventChains. fold P0. fold M.
    change (@nil Q) with (map (fun v => v / M) []) at 1. apply map_nth. }
  split.
  - split.
    + unfold P, getProbabilityFromEventChains. rewrite length_map. exact Hlen.
    + unfold P, getProbabilityFromEventChains. fold P0.
      apply Forall_forall. intros row Hrow'. apply in_map_iff in Hrow'.
      destruct Hrow' as (row0 & <- & Hin). rewrite length_map.
      rewrite Forall_forall in Hrows. apply Hrows. exact Hin.
  - intros t Ht.
    assert (sumQ (nth t P0 []) == M) as Hsum.
    { pose proof (Htot t Ht) as H.
      pose proof (zeroMatrix_rowTotal (List.length time) numStates t) as Hz.
      unfold rowTotal in H, Hz. rewrite H, Hz. ring. }
    assert (Forall (fun v => 0 <= v) (nth t P0 [])) as Hpos.
    { unfold nonnegative in Hnn. rewrite Forall_forall in Hnn.
      apply Hnn. apply nth_In. lia. }
    split.
    + rewrite Hrow, sumQ_map_div, Hsum. field. lra.
    + intros s Hs. unfold coeff. rewrite Hrow.
      assert (List.length (nth t P0 []) = numStates) as Hcols.
      { rewrite Forall_forall in Hrows. apply Hrows. apply nth_In. lia. }
      rewrite nth_indep with (d' := (fun v => v / M) 0)
        by (rewrite length_map; lia).
      rewrite (map_nth (fun v => v / M)).
      destruct (entry_le_sum _ Hpos s) as [Hlo Hhi].
      split.
      * apply Qle_shift_div_l; lra.
      * apply Qle_shift_div_r; lra.
Qed.

(** X15.  A Monte-Carlo simulation that samples its runs stores a
    distribution at every sample time.  For a simulation that starts at time
    zero and ends later (sample times from [0], not decreasing, none after
    [endTime]; epochs that end in order between [0] and [endTime]), a model
    of [numStates >= 1] states whose rate matrices have no more than
    [numStates] columns, non-negative draws and at least one run, not
    accumulated: whenever [monteCarloSimulation] returns, the matrix stored
    for the variable set has one row per sample and one column per state,
    every entry in [[0, 1]] and every row of sum [1]. *)
Theorem monteCarloSimulation_probability (equilibrium : Matrix -> list Q)
    (pool : list UniqueEpoch) (fuel : nat) (sim sim' : Simulation)
    (startingProbability : list Q) (g g' : Generator) (numRuns : nat)
    (startEquilibrated : bool) (variableSetIndex : nat) :
  let time := s_time sim in
  let numStates := List.length startingProbability in
  s_epochs sim <> [] ->
  endsBetween 0 (s_epochs sim) (s_endTime sim) ->
  0 < s_endTime sim ->
  time <> [] -> nth 0 time 0 == 0 ->
  (forall i j, (i <= j)%nat -> (j < List.length time)%nat ->
               nth i time 0 <= nth j time 0) ->
  (forall i, (i < List.length time)%nat -> nth i time 0 <= s_endTime sim) ->
  (0 < numStates)%nat -> (0 < numRuns)%nat ->
  Forall (ratesFit pool numStates) (s_epochs sim) ->
  (startEquilibrated = true ->
   List.length
     (equilibrium
        (u_transitionRates (uniqueOf pool (hd nullEpoch (s_epochs sim)))))
   = numStates) ->
  drawsNonnegative g ->
  monteCarloSimulation equilibrium pool fuel sim startingProbability g numRuns
    false true startEquilibrated variableSetIndex
  = Some (sim', g') ->
  let P := nth variableSetIndex (s_probability sim') [] in
  hasShape (List.length time) numStates P /\
  (forall t, (t < List.length time)%nat ->
     sumQ (nth t P []) == 1 /\
     (forall s, (s < numStates)%nat -> 0 <= coeff P t s /\ coeff P t s <= 1)).
Proof.
  intros time numStates Hep Hends Hend Hne H0 Hmono Hle HS Hruns Hfit Heq Hg
         Hrun.
  unfold monteCarloSimulation in Hrun.
  set (p := if startEquilibrated
            then equilibrium
                   (u_transitionRates
                      (uniqueOf pool (hd nullEpoch (s_epochs sim))))
            else startingProbability) in *.
  assert (0 < List.length p <= numStates)%nat as Hp.
  { subst p. destruct startEquilibrated; [rewrite Heq by reflexivity|];
      fold numStates; lia. }
  destruct (monteCarloRuns pool (s_endTime sim) fuel (s_epochs sim) p numRuns g)
    as [[chains g1]|] eqn:E; [|discriminate].
  destruct (monteCarloRuns_chainOK pool (s_endTime sim) numStates fuel
              (s_epochs sim) p numRuns Hend Hp Hfit Hends g g1 chains Hg E)
    as [Hlen Hok].
  injection Hrun as <- <-. cbv zeta. cbn [s_probability set_probability app].
  rewrite replaceNth_nth by apply padTo_length.
  cbn [s_time s_endTime set_events]. fold time.
  apply getProbabilityFromEventChains_stochastic; try assumption.
  destruct chains; [simpl in Hlen; lia|discriminate].
Qed.

Lemma sim_from_zero_ratesFit :
  Forall (ratesFit two_state_pool 2) (s_epochs sim_from_zero).
Proof. repeat constructor. Qed.

Lemma monteCarloSimulation_probability_witness :
  match monteCarloSimulation (fun _ => []) two_state_pool 20 sim_from_zero
          [1; 0] constantGenerator 2 false true false 0 with
  | Some (sim', _) =>
      let P := nth 0 (s_probability sim') [] in
      hasShape 3 2 P /\
      (forall t, (t < 3)%nat ->
         sumQ (nth t P []) == 1 /\
         (forall s, (s < 2)%nat -> 0 <= coeff P t s /\ coeff P t s <= 1))
  | None => False
  end.
Proof.
  destruct (monteCarloSimulation (fun _ => []) two_state_pool 20 sim_from_zero
              [1; 0] constantGenerator 2 false true false 0)
    as [[sim' g']|] eqn:E.
  - apply (monteCarloSimulation_probability (fun _ => []) two_state_pool 20
             sim_from_zero sim' [1; 0] constantGenerator g' 2 false 0).
    + discriminate.
    + vm_compute. repeat split; discriminate.
    + reflexivity.
    + discriminate.
    + reflexivity.
    + intros i j Hij Hj. simpl in Hj.
      destruct j as [|[|[|j]]]; try lia;
        destruct i as [|[|[|i]]]; try lia; simpl; lra.
    + intros i Hi. simpl in Hi.
      destruct i as [|[|[|i]]]; try lia; simpl; lra.
    + simpl. lia.
    + lia.
    + exact sim_from_zero_ratesFit.
    + discriminate.
    + intros n. simpl. lra.
    + exact E.
  - vm_compute in E. discriminate E.
Defined.

(** ** The spectral simulation conserves probability *)

Lemma sumQ_map_plus {A : Type} (f g : A -> Q) (l : list A) :
  sumQ (map (fun a => f a + g a) l) == sumQ (map f l) + sumQ (map g l).
Proof. induction l as [|a l IH]; simpl; [ring|]. rewrite IH. ring. Qed.

Lemma sumQ_map_scale {A : Type} (c : Q) (f : A -> Q) (l : list A) :
  sumQ (map (fun a => c * f a) l) == c * sumQ (map f l).
Proof. induction l as [|a l IH]; simpl; [ring|]. rewrite IH. ring. Qed.

Lemma sumQ_map_const_zero {A : Type} (f : A -> Q) (l : list A) :
  (forall a, In a l -> f a == 0) -> sumQ (map f l) == 0.
Proof.
  intros H. rewrite (sumQ_map_ext f (fun _ => 0)) by exact H.
  induction l as [|a l IH]; simpl; [reflexivity|]. rewrite IH; [ring|].
  intros b Hb. apply H. right. exact Hb.
Qed.

Lemma sumQ_swap {A B : Type} (f : A -> B -> Q) (la : list A) (lb : list B) :
  sumQ (map (fun a => sumQ (map (fun b => f a b) lb)) la)
  == sumQ (map (fun b => sumQ (map (fun a => f a b) la)) lb).
Proof.
  induction la as [|a la IH]; simpl.
  - symmetry. apply sumQ_map_const_zero. intros b _. reflexivity.
  - rewrite IH. symmetry. apply sumQ_map_plus.
Qed.

Lemma sumQ_nth_seq (l : list Q) :
  sumQ (map (fun i => nth i l 0) (seq 0 (List.length l))) == sumQ l.
Proof.
  induction l as [|a l IH]; simpl; [reflexivity|].
  rewrite <- seq_shift, map_map. simpl. rewrite IH. reflexivity.
Qed.

Lemma sumQ_addScaled_from (c : Q) (v : list Q) (row : list Q) :
  forall s,
    sumQ (map (fun jr : nat * Q => snd jr + c * nth (fst jr) v 0)
              (combine (seq s (List.length row)) row))
    == sumQ row
       + c * sumQ (map (fun j => nth j v 0) (seq s (List.length row))).
Proof.
  induction row as [|a row IH]; intros s; simpl; [ring|].
  rewrite IH. ring.
Qed.

Lemma sumQ_addScaled (row : list Q) (c : Q) (v : list Q) :
  List.length v = List.length row ->
  sumQ (addScaled row c v) == sumQ row + c * sumQ v.
Proof.
  intros Hlen. unfold addScaled, indexed. rewrite sumQ_addScaled_from.
  rewrite <- Hlen, sumQ_nth_seq. reflexivity.
Qed.

Lemma sumQ_rowTimes (S : nat) (p : list Q) (A : Matrix) (v : Q) :
  List.length p = S -> rowsSumTo S A v ->
  sumQ (rowTimes S p A) == v * sumQ p.
Proof.
  intros Hlen HA. unfold rowTimes.
  rewrite (sumQ_swap (fun j i => nth i p 0 * coeff A i j)).
  rewrite (sumQ_map_ext _ (fun i => v * nth i p 0)).
  - rewrite sumQ_map_scale. rewrite <- Hlen, sumQ_nth_seq. reflexivity.
  - intros i Hi. apply in_seq in Hi.
    rewrite sumQ_map_scale. rewrite (HA i ltac:(lia)). ring.
Qed.

Lemma nth_updateBlock (firstPt numPts : nat) (f : nat -> list Q -> list Q)
    (P : Matrix) (r : nat) :
  (r < List.length P)%nat ->
  nth r (updateBlock firstPt numPts f P) []
  = if ((firstPt <=? r) && (r <? firstPt + numPts))%nat
    then f (r - firstPt)%nat (nth r P []) else nth r P [].
Proof.
  intros Hr. unfold updateBlock.
  destruct (nth_error P r) as [row|] eqn:E;
    [|apply nth_error_None in E; lia].
  rewrite (nth_error_nth _ _ [] E).
  apply nth_error_nth. rewrite nth_error_map, (indexed_nth_error P r row E).
  reflexivity.
Qed.

Lemma updateBlock_length (firstPt numPts : nat) (f : nat -> list Q -> list Q)
    (P : Matrix) :
  List.length (updateBlock firstPt numPts f P) = List.length P.
Proof. unfold updateBlock. rewrite length_map. apply indexed_length. Qed.

Lemma hasShape_row (rows cols : nat) (P : Matrix) (r : nat) :
  hasShape rows cols P -> (r < rows)%nat -> List.length (nth r P []) = cols.
Proof.
  intros [Hlen Hrows] Hr. rewrite Forall_forall in Hrows. apply Hrows.
  apply nth_In. lia.
Qed.

Section Conservation.
Variable exp : Q -> Q.
Hypothesis exp_compat : forall x y, x == y -> exp x == exp y.
Hypothesis exp_zero : exp 0 == 1.
Variable pool : list UniqueEpoch.
Variable time : list Q.
Variable S : nat.
Variable numEpochs : nat.
Variable startEquilibrated : bool.
Variable c : Q.

Local Notation N := (List.length time).

(** The weighted sum over the spectral components collapses to the first
    component, whose weight is one. *)
Lemma spectralSum_collapse (u : UniqueEpoch) (p : list Q) (w : nat -> Q) :
  conservative S u -> List.length p = S -> sumQ p == c ->
  w 0%nat == 1 ->
  sumQ (map (fun i => w i * sumQ (rowTimes S p (nth i (u_spectralMatrices u) [])))
            (seq 0 S))
  == c.
Proof.
  intros (_ & H0 & Hk) Hlen Hsum Hw.
  destruct S as [|S'] eqn:ES.
  - destruct p; [|discriminate]. simpl in *. exact Hsum.
  - cbn [seq map sumQ fold_right].
    rewrite (sumQ_rowTimes _ _ _ 1 Hlen H0), Hw.
    fold (sumQ (map (fun i : nat =>
                       w i * sumQ (rowTimes (Datatypes.S S') p
                                            (nth i (u_spectralMatrices u) [])))
                    (seq 1 S'))).
    rewrite sumQ_map_const_zero.
    + rewrite Hsum. ring.
    + intros i Hi. apply in_seq in Hi.
      rewrite (sumQ_rowTimes _ _ _ 0 Hlen (Hk i ltac:(lia))). ring.
Qed.

Lemma exp_at_zero_eigenvalue (u : UniqueEpoch) (x : Q) :
  conservative S u ->
  exp (x * nth 0 (u_spectralEigenValues u) 0) == 1 /\
  exp (nth 0 (u_spectralEigenValues u) 0 * x) == 1.
Proof.
  intros (Hl & _). split; rewrite <- exp_zero; apply exp_compat;
    rewrite Hl; ring.
Qed.

(** The rows of the block of an epoch after the components in [l] have been
    added. *)
Lemma addSpectralComponents_rows (epoch : Epoch) (p : list Q) (l : list nat) :
  List.length p = S ->
  forall P,
    hasShape N S P ->
    let P' := fold_left (addSpectralComponent exp pool time S epoch p) l P in
    let u := uniqueOf pool epoch in
    let firstPt := Z.to_nat (e_firstPt epoch) in
    hasShape N S P' /\
    forall r, (r < N)%nat ->
      rowTotal P' r
      == rowTotal P r
         + if ((firstPt <=? r)
               && (r <? firstPt + Z.to_nat (e_numPts epoch)))%nat
           then sumQ (map (fun i =>
                             exp ((nth r time 0 - e_start epoch)
                                  * nth i (u_spectralEigenValues u) 0)
                             * sumQ (rowTimes S p
                                       (nth i (u_spectralMatrices u) [])))
                          l)
           else 0.
Proof.
  intros Hlen. induction l as [|i l IH]; intros P HP P' u firstPt.
  - subst P'. cbn [fold_left]. split; [exact HP|]. intros r Hr.
    destruct (_ && _); cbn [map]; unfold sumQ; cbn [fold_right]; ring.
  - subst P'. cbn [fold_left].
    set (P1 := addSpectralComponent exp pool time S epoch p P i).
    assert (hasShape N S P1) as HP1.
    { unfold P1, addSpectralComponent. apply updateBlock_shape; [|exact HP].
      intros k row Hrow. rewrite addScaled_length. exact Hrow. }
    destruct (IH P1 HP1) as [Hshape Hrows]. cbv zeta in Hrows.
    split; [exact Hshape|]. intros r Hr. rewrite (Hrows r Hr).
    fold u. fold firstPt.
    assert (rowTotal P1 r
            == rowTotal P r
               + if ((firstPt <=? r)
                     && (r <? firstPt + Z.to_nat (e_numPts epoch)))%nat
                 then exp ((nth r time 0 - e_start epoch)
                           * nth i (u_spectralEigenValues u) 0)
                      * sumQ (rowTimes S p (nth i (u_spectralMatrices u) []))
                 else 0) as H1.
    { unfold rowTotal, P1, addSpectralComponent. fold u. fold firstPt.
      rewrite nth_updateBlock by (destruct HP as [HPl _]; lia).
      destruct ((firstPt <=? r)
                && (r <? firstPt + Z.to_nat (e_numPts epoch)))%nat eqn:E;
        [|ring].
      apply andb_prop in E. destruct E as [E1 _]. apply Nat.leb_le in E1.
      rewrite sumQ_addScaled
        by (rewrite rowTimes_length; symmetry;
            apply (hasShape_row N S P r HP Hr)).
      replace (firstPt + (r - firstPt))%nat with r by lia. reflexivity. }
    rewrite H1.
    destruct ((firstPt <=? r)
              && (r <? firstPt + Z.to_nat (e_numPts epoch)))%nat;
      cbn [map]; unfold sumQ; cbn [fold_right]; ring.
Qed.

(** The starting probability of the next epoch after the components in [l]
    have been added. *)
Lemma addPropagated_sum (epoch : Epoch) (p : list Q) (l : list nat) :
  forall temp,
    List.length temp = S ->
    let temp' := fold_left (addPropagated exp pool S epoch p) l temp in
    let u := uniqueOf pool epoch in
    List.length temp' = S /\
    sumQ temp'
    == sumQ temp
       + sumQ (map (fun i =>
                      exp (nth i (u_spectralEigenValues u) 0 * e_duration epoch)
                      * sumQ (rowTimes S p (nth i (u_spectralMatrices u) [])))
                   l).
Proof.
  induction l as [|i l IH]; intros temp Hlen temp' u.
  - subst temp'. cbn [fold_left map]. split; [exact Hlen|].
    unfold sumQ. cbn [fold_right]. ring.
  - subst temp'. cbn [fold_left].
    set (t1 := addPropagated exp pool S epoch p temp i).
    assert (List.length t1 = S) as H1
      by (unfold t1, addPropagated; rewrite addScaled_length; exact Hlen).
    destruct (IH t1 H1) as [Hl Hs]. cbv zeta in Hs.
    split; [exact Hl|]. rewrite Hs. fold u.
    unfold t1, addPropagated. fold u.
    rewrite sumQ_addScaled by (rewrite rowTimes_length; symmetry; exact Hlen).
    cbn [map]. unfold sumQ. cbn [fold_right]. ring.
Qed.

Local Notation conserved := (conserved time S c).

Lemma spectralEpoch_conserved (b : nat) (st : Matrix * list Q * nat)
    (epoch : Epoch) :
  conservative S (uniqueOf pool epoch) ->
  e_firstPt epoch = Z.of_nat b -> (0 <= e_numPts epoch)%Z ->
  conserved b st ->
  conserved (b + Z.to_nat (e_numPts epoch))
    (spectralEpoch exp pool time S numEpochs startEquilibrated st epoch).
Proof.
  intros Hcons Hfirst Hnum.
  destruct st as [[P p] counter]. unfold conserved. cbn [fst snd].
  intros (HP & Hlen & Hsum & Hbefore & Hafter).
  unfold spectralEpoch.
  assert (Z.to_nat (e_firstPt epoch) = b) as Hb by lia.
  destruct ((counter =? 0)%nat && startEquilibrated).
  - set (p' := rowTimes S p
                 (nth 0 (u_spectralMatrices (uniqueOf pool epoch)) [])).
    assert (List.length p' = S) as Hlen' by apply rowTimes_length.
    assert (sumQ p' == c) as Hsum'.
    { unfold p'. destruct Hcons as (_ & H0 & _).
      rewrite (sumQ_rowTimes _ _ _ 1 Hlen H0), Hsum. ring. }
    cbn [fst snd].
    destruct (Z.ltb_spec 0 (e_numPts epoch)) as [Hpos|Hpos].
    + rewrite Hb.
      split; [apply updateBlock_shape; [intros; exact Hlen'|exact HP]|].
      split; [exact Hlen'|]. split; [exact Hsum'|].
      destruct HP as [HPl _]. split.
      * intros r Hr HrN. unfold rowTotal.
        rewrite nth_updateBlock by lia.
        destruct (Nat.leb_spec b r); destruct (Nat.ltb_spec r (b + Z.to_nat (e_numPts epoch)));
          cbn [andb]; try lia; try exact Hsum'.
        apply Hbefore; lia.
      * intros r Hr HrN. unfold rowTotal.
        rewrite nth_updateBlock by lia.
        destruct (Nat.leb_spec b r); destruct (Nat.ltb_spec r (b + Z.to_nat (e_numPts epoch)));
          cbn [andb]; try lia.
        apply Hafter; lia.
    + replace (Z.to_nat (e_numPts epoch)) with 0%nat by lia.
      rewrite Nat.add_0_r.
      split; [exact HP|]. split; [exact Hlen'|]. split; [exact Hsum'|].
      split; assumption.
  - cbn [fst snd].
    assert (List.length
              (if (counter + 1 <? numEpochs)%nat
               then fold_left (addPropagated exp pool S epoch p) (seq 0 S)
                              (repeat 0 S)
               else p) = S /\
            sumQ (if (counter + 1 <? numEpochs)%nat
                  then fold_left (addPropagated exp pool S epoch p) (seq 0 S)
                                 (repeat 0 S)
                  else p) == c) as [Hlen' Hsum'].
    { destruct (counter + 1 <? numEpochs)%nat; [|split; assumption].
      destruct (addPropagated_sum epoch p (seq 0 S) (repeat 0 S)
                  (repeat_length _ _)) as [Hl Hs]. cbv zeta in Hs.
      split; [exact Hl|]. rewrite Hs, sumQ_repeat_zero.
      rewrite (spectralSum_collapse (uniqueOf pool epoch) p
                 (fun i => exp (nth i (u_spectralEigenValues
                                         (uniqueOf pool epoch)) 0
                                * e_duration epoch)) Hcons Hlen Hsum).
      - ring.
      - apply exp_at_zero_eigenvalue. exact Hcons. }
    destruct (Z.ltb_spec 0 (e_numPts epoch)) as [Hpos|Hpos].
    + destruct (addSpectralComponents_rows epoch p (seq 0 S) Hlen P HP)
        as [Hshape Hrows]. cbv zeta in Hrows. rewrite Hb in Hrows.
      split; [exact Hshape|]. split; [exact Hlen'|]. split; [exact Hsum'|].
      split.
      * intros r Hr HrN. rewrite (Hrows r HrN).
        destruct (Nat.leb_spec b r); destruct (Nat.ltb_spec r (b + Z.to_nat (e_numPts epoch)));
          cbn [andb]; try lia.
        -- rewrite (Hafter r ltac:(lia) HrN).
           rewrite (spectralSum_collapse (uniqueOf pool epoch) p
                      (fun i => exp ((nth r time 0 - e_start epoch)
                                     * nth i (u_spectralEigenValues
                                                (uniqueOf pool epoch)) 0))
                      Hcons Hlen Hsum).
           ++ ring.
           ++ apply exp_at_zero_eigenvalue. exact Hcons.
        -- rewrite (Hbefore r ltac:(lia) HrN). ring.
      * intros r Hr HrN. rewrite (Hrows r HrN).
        destruct (Nat.leb_spec b r); destruct (Nat.ltb_spec r (b + Z.to_nat (e_numPts epoch)));
          cbn [andb]; try lia.
        rewrite (Hafter r ltac:(lia) HrN). ring.
    + replace (Z.to_nat (e_numPts epoch)) with 0%nat by lia.
      rewrite Nat.add_0_r.
      split; [exact HP|]. split; [exact Hlen'|]. split; [exact Hsum'|].
      split; assumption.
Qed.

Lemma spectralLoop_conserved (epochs : list Epoch) :
  forall b t t' st,
    Forall (fun e => conservative S (uniqueOf pool e)) epochs ->
    Forall (fun e => (0 <= e_numPts e)%Z) epochs ->
    chained (Z.of_nat b) t epochs (Z.of_nat N) t' ->
    conserved b st ->
    conserved N
      (fold_left (spectralEpoch exp pool time S numEpochs startEquilibrated)
                 epochs st).
Proof.
  induction epochs as [|e epochs IH]; intros b t t' st Hcons Hnum Hch Hst.
  - cbn [fold_left]. destruct Hch as [Hb _].
    replace N with b by lia. exact Hst.
  - cbn [fold_left].
    inversion Hcons as [|e0 r0 Hc Hcr]; subst e0 r0.
    inversion Hnum as [|e0 r0 Hn Hnr]; subst e0 r0.
    destruct Hch as (Hfirst & _ & Hrest).
    apply (IH (b + Z.to_nat (e_numPts e))%nat (t + e_duration e) t').
    + exact Hcr.
    + exact Hnr.
    + replace (Z.of_nat (b + Z.to_nat (e_numPts e)))
        with (Z.of_nat b + e_numPts e)%Z by lia.
      exact Hrest.
    + apply spectralEpoch_conserved; assumption.
Qed.
End Conservation.

(** X16.  The spectral simulation conserves probability.  When the epochs
    tile the samples ([chained], as [findEpochsDiscretizedToSamplePoints]
    leaves them), [exp] is a function of the value of its argument with
    [exp 0 = 1], and the spectral expansion of every epoch is that of a
    conservative model (first eigenvalue zero, rows of the first spectral
    matrix of sum one, rows of the others of sum zero), every row of the
    matrix [spectralSimulation] stores has the total of the starting
    probability, whether or not the simulation starts equilibrated. *)
Theorem spectralSimulation_conserves (exp : Q -> Q) (pool : list UniqueEpoch)
    (sim : Simulation) (startingProbability : list Q)
    (startEquilibrated : bool) (variableSetIndex : nat) (t0 t1 : Q) :
  (forall x y, x == y -> exp x == exp y) -> exp 0 == 1 ->
  chained 0 t0 (s_epochs sim) (Z.of_nat (List.length (s_time sim))) t1 ->
  Forall (fun e => (0 <= e_numPts e)%Z) (s_epochs sim) ->
  Forall (fun e => conservative (List.length startingProbability)
                                (uniqueOf pool e)) (s_epochs sim) ->
  let P := nth variableSetIndex
             (s_probability
                (spectralSimulation exp pool sim startingProbability
                   startEquilibrated variableSetIndex false)) [] in
  hasShape (List.length (s_time sim)) (List.length startingProbability) P /\
  forall t, (t < List.length (s_time sim))%nat ->
            rowTotal P t == sumQ startingProbability.
Proof.
  intros Hcompat Hzero Hch Hnum Hcons P. subst P.
  unfold spectralSimulation. cbn [s_probability set_probability].
  rewrite replaceNth_nth by apply padTo_length.
  set (N := List.length (s_time sim)).
  set (S := List.length startingProbability).
  assert (conserved (s_time sim) S (sumQ startingProbability) 0
            (zeroMatrix N S, startingProbability, 0%nat)) as H0.
  { unfold conserved. cbn [fst snd].
    split; [apply zeroMatrix_shape|]. split; [reflexivity|].
    split; [reflexivity|]. split; [intros r Hr; lia|].
    intros r _ _. apply zeroMatrix_rowTotal. }
  destruct (spectralLoop_conserved exp Hcompat Hzero pool (s_time sim) S
              (List.length (s_epochs sim)) startEquilibrated
              (sumQ startingProbability) (s_epochs sim) 0%nat t0 t1 _
              Hcons Hnum Hch H0) as (Hshape & _ & _ & Hrows & _).
  split; [exact Hshape|]. intros t Ht. apply Hrows; exact Ht.
Qed.

Lemma two_state_spectral_conservative :
  Forall (fun e => conservative 2 (uniqueOf [two_state_spectral] e))
         (s_epochs sim_one_epoch).
Proof.
  constructor; [|constructor]. split; [reflexivity|]. split.
  - intros i Hi. destruct i as [|[|i]]; [reflexivity|reflexivity|lia].
  - intros k Hk. replace k with 1%nat by lia.
    intros i Hi. destruct i as [|[|i]]; [reflexivity|reflexivity|lia].
Qed.

Lemma spectralSimulation_conserves_witness :
  let P := nth 0
             (s_probability
                (spectralSimulation (fun _ => 1) [two_state_spectral]
                   sim_one_epoch [1; 0] false 0 false)) [] in
  hasShape 3 2 P /\
  forall t, (t < 3)%nat -> rowTotal P t == sumQ [1; 0].
Proof.
  apply (spectralSimulation_conserves (fun _ => 1) [two_state_spectral]
           sim_one_epoch [1; 0] false 0 0 (0 + 3)).
  - intros x y _. reflexivity.
  - reflexivity.
  - cbn. repeat split; reflexivity.
  - repeat constructor. discriminate.
  - exact two_state_spectral_conservative.
Defined.

(** *** The first sample holds the starting probability *)

Lemma nth_addScaled (row : list Q) (c : Q) (v : list Q) (j : nat) :
  (j < List.length row)%nat ->
  nth j (addScaled row c v) 0 = nth j row 0 + c * nth j v 0.
Proof.
  intros Hj. unfold addScaled. rewrite nth_map_indexed by exact Hj.
  reflexivity.
Qed.

Lemma nth_rowTimes (S : nat) (p : list Q) (A : Matrix) (j : nat) :
  (j < S)%nat ->
  nth j (rowTimes S p A) 0
  = sumQ (map (fun m => nth m p 0 * coeff A m j) (seq 0 S)).
Proof. intros Hj. unfold rowTimes. apply nth_map_seq. exact Hj. Qed.

Lemma sumQ_delta (f : nat -> Q) (j : nat) (l : list nat) :
  NoDup l ->
  sumQ (map (fun m => f m * (if (m =? j)%nat then 1 else 0)) l)
  == if in_dec Nat.eq_dec j l then f j else 0.
Proof.
  induction 1 as [|a l Ha Hl IH]; [reflexivity|].
  cbn [map]. unfold sumQ in *. cbn [fold_right]. rewrite IH.
  destruct (Nat.eqb_spec a j) as [->|Hne].
  - destruct (in_dec Nat.eq_dec j l) as [Hin|_]; [contradiction|].
    destruct (in_dec Nat.eq_dec j (j :: l)) as [_|Hn];
      [ring|exfalso; apply Hn; left; reflexivity].
  - destruct (in_dec Nat.eq_dec j l) as [Hin|Hnin];
      destruct (in_dec Nat.eq_dec j (a :: l)) as [Hin'|Hnin']; try ring.
    + exfalso. apply Hnin'. right. exact Hin.
    + exfalso. destruct Hin' as [H|H]; [congruence|contradiction].
Qed.

(** The spectral components of a row vector add up to the vector. *)
Lemma rowTimes_resolution (S : nat) (u : UniqueEpoch) (p : list Q) (j : nat) :
  resolvesIdentity S u -> (j < S)%nat ->
  sumQ (map (fun i => nth j (rowTimes S p (nth i (u_spectralMatrices u) [])) 0)
            (seq 0 S))
  == nth j p 0.
Proof.
  intros Hres Hj.
  rewrite (sumQ_map_ext _
             (fun i => sumQ (map (fun m => nth m p 0
                                           * coeff (nth i (u_spectralMatrices u) [])
                                                   m j)
                                 (seq 0 S))))
    by (intros i _; rewrite nth_rowTimes by exact Hj; reflexivity).
  rewrite (sumQ_swap
             (fun i m => nth m p 0 * coeff (nth i (u_spectralMatrices u) []) m j)).
  rewrite (sumQ_map_ext _
             (fun m => nth m p 0 * (if (m =? j)%nat then 1 else 0))).
  - rewrite sumQ_delta by apply seq_NoDup.
    destruct (in_dec Nat.eq_dec j (seq 0 S)) as [_|Hn]; [reflexivity|].
    exfalso. apply Hn. apply in_seq. lia.
  - intros m Hm. apply in_seq in Hm.
    rewrite sumQ_map_scale. rewrite (Hres m j ltac:(lia) Hj). reflexivity.
Qed.

Section InitialCondition.
Variable exp : Q -> Q.
Hypothesis exp_compat : forall x y, x == y -> exp x == exp y.
Hypothesis exp_zero : exp 0 == 1.
Variable pool : list UniqueEpoch.
Variable time : list Q.
Variable S : nat.
Variable numEpochs : nat.
Variable startEquilibrated : bool.

Local Notation N := (List.length time).

(** The entries of a row of the block of an epoch after the components in
    [l] have been added. *)
Lemma addSpectralComponents_entries (epoch : Epoch) (p : list Q)
    (l : list nat) (r j : nat) :
  (r < N)%nat -> (j < S)%nat ->
  (Z.to_nat (e_firstPt epoch) <= r
   < Z.to_nat (e_firstPt epoch) + Z.to_nat (e_numPts epoch))%nat ->
  forall P,
    hasShape N S P ->
    let u := uniqueOf pool epoch in
    coeff (fold_left (addSpectralComponent exp pool time S epoch p) l P) r j
    == coeff P r j
       + sumQ (map (fun i =>
                      exp ((nth r time 0 - e_start epoch)
                           * nth i (u_spectralEigenValues u) 0)
                      * nth j (rowTimes S p (nth i (u_spectralMatrices u) [])) 0)
                   l).
Proof.
  intros Hr Hj Hin. induction l as [|i l IH]; intros P HP u.
  - cbn [fold_left map]. unfold sumQ. cbn [fold_right]. ring.
  - cbn [fold_left].
    set (P1 := addSpectralComponent exp pool time S epoch p P i).
    assert (hasShape N S P1) as HP1.
    { unfold P1, addSpectralComponent. apply updateBlock_shape; [|exact HP].
      intros k row Hrow. rewrite addScaled_length. exact Hrow. }
    rewrite (IH P1 HP1). fold u.
    assert (coeff P1 r j
            == coeff P r j
               + exp ((nth r time 0 - e_start epoch)
                      * nth i (u_spectralEigenValues u) 0)
                 * nth j (rowTimes S p (nth i (u_spectralMatrices u) [])) 0)
      as H1.
    { unfold coeff, P1, addSpectralComponent. fold u.
      rewrite nth_updateBlock by (destruct HP as [HPl _]; lia).
      destruct (Nat.leb_spec (Z.to_nat (e_firstPt epoch)) r); [|lia].
      destruct (Nat.ltb_spec r (Z.to_nat (e_firstPt epoch)
                                + Z.to_nat (e_numPts epoch))); [|lia].
      cbn [andb].
      rewrite nth_addScaled by (rewrite (hasShape_row N S P r HP Hr); exact Hj).
      replace (Z.to_nat (e_firstPt epoch) + (r - Z.to_nat (e_firstPt epoch)))%nat
        with r by lia.
      reflexivity. }
    rewrite H1. cbn [map]. unfold sumQ. cbn [fold_right]. ring.
Qed.

(** An epoch leaves the rows outside its block as they are. *)
Lemma spectralEpoch_outside (st : Matrix * list Q * nat) (epoch : Epoch)
    (r : nat) :
  hasShape N S (fst (fst st)) ->
  (r < Z.to_nat (e_firstPt epoch))%nat ->
  hasShape N S
    (fst (fst (spectralEpoch exp pool time S numEpochs startEquilibrated st
                             epoch))) /\
  nth r (fst (fst (spectralEpoch exp pool time S numEpochs startEquilibrated
                                 st epoch))) []
  = nth r (fst (fst st)) [].
Proof.
  intros HP Hr. split; [apply spectralEpoch_shape; exact HP|].
  destruct st as [[P p] counter]. cbn [fst] in *. unfold spectralEpoch.
  destruct (Nat.lt_ge_cases r N) as [HrN|HrN].
  - destruct ((counter =? 0)%nat && startEquilibrated); cbn [fst].
    + destruct (0 <? e_numPts epoch)%Z; [|reflexivity].
      rewrite nth_updateBlock by (destruct HP as [HPl _]; lia).
      destruct (Nat.leb_spec (Z.to_nat (e_firstPt epoch)) r); [lia|reflexivity].
    + destruct (0 <? e_numPts epoch)%Z; [|reflexivity].
      generalize (seq 0 S). intros l. revert P HP.
      induction l as [|i l IH]; intros P HP; [reflexivity|].
      cbn [fold_left].
      assert (hasShape N S (addSpectralComponent exp pool time S epoch p P i))
        as HP1.
      { unfold addSpectralComponent. apply updateBlock_shape; [|exact HP].
        intros k row Hrow. rewrite addScaled_length. exact Hrow. }
      rewrite (IH _ HP1). unfold addSpectralComponent.
      rewrite nth_updateBlock by (destruct HP as [HPl _]; lia).
      destruct (Nat.leb_spec (Z.to_nat (e_firstPt epoch)) r); [lia|reflexivity].
  - pose proof (spectralEpoch_shape exp pool time S numEpochs startEquilibrated
                  N (P, p, counter) epoch HP) as [HPl' _].
    cbn [fst] in HPl'. unfold spectralEpoch in HPl'.
    destruct HP as [HPl _].
    rewrite !nth_overflow; [reflexivity|lia|lia].
Qed.

Lemma spectralLoop_outside (epochs : list Epoch) (r : nat) :
  forall b t t' st,
    Forall (fun e => (0 <= e_numPts e)%Z) epochs ->
    chained (Z.of_nat b) t epochs (Z.of_nat N) t' ->
    (r < b)%nat ->
    hasShape N S (fst (fst st)) ->
    nth r (fst (fst (fold_left
                       (spectralEpoch exp pool time S numEpochs
                                      startEquilibrated) epochs st))) []
    = nth r (fst (fst st)) [].
Proof.
  induction epochs as [|e epochs IH]; intros b t t' st Hnum Hch Hr HP;
    [reflexivity|].
  cbn [fold_left].
  inversion Hnum as [|e0 r0 Hn Hnr]; subst e0 r0.
  destruct Hch as (Hfirst & _ & Hrest).
  destruct (spectralEpoch_outside st e r HP ltac:(lia)) as [HP' Hrow].
  rewrite (IH (b + Z.to_nat (e_numPts e))%nat (t + e_duration e) t');
    [exact Hrow|exact Hnr| |lia|exact HP'].
  replace (Z.of_nat (b + Z.to_nat (e_numPts e)))
    with (Z.of_nat b + e_numPts e)%Z by lia.
  exact Hrest.
Qed.
End InitialCondition.

(** X17.  The spectral simulation starts from the starting probability.
    When the simulation does not start equilibrated, the first epoch holds
    the first sample and starts at its time, the epochs tile the samples,
    [exp] is a function of the value of its argument with [exp 0 = 1] and
    the spectral matrices of the first epoch add up to the identity, the
    first row of the matrix [spectralSimulation] stores is the starting
    probability. *)
Theorem spectralSimulation_initial_condition (exp : Q -> Q)
    (pool : list UniqueEpoch) (sim : Simulation) (startingProbability : list Q)
    (variableSetIndex : nat) (epoch : Epoch) (rest : list Epoch) (t1 : Q)
    (j : nat) :
  (forall x y, x == y -> exp x == exp y) -> exp 0 == 1 ->
  s_epochs sim = epoch :: rest ->
  chained 0 (nth 0 (s_time sim) 0) (s_epochs sim)
          (Z.of_nat (List.length (s_time sim))) t1 ->
  Forall (fun e => (0 <= e_numPts e)%Z) (s_epochs sim) ->
  (0 < e_numPts epoch)%Z ->
  resolvesIdentity (List.length startingProbability) (uniqueOf pool epoch) ->
  (j < List.length startingProbability)%nat ->
  coeff (nth variableSetIndex
           (s_probability
              (spectralSimulation exp pool sim startingProbability false
                 variableSetIndex false)) []) 0 j
  == nth j startingProbability 0.
Proof.
  intros Hcompat Hzero Hep Hch Hnum Hpos Hres Hj.
  unfold spectralSimulation. cbn [s_probability set_probability].
  rewrite replaceNth_nth by apply padTo_length.
  set (N := List.length (s_time sim)) in *.
  set (S := List.length startingProbability) in *.
  rewrite Hep in *. cbn [fold_left].
  inversion Hnum as [|e0 r0 Hn Hnr]; subst e0 r0.
  destruct Hch as (Hfirst & Hstart & Hrest).
  assert (0 < N)%nat as HN.
  { destruct (chained_sums _ _ _ _ _ Hrest) as [HZ _].
    assert (0 <= sumZ (map e_numPts rest))%Z.
    { clear - Hnr. induction Hnr as [|e r He Hr IH]; simpl; lia. }
    lia. }
  set (st1 := spectralEpoch exp pool (s_time sim) S
                (List.length (epoch :: rest)) false
                (zeroMatrix N S, startingProbability, 0%nat) epoch).
  assert (hasShape N S (fst (fst st1))) as HP1
    by (apply spectralEpoch_shape; apply zeroMatrix_shape).
  unfold coeff.
  rewrite (spectralLoop_outside exp pool (s_time sim) S
             (List.length (epoch :: rest)) false rest 0
             (Z.to_nat (e_numPts epoch)) (nth 0 (s_time sim) 0 + e_duration epoch)
             t1 st1 Hnr).
  - unfold st1, spectralEpoch. rewrite andb_false_r. cbn [fst].
    destruct (Z.ltb_spec 0 (e_numPts epoch)); [|lia].
    fold (coeff (fold_left
                   (addSpectralComponent exp pool (s_time sim) S epoch
                                         startingProbability)
                   (seq 0 S) (zeroMatrix N S)) 0 j).
    rewrite (addSpectralComponents_entries exp pool (s_time sim) S epoch
               startingProbability (seq 0 S) 0 j HN Hj ltac:(lia)
               (zeroMatrix N S) (zeroMatrix_shape N S)).
    assert (coeff (zeroMatrix N S) 0 j == 0) as ->.
    { unfold coeff, zeroMatrix. rewrite nth_repeat_lt by exact HN.
      rewrite nth_repeat_zero. reflexivity. }
    rewrite (sumQ_map_ext _
               (fun i => nth j (rowTimes S startingProbability
                                  (nth i (u_spectralMatrices
                                            (uniqueOf pool epoch)) [])) 0)).
    + rewrite (rowTimes_resolution S _ startingProbability j Hres Hj). ring.
    + intros i _.
      assert (exp ((nth 0 (s_time sim) 0 - e_start epoch)
                   * nth i (u_spectralEigenValues (uniqueOf pool epoch)) 0)
              == 1) as ->.
      { rewrite <- Hzero. apply Hcompat. rewrite Hstart. ring. }
      ring.
  - replace (Z.of_nat (Z.to_nat (e_numPts epoch)))
      with (0 + e_numPts epoch)%Z by lia.
    exact Hrest.
  - lia.
  - exact HP1.
Qed.

Lemma two_state_spectral_resolves :
  resolvesIdentity 2 (uniqueOf [two_state_spectral]
                               (mkEpoch 0 3 0 3 [] (Some 0%nat))).
Proof.
  intros m j Hm Hj.
  destruct m as [|[|m]]; [| |lia]; destruct j as [|[|j]]; try lia; reflexivity.
Qed.

Lemma spectralSimulation_initial_condition_witness :
  coeff (nth 0
           (s_probability
              (spectralSimulation (fun _ => 1) [two_state_spectral]
                 sim_one_epoch [1; 0] false 0 false)) []) 0 1
  == nth 1 [1; 0] 0.
Proof.
  apply (spectralSimulation_initial_condition (fun _ => 1)
           [two_state_spectral] sim_one_epoch [1; 0] 0
           (mkEpoch 0 3 0 3 [] (Some 0%nat)) [] (0 + 3) 1).
  - intros x y _. reflexivity.
  - reflexivity.
  - reflexivity.
  - cbn. repeat split; reflexivity.
  - repeat constructor. discriminate.
  - reflexivity.
  - exact two_state_spectral_resolves.
  - simpl. lia.
Defined.

(** ** The values sampleArray writes *)

Lemma setAt_same (l : list Q) (i : Z) (v : Q) (j : nat) :
  Z.of_nat j = i -> (j < List.length l)%nat -> nth j (setAt l i v) 0 = v.
Proof.
  intros H Hj. unfold setAt. destruct (Z.ltb_spec i 0); [lia|].
  subst i. rewrite Nat2Z.id. apply replaceNth_nth. exact Hj.
Qed.

Lemma setAt_nth (l : list Q) (i : Z) (v : Q) (j : nat) :
  nth j (setAt l i v) 0 = nth j l 0 \/
  (Z.of_nat j = i /\ nth j (setAt l i v) 0 = v).
Proof.
  destruct (Z.eq_dec (Z.of_nat j) i) as [E|E].
  - destruct (Nat.lt_ge_cases j (List.length l)) as [Hlt|Hge].
    + right. split; [exact E|apply setAt_same; assumption].
    + left. rewrite !nth_overflow; [reflexivity|exact Hge|].
      rewrite setAt_length. exact Hge.
  - left. apply setAt_other. exact E.
Qed.

Section SampleArrayValues.
Variables (xref yref : list Q) (nref : Z) (x : list Q) (n : Z).
Variables (x0 epsilon : Q) (di diref : Z).
Variable y0 : list Q.
Hypothesis Hdiref : diref = 1%Z \/ diref = (-1)%Z.

Local Notation inv := (valuesInv xref yref nref x x0 epsilon y0).

Lemma valuesInv_step (st : SampleState) :
  sampleCond nref n st = true -> inv st ->
  inv (sampleStep xref yref nref x x0 epsilon di diref st).
Proof.
  unfold sampleCond. intros Hc Hinv. apply andb_prop in Hc.
  destruct Hc as [Hi Hr]. unfold inRange in Hi, Hr.
  apply andb_prop in Hi. destruct Hi as [Hi0 Hin].
  apply andb_prop in Hr. destruct Hr as [Hr0 Hrn].
  apply Z.leb_le in Hi0, Hr0. apply Z.ltb_lt in Hin, Hrn.
  unfold sampleStep.
  destruct (Qlt_bool (zth x (sa_i st)) (zth xref (sa_iref st) - x0 - epsilon))
    eqn:E1; [exact Hinv|].
  apply Qlt_bool_false in E1.
  destruct (Qlt_bool (Qabs (zth x (sa_i st) - (zth xref (sa_iref st) - x0)))
                     epsilon) eqn:E2.
  - apply Qlt_bool_iff in E2. intros j. cbn [sa_y].
    destruct (setAt_nth (sa_y st) (sa_i st) (zth yref (sa_iref st)) j)
      as [H|[Hj H]].
    + rewrite H. apply Hinv.
    + right. left. rewrite <- Hj in E2, H |- *.
      rewrite zth_of_nat in E2. exists (sa_iref st). split; [lia|].
      split; [exact E2|exact H].
  - destruct (inRange (sa_iref st + diref) nref
              && Qlt_bool (zth x (sa_i st))
                          (zth xref (sa_iref st + diref) - x0)) eqn:E3;
      [|exact Hinv].
    apply andb_prop in E3. destruct E3 as [E3 E4].
    unfold inRange in E3. apply andb_prop in E3. destruct E3 as [E3a E3b].
    apply Z.leb_le in E3a. apply Z.ltb_lt in E3b. apply Qlt_bool_iff in E4.
    intros j. cbn [sa_y].
    match goal with
    | |- context [setAt (sa_y st) (sa_i st) ?v] =>
        destruct (setAt_nth (sa_y st) (sa_i st) v j) as [H|[Hj H]]
    end.
    + rewrite H. apply Hinv.
    + right. right. rewrite <- Hj in E1, E4, H |- *.
      rewrite zth_of_nat in E1, E4, H |- *.
      exists (sa_iref st), (sa_iref st + diref)%Z.
      split; [lia|]. split; [lia|].
      split; [destruct Hdiref as [-> | ->]; [left|right]; lia|].
      split; [exact E1|]. split; [exact E4|exact H].
Qed.

Lemma valuesInv_loop (fuel : nat) :
  forall st,
    inv st ->
    inv (sampleLoop xref yref nref x n x0 epsilon di diref fuel st).
Proof.
  induction fuel as [|fuel IH]; intros st Hinv; cbn [sampleLoop]; [exact Hinv|].
  destruct (sampleCond nref n st) eqn:E; [|exact Hinv].
  apply IH. apply valuesInv_step; assumption.
Qed.
End SampleArrayValues.

(** X18.  [sampleArray] writes nothing but reference values and linear
    interpolations: each value of the output is the one the buffer held at
    entry, or the value of a reference point within the tolerance of its
    sample, or the linear interpolation at its sample between two
    neighbouring reference points that bracket it. *)
Theorem sampleArray_values (xref yref : list Q) (nref : Z) (x y : list Q)
    (n : Z) (x0 epsilon : Q) (j : nat) :
  let eps := defaultEpsilon epsilon in
  let v := nth j (fst (fst (sampleArray xref yref nref x y n x0 epsilon))) 0 in
  v = nth j y 0 \/
  exactAt xref yref nref x0 eps (nth j x 0) v \/
  interpolatedAt xref yref nref x0 eps (nth j x 0) v.
Proof.
  intros eps v. subst v. unfold sampleArray. fold eps.
  set (isIncreasing := negb ((2 <=? n)%Z && Qlt_bool (zth x 1 - zth x 0) 0)).
  set (isRefIncreasing :=
         negb ((2 <=? nref)%Z && Qlt_bool (zth xref 1 - zth xref 0) 0)).
  set (di := if isIncreasing then 1%Z else (-1)%Z).
  set (diref := if isRefIncreasing then 1%Z else (-1)%Z).
  set (st0 := mkSampleState (if isIncreasing then 0%Z else (n - 1)%Z)
                (if isRefIncreasing then 0%Z else (nref - 1)%Z) y (-1)).
  assert (diref = 1%Z \/ diref = (-1)%Z) as Hdiref
    by (subst diref; destruct isRefIncreasing; auto).
  assert (valuesInv xref yref nref x x0 eps y st0) as H0
    by (intros k; left; reflexivity).
  pose proof (valuesInv_loop xref yref nref x n x0 eps di diref y Hdiref
                (Z.to_nat n + Z.to_nat nref) st0 H0 j) as H.
  destruct (sa_firstPt _ =? -1)%Z; [exact H|].
  destruct isIncreasing; exact H.
Qed.

(** *** A reference curve as fine as the samples leaves no gap *)

Lemma zth_succ (l : list Q) (i : Z) :
  (0 <= i)%Z -> zth l (i + 1) = nth (S (Z.to_nat i)) l 0.
Proof.
  intros Hi. unfold zth. destruct (Z.ltb_spec (i + 1) 0); [lia|].
  f_equal. lia.
Qed.

Lemma zth_nat (l : list Q) (i : Z) :
  (0 <= i)%Z -> zth l i = nth (Z.to_nat i) l 0.
Proof. intros Hi. unfold zth. destruct (Z.ltb_spec i 0); [lia|reflexivity]. Qed.

Section SampleArrayComplete.
Variables (xref yref : list Q) (x : list Q) (x0 epsilon : Q).
Hypothesis eps_pos : 0 < epsilon.
Hypothesis fine : refinedBy xref x.

Local Notation n := (Z.of_nat (List.length x)).
Local Notation nref := (Z.of_nat (List.length xref)).
Local Notation inv := (completeInv xref yref nref x n x0 epsilon).

Lemma step_ahead (i iref : Z) :
  (0 <= i)%Z -> (0 <= iref)%Z -> (i + 1 < n)%Z -> (iref + 1 < nref)%Z ->
  zth xref iref - x0 - epsilon <= zth x i ->
  zth xref (iref + 1) - x0 - epsilon <= zth x (i + 1).
Proof.
  intros Hi Hr Hin Hrn H.
  rewrite (zth_nat xref iref Hr), (zth_nat x i Hi) in H.
  rewrite (zth_succ xref iref Hr), (zth_succ x i Hi).
  pose proof (fine (Z.to_nat iref) (Z.to_nat i) ltac:(lia) ltac:(lia)). lra.
Qed.

Lemma completeInv_step (st : SampleState) :
  sampleCond nref n st = true -> inv st ->
  inv (sampleStep xref yref nref x x0 epsilon 1 1 st).
Proof.
  unfold sampleCond. intros Hc (Hlen & Hi0 & Hr0 & Hw). apply andb_prop in Hc.
  destruct Hc as [Hi Hr]. unfold inRange in Hi, Hr.
  apply andb_prop in Hi. destruct Hi as [_ Hin].
  apply andb_prop in Hr. destruct Hr as [_ Hrn].
  apply Z.ltb_lt in Hin, Hrn.
  assert (Z.of_nat (Z.to_nat (sa_i st)) = sa_i st) as Hnat by lia.
  assert (Z.to_nat (sa_i st) < List.length (sa_y st))%nat as Hylen by lia.
  unfold sampleStep.
  destruct (Qlt_bool (zth x (sa_i st)) (zth xref (sa_iref st) - x0 - epsilon))
    eqn:E1.
  - (* before the reference data: only possible before the first hit *)
    apply Qlt_bool_iff in E1.
    unfold completeInv. cbn [sa_i sa_iref sa_firstPt sa_y].
    split; [exact Hlen|]. split; [lia|]. split; [lia|]. left.
    destruct Hw as [Hf|(_ & _ & Hahead)]; [exact Hf|].
    specialize (Hahead Hin Hrn). lra.
  - apply Qlt_bool_false in E1.
    assert (forall v iref',
              (0 <= iref')%Z ->
              (exactAt xref yref nref x0 epsilon (zth x (sa_i st)) v \/
               interpolatedAt xref yref nref x0 epsilon (zth x (sa_i st)) v) ->
              ((sa_i st + 1 < n)%Z -> (iref' < nref)%Z ->
               zth xref iref' - x0 - epsilon <= zth x (sa_i st + 1)) ->
              inv (mkSampleState (sa_i st + 1) iref'
                     (setAt (sa_y st) (sa_i st) v)
                     (markFirst (sa_firstPt st) (sa_i st)))) as Hwrite.
    { intros v iref' Hiref' Hv Hahead'.
      unfold completeInv. cbn [sa_i sa_iref sa_firstPt sa_y].
      split; [rewrite setAt_length; exact Hlen|].
      split; [lia|]. split; [exact Hiref'|]. right.
      assert (forall j : nat,
                Z.of_nat j = sa_i st ->
                exactAt xref yref nref x0 epsilon (nth j x 0)
                        (nth j (setAt (sa_y st) (sa_i st) v) 0) \/
                interpolatedAt xref yref nref x0 epsilon (nth j x 0)
                        (nth j (setAt (sa_y st) (sa_i st) v) 0)) as Hnew.
      { intros j Hj. rewrite setAt_same by (assumption || lia).
        rewrite <- Hj, zth_of_nat in Hv. exact Hv. }
      unfold markFirst. destruct Hw as [Hf|(Hf & Hdone & _)].
      - rewrite Hf. cbn [Z.eqb Pos.eqb].
        split; [lia|]. split; [|exact Hahead'].
        intros j Hj. apply Hnew. lia.
      - destruct (Z.eqb_spec (sa_firstPt st) (-1)); [lia|].
        split; [lia|]. split; [|exact Hahead'].
        intros j Hj. destruct (Z.eq_dec (Z.of_nat j) (sa_i st)) as [E|E].
        + apply Hnew. exact E.
        + rewrite setAt_other by exact E. apply Hdone. lia. }
    destruct (Qlt_bool (Qabs (zth x (sa_i st) - (zth xref (sa_iref st) - x0)))
                       epsilon) eqn:E2.
    + apply Qlt_bool_iff in E2. apply Hwrite; [lia| |].
      * left. exists (sa_iref st). split; [lia|]. split; [exact E2|reflexivity].
      * intros Hn' Hr'. apply step_ahead; assumption.
    + destruct (inRange (sa_iref st + 1) nref
                && Qlt_bool (zth x (sa_i st))
                            (zth xref (sa_iref st + 1) - x0)) eqn:E3.
      * apply andb_prop in E3. destruct E3 as [E3 E4].
        unfold inRange in E3. apply andb_prop in E3. destruct E3 as [_ E3b].
        apply Z.ltb_lt in E3b. apply Qlt_bool_iff in E4.
        apply Hwrite; [lia| |].
        -- right. exists (sa_iref st), (sa_iref st + 1)%Z.
           split; [lia|]. split; [lia|]. split; [left; reflexivity|].
           split; [exact E1|]. split; [exact E4|reflexivity].
        -- intros Hn' Hr'. apply step_ahead; assumption.
      * unfold completeInv. cbn [sa_i sa_iref sa_firstPt sa_y].
        split; [exact Hlen|]. split; [exact Hi0|]. split; [lia|].
        destruct Hw as [Hf|(Hf & Hdone & _)]; [left; exact Hf|right].
        split; [exact Hf|]. split; [exact Hdone|].
        intros _ Hr'. apply andb_false_iff in E3. destruct E3 as [E3|E3].
        -- unfold inRange in E3. apply andb_false_iff in E3.
           destruct E3 as [E3|E3];
             [apply Z.leb_gt in E3|apply Z.ltb_ge in E3]; lia.
        -- apply Qlt_bool_false in E3. lra.
Qed.

Lemma completeInv_loop (fuel : nat) :
  forall st,
    inv st ->
    inv (sampleLoop xref yref nref x n x0 epsilon 1 1 fuel st).
Proof.
  induction fuel as [|fuel IH]; intros st Hinv; cbn [sampleLoop]; [exact Hinv|].
  destruct (sampleCond nref n st) eqn:E; [|exact Hinv].
  apply IH. apply completeInv_step; assumption.
Qed.
End SampleArrayComplete.

Lemma increasing_direction (l : list Q) :
  increasing l ->
  negb ((2 <=? Z.of_nat (List.length l))%Z && Qlt_bool (zth l 1 - zth l 0) 0)
  = true.
Proof.
  intros Hinc. apply negb_true_iff.
  destruct (Z.leb_spec 2 (Z.of_nat (List.length l))) as [H2|H2];
    [|reflexivity].
  cbn [andb]. apply Qlt_bool_false.
  change (zth l 1) with (zth l (Z.of_nat 1)).
  change (zth l 0) with (zth l (Z.of_nat 0)).
  rewrite !zth_of_nat.
  assert (nth 0 l 0 < nth 1 l 0) by (apply Hinc; lia). lra.
Qed.

(** X19.  A reference curve sampled at least as finely as the simulation
    leaves no gap: for strictly increasing samples and reference abscissa, a
    positive tolerance and no reference step longer than a sample step,
    every sample of the window [[firstPt, firstPt + numPts)] that
    [sampleArray] reports holds the value of a reference point within the
    tolerance of it, or the linear interpolation between the two
    neighbouring reference points that bracket it. *)
Theorem sampleArray_complete (xref yref x y : list Q) (x0 epsilon : Q)
    (j : nat) :
  increasing x -> increasing xref -> 0 < epsilon ->
  List.length y = List.length x ->
  refinedBy xref x ->
  let r := sampleArray xref yref (Z.of_nat (List.length xref)) x y
                       (Z.of_nat (List.length x)) x0 epsilon in
  let firstPt := snd (fst r) in
  let numPts := snd r in
  (firstPt <= Z.of_nat j < firstPt + numPts)%Z ->
  exactAt xref yref (Z.of_nat (List.length xref)) x0 epsilon (nth j x 0)
          (nth j (fst (fst r)) 0) \/
  interpolatedAt xref yref (Z.of_nat (List.length xref)) x0 epsilon
                 (nth j x 0) (nth j (fst (fst r)) 0).
Proof.
  intros Hx Hxref Heps Hlen Hfine r firstPt numPts. subst r firstPt numPts.
  unfold sampleArray.
  assert (defaultEpsilon epsilon = epsilon) as ->.
  { unfold defaultEpsilon. destruct (Qeq_bool epsilon 0) eqn:E; [|reflexivity].
    apply Qeq_bool_iff in E. lra. }
  rewrite (increasing_direction x Hx), (increasing_direction xref Hxref).
  set (st0 := mkSampleState 0 0 y (-1)).
  assert (completeInv xref yref (Z.of_nat (List.length xref)) x
            (Z.of_nat (List.length x)) x0 epsilon st0) as H0.
  { split; [exact Hlen|]. cbn. split; [lia|]. split; [lia|]. left. reflexivity. }
  pose proof (completeInv_loop xref yref x x0 epsilon Heps Hfine
                (Z.to_nat (Z.of_nat (List.length x))
                 + Z.to_nat (Z.of_nat (List.length xref))) st0 H0)
    as (_ & _ & _ & Hw).
  set (st := sampleLoop xref yref (Z.of_nat (List.length xref)) x
               (Z.of_nat (List.length x)) x0 epsilon 1 1
               (Z.to_nat (Z.of_nat (List.length x))
                + Z.to_nat (Z.of_nat (List.length xref))) st0) in *.
  destruct (Z.eqb_spec (sa_firstPt st) (-1)) as [Hf|Hf]; cbn [fst snd].
  - intros Hj. lia.
  - destruct Hw as [Hf'|(_ & Hdone & _)]; [contradiction|].
    intros Hj. apply Hdone. lia.
Qed.

Lemma refinedBy_example :
  refinedBy [0; 1; 2; 3] [1 # 2; 3 # 2; 5 # 2].
Proof.
  intros k i Hk Hi. simpl in Hk, Hi.
  destruct k as [|[|[|k]]]; try lia;
    destruct i as [|[|i]]; try lia; simpl; lra.
Qed.

Lemma increasing_halves : increasing [1 # 2; 3 # 2; 5 # 2].
Proof.
  intros i j Hij Hj. simpl in Hj.
  destruct j as [|[|[|j]]]; try lia;
    destruct i as [|[|i]]; try lia; simpl; lra.
Qed.

Lemma sampleArray_complete_witness :
  let r := sampleArray [0; 1; 2; 3] [0; 10; 20; 30] (Z.of_nat 4)
             [1 # 2; 3 # 2; 5 # 2] [0; 0; 0] (Z.of_nat 3) 0 (1 # 100000) in
  exactAt [0; 1; 2; 3] [0; 10; 20; 30] (Z.of_nat 4) 0 (1 # 100000) (3 # 2)
          (nth 1 (fst (fst r)) 0) \/
  interpolatedAt [0; 1; 2; 3] [0; 10; 20; 30] (Z.of_nat 4) 0 (1 # 100000)
                 (3 # 2) (nth 1 (fst (fst r)) 0).
Proof.
  apply (sampleArray_complete [0; 1; 2; 3] [0; 10; 20; 30]
           [1 # 2; 3 # 2; 5 # 2] [0; 0; 0] 0 (1 # 100000) 1).
  - exact increasing_halves.
  - exact increasing_0123.
  - reflexivity.
  - reflexivity.
  - exact refinedBy_example.
  - vm_compute. split; [discriminate|reflexivity].
Defined.

(** The hypothesis on the steps is needed: with a reference abscissa
    coarser than the samples, the sample between two reference points is
    passed over and keeps the value the buffer held, inside the reported
    window. *)
Example sampleArray_coarse_reference :
  sampleArray [0; 1] [0; 10] 2 [0; 1 # 2; 1] [7; 7; 7] 3 0 (1 # 100000)
  = ([0; 7; 10], 0%Z, 3%Z).
Proof. vm_compute. reflexivity. Qed.

(** ** The waveform of a state group is a probability *)

Lemma sumQ_incl_NoDup (f : nat -> Q) (l : list nat) :
  NoDup l ->
  forall l', incl l l' -> (forall a, In a l' -> 0 <= f a) ->
             sumQ (map f l) <= sumQ (map f l').
Proof.
  induction 1 as [|a l Ha Hl IH]; intros l' Hincl Hnn.
  - simpl. apply sumQ_map_nonneg. exact Hnn.
  - assert (In a l') as Hin by (apply Hincl; left; reflexivity).
    apply in_split in Hin. destruct Hin as (l1 & l2 & ->).
    assert (incl l (l1 ++ l2)) as Hincl'.
    { intros b Hb. assert (In b (l1 ++ a :: l2)) as H
        by (apply Hincl; right; exact Hb).
      apply in_app_or in H. apply in_or_app.
      destruct H as [H|[H|H]]; [left; exact H| |right; exact H].
      subst b. contradiction. }
    assert (sumQ (map f l) <= sumQ (map f (l1 ++ l2))) as H.
    { apply IH; [exact Hincl'|]. intros b Hb. apply Hnn.
      apply in_app_or in Hb. apply in_or_app.
      destruct Hb as [Hb|Hb]; [left; exact Hb|right; right; exact Hb]. }
    rewrite !map_app, !sumQ_app in *. cbn [map]. unfold sumQ in *.
    cbn [fold_right]. lra.
Qed.

Lemma nth_addVectors (a b : list Q) (t : nat) :
  List.length a = List.length b -> (t < List.length a)%nat ->
  nth t (addVectors a b) 0 = nth t a 0 + nth t b 0.
Proof.
  intros Hlen Ht. unfold addVectors.
  rewrite (nth_indep _ 0 ((fun ab : Q * Q => fst ab + snd ab) (0, 0)))
    by (rewrite length_map, length_combine; lia).
  rewrite (map_nth (fun ab : Q * Q => fst ab + snd ab)).
  rewrite combine_nth by exact Hlen. reflexivity.
Qed.

Lemma addVectors_length (a b : list Q) :
  List.length a = List.length b ->
  List.length (addVectors a b) = List.length a.
Proof.
  intros Hlen. unfold addVectors. rewrite length_map, length_combine. lia.
Qed.

Lemma zcolumn_length (m : Matrix) (j : Z) :
  List.length (zcolumn m j) = List.length m.
Proof.
  unfold zcolumn, column.
  destruct (j <? 0)%Z; [apply repeat_length|apply length_map].
Qed.

Lemma nth_zcolumn (m : Matrix) (j : Z) (t : nat) :
  (0 <= j)%Z -> nth t (zcolumn m j) 0 = coeff m t (Z.to_nat j).
Proof.
  intros Hj. unfold zcolumn, column, coeff.
  destruct (Z.ltb_spec j 0); [lia|].
  destruct (Nat.lt_ge_cases t (List.length m)) as [Ht|Ht].
  - rewrite (nth_indep _ 0 ((fun row => nth (Z.to_nat j) row 0) []))
      by (rewrite length_map; exact Ht).
    apply (map_nth (fun row => nth (Z.to_nat j) row 0)).
  - rewrite (nth_overflow (map _ m)) by (rewrite length_map; exact Ht).
    rewrite (nth_overflow m) by exact Ht.
    destruct (Z.to_nat j); reflexivity.
Qed.

(** The waveform is the sum of the probabilities of the states of the
    group. *)
Lemma stateGroupWaveform_sum (P : Matrix) (numPts : nat) (t : nat)
    (stateIndexes : list Z) :
  List.length P = numPts -> (t < numPts)%nat ->
  Forall (fun s => (0 <= s)%Z) stateIndexes ->
  forall waveform,
    List.length waveform = numPts ->
    let w := fold_left (fun waveform stateIndex =>
                          addVectors waveform (zcolumn P stateIndex))
                       stateIndexes waveform in
    List.length w = numPts /\
    nth t w 0
    == nth t waveform 0
       + sumQ (map (fun s => coeff P t s) (map Z.to_nat stateIndexes)).
Proof.
  intros HP Ht Hnn. induction Hnn as [|s l Hs Hl IH]; intros waveform Hlen w.
  - subst w. cbn [fold_left map]. split; [exact Hlen|].
    unfold sumQ. cbn [fold_right]. ring.
  - subst w. cbn [fold_left].
    assert (List.length waveform = List.length (zcolumn P s)) as Heq
      by (rewrite zcolumn_length; lia).
    destruct (IH (addVectors waveform (zcolumn P s))
                 ltac:(rewrite addVectors_length; assumption)) as [Hl' Hsum].
    cbv zeta in Hsum. split; [exact Hl'|]. rewrite Hsum.
    rewrite nth_addVectors by (assumption || lia).
    rewrite nth_zcolumn by exact Hs.
    cbn [map]. unfold sumQ. cbn [fold_right]. ring.
Qed.

(** X20.  The waveform of a state group is a probability: when every row of
    the probability matrix is a distribution over the states and the group
    names distinct states of the model, the waveform [runSimulation] builds
    for the group has one value per sample, each between [0] and [1]; and
    it is [1] throughout when the group names every state. *)
Theorem stateGroupWaveform_probability (P : Matrix) (numPts S : nat)
    (stateIndexes : list Z) (t : nat) :
  stochastic numPts S P ->
  NoDup stateIndexes -> Forall (stateOK S) stateIndexes ->
  (t < numPts)%nat ->
  let w := stateGroupWaveform P numPts stateIndexes in
  List.length w = numPts /\
  0 <= nth t w 0 /\ nth t w 0 <= 1 /\
  ((forall s, (s < S)%nat -> In (Z.of_nat s) stateIndexes) ->
   nth t w 0 == 1).
Proof.
  intros [Hshape Hrows] Hnd Hok Ht w. subst w. unfold stateGroupWaveform.
  destruct (Hrows t Ht) as [Hsum Hpos].
  assert (Forall (fun s => (0 <= s)%Z) stateIndexes) as Hnn
    by (apply (Forall_impl _ (fun s H => proj1 H) Hok)).
  destruct (stateGroupWaveform_sum P numPts t stateIndexes
              (proj1 Hshape) Ht Hnn (repeat 0 numPts) (repeat_length _ _))
    as [Hlen Hw]. cbv zeta in Hw.
  rewrite nth_repeat_zero in Hw.
  set (l := map Z.to_nat stateIndexes) in *.
  assert (NoDup l) as Hndl.
  { unfold l. apply NoDup_map_NoDup_ForallPairs; [|exact Hnd].
    intros a b Ha Hb Hab. rewrite Forall_forall in Hnn.
    pose proof (Hnn a Ha). pose proof (Hnn b Hb). lia. }
  assert (incl l (seq 0 S)) as Hincl.
  { intros a Ha. unfold l in Ha. apply in_map_iff in Ha.
    destruct Ha as (s & <- & Hs). rewrite Forall_forall in Hok.
    destruct (Hok s Hs). apply in_seq. lia. }
  assert (sumQ (map (fun s => coeff P t s) (seq 0 S)) == 1) as Hall.
  { rewrite <- Hsum. rewrite <- (hasShape_row numPts S P t Hshape Ht) at 1.
    unfold coeff. apply sumQ_nth_seq. }
  assert (forall a, In a (seq 0 S) -> 0 <= coeff P t a) as Hpos'
    by (intros a Ha; apply in_seq in Ha; apply Hpos; lia).
  split; [exact Hlen|]. split; [|split].
  - rewrite Hw. assert (0 <= sumQ (map (fun s => coeff P t s) l)).
    { apply sumQ_map_nonneg. intros a Ha. apply Hpos'. apply Hincl. exact Ha. }
    lra.
  - rewrite Hw.
    pose proof (sumQ_incl_NoDup (fun s => coeff P t s) l Hndl (seq 0 S)
                  Hincl Hpos'). lra.
  - intros Hevery. rewrite Hw.
    assert (incl (seq 0 S) l) as Hincl'.
    { intros a Ha. apply in_seq in Ha. unfold l. apply in_map_iff.
      exists (Z.of_nat a). split; [lia|]. apply Hevery. lia. }
    pose proof (sumQ_incl_NoDup (fun s => coeff P t s) l Hndl (seq 0 S)
                  Hincl Hpos') as H1.
    pose proof (sumQ_incl_NoDup (fun s => coeff P t s) (seq 0 S)
                  (seq_NoDup S 0) l Hincl'
                  ltac:(intros a Ha; apply Hpos'; apply Hincl; exact Ha)) as H2.
    lra.
Qed.

Lemma two_state_probability_stochastic :
  stochastic 3 2 two_state_probability.
Proof.
  split; [split; [reflexivity|repeat constructor]|].
  intros t Ht. destruct t as [|[|[|t]]]; try lia;
    (split; [reflexivity|]);
    intros s Hs; destruct s as [|[|s]]; try lia; cbn; lra.
Qed.

Lemma stateGroupWaveform_probability_witness :
  let w := stateGroupWaveform two_state_probability 3 [1%Z] in
  List.length w = 3%nat /\
  0 <= nth 2 w 0 /\ nth 2 w 0 <= 1 /\
  ((forall s, (s < 2)%nat -> In (Z.of_nat s) [1%Z]) -> nth 2 w 0 == 1).
Proof.
  apply (stateGroupWaveform_probability two_state_probability 3 2 [1%Z] 2).
  - exact two_state_probability_stochastic.
  - repeat constructor. intros [].
  - repeat constructor; unfold stateOK; lia.
  - lia.
Defined.

(** ** The spectral expansion of a rate matrix *)

Lemma sumQ_Permutation {A : Type} (f : A -> Q) (l l' : list A) :
  Permutation l l' -> sumQ (map f l) == sumQ (map f l').
Proof.
  induction 1 as [|a l l' _ IH|a b l|l l' l'' _ IH1 _ IH2]; simpl.
  - reflexivity.
  - rewrite IH. reflexivity.
  - ring.
  - rewrite IH1. exact IH2.
Qed.

Lemma nth_map_seq_gen {A : Type} (f : nat -> A) (d : A) (n i : nat) :
  (i < n)%nat -> nth i (map f (seq 0 n)) d = f i.
Proof.
  intros Hi.
  rewrite (nth_indep _ d (f 0%nat)) by (rewrite length_map, length_seq; exact Hi).
  rewrite map_nth, seq_nth by exact Hi. reflexivity.
Qed.

Lemma nth_column (m : Matrix) (j i : nat) : nth i (column m j) 0 = coeff m i j.
Proof.
  unfold column, coeff.
  destruct (Nat.lt_ge_cases i (List.length m)) as [Hi|Hi].
  - rewrite (nth_indep _ 0 ((fun row => nth j row 0) []))
      by (rewrite length_map; exact Hi).
    apply (map_nth (fun row => nth j row 0)).
  - rewrite (nth_overflow (map _ m)) by (rewrite length_map; exact Hi).
    rewrite (nth_overflow m) by exact Hi. destruct j; reflexivity.
Qed.

Lemma coeff_outer (v w : list Q) (i j : nat) :
  coeff (outer v w) i j == nth i v 0 * nth j w 0.
Proof.
  unfold coeff, outer.
  destruct (Nat.lt_ge_cases i (List.length v)) as [Hi|Hi].
  - rewrite (nth_indep _ [] ((fun a => map (fun b => a * b) w) 0))
      by (rewrite length_map; exact Hi).
    rewrite (map_nth (fun a => map (fun b => a * b) w)).
    destruct (Nat.lt_ge_cases j (List.length w)) as [Hj|Hj].
    + rewrite (nth_indep _ 0 ((fun b => nth i v 0 * b) 0))
        by (rewrite length_map; exact Hj).
      rewrite (map_nth (fun b => nth i v 0 * b)). reflexivity.
    + rewrite (nth_overflow (map _ w)) by (rewrite length_map; exact Hj).
      rewrite (nth_overflow w) by exact Hj. ring.
  - rewrite (nth_overflow (map _ v)) by (rewrite length_map; exact Hi).
    rewrite (nth_overflow v) by exact Hi. destruct j; cbn [nth]; ring.
Qed.

Lemma map_nth_seq_indexes (indexes : list nat) :
  map (fun i => nth i indexes 0%nat) (seq 0 (List.length indexes)) = indexes.
Proof.
  induction indexes as [|a l IH]; [reflexivity|].
  cbn [List.length seq map nth]. f_equal.
  rewrite <- seq_shift, map_map. exact IH.
Qed.

(** A sum whose terms vanish away from [j] is its term at [j]. *)
Lemma sumQ_single (f : nat -> Q) (N j : nat) :
  (j < N)%nat ->
  (forall k, (k < N)%nat -> k <> j -> f k == 0) ->
  sumQ (map f (seq 0 N)) == f j.
Proof.
  intros Hj Hz.
  rewrite (sumQ_map_ext f (fun k => f j * (if (k =? j)%nat then 1 else 0))).
  - rewrite sumQ_map_scale.
    assert (sumQ (map (fun k => 1 * (if (k =? j)%nat then 1 else 0)) (seq 0 N))
            == 1) as H1.
    { rewrite (sumQ_delta (fun _ => 1) j (seq 0 N) (seq_NoDup N 0)).
      destruct (in_dec Nat.eq_dec j (seq 0 N)) as [_|Hn]; [reflexivity|].
      exfalso. apply Hn. apply in_seq. lia. }
    rewrite (sumQ_map_ext _ (fun k => 1 * (if (k =? j)%nat then 1 else 0)))
      by (intros; ring).
    rewrite H1. ring.
  - intros k Hk. apply in_seq in Hk.
    destruct (Nat.eqb_spec k j) as [->|Hne]; [ring|].
    rewrite Hz by (lia || exact Hne). ring.
Qed.

Section SpectralExpansionFacts.
Variables (N : nat) (rates : Matrix) (eigVals : list Q).
Variables (eigVecs invEigVecs : Matrix) (indexes : list nat).
Hypothesis sorted : sortedByAbs N eigVals indexes.

Local Notation idx i := (nth i indexes 0%nat).

Lemma indexes_length : List.length indexes = N.
Proof.
  rewrite (Permutation_length (proj1 sorted)). apply length_seq.
Qed.

Lemma indexes_range (i : nat) : (i < N)%nat -> (idx i < N)%nat.
Proof.
  intros Hi.
  assert (In (idx i) indexes) as Hin
    by (apply nth_In; rewrite indexes_length; exact Hi).
  apply (Permutation_in _ (proj1 sorted)) in Hin. apply in_seq in Hin. lia.
Qed.

Lemma indexes_injective (i k : nat) :
  (i < N)%nat -> (k < N)%nat -> idx i = idx k -> i = k.
Proof.
  intros Hi Hk. apply NoDup_nth; rewrite ?indexes_length; try assumption.
  apply (Permutation_NoDup (Permutation_sym (proj1 sorted))). apply seq_NoDup.
Qed.

Lemma indexes_onto (j : nat) : (j < N)%nat -> exists i, (i < N)%nat /\ idx i = j.
Proof.
  intros Hj.
  assert (In j indexes) as Hin.
  { apply (Permutation_in _ (Permutation_sym (proj1 sorted))).
    apply in_seq. lia. }
  apply In_nth with (d := 0%nat) in Hin. destruct Hin as (i & Hi & Hnth).
  exists i. rewrite indexes_length in Hi. split; assumption.
Qed.

(** The sum over the sorted indexes is the sum over the states. *)
Lemma sumQ_indexes (f : nat -> Q) :
  sumQ (map (fun i => f (idx i)) (seq 0 N)) == sumQ (map f (seq 0 N)).
Proof.
  rewrite <- (map_map (fun i => idx i) f). rewrite <- indexes_length at 1.
  rewrite map_nth_seq_indexes. apply sumQ_Permutation. exact (proj1 sorted).
Qed.

(** The entries of the spectral matrices the loop stores. *)
Lemma spectralMatrix_entries (i m j : nat) :
  (i < N)%nat ->
  coeff (nth i (map (fun i => let j := idx i in
                               outer (column eigVecs j) (nth j invEigVecs []))
                    (seq 0 N)) []) m j
  == coeff eigVecs m (idx i) * coeff invEigVecs (idx i) j.
Proof.
  intros Hi. rewrite nth_map_seq_gen by exact Hi. cbv zeta.
  rewrite coeff_outer, nth_column. reflexivity.
Qed.

Hypothesis right_inverse : productIs N eigVecs invEigVecs identity.

Lemma spectralMatrices_resolve (m j : nat) :
  (m < N)%nat -> (j < N)%nat ->
  sumQ (map (fun i =>
               coeff (nth i (map (fun i => let j := idx i in
                                           outer (column eigVecs j)
                                                 (nth j invEigVecs []))
                                 (seq 0 N)) []) m j) (seq 0 N))
  == if (m =? j)%nat then 1 else 0.
Proof.
  intros Hm Hj.
  set (f := fun k => coeff eigVecs m k * coeff invEigVecs k j).
  rewrite (sumQ_map_ext _ (fun i => f (idx i))).
  - rewrite (sumQ_indexes f). apply right_inverse; assumption.
  - intros i Hi. apply in_seq in Hi. unfold f.
    apply spectralMatrix_entries. lia.
Qed.

Hypothesis left_inverse : productIs N invEigVecs eigVecs identity.
Hypothesis generator : rowsSumTo N rates 0.
Hypothesis decomposition : decomposes N rates eigVals eigVecs.
Hypothesis simple : simpleZero N eigVals.
Hypothesis states : (0 < N)%nat.

Local Notation y := (onesCoordinate N invEigVecs).

Lemma ones_coordinates (i : nat) :
  (i < N)%nat ->
  sumQ (map (fun j => coeff eigVecs i j * y j) (seq 0 N)) == 1.
Proof.
  intros Hi.
  rewrite (sumQ_map_ext _
             (fun j => sumQ (map (fun k => coeff eigVecs i j
                                           * coeff invEigVecs j k) (seq 0 N))))
    by (intros j _; unfold onesCoordinate; symmetry; apply sumQ_map_scale).
  rewrite (sumQ_swap (fun j k => coeff eigVecs i j * coeff invEigVecs j k)).
  rewrite (sumQ_map_ext _ (fun k => 1 * (if (k =? i)%nat then 1 else 0))).
  - rewrite (sumQ_delta (fun _ => 1) i (seq 0 N) (seq_NoDup N 0)).
    destruct (in_dec Nat.eq_dec i (seq 0 N)) as [_|Hn]; [reflexivity|].
    exfalso. apply Hn. apply in_seq. lia.
  - intros k Hk. apply in_seq in Hk.
    rewrite (right_inverse i k) by lia. unfold identity.
    rewrite Nat.eqb_sym. ring.
Qed.

(** The vector of ones lies in the kernel of a generator, so its coordinate
    along an eigenvector of another eigenvalue than zero vanishes. *)
Lemma kernel_coordinates (j : nat) :
  (j < N)%nat -> nth j eigVals 0 * y j == 0.
Proof.
  intros Hj.
  assert (forall i, (i < N)%nat ->
            sumQ (map (fun m => coeff eigVecs i m * (nth m eigVals 0 * y m))
                      (seq 0 N)) == 0) as Hrows.
  { intros i Hi. rewrite <- (generator i Hi).
    rewrite (sumQ_map_ext (fun k => coeff rates i k)
               (fun k => sumQ (map (fun m => coeff rates i k
                                             * (coeff eigVecs k m * y m))
                                   (seq 0 N)))).
    - rewrite (sumQ_swap (fun k m => coeff rates i k
                                     * (coeff eigVecs k m * y m))).
      apply sumQ_map_ext. intros m Hm. apply in_seq in Hm.
      rewrite (sumQ_map_ext _ (fun k => y m * (coeff rates i k
                                               * coeff eigVecs k m)))
        by (intros; ring).
      rewrite sumQ_map_scale. rewrite (decomposition i m) by lia. ring.
    - intros k Hk. apply in_seq in Hk. rewrite sumQ_map_scale.
      rewrite ones_coordinates by lia. ring. }
  assert (sumQ (map (fun i => coeff invEigVecs j i
                               * sumQ (map (fun m => coeff eigVecs i m
                                                     * (nth m eigVals 0 * y m))
                                           (seq 0 N))) (seq 0 N)) == 0) as H0.
  { apply sumQ_map_const_zero. intros i Hi. apply in_seq in Hi.
    rewrite Hrows by lia. ring. }
  etransitivity; [|exact H0]. symmetry.
  rewrite (sumQ_map_ext _
             (fun i => sumQ (map (fun m => coeff invEigVecs j i
                                           * (coeff eigVecs i m
                                              * (nth m eigVals 0 * y m)))
                                 (seq 0 N))))
    by (intros i _; symmetry; apply sumQ_map_scale).
  rewrite (sumQ_swap (fun i m => coeff invEigVecs j i
                                 * (coeff eigVecs i m
                                    * (nth m eigVals 0 * y m)))).
  rewrite (sumQ_map_ext _ (fun m => (nth m eigVals 0 * y m)
                                    * (if (m =? j)%nat then 1 else 0))).
  - rewrite (sumQ_delta (fun m => nth m eigVals 0 * y m) j (seq 0 N)
               (seq_NoDup N 0)).
    destruct (in_dec Nat.eq_dec j (seq 0 N)) as [_|Hn]; [reflexivity|].
    exfalso. apply Hn. apply in_seq. lia.
  - intros m Hm. apply in_seq in Hm.
    rewrite (sumQ_map_ext _ (fun i => (nth m eigVals 0 * y m)
                                      * (coeff invEigVecs j i
                                         * coeff eigVecs i m)))
      by (intros; ring).
    rewrite sumQ_map_scale. rewrite (left_inverse j m) by lia.
    unfold identity. rewrite Nat.eqb_sym. ring.
Qed.

(** Some eigenvalue is zero. *)
Lemma zero_eigenvalue : exists j, (j < N)%nat /\ nth j eigVals 0 == 0.
Proof.
  assert (forall n, (n <= N)%nat ->
            (exists j, (j < n)%nat /\ nth j eigVals 0 == 0)
            \/ forall j, (j < n)%nat -> y j == 0) as Hdec.
  { induction n as [|n IH]; intros Hn; [right; intros j Hj; lia|].
    destruct (IH ltac:(lia)) as [(j & Hj & Hz)|Hall].
    - left. exists j. split; [lia|exact Hz].
    - destruct (Qeq_dec (nth n eigVals 0) 0) as [Hz|Hnz].
      + left. exists n. split; [lia|exact Hz].
      + right. intros j Hj. destruct (Nat.eq_dec j n) as [->|Hne].
        * pose proof (kernel_coordinates n ltac:(lia)) as Hk.
          apply Qmult_integral in Hk. destruct Hk; [contradiction|assumption].
        * apply Hall. lia. }
  destruct (Hdec N (Nat.le_refl N)) as [(j & Hj & Hz)|Hall].
  - exists j. split; assumption.
  - exfalso. pose proof (ones_coordinates 0%nat states) as H1.
    rewrite sumQ_map_const_zero in H1; [discriminate H1|].
    intros j Hj. apply in_seq in Hj. rewrite Hall by lia. ring.
Qed.

(** The zero eigenvalue is the first in the sorted order. *)
Lemma first_eigenvalue_zero : nth (idx 0%nat) eigVals 0 == 0.
Proof.
  destruct zero_eigenvalue as (j & Hj & Hz).
  destruct (indexes_onto j Hj) as (b & Hb & Hidx).
  pose proof (proj2 sorted 0%nat b ltac:(lia) Hb) as Hle.
  cbv beta in Hidx. rewrite Hidx, Hz in Hle.
  change (Qabs 0) with 0 in Hle.
  pose proof (Qabs_nonneg (nth (idx 0%nat) eigVals 0)) as Hnn.
  apply Qabs_Qle_condition in Hle. lra.
Qed.

Lemma other_coordinates (j : nat) :
  (j < N)%nat -> j <> idx 0%nat -> y j == 0.
Proof.
  intros Hj Hne. pose proof (kernel_coordinates j Hj) as Hk.
  apply Qmult_integral in Hk. destruct Hk as [Hz|Hy]; [|exact Hy].
  exfalso. apply Hne.
  apply simple; [exact Hj|apply indexes_range; exact states|exact Hz|].
  exact first_eigenvalue_zero.
Qed.

(** The row sums of the spectral matrices. *)
Lemma spectralMatrix_rows (i m : nat) :
  (i < N)%nat -> (m < N)%nat ->
  sumQ (map (fun j =>
               coeff (nth i (map (fun i => let j := idx i in
                                           outer (column eigVecs j)
                                                 (nth j invEigVecs []))
                                 (seq 0 N)) []) m j) (seq 0 N))
  == if (i =? 0)%nat then 1 else 0.
Proof.
  intros Hi Hm.
  rewrite (sumQ_map_ext _ (fun j => coeff eigVecs m (idx i)
                                    * coeff invEigVecs (idx i) j))
    by (intros j _; apply spectralMatrix_entries; exact Hi).
  rewrite sumQ_map_scale. fold (y (idx i)).
  destruct (Nat.eqb_spec i 0) as [->|Hne].
  - rewrite <- (ones_coordinates m Hm). symmetry.
    apply (sumQ_single (fun j => coeff eigVecs m j * y j) N (idx 0%nat)).
    + apply indexes_range. exact states.
    + intros k Hk Hk0. rewrite (other_coordinates k Hk Hk0). ring.
  - rewrite (other_coordinates (idx i)); [ring|apply indexes_range; exact Hi|].
    intros Heq. apply Hne. apply indexes_injective; [exact Hi|exact states|].
    exact Heq.
Qed.
End SpectralExpansionFacts.

(** X21.  The spectral matrices add up to the identity.  When
    [spectralExpansion] returns, and the inverse it computed is a right
    inverse of the matrix of eigenvectors and [std::sort] left the indexes
    a permutation ordered by absolute eigenvalue, the spectral matrices it
    stores sum to the identity matrix, entry by entry, and there is one
    eigenvalue and one matrix per state. *)
Theorem spectralExpansion_resolves_identity
    (eigenSolver : Matrix -> list Q * Matrix) (inverse : Matrix -> Matrix)
    (sortedIndexes : list Q -> list nat) (rates : Matrix)
    (eigenValues0 : list Q) (spectralMatrices0 : list Matrix)
    (eigenValues : list Q) (spectralMatrices : list Matrix)
    (stimuli : StimulusMap) :
  spectralExpansion eigenSolver inverse sortedIndexes rates eigenValues0
                    spectralMatrices0 false
  = Some (eigenValues, spectralMatrices) ->
  productIs (List.length (hd [] rates)) (snd (eigenSolver rates))
            (inverse (snd (eigenSolver rates))) identity ->
  sortedByAbs (List.length (hd [] rates)) (fst (eigenSolver rates))
              (sortedIndexes (fst (eigenSolver rates))) ->
  List.length eigenValues = List.length (hd [] rates) /\
  List.length spectralMatrices = List.length (hd [] rates) /\
  resolvesIdentity (List.length (hd [] rates))
    (mkUniqueEpoch stimuli rates eigenValues spectralMatrices).
Proof.
  unfold spectralExpansion. set (N := List.length (hd [] rates)).
  destruct (N <? 2)%nat; [discriminate|].
  intros Heq Hinv Hsorted. injection Heq as <- <-.
  split; [rewrite length_map; apply length_seq|].
  split; [rewrite length_map; apply length_seq|].
  intros m j Hm Hj. cbn [u_spectralMatrices].
  apply (spectralMatrices_resolve N (fst (eigenSolver rates))
           (snd (eigenSolver rates)) _ _ Hsorted Hinv m j Hm Hj).
Qed.

Lemma two_state_sorted :
  sortedByAbs 2 [-3; 0] [1%nat; 0%nat].
Proof.
  split; [apply perm_swap|].
  intros a b Hab Hb.
  destruct b as [|[|b]]; [| |lia]; destruct a as [|[|a]]; try lia;
    cbn; discriminate.
Qed.

Lemma two_state_right_inverse :
  productIs 2 [[1; 1]; [-2; 1]] [[1 # 3; -1 # 3]; [2 # 3; 1 # 3]] identity.
Proof.
  intros i j Hi Hj.
  destruct i as [|[|i]]; [| |lia]; destruct j as [|[|j]]; try lia; reflexivity.
Qed.

Lemma two_state_left_inverse :
  productIs 2 [[1 # 3; -1 # 3]; [2 # 3; 1 # 3]] [[1; 1]; [-2; 1]] identity.
Proof.
  intros i j Hi Hj.
  destruct i as [|[|i]]; [| |lia]; destruct j as [|[|j]]; try lia; reflexivity.
Qed.

Lemma spectralExpansion_resolves_identity_witness :
  List.length [0; -3] = 2%nat /\
  List.length (u_spectralMatrices two_state_spectral) = 2%nat /\
  resolvesIdentity 2 two_state_spectral.
Proof.
  apply (spectralExpansion_resolves_identity two_state_eigenSolver
           two_state_inverse two_state_sortedIndexes two_state_rates [] []
           [0; -3] (u_spectralMatrices two_state_spectral) []).
  - reflexivity.
  - exact two_state_right_inverse.
  - exact two_state_sorted.
Defined.

(** X22.  The spectral expansion of a generator conserves probability.
    When every row of the rate matrix sums to zero, the solver returned an
    eigen-decomposition with real eigenvalues of which at most one is zero,
    [inverse] returned the inverse of the matrix of eigenvectors and
    [std::sort] ordered the indexes by absolute eigenvalue, the expansion
    [spectralExpansion] stores has zero as its first eigenvalue, a first
    spectral matrix whose rows sum to one, and other spectral matrices whose
    rows sum to zero. *)
Theorem spectralExpansion_conservative
    (eigenSolver : Matrix -> list Q * Matrix) (inverse : Matrix -> Matrix)
    (sortedIndexes : list Q -> list nat) (rates : Matrix)
    (eigenValues0 : list Q) (spectralMatrices0 : list Matrix)
    (eigenValues : list Q) (spectralMatrices : list Matrix)
    (stimuli : StimulusMap) :
  spectralExpansion eigenSolver inverse sortedIndexes rates eigenValues0
                    spectralMatrices0 false
  = Some (eigenValues, spectralMatrices) ->
  rowsSumTo (List.length (hd [] rates)) rates 0 ->
  decomposes (List.length (hd [] rates)) rates (fst (eigenSolver rates))
             (snd (eigenSolver rates)) ->
  simpleZero (List.length (hd [] rates)) (fst (eigenSolver rates)) ->
  productIs (List.length (hd [] rates)) (snd (eigenSolver rates))
            (inverse (snd (eigenSolver rates))) identity ->
  productIs (List.length (hd [] rates)) (inverse (snd (eigenSolver rates)))
            (snd (eigenSolver rates)) identity ->
  sortedByAbs (List.length (hd [] rates)) (fst (eigenSolver rates))
              (sortedIndexes (fst (eigenSolver rates))) ->
  conservative (List.length (hd [] rates))
    (mkUniqueEpoch stimuli rates eigenValues spectralMatrices).
Proof.
  unfold spectralExpansion. set (N := List.length (hd [] rates)).
  destruct (Nat.ltb_spec N 2) as [|HN]; [discriminate|].
  intros Heq Hgen Hdec Hsimple Hright Hleft Hsorted. injection Heq as <- <-.
  assert (0 < N)%nat as Hpos by lia.
  unfold conservative. cbn [u_spectralEigenValues u_spectralMatrices].
  split; [|split].
  - rewrite nth_map_seq by exact Hpos.
    apply first_eigenvalue_zero
      with (N := N) (rates := rates) (eigVecs := snd (eigenSolver rates))
           (invEigVecs := inverse (snd (eigenSolver rates))); assumption.
  - intros m Hm.
    apply (spectralMatrix_rows N rates (fst (eigenSolver rates))
             (snd (eigenSolver rates)) (inverse (snd (eigenSolver rates)))
             (sortedIndexes (fst (eigenSolver rates))));
      assumption.
  - intros k Hk m Hm.
    rewrite (spectralMatrix_rows N rates (fst (eigenSolver rates))
               (snd (eigenSolver rates)) (inverse (snd (eigenSolver rates)))
               (sortedIndexes (fst (eigenSolver rates))));
      try assumption; [|lia].
    destruct (Nat.eqb_spec k 0); [lia|reflexivity].
Qed.

Lemma two_state_generator : rowsSumTo 2 two_state_rates 0.
Proof.
  intros i Hi. destruct i as [|[|i]]; [reflexivity|reflexivity|lia].
Qed.

Lemma two_state_decomposes :
  decomposes 2 two_state_rates [-3; 0] [[1; 1]; [-2; 1]].
Proof.
  intros i j Hi Hj.
  destruct i as [|[|i]]; [| |lia]; destruct j as [|[|j]]; try lia; reflexivity.
Qed.

Lemma two_state_simpleZero : simpleZero 2 [-3; 0].
Proof.
  intros j j' Hj Hj'.
  destruct j as [|[|j]]; [| |lia]; destruct j' as [|[|j']]; try lia;
    cbn; intros H1 H2; try reflexivity; discriminate.
Qed.

Lemma spectralExpansion_conservative_witness :
  conservative 2 two_state_spectral.
Proof.
  apply (spectralExpansion_conservative two_state_eigenSolver
           two_state_inverse two_state_sortedIndexes two_state_rates [] []
           [0; -3] (u_spectralMatrices two_state_spectral) []).
  - reflexivity.
  - exact two_state_generator.
  - exact two_state_decomposes.
  - exact two_state_simpleZero.
  - exact two_state_right_inverse.
  - exact two_state_left_inverse.
  - exact two_state_sorted.
Defined.

(** The expansion of the two-state model, evaluated. *)
Example spectralExpansion_two_states :
  spectralExpansion two_state_eigenSolver two_state_inverse
                    two_state_sortedIndexes two_state_rates [] [] false
  = Some (u_spectralEigenValues two_state_spectral,
          u_spectralMatrices two_state_spectral)
  /\ spectralExpansion two_state_eigenSolver two_state_inverse
                       two_state_sortedIndexes [[0]] [] [] false = None.
Proof. split; reflexivity. Qed.

(** ** The stimuli init stores for a condition *)

Lemma lookup_assign_same (m : StimulusWaveforms) (name : string) (v : list Q) :
  lookup (assign m name v) name = Some v.
Proof.
  induction m as [|[k w] r IH]; cbn [assign lookup].
  - rewrite String.eqb_refl. reflexivity.
  - destruct (String.eqb k name) eqn:E.
    + cbn [lookup]. rewrite E. reflexivity.
    + destruct (String.ltb name k); cbn [lookup].
      * rewrite String.eqb_refl. reflexivity.
      * rewrite E. exact IH.
Qed.

Lemma lookup_assign_other (m : StimulusWaveforms) (name other : string)
    (v : list Q) :
  name <> other -> lookup (assign m name v) other = lookup m other.
Proof.
  intros Hne. apply String.eqb_neq in Hne.
  induction m as [|[k w] r IH]; cbn [assign lookup].
  - rewrite Hne. reflexivity.
  - destruct (String.eqb_spec k name) as [->|Hk].
    + cbn [lookup]. rewrite Hne. reflexivity.
    + destruct (String.ltb name k); cbn [lookup].
      * rewrite Hne. reflexivity.
      * rewrite IH. reflexivity.
Qed.

Lemma addExpr_length (parserEval : string -> list Q -> option (list Q))
    (time : list Q) (amplitude : Q) (expr : string) (origin : Q)
    (firstPt numPts : Z) (w : list Q) :
  List.length (addExpr parserEval time amplitude expr origin firstPt numPts w)
  = List.length w.
Proof.
  unfold addExpr.
  destruct ((0 <? numPts)%Z && hasText expr); [|reflexivity].
  destruct (parserEval expr _); [apply addToSegment_length|reflexivity].
Qed.

Lemma waveform_length (parserEval : string -> list Q -> option (list Q))
    (stimulus : Stimulus) (time : list Q) (row col : nat) :
  List.length (waveform parserEval stimulus time row col) = List.length time.
Proof.
  unfold waveform.
  destruct (Qlt_bool _ _ && Qlt_bool _ _); [|apply repeat_length].
  match goal with
  | |- List.length (fold_left ?f ?reps ?w0) = _ =>
      assert (forall l w, List.length (fold_left f l w) = List.length w) as H
  end.
  { induction l as [|rep l IH]; intros w; cbn [fold_left]; [reflexivity|].
    rewrite IH. unfold addPulse.
    repeat match goal with
           | |- context [if ?c then _ else _] => destruct c
           end;
      rewrite ?addExpr_length, ?addToSegment_length; reflexivity. }
  rewrite H. apply repeat_length.
Qed.

Lemma nth_addVectors_eq (a b : list Q) (t : nat) :
  List.length a = List.length b ->
  nth t (addVectors a b) 0 == nth t a 0 + nth t b 0.
Proof.
  intros Hlen. destruct (Nat.lt_ge_cases t (List.length a)) as [Ht|Ht].
  - rewrite nth_addVectors by assumption. reflexivity.
  - rewrite !nth_overflow; [reflexivity|lia|exact Ht|].
    rewrite addVectors_length by exact Hlen. exact Ht.
Qed.

Section InitStimuliFacts.
Variable toLower : string -> string.
Variable parserEval : string -> list Q -> option (list Q).
Variable time : list Q.
Variables (row col : nat).
Variable weight : Q.

Local Notation wave s := (waveform parserEval s time row col).
Local Notation sup := (superposition parserEval time row col).
Local Notation step := (addStimulus toLower parserEval time row col).

Local Notation built := (assembled toLower parserEval time row col weight).

Lemma superposition_snoc (l : list Stimulus) (s : Stimulus) (i : nat) :
  sup (l ++ [s]) i == sup l i + nth i (wave s) 0.
Proof.
  unfold superposition. rewrite map_app, sumQ_app. simpl. ring.
Qed.

Lemma filter_snoc (f : Stimulus -> bool) (l : list Stimulus) (s : Stimulus) :
  filter f (l ++ [s]) = filter f l ++ (if f s then [s] else []).
Proof. rewrite filter_app. reflexivity. Qed.

Lemma assembled_step (seen : list Stimulus)
    (acc : list Q * list Q * StimulusWaveforms) (s : Stimulus) :
  built seen acc -> built (seen ++ [s]) (step acc s).
Proof.
  destruct acc as [[w m] st]. intros (Hlw & Hlm & Hw & Hm & Hst).
  cbn [fst snd] in *. unfold addStimulus, assembled.
  rewrite !filter_snoc.
  destruct (st_isActive s) eqn:Ea.
  2:{ assert (onWeight toLower s = false) as ->
        by (unfold onWeight; rewrite Ea; reflexivity).
      assert (onMask toLower s = false) as ->
        by (unfold onMask; rewrite Ea; reflexivity).
      rewrite !app_nil_r. cbn [fst snd].
      refine (conj Hlw (conj Hlm (conj Hw (conj Hm _)))).
      intros name. rewrite filter_snoc.
      assert (onChannel toLower name s = false) as ->
        by (unfold onChannel; rewrite Ea; reflexivity).
      rewrite app_nil_r. apply Hst. }
  destruct (String.eqb (toLower (st_name s)) "weight") eqn:Ew.
  { assert (onWeight toLower s = true) as ->
      by (unfold onWeight; rewrite Ea, Ew; reflexivity).
    assert (onMask toLower s = false) as ->
      by (unfold onMask; rewrite Ea, Ew; reflexivity).
    rewrite !app_nil_r. cbn [fst snd].
    split; [rewrite addVectors_length; rewrite ?waveform_length; assumption|].
    split; [exact Hlm|]. split; [|split; [exact Hm|]].
    - intros i Hi.
      rewrite nth_addVectors_eq by (rewrite waveform_length; exact Hlw).
      rewrite superposition_snoc, Hw by exact Hi. ring.
    - intros name. rewrite filter_snoc.
      assert (onChannel toLower name s = false) as ->
        by (unfold onChannel; rewrite Ea, Ew; reflexivity).
      rewrite app_nil_r. apply Hst. }
  destruct (String.eqb (toLower (st_name s)) "mask") eqn:Em.
  { assert (onWeight toLower s = false) as ->
      by (unfold onWeight; rewrite Ea, Ew; reflexivity).
    assert (onMask toLower s = true) as ->
      by (unfold onMask; rewrite Ea, Ew, Em; reflexivity).
    rewrite !app_nil_r. cbn [fst snd].
    split; [exact Hlw|].
    split; [rewrite addVectors_length; rewrite ?waveform_length; assumption|].
    split; [exact Hw|]. split.
    - intros i.
      rewrite nth_addVectors_eq by (rewrite waveform_length; exact Hlm).
      rewrite superposition_snoc, Hm. ring.
    - intros name. rewrite filter_snoc.
      assert (onChannel toLower name s = false) as ->
        by (unfold onChannel; rewrite Ea, Ew, Em; reflexivity).
      rewrite app_nil_r. apply Hst. }
  assert (onWeight toLower s = false) as ->
    by (unfold onWeight; rewrite Ea, Ew; reflexivity).
  assert (onMask toLower s = false) as ->
    by (unfold onMask; rewrite Ea, Ew, Em; reflexivity).
  rewrite !app_nil_r.
  assert (forall name,
            onChannel toLower name s = String.eqb (st_name s) name) as Hc
    by (intros name; unfold onChannel; rewrite Ea, Ew, Em; reflexivity).
  set (v' := match lookup st (st_name s) with
             | Some v => addVectors v (wave s)
             | None => wave s
             end).
  assert (List.length v' = List.length time /\
          forall i, nth i v' 0
                    == sup (filter (onChannel toLower (st_name s)) seen) i
                       + nth i (wave s) 0) as [Hlv' Hv'].
  { subst v'. specialize (Hst (st_name s)).
    destruct (lookup st (st_name s)) as [v|].
    - destruct Hst as (_ & Hlv & Hv). split.
      + rewrite addVectors_length; rewrite ?waveform_length; assumption.
      + intros i. rewrite nth_addVectors_eq
          by (rewrite waveform_length; exact Hlv).
        rewrite Hv. reflexivity.
    - split; [apply waveform_length|]. intros i. rewrite Hst.
      unfold superposition. simpl. ring. }
  assert (forall name,
            match lookup (assign st (st_name s) v') name with
            | Some v =>
                filter (onChannel toLower name) (seen ++ [s]) <> [] /\
                List.length v = List.length time /\
                forall i, nth i v 0
                          == sup (filter (onChannel toLower name)
                                         (seen ++ [s])) i
            | None => filter (onChannel toLower name) (seen ++ [s]) = []
            end) as Hchan.
  { intros name. rewrite filter_snoc, Hc.
    destruct (String.eqb_spec (st_name s) name) as [<-|Hne].
    - rewrite lookup_assign_same.
      split; [intros H; apply app_eq_nil in H; destruct H; discriminate|].
      split; [exact Hlv'|]. intros i.
      rewrite superposition_snoc. apply Hv'.
    - rewrite lookup_assign_other by exact Hne. rewrite app_nil_r.
      apply Hst. }
  subst v'.
  destruct (lookup st (st_name s)) as [v|]; cbn [fst snd];
    exact (conj Hlw (conj Hlm (conj Hw (conj Hm Hchan)))).
Qed.

Lemma assembled_loop (l : list Stimulus) :
  forall seen acc,
    built seen acc -> built (seen ++ l) (fold_left step l acc).
Proof.
  induction l as [|s l IH]; intros seen acc H; cbn [fold_left].
  - rewrite app_nil_r. exact H.
  - replace (seen ++ s :: l) with ((seen ++ [s]) ++ l)
      by (rewrite <- app_assoc; reflexivity).
    apply IH. apply assembled_step. exact H.
Qed.

Lemma assembled_initStimuli (stimuli : list Stimulus) :
  built stimuli
    (fold_left step stimuli
       (repeat weight (List.length time), repeat 0 (List.length time), [])).
Proof.
  apply (assembled_loop stimuli []).
  unfold assembled. cbn [fst snd filter lookup].
  split; [apply repeat_length|]. split; [apply repeat_length|].
  split; [|split; [|reflexivity]].
  - intros i Hi. rewrite (nth_indep _ 0 weight) by (rewrite repeat_length; exact Hi).
    rewrite nth_repeat. unfold superposition. simpl. ring.
  - intros i. rewrite nth_repeat_zero. reflexivity.
Qed.
End InitStimuliFacts.

(** X23.  Stimuli of one name superpose, and [weight] and [mask] are
    reserved.  The map of stimuli [init] stores for a condition has an
    entry for a name exactly when an active stimulus bears that name and
    the name, in lower case, is neither [weight] nor [mask]; the entry has
    one value per sample, the sum of the waveforms of all the active
    stimuli of that name. *)
Theorem initStimuli_superposition (toLower : string -> string)
    (parserEval : string -> list Q -> option (list Q)) (time : list Q)
    (row col : nat) (weight : Q) (stimuli : list Stimulus) (name : string) :
  let simStimuli :=
    snd (initStimuli toLower parserEval time row col weight stimuli) in
  let named := filter (onChannel toLower name) stimuli in
  match lookup simStimuli name with
  | Some v =>
      named <> [] /\
      List.length v = List.length time /\
      forall i, nth i v 0 == superposition parserEval time row col named i
  | None => named = []
  end
  /\ (String.eqb (toLower name) "weight" || String.eqb (toLower name) "mask"
      = true -> lookup simStimuli name = None).
Proof.
  intros simStimuli named.
  pose proof (assembled_initStimuli toLower parserEval time row col weight
                stimuli) as (_ & _ & _ & _ & Hst).
  assert (simStimuli
          = snd (fold_left (addStimulus toLower parserEval time row col)
                   stimuli
                   (repeat weight (List.length time),
                    repeat 0 (List.length time), []))) as Heq.
  { subst simStimuli. unfold initStimuli.
    destruct (fold_left _ _ _) as [[w m] st]. reflexivity. }
  rewrite <- Heq in Hst. specialize (Hst name). fold named in Hst.
  split; [exact Hst|].
  intros Hres. destruct (lookup simStimuli name) as [v|]; [|reflexivity].
  exfalso. destruct Hst as (Hne & _). apply Hne. subst named.
  clear -Hres. induction stimuli as [|s l IH]; [reflexivity|].
  cbn [filter]. unfold onChannel at 1.
  destruct (String.eqb_spec (st_name s) name) as [->|_].
  - apply orb_true_iff in Hres.
    destruct Hres as [-> | ->]; cbn [negb andb];
      rewrite ?andb_false_r; exact IH.
  - rewrite andb_false_r. exact IH.
Qed.

(** X24.  The sample weights and the mask of a condition.  At every sample
    the weight [init] stores is the weight of the condition plus the
    waveforms of the active stimuli named [weight] (in any case), and the
    sample is unmasked exactly when the waveforms of the active stimuli
    named [mask] add up to zero there. *)
Theorem initStimuli_weight_mask (toLower : string -> string)
    (parserEval : string -> list Q -> option (list Q)) (time : list Q)
    (row col : nat) (weight : Q) (stimuli : list Stimulus) (i : nat) :
  (i < List.length time)%nat ->
  let simWeight :=
    fst (fst (initStimuli toLower parserEval time row col weight stimuli)) in
  let simMask :=
    snd (fst (initStimuli toLower parserEval time row col weight stimuli)) in
  List.length simWeight = List.length time /\
  List.length simMask = List.length time /\
  nth i simWeight 0
  == weight + superposition parserEval time row col
                (filter (onWeight toLower) stimuli) i /\
  (nth i simMask false = true <->
   superposition parserEval time row col (filter (onMask toLower) stimuli) i
   == 0).
Proof.
  intros Hi simWeight simMask.
  pose proof (assembled_initStimuli toLower parserEval time row col weight
                stimuli) as (Hlw & Hlm & Hw & Hm & _).
  subst simWeight simMask. unfold initStimuli.
  destruct (fold_left _ _ _) as [[w m] st]. cbn [fst snd] in *.
  split; [exact Hlw|]. split; [rewrite length_map; exact Hlm|].
  split; [apply Hw; exact Hi|].
  rewrite (nth_indep _ false ((fun m => Qeq_bool m 0) 0))
    by (rewrite length_map, Hlm; exact Hi).
  rewrite (map_nth (fun m => Qeq_bool m 0)).
  rewrite Qeq_bool_iff, Hm. reflexivity.
Qed.

Lemma initStimuli_weight_mask_witness :
  let simWeight :=
    fst (fst (initStimuli lowerOfExamples (fun _ _ => None) [0; 1; 2; 3] 0 0 1
                [square_stimulus; weight_stimulus; inactive_stimulus])) in
  let simMask :=
    snd (fst (initStimuli lowerOfExamples (fun _ _ => None) [0; 1; 2; 3] 0 0 1
                [square_stimulus; weight_stimulus; inactive_stimulus])) in
  List.length simWeight = 4%nat /\
  List.length simMask = 4%nat /\
  nth 2 simWeight 0
  == 1 + superposition (fun _ _ => None) [0; 1; 2; 3] 0 0
           (filter (onWeight lowerOfExamples)
              [square_stimulus; weight_stimulus; inactive_stimulus]) 2 /\
  (nth 2 simMask false = true <->
   superposition (fun _ _ => None) [0; 1; 2; 3] 0 0
     (filter (onMask lowerOfExamples)
        [square_stimulus; weight_stimulus; inactive_stimulus]) 2
   == 0).
Proof.
  apply (initStimuli_weight_mask lowerOfExamples (fun _ _ => None)
           [0; 1; 2; 3] 0 0 1
           [square_stimulus; weight_stimulus; inactive_stimulus] 2).
  simpl. lia.
Defined.

(** A condition with two pulses on [V], a pulse on the weights and an
    inactive stimulus. *)
Example initStimuli_example :
  initStimuli lowerOfExamples (fun _ _ => None) [0; 1; 2; 3] 0 0 1
    [square_stimulus; weight_stimulus; inactive_stimulus; square_stimulus]
  = ([1; 4; 4; 1], [true; true; true; true],
     [("V"%string, [0; 10; 10; 0])]).
Proof. vm_compute. reflexivity. Qed.

(** ** A spectral simulation leaves no probability error *)

Lemma In_replaceNth {A : Type} (l : list A) :
  forall n v x, In x (replaceNth n v l) -> x = v \/ In x l.
Proof.
  induction l as [|a l IH]; intros [|n] v x H; simpl in *; try contradiction.
  - destruct H as [H|H]; [left; symmetry; exact H|right; right; exact H].
  - destruct H as [H|H]; [right; left; exact H|].
    destruct (IH n v x H) as [H'|H']; [left; exact H'|right; right; exact H'].
Qed.

Lemma replaceNth_last {A : Type} (l : list A) (z v : A) :
  replaceNth (List.length l) v (l ++ [z]) = l ++ [v].
Proof.
  induction l as [|a l IH]; simpl; [reflexivity|]. rewrite IH. reflexivity.
Qed.

(** The matrices stored after a simulation of a variable set that is not
    beyond the first free place: the new one and those stored before. *)
Lemma In_replaceNth_padTo (probability : list Matrix) (v : nat)
    (z P x : Matrix) :
  (v <= List.length probability)%nat ->
  In x (replaceNth v P (padTo probability v z)) -> x = P \/ In x probability.
Proof.
  intros Hv H.
  destruct (Nat.eq_dec v (List.length probability)) as [->|Hne].
  - unfold padTo in H.
    replace (List.length probability + 1 - List.length probability)%nat
      with 1%nat in H by lia.
    cbn [repeat] in H. rewrite replaceNth_last in H.
    apply in_app_or in H.
    destruct H as [H|[H|[]]]; [right; exact H|left; symmetry; exact H].
  - rewrite padTo_long in H by lia. apply In_replaceNth in H. exact H.
Qed.

(** The rows of the matrix the spectral simulation stores. *)
Lemma spectralSimulation_rows (exp : Q -> Q) (pool : list UniqueEpoch)
    (sim : Simulation) (startingProbability : list Q)
    (startEquilibrated : bool) (t0 t1 : Q) :
  (forall x y, x == y -> exp x == exp y) -> exp 0 == 1 ->
  chained 0 t0 (s_epochs sim) (Z.of_nat (List.length (s_time sim))) t1 ->
  Forall (fun e => (0 <= e_numPts e)%Z) (s_epochs sim) ->
  Forall (fun e => conservative (List.length startingProbability)
                                (uniqueOf pool e)) (s_epochs sim) ->
  let P := fst (fst (fold_left
                       (spectralEpoch exp pool (s_time sim)
                          (List.length startingProbability)
                          (List.length (s_epochs sim)) startEquilibrated)
                       (s_epochs sim)
                       (zeroMatrix (List.length (s_time sim))
                                   (List.length startingProbability),
                        startingProbability, 0%nat))) in
  List.length P = List.length (s_time sim) /\
  forall t, (t < List.length (s_time sim))%nat ->
            rowTotal P t == sumQ startingProbability.
Proof.
  intros Hcompat Hzero Hch Hnum Hcons P. subst P.
  set (N := List.length (s_time sim)).
  set (S := List.length startingProbability).
  assert (conserved (s_time sim) S (sumQ startingProbability) 0
            (zeroMatrix N S, startingProbability, 0%nat)) as H0.
  { unfold conserved. cbn [fst snd].
    split; [apply zeroMatrix_shape|]. split; [reflexivity|].
    split; [reflexivity|]. split; [intros r Hr; lia|].
    intros r _ _. apply zeroMatrix_rowTotal. }
  destruct (spectralLoop_conserved exp Hcompat Hzero pool (s_time sim) S
              (List.length (s_epochs sim)) startEquilibrated
              (sumQ startingProbability) (s_epochs sim) 0%nat t0 t1 _
              Hcons Hnum Hch H0) as (Hshape & _ & _ & Hrows & _).
  split; [exact (proj1 Hshape)|]. intros t Ht. apply Hrows; exact Ht.
Qed.

(** X25.  A spectral simulation leaves no probability error.  When the
    simulation starts from a probability distribution, under the conditions
    under which it conserves probability, and the matrices stored for the
    other variable sets have rows of sum one, [maxProbabilityError] of the
    simulation is zero afterwards: in exact arithmetic the error it
    measures is that of the floating-point evaluation alone. *)
Theorem spectralSimulation_no_probability_error (exp : Q -> Q)
    (pool : list UniqueEpoch) (sim : Simulation)
    (startingProbability : list Q) (startEquilibrated : bool)
    (variableSetIndex : nat) (t0 t1 : Q) :
  (forall x y, x == y -> exp x == exp y) -> exp 0 == 1 ->
  chained 0 t0 (s_epochs sim) (Z.of_nat (List.length (s_time sim))) t1 ->
  Forall (fun e => (0 <= e_numPts e)%Z) (s_epochs sim) ->
  Forall (fun e => conservative (List.length startingProbability)
                                (uniqueOf pool e)) (s_epochs sim) ->
  sumQ startingProbability == 1 ->
  (variableSetIndex <= List.length (s_probability sim))%nat ->
  (forall P r, In P (s_probability sim) -> (r < List.length P)%nat ->
               rowTotal P r == 1) ->
  maxProbabilityError
    (spectralSimulation exp pool sim startingProbability startEquilibrated
                        variableSetIndex false)
  == 0.
Proof.
  intros Hcompat Hzero Hch Hnum Hcons Hone Hv Hold.
  destruct (spectralSimulation_rows exp pool sim startingProbability
              startEquilibrated t0 t1 Hcompat Hzero Hch Hnum Hcons)
    as [Hlen Hrows].
  unfold maxProbabilityError.
  destruct (maxProbabilityError_loop
              (s_probability
                 (spectralSimulation exp pool sim startingProbability
                    startEquilibrated variableSetIndex false))
              0 (Qle_refl 0)) as (_ & _ & [Hz|(P & r & HP & Hr & Hz)]).
  - cbv zeta in Hz. rewrite Hz. reflexivity.
  - cbv zeta in Hz. rewrite Hz.
    assert (rowTotal P r == 1) as H1.
    { unfold spectralSimulation in HP. cbn [s_probability set_probability] in HP.
      apply In_replaceNth_padTo in HP; [|exact Hv].
      destruct HP as [->|HP]; [|apply Hold; assumption].
      rewrite Hrows by (rewrite <- Hlen; exact Hr). exact Hone. }
    rewrite H1. reflexivity.
Qed.

Lemma spectralSimulation_no_probability_error_witness :
  maxProbabilityError
    (spectralSimulation (fun _ => 1) [two_state_spectral] sim_one_epoch
                        [1; 0] false 0 false)
  == 0.
Proof.
  apply (spectralSimulation_no_probability_error (fun _ => 1)
           [two_state_spectral] sim_one_epoch [1; 0] false 0 0 (0 + 3)).
  - intros x y _. reflexivity.
  - reflexivity.
  - cbn. repeat split; reflexivity.
  - repeat constructor. discriminate.
  - exact two_state_spectral_conservative.
  - reflexivity.
  - simpl. lia.
  - intros P r [].
Defined.

(** ** Windows on the sample times init builds *)

(** The grid of a condition is not empty, strictly increasing, and its
    steps are the sample interval. *)
Lemma sampleTimes_regular (start duration sampleInterval : Q) :
  0 < sampleInterval -> 0 <= duration ->
  let time := sampleTimes start duration sampleInterval in
  time <> [] /\
  (forall i, (i < List.length time)%nat ->
             nth i time 0 == start + inject_Z (Z.of_nat i) * sampleInterval) /\
  increasing time /\ spacedBy sampleInterval time.
Proof.
  intros Hdt Hd time.
  set (numSteps := Qfloor (duration / sampleInterval)).
  destruct (numSteps_bounds duration sampleInterval Hdt Hd) as (Hn & _ & _).
  fold numSteps in Hn.
  assert (List.length time = S (Z.to_nat numSteps)) as Hlen.
  { unfold time, sampleTimes, linSpaced. fold numSteps.
    rewrite length_map, length_seq. lia. }
  assert (forall i, (i < List.length time)%nat ->
            nth i time 0 == start + inject_Z (Z.of_nat i) * sampleInterval)
    as Hnth.
  { intros i Hi. unfold time, sampleTimes. fold numSteps.
    replace numSteps with (1 + numSteps - 1)%Z at 2 by lia.
    apply linSpaced_nth; lia. }
  split; [intros H0; rewrite H0 in Hlen; discriminate|].
  split; [exact Hnth|]. split.
  - intros i j Hij Hj. rewrite (Hnth i) by lia. rewrite (Hnth j) by lia.
    assert (inject_Z (Z.of_nat i) < inject_Z (Z.of_nat j)) as Hlt
      by (rewrite <- Zlt_Qlt; lia).
    apply Qplus_lt_r. apply Qmult_lt_compat_r; assumption.
  - intros i Hi. rewrite (Hnth i) by lia. rewrite (Hnth (S i)) by lia.
    rewrite Nat2Z.inj_succ. unfold Z.succ. rewrite inject_Z_plus.
    change (inject_Z 1) with 1. ring_simplify. apply Qle_refl.
Qed.

Lemma spacedBy_weaken (d d' : Q) (l : list Q) :
  d' <= d -> spacedBy d l -> spacedBy d' l.
Proof.
  intros Hd H i Hi. specialize (H i Hi). lra.
Qed.

(** X26.  The window of a range on the sample times of a condition.  On
    the sample times [init] builds from a start, a duration and a sample
    interval of at least twice the tolerance, [findIndexesInRange] selects
    exactly the samples [i] whose time [start + i * interval] lies in
    [[rangeStart - epsilon, rangeStop - epsilon)], as [init] asks for the
    X and Y ranges of a summary. *)
Theorem findIndexesInRange_on_sampleTimes
    (start duration sampleInterval rangeStart rangeStop epsilon : Q)
    (i : nat) :
  0 <= duration -> 0 <= epsilon ->
  2 * defaultEpsilon epsilon <= sampleInterval ->
  (i < List.length (sampleTimes start duration sampleInterval))%nat ->
  let time := sampleTimes start duration sampleInterval in
  let eps := defaultEpsilon epsilon in
  let firstPt := fst (findIndexesInRange time rangeStart rangeStop epsilon) in
  let numPts := snd (findIndexesInRange time rangeStart rangeStop epsilon) in
  (firstPt <= Z.of_nat i < firstPt + numPts)%Z <->
  rangeStart - eps <= start + inject_Z (Z.of_nat i) * sampleInterval /\
  start + inject_Z (Z.of_nat i) * sampleInterval < rangeStop - eps.
Proof.
  intros Hd Hnn Hdt Hi time eps firstPt numPts. fold time in Hi.
  pose proof (defaultEpsilon_nonneg epsilon Hnn) as Heps. fold eps in Heps.
  assert (0 < eps) as Hpos.
  { subst eps. unfold defaultEpsilon. destruct (Qeq_bool epsilon 0) eqn:E.
    - apply Qlt_bool_iff. vm_compute. reflexivity.
    - apply Qeq_bool_neq in E. lra. }
  fold eps in Hdt.
  destruct (sampleTimes_regular start duration sampleInterval
              ltac:(lra) Hd) as (Hne & Hnth & Hinc & Hsp).
  fold time in Hne, Hnth, Hinc, Hsp.
  apply (spacedBy_weaken _ (2 * eps)) in Hsp; [|exact Hdt].
  pose proof (indexAtOrAfter_spec time rangeStart eps Hne Hinc Heps Hsp i Hi)
    as Hs.
  pose proof (indexAtOrAfter_spec time rangeStop eps Hne Hinc Heps Hsp i Hi)
    as He.
  rewrite <- (Hnth i Hi).
  subst firstPt numPts. unfold findIndexesInRange. fold eps.
  destruct (indexAtOrAfter time rangeStart eps <? Z.of_nat (List.length time))%Z
    eqn:E; cbn [fst snd].
  - split.
    + intros [H1 H2]. split.
      * apply Qnot_lt_le. intros Hlt. apply Hs in Hlt. lia.
      * apply He. lia.
    + intros [H1 H2]. apply He in H2. split; [|lia].
      destruct (Z_lt_le_dec (Z.of_nat i) (indexAtOrAfter time rangeStart eps))
        as [Hlt|Hge]; [|exact Hge].
      apply Hs in Hlt. lra.
  - apply Z.ltb_ge in E. split.
    + intros [H1 H2]. lia.
    + intros [H1 H2]. exfalso.
      assert (Z.of_nat i < indexAtOrAfter time rangeStart eps)%Z as Hlt by lia.
      apply Hs in Hlt. lra.
Qed.

Lemma findIndexesInRange_on_sampleTimes_witness :
  let time := sampleTimes 0 3 1 in
  let eps := defaultEpsilon 0 in
  let firstPt := fst (findIndexesInRange time 1 3 0) in
  let numPts := snd (findIndexesInRange time 1 3 0) in
  (firstPt <= Z.of_nat 2 < firstPt + numPts)%Z <->
  1 - eps <= 0 + inject_Z (Z.of_nat 2) * 1 /\
  0 + inject_Z (Z.of_nat 2) * 1 < 3 - eps.
Proof.
  apply (findIndexesInRange_on_sampleTimes 0 3 1 1 3 0 2).
  - lra.
  - lra.
  - apply Qle_bool_iff. vm_compute. reflexivity.
  - vm_compute. lia.
Defined.
